(** * A C-like front end: lexer and recursive-descent parser

    Shallow embedding of [tokenize] and [parse] (pages/Index.tsx): the
    regular expressions of [tokenRegex] as values of a small regex syntax
    run by a backtracking matcher, the line scanner with its index [i] and
    its growing [tokens] array, and the parser with its module-level
    cursor [current] threaded through a state monad. *)

From Stdlib Require Import String Ascii NArith Bool Arith Lia List.
Import ListNotations.

(** ** JavaScript strings

    A string is a sequence of UTF-16 code units; a code unit is a number. *)

Definition char := N.
Definition str := list char.

Definition ch (a : ascii) : char := N_of_ascii a.
Definition lit (s : string) : str := map N_of_ascii (list_ascii_of_string s).
Arguments ch a%_char.
Arguments lit s%_string.

Fixpoint str_eqb (a b : str) : bool :=
  match a, b with
  | [], [] => true
  | x :: a', y :: b' => N.eqb x y && str_eqb a' b'
  | _, _ => false
  end.

Definition inRange (lo hi c : char) : bool := (N.leb lo c && N.leb c hi)%bool.

(** [\s]: WhiteSpace and LineTerminator code units. *)
Definition isSpace (c : char) : bool :=
  (inRange 9%N 13%N c || N.eqb c 32%N || N.eqb c 160%N || N.eqb c 5760%N
   || inRange 8192%N 8202%N c || N.eqb c 8232%N || N.eqb c 8233%N
   || N.eqb c 8239%N || N.eqb c 8287%N || N.eqb c 12288%N
   || N.eqb c 65279%N)%bool.

(** [.] matches everything but the four line terminators. *)
Definition isLineTerminator (c : char) : bool :=
  (N.eqb c 10%N || N.eqb c 13%N || N.eqb c 8232%N || N.eqb c 8233%N)%bool.
Definition dot (c : char) : bool := negb (isLineTerminator c).

Definition isDigit (c : char) : bool := inRange (ch "0") (ch "9") c.
Definition isLower (c : char) : bool := inRange (ch "a") (ch "z") c.
Definition isUpper (c : char) : bool := inRange (ch "A") (ch "Z") c.
(** [\w] and the class [[a-zA-Z0-9_]]. *)
Definition isWord (c : char) : bool :=
  (isLower c || isUpper c || isDigit c || N.eqb c (ch "_"))%bool.
Definition isHex (c : char) : bool :=
  (isDigit c || inRange (ch "A") (ch "F") c || inRange (ch "a") (ch "f") c)%bool.

Definition oneOf (s : string) (c : char) : bool := existsb (N.eqb c) (lit s).
Definition noneOf (s : string) (c : char) : bool := negb (oneOf s c).
Arguments oneOf s%_string c.
Arguments noneOf s%_string c.

(** The double quote (34) and the backslash (92). *)
Definition quote : char := 34%N.
Definition backslash : char := 92%N.
Definition isQuote (c : char) : bool := N.eqb c quote.
Definition notQuote (c : char) : bool := negb (isQuote c).

(** [s.split(sep)] for a one-character separator. *)
Fixpoint split (sep : char) (s : str) : list str :=
  match s with
  | [] => [[]]
  | c :: s' =>
      if N.eqb c sep then [] :: split sep s'
      else match split sep s' with
           | l :: ls => (c :: l) :: ls
           | [] => [[c]]
           end
  end.

Fixpoint trimStart (s : str) : str :=
  match s with
  | c :: s' => if isSpace c then trimStart s' else s
  | [] => []
  end.
Definition trimEnd (s : str) : str := rev (trimStart (rev s)).
Definition trim (s : str) : str := trimEnd (trimStart s).

(** ** Regular expressions

    The fragment of the ECMAScript pattern language the program uses, with
    the backtracking semantics of the language: ordered alternation, greedy
    and lazy stars, [^] and [\b]. *)

Inductive regex : Type :=
| Eps
| Cls (p : char -> bool)
| Cat (r1 r2 : regex)
| Alt (r1 r2 : regex)
| Star (greedy : bool) (r : regex)
| Bol
| WordB.

Definition Plus (r : regex) : regex := Cat r (Star true r).
Definition Opt (r : regex) : regex := Alt r Eps.
Definition Chr (a : ascii) : regex := Cls (N.eqb (ch a)).
Arguments Chr a%_char.
Fixpoint Str (s : str) : regex :=
  match s with
  | [] => Eps
  | c :: s' => Cat (Cls (N.eqb c)) (Str s')
  end.
Fixpoint Alts (rs : list regex) (last : regex) : regex :=
  match rs with
  | [] => last
  | r :: rs' => Alt r (Alts rs' last)
  end.
Fixpoint Cats (rs : list regex) : regex :=
  match rs with
  | [] => Eps
  | [r] => r
  | r :: rs' => Cat r (Cats rs')
  end.

Definition isWordOpt (o : option char) : bool :=
  match o with Some c => isWord c | None => false end.

(** A continuation receives the character before the position reached and
    the rest of the input, and answers with the rest of the input after the
    whole match (or fails, which makes the matcher backtrack). *)
Definition cont := option char -> str -> option str.

(** One star: up to [n] more rounds of [m0], each of which must consume
    input (the empty-round check of RepeatMatcher). *)
Fixpoint starLoop (m0 : cont -> cont) (greedy : bool) (k : cont) (n : nat)
    (prev : option char) (s : str) : option str :=
  match n with
  | 0 => k prev s
  | S n' =>
      let again (_ : unit) :=
        m0 (fun p' s' =>
              if length s' <? length s then starLoop m0 greedy k n' p' s'
              else None) prev s in
      if greedy then
        match again tt with Some x => Some x | None => k prev s end
      else
        match k prev s with Some x => Some x | None => again tt end
  end.

Fixpoint rmatch (r : regex) (k : cont) (prev : option char) (s : str)
    {struct r} : option str :=
  match r with
  | Eps => k prev s
  | Cls p =>
      match s with
      | c :: s' => if p c then k (Some c) s' else None
      | [] => None
      end
  | Cat r1 r2 => rmatch r1 (rmatch r2 k) prev s
  | Alt r1 r2 =>
      match rmatch r1 k prev s with
      | Some x => Some x
      | None => rmatch r2 k prev s
      end
  | Star g r0 => starLoop (rmatch r0) g k (S (length s)) prev s
  | Bol => match prev with None => k prev s | Some _ => None end
  | WordB =>
      if xorb (isWordOpt prev) (isWordOpt (hd_error s)) then k prev s
      else None
  end.

Definition accept : cont := fun _ s' => Some s'.

(** The text matched when the pattern matches at this very position. *)
Definition matchHere (r : regex) (prev : option char) (s : str) : option str :=
  match rmatch r accept prev s with
  | Some rest => Some (firstn (length s - length rest) s)
  | None => None
  end.

(** [regex.exec(s)] without the [g] flag: the leftmost position at which
    the pattern matches, and the text matched there. *)
Fixpoint execFrom (r : regex) (prev : option char) (s : str) (idx : nat)
    : option (nat * str) :=
  match matchHere r prev s with
  | Some m => Some (idx, m)
  | None =>
      match s with
      | [] => None
      | c :: s' => execFrom r (Some c) s' (S idx)
      end
  end.

Definition exec (r : regex) (s : str) : option (nat * str) := execFrom r None s 0.
Definition test (r : regex) (s : str) : bool :=
  match exec r s with Some _ => true | None => false end.

(** [s.replace(r, f)] with the [g] flag: every match, left to right and
    without overlap, is handed to the callback and replaced by what it
    returns. The matches are returned in the order of the calls. *)
Fixpoint replaceFrom (fuel : nat) (r : regex) (f : str -> str)
    (prev : option char) (s : str) : option (list str * str) :=
  match fuel with
  | 0 => None
  | S n =>
      match matchHere r prev s with
      | Some (c :: m') =>
          let m := c :: m' in
          match replaceFrom n r f (Some (last m c)) (skipn (length m) s) with
          | Some (ms, out) => Some (m :: ms, f m ++ out)
          | None => None
          end
      | Some [] =>
          match s with
          | [] => Some ([[]], f [])
          | c :: s' =>
              match replaceFrom n r f (Some c) s' with
              | Some (ms, out) => Some ([] :: ms, f [] ++ c :: out)
              | None => None
              end
          end
      | None =>
          match s with
          | [] => Some ([], [])
          | c :: s' =>
              match replaceFrom n r f (Some c) s' with
              | Some (ms, out) => Some (ms, c :: out)
              | None => None
              end
          end
      end
  end.

Definition replaceAll (r : regex) (f : str -> str) (s : str)
    : option (list str * str) :=
  replaceFrom (S (length s)) r f None s.

(** ** Tokens *)

Inductive TokenType : Set :=
| PREPROCESSOR | KEYWORD | IDENTIFIER | NUMBER | STRING_LITERAL | OPERATOR
| SEPARATOR | OPEN_PAREN | CLOSE_PAREN | OPEN_BRACE | CLOSE_BRACE | COMMENT
| UNDEFINED.

Definition TokenType_eqb (a b : TokenType) : bool :=
  match a, b with
  | PREPROCESSOR, PREPROCESSOR | KEYWORD, KEYWORD | IDENTIFIER, IDENTIFIER
  | NUMBER, NUMBER | STRING_LITERAL, STRING_LITERAL | OPERATOR, OPERATOR
  | SEPARATOR, SEPARATOR | OPEN_PAREN, OPEN_PAREN | CLOSE_PAREN, CLOSE_PAREN
  | OPEN_BRACE, OPEN_BRACE | CLOSE_BRACE, CLOSE_BRACE | COMMENT, COMMENT
  | UNDEFINED, UNDEFINED => true
  | _, _ => false
  end.

Record token : Set := Token { type : TokenType; value : str }.

Definition re_PREPROCESSOR : regex :=
  Cats [Bol; Chr "#"; Star true (Cls isSpace); Plus (Cls isWord);
        Star true (Cls isSpace);
        Alt (Cats [Chr "<"; Plus (Cls (noneOf ">")); Chr ">"])
            (Cats [Cls isQuote; Plus (Cls notQuote); Cls isQuote])].

Definition keywords : list str :=
  map lit ["int"; "char"; "float"; "double"; "if"; "else"; "for"; "while";
           "return"; "void"; "include"; "define"]%string.

Definition re_KEYWORD : regex :=
  Cats [WordB;
        Alts (map Str (removelast keywords)) (Str (last keywords []));
        WordB].

Definition re_IDENTIFIER : regex :=
  Cats [WordB; Cls (fun c => isLower c || isUpper c || N.eqb c (ch "_"))%bool;
        Star true (Cls isWord); WordB].

Definition re_NUMBER : regex :=
  Cats [WordB;
        Alt (Cats [Chr "0"; Chr "x"; Plus (Cls isHex)])
            (Cats [Plus (Cls isDigit);
                   Opt (Cat (Chr ".") (Plus (Cls isDigit)));
                   Opt (Cats [Cls (oneOf "eE"); Opt (Cls (oneOf "-+"));
                              Plus (Cls isDigit)])]);
        WordB].

Definition re_STRING_LITERAL : regex :=
  Cats [Bol; Cls isQuote;
        Star true (Alt (Cls (fun c => notQuote c && negb (N.eqb c backslash))%bool)
                       (Cat (Cls (N.eqb backslash)) (Cls dot)));
        Cls isQuote].

Definition operatorChars : string := "-+*/%=<>&^|!~"%string.

Definition re_OPERATOR : regex :=
  Cat Bol
      (Alts (map (fun s => Str (lit s))
                 ["=="; "!="; "<="; ">="; "++"; "--"; "->"; "&&"; "||"]%string)
            (Cls (oneOf operatorChars))).

Definition re_SEPARATOR : regex := Cat Bol (Cls (oneOf ";,.:")).
Definition re_OPEN_PAREN : regex := Cat Bol (Chr "(").
Definition re_CLOSE_PAREN : regex := Cat Bol (Chr ")").
Definition re_OPEN_BRACE : regex := Cat Bol (Chr "{").
Definition re_CLOSE_BRACE : regex := Cat Bol (Chr "}").

Definition blockComment : regex :=
  Cats [Chr "/"; Chr "*";
        Star false (Cls (fun c => isSpace c || negb (isSpace c))%bool);
        Chr "*"; Chr "/"].

Definition re_COMMENT : regex :=
  Alt (Cats [Bol; Chr "/"; Chr "/"; Star true (Cls dot)])
      (Cat Bol blockComment).

(** [Object.entries(tokenRegex)]: the patterns in insertion order. *)
Definition tokenRegex : list (TokenType * regex) :=
  [ (PREPROCESSOR, re_PREPROCESSOR); (KEYWORD, re_KEYWORD);
    (IDENTIFIER, re_IDENTIFIER); (NUMBER, re_NUMBER);
    (STRING_LITERAL, re_STRING_LITERAL); (OPERATOR, re_OPERATOR);
    (SEPARATOR, re_SEPARATOR); (OPEN_PAREN, re_OPEN_PAREN);
    (CLOSE_PAREN, re_CLOSE_PAREN); (OPEN_BRACE, re_OPEN_BRACE);
    (CLOSE_BRACE, re_CLOSE_BRACE); (COMMENT, re_COMMENT) ].

Fixpoint classifyWith (entries : list (TokenType * regex)) (lexeme : str)
    : token :=
  match entries with
  | [] => Token UNDEFINED lexeme
  | (ty, re) :: rest =>
      if test re lexeme then Token ty lexeme else classifyWith rest lexeme
  end.

Definition classifyLexeme (lexeme : str) : token :=
  classifyWith tokenRegex lexeme.

(** ** The lexer *)

Definition re_space : regex := Cls isSpace.
Definition re_wordChar : regex := Cls isWord.
Definition re_hashLine : regex := Cats [Bol; Star true (Cls isSpace); Chr "#"].

Definition space : char := ch " ".
Definition newline : char := 10%N.

(** [line.slice(i)] and [line.slice(i, j)]. *)
Definition sliceFrom (s : str) (i : nat) : str := skipn i s.
Definition slice (s : str) (i j : nat) : str := firstn (j - i) (skipn i s).

Definition push (tokens : list token) (t : token) : list token := tokens ++ [t].

(** The inner loop [while (i < line.length && /[a-zA-Z0-9_]/.test(line[i]))
    lexeme += line[i++]], run on the text from [i] on. *)
Fixpoint wordRun (s : str) : str :=
  match s with
  | c :: s' => if test re_wordChar [c] then c :: wordRun s' else []
  | [] => []
  end.

(** The loop [while (i < line.length)] over one line; [None] when the
    fuel runs out before the loop ends. *)
Fixpoint scanLine (fuel : nat) (line : str) (i : nat) (tokens : list token)
    : option (list token) :=
  match fuel with
  | 0 => None
  | S n =>
      match nth_error line i with
      | None => Some tokens
      | Some c =>
          let oneChar := [c] in
          let twoChar := slice line i (i + 2) in
          if test re_space [c] then scanLine n line (i + 1) tokens
          else if (N.eqb c (ch "/") &&
                   match nth_error line (i + 1) with
                   | Some d => N.eqb d (ch "/")
                   | None => false
                   end)%bool
          then Some (push tokens (Token COMMENT (sliceFrom line i)))
          else if N.eqb c quote then
            match exec re_STRING_LITERAL (sliceFrom line i) with
            | Some (_, m) =>
                scanLine n line (i + length m) (push tokens (Token STRING_LITERAL m))
            | None =>
                scanLine n line (i + 1) (push tokens (Token UNDEFINED [quote]))
            end
          else if test re_OPERATOR twoChar then
            scanLine n line (i + 2) (push tokens (Token OPERATOR twoChar))
          else if test re_OPERATOR oneChar then
            scanLine n line (i + 1) (push tokens (Token OPERATOR oneChar))
          else if test re_SEPARATOR oneChar then
            scanLine n line (i + 1) (push tokens (Token SEPARATOR oneChar))
          else if test re_OPEN_PAREN oneChar then
            scanLine n line (i + 1) (push tokens (Token OPEN_PAREN oneChar))
          else if test re_CLOSE_PAREN oneChar then
            scanLine n line (i + 1) (push tokens (Token CLOSE_PAREN oneChar))
          else if test re_OPEN_BRACE oneChar then
            scanLine n line (i + 1) (push tokens (Token OPEN_BRACE oneChar))
          else if test re_CLOSE_BRACE oneChar then
            scanLine n line (i + 1) (push tokens (Token CLOSE_BRACE oneChar))
          else
            let lexeme := wordRun (sliceFrom line i) in
            if 0 <? length lexeme then
              scanLine n line (i + length lexeme) (push tokens (classifyLexeme lexeme))
            else
              scanLine n line (i + 1) (push tokens (Token UNDEFINED oneChar))
      end
  end.

(** The loop [for (let line of lines)]. *)
Fixpoint scanLines (lines : list str) (tokens : list token)
    : option (list token) :=
  match lines with
  | [] => Some tokens
  | line :: rest =>
      if test re_hashLine line then
        scanLines rest (push tokens (Token PREPROCESSOR (trim line)))
      else
        match scanLine (S (length line)) line 0 tokens with
        | Some tokens' => scanLines rest tokens'
        | None => None
        end
  end.

(** The block-comment pass: the matches, in order, and the text with
    every match overwritten by as many spaces. *)
Definition blankComments (inputCode : str) : option (list str * str) :=
  replaceAll blockComment (fun m => repeat space (length m)) inputCode.

Definition tokenize (inputCode : str) : option (list token) :=
  match blankComments inputCode with
  | Some (matches, inputCode') =>
      scanLines (split newline inputCode') (map (Token COMMENT) matches)
  | None => None
  end.

(** ** The syntax tree

    A node is a JavaScript object told apart by its fields; [Null] is the
    value [null] and [ErrorNode] the object [{ error: message }]. *)

#[warnings="-register-all"]
Inductive node : Type :=
| Null
| ErrorNode (error : str)
| Program (body : list node)
| PreprocessorDirective (text : str)
| FunctionDeclaration (returnType name : str) (parameters : list node) (body : node)
| ParameterNode (paramType paramName : str)
| CompoundStatement (body : list node)
| ReturnStatement (expression : node)
| IfStatement (condition thenStmt elseStmt : node)
| ForStatement (initialization condition increment body : node)
| DeclarationStatement (varType : str) (variables : list node)
| VariableDeclarator (name : str) (initializer : node)
| ExpressionStatement (expression : node)
| AssignmentExpression (operator : str) (left right : node)
| BinaryExpression (operator : str) (left right : node)
| PrefixExpression (operator : str) (argument : node)
| PostfixExpression (operator : str) (argument : node)
| Literal (text : str)
| Identifier (name : str)
| FunctionCall (name : str) (arguments : list node)
| Unknown (text : str).

(** [if (n) body.push(n)]: only [null] is falsy among the nodes. *)
Definition truthy (n : node) : bool :=
  match n with Null => false | _ => true end.
Definition pushNode (body : list node) (n : node) : list node :=
  if truthy n then body ++ [n] else body.

(** ** The parser monad

    The state is the module-level cursor [current]. A run returns a value
    and the new cursor, or throws (reading a field of [undefined]), or
    has not returned when the fuel is spent. *)

Inductive outcome (A : Type) : Type :=
| Done (a : A) (current : nat)
| Thrown
| OutOfFuel.
Arguments Done {A} a current.
Arguments Thrown {A}.
Arguments OutOfFuel {A}.

Definition parser (A : Type) : Type := nat -> outcome A.

Definition ret {A} (a : A) : parser A := fun current => Done a current.
Definition bind {A B} (m : parser A) (k : A -> parser B) : parser B :=
  fun current =>
    match m current with
    | Done a current' => k a current'
    | Thrown => Thrown
    | OutOfFuel => OutOfFuel
    end.
Definition outOfFuel {A} : parser A := fun _ => OutOfFuel.

Notation "x <- m ;; k" := (bind m (fun x => k))
  (at level 61, m at next level, right associativity).
Notation "m ;; k" := (bind m (fun _ => k))
  (at level 61, right associativity).

(** [current++] and [current = n]. *)
Definition advance : parser unit := fun current => Done tt (S current).
Definition setCurrent (n : nat) : parser unit := fun _ => Done tt n.

Definition typeIs (ty : TokenType) (t : token) : bool := TokenType_eqb (type t) ty.
Definition valueIs (s : string) (t : token) : bool := str_eqb (value t) (lit s).
Arguments valueIs s%_string t.
Definition valueIn (l : list string) (t : token) : bool :=
  existsb (fun s => valueIs s t) l.

Definition isTypeSpecifier (t : token) : bool :=
  let types := ["int"; "char"; "float"; "double"; "void"]%string in
  (typeIs KEYWORD t && valueIn types t)%bool.

Definition isSemicolon (t : token) : bool :=
  (typeIs SEPARATOR t && valueIs ";" t)%bool.

Section Parser.

Variable tokens : list token.

(** [tokens[current]] where the code reads a field of it unguarded. *)
Definition tokenAt : parser token :=
  fun current =>
    match nth_error tokens current with
    | Some t => Done t current
    | None => Thrown
    end.

(** [tokens[current]], or [None] when [current >= tokens.length]. *)
Definition peek : parser (option token) :=
  fun current => Done (nth_error tokens current) current.

(** [current < tokens.length && p(tokens[current])]. *)
Definition here (p : token -> bool) : parser bool :=
  tok <- peek ;;
  ret (match tok with Some t => p t | None => false end).

(** [current >= tokens.length || p(tokens[current])]. *)
Definition atEndOr (p : token -> bool) : parser bool :=
  tok <- peek ;;
  ret (match tok with Some t => p t | None => true end).

Definition atEnd : parser bool := atEndOr (fun _ => false).

(** [if (current < tokens.length && p(tokens[current])) current++]. *)
Definition skipIf (p : token -> bool) : parser unit :=
  c <- here p ;;
  if c then advance else ret tt.

(** One round of the loop of a binary level: [while (current <
    tokens.length && isOp(tokens[current].value)) { op = ...; current++;
    right = operand(); left = { BinaryExpression ... } } return left]. *)
Definition binaryRound (isOp : token -> bool) (operand : parser node)
    (again : node -> parser node) (left : node) : parser node :=
  tok <- peek ;;
  match tok with
  | Some t =>
      if isOp t then
        let op := value t in
        advance ;;
        right <- operand ;;
        again (BinaryExpression op left right)
      else ret left
  | None => ret left
  end.

(** The loop of [parsePostfix]. *)
Fixpoint parsePostfix_loop (fuel : nat) (operand : node) : parser node :=
  match fuel with
  | 0 => outOfFuel
  | S n =>
      tok <- peek ;;
      match tok with
      | Some t =>
          if valueIn ["++"; "--"]%string t then
            let op := value t in
            advance ;;
            parsePostfix_loop n (PostfixExpression op operand)
          else ret operand
      | None => ret operand
      end
  end.

Fixpoint parseExpression (fuel : nat) : parser node :=
  match fuel with
  | 0 => outOfFuel
  | S n => parseAssignment n
  end

with parseAssignment (fuel : nat) : parser node :=
  match fuel with
  | 0 => outOfFuel
  | S n =>
      left <- parseEquality n ;;
      tok <- peek ;;
      match tok with
      | Some t =>
          if valueIs "=" t then
            let op := value t in
            advance ;;
            right <- parseAssignment n ;;
            ret (AssignmentExpression op left right)
          else ret left
      | None => ret left
      end
  end

with parseEquality (fuel : nat) : parser node :=
  match fuel with
  | 0 => outOfFuel
  | S n => left <- parseRelational n ;; parseEquality_loop n left
  end

with parseEquality_loop (fuel : nat) (left : node) : parser node :=
  match fuel with
  | 0 => outOfFuel
  | S n =>
      binaryRound (valueIn ["=="; "!="]%string) (parseRelational n)
        (parseEquality_loop n) left
  end

with parseRelational (fuel : nat) : parser node :=
  match fuel with
  | 0 => outOfFuel
  | S n => left <- parseAdditive n ;; parseRelational_loop n left
  end

with parseRelational_loop (fuel : nat) (left : node) : parser node :=
  match fuel with
  | 0 => outOfFuel
  | S n =>
      binaryRound (valueIn ["<"; ">"; "<="; ">="]%string) (parseAdditive n)
        (parseRelational_loop n) left
  end

with parseAdditive (fuel : nat) : parser node :=
  match fuel with
  | 0 => outOfFuel
  | S n => left <- parseMultiplicative n ;; parseAdditive_loop n left
  end

with parseAdditive_loop (fuel : nat) (left : node) : parser node :=
  match fuel with
  | 0 => outOfFuel
  | S n =>
      binaryRound (valueIn ["+"; "-"]%string) (parseMultiplicative n)
        (parseAdditive_loop n) left
  end

with parseMultiplicative (fuel : nat) : parser node :=
  match fuel with
  | 0 => outOfFuel
  | S n => left <- parseUnary n ;; parseMultiplicative_loop n left
  end

with parseMultiplicative_loop (fuel : nat) (left : node) : parser node :=
  match fuel with
  | 0 => outOfFuel
  | S n =>
      binaryRound (valueIn ["*"; "/"; "%"]%string) (parseUnary n)
        (parseMultiplicative_loop n) left
  end

with parseUnary (fuel : nat) : parser node :=
  match fuel with
  | 0 => outOfFuel
  | S n =>
      tok <- peek ;;
      match tok with
      | Some t =>
          if valueIn ["++"; "--"]%string t then
            let op := value t in
            advance ;;
            argument <- parseUnary n ;;
            ret (PrefixExpression op argument)
          else parsePostfix n
      | None => parsePostfix n
      end
  end

with parsePostfix (fuel : nat) : parser node :=
  match fuel with
  | 0 => outOfFuel
  | S n => operand <- parsePrimary n ;; parsePostfix_loop n operand
  end

with parsePrimary (fuel : nat) : parser node :=
  match fuel with
  | 0 => outOfFuel
  | S n =>
      tok <- peek ;;
      match tok with
      | None => ret Null
      | Some token =>
          if (isSemicolon token || typeIs CLOSE_PAREN token)%bool then ret Null
          else if (typeIs NUMBER token || typeIs STRING_LITERAL token)%bool then
            advance ;;
            ret (Literal (value token))
          else if (typeIs IDENTIFIER token ||
                   (typeIs KEYWORD token && negb (isTypeSpecifier token)))%bool
          then
            advance ;;
            let name := value token in
            call <- here (typeIs OPEN_PAREN) ;;
            if call then
              advance ;;
              args <- parsePrimary_args n [] ;;
              skipIf (typeIs CLOSE_PAREN) ;;
              ret (FunctionCall name args)
            else ret (Identifier name)
          else if typeIs OPEN_PAREN token then
            advance ;;
            expr <- parseExpression n ;;
            skipIf (typeIs CLOSE_PAREN) ;;
            ret expr
          else
            advance ;;
            ret (Unknown (value token))
      end
  end

with parsePrimary_args (fuel : nat) (args : list node) : parser (list node) :=
  match fuel with
  | 0 => outOfFuel
  | S n =>
      more <- here (fun t => negb (typeIs CLOSE_PAREN t)) ;;
      if more then
        arg <- parseExpression n ;;
        skipIf (valueIs ",") ;;
        parsePrimary_args n (pushNode args arg)
      else ret args
  end.

(** [if (current < tokens.length && tokens[current].type === 'SEPARATOR'
    && tokens[current].value === ';') current++]. *)
Definition skipSemicolon : parser unit := skipIf isSemicolon.

Definition isKeyword (word : string) (t : token) : bool :=
  (typeIs KEYWORD t && valueIs word t)%bool.

(** The loop of [parseDeclaration]; [variables] is returned when the loop
    is left. *)
Fixpoint parseDeclaration_loop (fuel : nat) (expectSemicolon : bool)
    (variables : list node) : parser (list node) :=
  match fuel with
  | 0 => outOfFuel
  | S n =>
      stop <- atEndOr (fun t => negb (typeIs IDENTIFIER t)) ;;
      if stop then ret variables
      else
        t <- tokenAt ;;
        let varName := value t in
        advance ;;
        init <- here (valueIs "=") ;;
        initializer <- (if init then advance ;; parseExpression n
                        else ret Null) ;;
        let variables := variables ++ [VariableDeclarator varName initializer] in
        ended <- atEnd ;;
        if ended then ret variables
        else
          t <- tokenAt ;;
          if valueIs "," t then
            advance ;;
            parseDeclaration_loop n expectSemicolon variables
          else
            (if (expectSemicolon && isSemicolon t)%bool then advance
             else ret tt) ;;
            ret variables
  end.

Definition parseDeclaration (fuel : nat) (expectSemicolon : bool)
    : parser node :=
  match fuel with
  | 0 => outOfFuel
  | S n =>
      t <- tokenAt ;;
      let varType := value t in
      advance ;;
      variables <- parseDeclaration_loop n expectSemicolon [] ;;
      ret (DeclarationStatement varType variables)
  end.

Definition parseReturnStatement (fuel : nat) : parser node :=
  match fuel with
  | 0 => outOfFuel
  | S n =>
      advance ;;
      expr <- parseExpression n ;;
      skipSemicolon ;;
      ret (ReturnStatement expr)
  end.

Definition parseExpressionStatement (fuel : nat) : parser node :=
  match fuel with
  | 0 => outOfFuel
  | S n =>
      expr <- parseExpression n ;;
      skipSemicolon ;;
      ret (ExpressionStatement expr)
  end.

Fixpoint parseStatement (fuel : nat) : parser node :=
  match fuel with
  | 0 => outOfFuel
  | S n =>
      tok <- peek ;;
      match tok with
      | None => ret Null
      | Some token =>
          if typeIs COMMENT token then advance ;; ret Null
          else if isKeyword "return" token then parseReturnStatement n
          else if isKeyword "if" token then parseIfStatement n
          else if isKeyword "for" token then parseForStatement n
          else if isTypeSpecifier token then parseDeclaration n true
          else if typeIs OPEN_BRACE token then parseCompoundStatement n
          else parseExpressionStatement n
      end
  end

with parseCompoundStatement (fuel : nat) : parser node :=
  match fuel with
  | 0 => outOfFuel
  | S n =>
      t <- tokenAt ;;
      if negb (typeIs OPEN_BRACE t) then
        ret (ErrorNode (lit "Expected '{' at beginning of compound statement"))
      else
        advance ;;
        body <- parseCompoundStatement_loop n [] ;;
        closed <- here (typeIs CLOSE_BRACE) ;;
        if closed then advance ;; ret (CompoundStatement body)
        else ret (ErrorNode (lit "Expected '}' at end of compound statement"))
  end

with parseCompoundStatement_loop (fuel : nat) (body : list node)
    : parser (list node) :=
  match fuel with
  | 0 => outOfFuel
  | S n =>
      more <- here (fun t => negb (typeIs CLOSE_BRACE t)) ;;
      if more then
        stmt <- parseStatement n ;;
        parseCompoundStatement_loop n (pushNode body stmt)
      else ret body
  end

with parseIfStatement (fuel : nat) : parser node :=
  match fuel with
  | 0 => outOfFuel
  | S n =>
      advance ;;
      bad <- atEndOr (fun t => negb (typeIs OPEN_PAREN t)) ;;
      if bad then ret (ErrorNode (lit "Expected '(' after if"))
      else
        advance ;;
        condition <- parseExpression n ;;
        bad <- atEndOr (fun t => negb (typeIs CLOSE_PAREN t)) ;;
        if bad then ret (ErrorNode (lit "Expected ')' after if condition"))
        else
          advance ;;
          thenStmt <- parseStatement n ;;
          hasElse <- here (isKeyword "else") ;;
          elseStmt <- (if hasElse then advance ;; parseStatement n
                       else ret Null) ;;
          ret (IfStatement condition thenStmt elseStmt)
  end

with parseForStatement (fuel : nat) : parser node :=
  match fuel with
  | 0 => outOfFuel
  | S n =>
      advance ;;
      bad <- atEndOr (fun t => negb (typeIs OPEN_PAREN t)) ;;
      if bad then ret (ErrorNode (lit "Expected '(' after for"))
      else
        advance ;;
        decl <- here isTypeSpecifier ;;
        initialization <- (if decl then parseDeclaration n false
                           else parseExpression n) ;;
        skipSemicolon ;;
        condition <- parseExpression n ;;
        skipSemicolon ;;
        increment <- parseExpression n ;;
        bad <- atEndOr (fun t => negb (typeIs CLOSE_PAREN t)) ;;
        if bad then ret (ErrorNode (lit "Expected ')' after for increment"))
        else
          advance ;;
          body <- parseStatement n ;;
          ret (ForStatement initialization condition increment body)
  end.

(** The parameter loop of [parseFunctionDefinition]. *)
Fixpoint parseFunctionDefinition_params (fuel : nat) (parameters : list node)
    : parser (list node) :=
  match fuel with
  | 0 => outOfFuel
  | S n =>
      more <- here (fun t => negb (valueIs ")" t)) ;;
      if more then
        t <- tokenAt ;;
        if valueIs "," t then
          advance ;;
          parseFunctionDefinition_params n parameters
        else if isTypeSpecifier t then
          let paramType := value t in
          advance ;;
          tok <- peek ;;
          let paramName :=
            match tok with Some t' => value t' | None => lit "<missing id>" end in
          advance ;;
          parseFunctionDefinition_params n
            (parameters ++ [ParameterNode paramType paramName])
        else
          advance ;;
          parseFunctionDefinition_params n parameters
      else ret parameters
  end.

Definition parseFunctionDefinition (fuel : nat) : parser node :=
  match fuel with
  | 0 => outOfFuel
  | S n =>
      t <- tokenAt ;;
      let returnType := value t in
      advance ;;
      bad <- atEndOr (fun t => negb (typeIs IDENTIFIER t)) ;;
      if bad then ret (ErrorNode (lit "Expected function name"))
      else
        t <- tokenAt ;;
        let funcName := value t in
        advance ;;
        bad <- atEndOr (fun t => negb (typeIs OPEN_PAREN t)) ;;
        if bad then ret (ErrorNode (lit "Expected '(' after function name"))
        else
          advance ;;
          parameters <- parseFunctionDefinition_params n [] ;;
          ended <- atEnd ;;
          if ended then
            ret (ErrorNode
                   (lit "Unexpected end of input while parsing function parameters"))
          else
            advance ;;
            bad <- atEndOr (fun t => negb (typeIs OPEN_BRACE t)) ;;
            if bad then
              ret (ErrorNode (lit "Expected '{' at beginning of function body"))
            else
              bodyNode <- parseCompoundStatement n ;;
              ret (FunctionDeclaration returnType funcName parameters bodyNode)
  end.

(** The loop of [parseProgram]. *)
Fixpoint parseProgram_loop (fuel : nat) (body : list node) : parser node :=
  match fuel with
  | 0 => outOfFuel
  | S n =>
      tok <- peek ;;
      match tok with
      | None => ret (Program body)
      | Some token =>
          if typeIs COMMENT token then
            advance ;;
            parseProgram_loop n body
          else if typeIs PREPROCESSOR token then
            let body := body ++ [PreprocessorDirective (trim (value token))] in
            advance ;;
            parseProgram_loop n body
          else if isTypeSpecifier token then
            funcNode <- parseFunctionDefinition n ;;
            parseProgram_loop n (pushNode body funcNode)
          else
            advance ;;
            parseProgram_loop n body
      end
  end.

Definition parseProgram (fuel : nat) : parser node :=
  setCurrent 0 ;;
  parseProgram_loop fuel [].

End Parser.

Definition parse (fuel : nat) (tokens : list token) : parser node :=
  parseProgram tokens fuel.

(** [parse(tokenize(source))], from a cursor left at [current]. *)
Definition tokenizeThenParse (fuel : nat) (source : str) (current : nat)
    : option (outcome node) :=
  match tokenize source with
  | Some tokens => Some (parse fuel tokens current)
  | None => None
  end.

(** ** Rendering a tree

    The values [renderAST] is applied to: [null], strings, arrays and
    objects. An object is the list of its properties in the order of
    their creation, which is the order [for (key in node)] visits them;
    its keys are distinct. *)

#[warnings="-register-all"]
Inductive jsValue : Type :=
| JsNull
| JsString (s : str)
| JsArray (items : list jsValue)
| JsObject (fields : list (str * jsValue)).

(** [parts.join(sep)]. *)
Fixpoint join (sep : str) (parts : list str) : str :=
  match parts with
  | [] => []
  | [p] => p
  | p :: ps => p ++ sep ++ join sep ps
  end.

(** The text a template literal puts for a value: [String(v)]. *)
Fixpoint toText (v : jsValue) : str :=
  match v with
  | JsNull => lit "null"
  | JsString s => s
  | JsArray items =>
      join (lit ",")
           (map (fun x => match x with JsNull => [] | _ => toText x end) items)
  | JsObject _ => lit "[object Object]"
  end.

(** [node[key]], [undefined] when the object has no such property. *)
Fixpoint getField (key : str) (fields : list (str * jsValue)) : option jsValue :=
  match fields with
  | [] => None
  | (k, v) :: rest => if str_eqb k key then Some v else getField key rest
  end.

Definition template (o : option jsValue) : str :=
  match o with
  | Some v => toText v
  | None => lit "undefined"
  end.

Definition span (class : string) (text : str) : str :=
  lit "<span class=" ++ [quote] ++ lit class ++ [quote] ++ lit ">" ++ text
    ++ lit "</span>".

Fixpoint renderAST (node : jsValue) : str :=
  match node with
  | JsNull | JsString _ => span "ast-leaf" (toText node)
  | JsArray items =>
      lit "<ul>"
        ++ concat (map (fun child => lit "<li>" ++ renderAST child ++ lit "</li>")
                       items)
        ++ lit "</ul>"
  | JsObject fields =>
      lit "<ul>"
        ++ (lit "<li>" ++ span "node-label" (template (getField (lit "type") fields)))
        ++ concat
             (map (fun f =>
                     if str_eqb (fst f) (lit "type") then []
                     else (lit "<ul><li>" ++ span "node-key" (fst f ++ lit ":")
                             ++ lit " ")
                            ++ renderAST (snd f)
                            ++ lit "</li></ul>")
                  fields)
        ++ lit "</li>"
        ++ lit "</ul>"
  end.

(** The object the parser builds for a node. *)
Definition field (key : string) (v : jsValue) : str * jsValue := (lit key, v).
Definition text (key : string) (s : str) : str * jsValue := field key (JsString s).
Definition typed (type : string) (fields : list (str * jsValue)) : jsValue :=
  JsObject (text "type" (lit type) :: fields).

Fixpoint toJs (n : node) : jsValue :=
  match n with
  | Null => JsNull
  | ErrorNode error => JsObject [text "error" error]
  | Program body => typed "Program" [field "body" (JsArray (map toJs body))]
  | PreprocessorDirective v => typed "PreprocessorDirective" [text "value" v]
  | FunctionDeclaration returnType name parameters body =>
      typed "FunctionDeclaration"
        [text "returnType" returnType; text "name" name;
         field "parameters" (JsArray (map toJs parameters));
         field "body" (toJs body)]
  | ParameterNode paramType paramName =>
      typed "Parameter" [text "paramType" paramType; text "paramName" paramName]
  | CompoundStatement body =>
      typed "CompoundStatement" [field "body" (JsArray (map toJs body))]
  | ReturnStatement expression =>
      typed "ReturnStatement" [field "expression" (toJs expression)]
  | IfStatement condition thenStmt elseStmt =>
      typed "IfStatement"
        [field "condition" (toJs condition); field "then" (toJs thenStmt);
         field "else" (toJs elseStmt)]
  | ForStatement initialization condition increment body =>
      typed "ForStatement"
        [field "initialization" (toJs initialization);
         field "condition" (toJs condition); field "increment" (toJs increment);
         field "body" (toJs body)]
  | DeclarationStatement varType variables =>
      typed "DeclarationStatement"
        [text "varType" varType; field "variables" (JsArray (map toJs variables))]
  | VariableDeclarator name initializer =>
      typed "VariableDeclarator"
        [text "name" name; field "initializer" (toJs initializer)]
  | ExpressionStatement expression =>
      typed "ExpressionStatement" [field "expression" (toJs expression)]
  | AssignmentExpression operator l r =>
      typed "AssignmentExpression"
        [text "operator" operator; field "left" (toJs l); field "right" (toJs r)]
  | BinaryExpression operator l r =>
      typed "BinaryExpression"
        [text "operator" operator; field "left" (toJs l); field "right" (toJs r)]
  | PrefixExpression operator argument =>
      typed "PrefixExpression"
        [text "operator" operator; field "argument" (toJs argument)]
  | PostfixExpression operator argument =>
      typed "PostfixExpression"
        [text "operator" operator; field "argument" (toJs argument)]
  | Literal v => typed "Literal" [text "value" v]
  | Identifier name => typed "Identifier" [text "name" name]
  | FunctionCall name arguments =>
      typed "FunctionCall"
        [text "name" name; field "arguments" (JsArray (map toJs arguments))]
  | Unknown v => typed "Unknown" [text "value" v]
  end.

(** ** Notions used to state the properties *)

(** More fuel never changes an answer already given: [le_out a b] says
    that [a] is [b] unless the run behind [a] ran out of fuel. *)
Definition le_out {A} (a b : outcome A) : Prop := a = OutOfFuel \/ a = b.
Definition le_parser {A} (p q : parser A) : Prop :=
  forall current, le_out (p current) (q current).

(** One more unit of fuel, for every function of the expression parser. *)
Definition expression_step (tokens : list token) (n : nat) : Prop :=
  le_parser (parseExpression tokens n) (parseExpression tokens (S n)) /\
  le_parser (parseAssignment tokens n) (parseAssignment tokens (S n)) /\
  le_parser (parseEquality tokens n) (parseEquality tokens (S n)) /\
  (forall l, le_parser (parseEquality_loop tokens n l)
                       (parseEquality_loop tokens (S n) l)) /\
  le_parser (parseRelational tokens n) (parseRelational tokens (S n)) /\
  (forall l, le_parser (parseRelational_loop tokens n l)
                       (parseRelational_loop tokens (S n) l)) /\
  le_parser (parseAdditive tokens n) (parseAdditive tokens (S n)) /\
  (forall l, le_parser (parseAdditive_loop tokens n l)
                       (parseAdditive_loop tokens (S n) l)) /\
  le_parser (parseMultiplicative tokens n) (parseMultiplicative tokens (S n)) /\
  (forall l, le_parser (parseMultiplicative_loop tokens n l)
                       (parseMultiplicative_loop tokens (S n) l)) /\
  le_parser (parseUnary tokens n) (parseUnary tokens (S n)) /\
  le_parser (parsePostfix tokens n) (parsePostfix tokens (S n)) /\
  le_parser (parsePrimary tokens n) (parsePrimary tokens (S n)) /\
  (forall a, le_parser (parsePrimary_args tokens n a)
                       (parsePrimary_args tokens (S n) a)).

(** The same for the statement parser. *)
Definition statement_step (tokens : list token) (n : nat) : Prop :=
  le_parser (parseStatement tokens n) (parseStatement tokens (S n)) /\
  le_parser (parseCompoundStatement tokens n)
            (parseCompoundStatement tokens (S n)) /\
  (forall b, le_parser (parseCompoundStatement_loop tokens n b)
                       (parseCompoundStatement_loop tokens (S n) b)) /\
  le_parser (parseIfStatement tokens n) (parseIfStatement tokens (S n)) /\
  le_parser (parseForStatement tokens n) (parseForStatement tokens (S n)).

(** The character before the position reached after [m]. *)
Definition lastOr (prev : option char) (m : str) : option char :=
  fold_left (fun _ c => Some c) m prev.

(** [Matches r prev m rest]: the pattern [r] can match the text [m] when
    [prev] is the character before it and [rest] the input after it. *)
Inductive Matches : regex -> option char -> str -> str -> Prop :=
| M_Eps prev rest : Matches Eps prev [] rest
| M_Cls p prev c rest : p c = true -> Matches (Cls p) prev [c] rest
| M_Cat r1 r2 prev m1 m2 rest :
    Matches r1 prev m1 (m2 ++ rest) ->
    Matches r2 (lastOr prev m1) m2 rest ->
    Matches (Cat r1 r2) prev (m1 ++ m2) rest
| M_AltL r1 r2 prev m rest :
    Matches r1 prev m rest -> Matches (Alt r1 r2) prev m rest
| M_AltR r1 r2 prev m rest :
    Matches r2 prev m rest -> Matches (Alt r1 r2) prev m rest
| M_Star0 g r prev rest : Matches (Star g r) prev [] rest
| M_StarS g r prev m1 m2 rest :
    Matches r prev m1 (m2 ++ rest) -> m1 <> [] ->
    Matches (Star g r) (lastOr prev m1) m2 rest ->
    Matches (Star g r) prev (m1 ++ m2) rest
| M_Bol rest : Matches Bol None [] rest
| M_WordB prev rest :
    xorb (isWordOpt prev) (isWordOpt (hd_error rest)) = true ->
    Matches WordB prev [] rest.

(** What a successful run of the matcher means: it has split the input
    into a text the pattern matches and a rest the continuation accepted. *)
Definition sound (m0 : cont -> cont) (r : regex) : Prop :=
  forall k prev s x,
    m0 k prev s = Some x ->
    exists m rest,
      s = m ++ rest /\ Matches r prev m rest /\ k (lastOr prev m) rest = Some x.

Definition isOperatorChar (c : char) : bool := oneOf operatorChars c.

(** The characters of a text that are not whitespace, in order. *)
Definition visible (s : str) : str := filter (fun c => negb (isSpace c)) s.

Definition isBlockComment (m : str) : Prop :=
  exists body, m = lit "/*" ++ body ++ lit "*/".

(** [Blanked s ms s']: the text [s'] is the text [s] with the block
    comments [ms], in this order, each overwritten by as many spaces, and
    every other character kept. *)
Inductive Blanked : str -> list str -> str -> Prop :=
| Blanked_nil : Blanked [] [] []
| Blanked_keep c s ms s' :
    Blanked s ms s' -> Blanked (c :: s) ms (c :: s')
| Blanked_span m s ms s' :
    isBlockComment m -> Blanked s ms s' ->
    Blanked (m ++ s) (m :: ms) (repeat space (length m) ++ s').

(** [inside x n]: the node [x] is [n] or lies somewhere in [n]. *)
Inductive inside (x : node) : node -> Prop :=
| inside_here : inside x x
| inside_Program body n :
    In n body -> inside x n -> inside x (Program body)
| inside_FunctionDeclaration rt name ps body n :
    In n (body :: ps) -> inside x n ->
    inside x (FunctionDeclaration rt name ps body)
| inside_CompoundStatement body n :
    In n body -> inside x n -> inside x (CompoundStatement body)
| inside_ReturnStatement e : inside x e -> inside x (ReturnStatement e)
| inside_IfStatement c t e n :
    In n [c; t; e] -> inside x n -> inside x (IfStatement c t e)
| inside_ForStatement i c u b n :
    In n [i; c; u; b] -> inside x n -> inside x (ForStatement i c u b)
| inside_DeclarationStatement ty vs n :
    In n vs -> inside x n -> inside x (DeclarationStatement ty vs)
| inside_VariableDeclarator name e :
    inside x e -> inside x (VariableDeclarator name e)
| inside_ExpressionStatement e : inside x e -> inside x (ExpressionStatement e)
| inside_AssignmentExpression op l r n :
    In n [l; r] -> inside x n -> inside x (AssignmentExpression op l r)
| inside_BinaryExpression op l r n :
    In n [l; r] -> inside x n -> inside x (BinaryExpression op l r)
| inside_PrefixExpression op a : inside x a -> inside x (PrefixExpression op a)
| inside_PostfixExpression op a : inside x a -> inside x (PostfixExpression op a)
| inside_FunctionCall name args n :
    In n args -> inside x n -> inside x (FunctionCall name args).

(** ** Inputs of the examples *)

(** A token written with its lexeme as a literal. *)
Definition tk (ty : TokenType) (s : string) : token := Token ty (lit s).
Arguments tk ty s%_string.

Definition number (s : string) : token := tk NUMBER s.
Definition ident (s : string) : token := tk IDENTIFIER s.
Definition oper (s : string) : token := tk OPERATOR s.
Arguments number s%_string.
Arguments ident s%_string.
Arguments oper s%_string.

Definition Lit (s : string) : node := Literal (lit s).
Definition Id (s : string) : node := Identifier (lit s).
Definition Bin (op : string) (l r : node) : node := BinaryExpression (lit op) l r.
Definition Assign (l r : node) : node := AssignmentExpression (lit "=") l r.
Definition Pre (op : string) (a : node) : node := PrefixExpression (lit op) a.
Definition Post (op : string) (a : node) : node := PostfixExpression (lit op) a.
Arguments Lit s%_string.
Arguments Id s%_string.
Arguments Bin op%_string l r.
Arguments Pre op%_string a.
Arguments Post op%_string a.

(** [1 + 2 * 3 ;] with every operator a token of its own. *)
Definition tokens_1_plus_2_times_3 : list token :=
  [number "1"; oper "+"; number "2"; oper "*"; number "3"; tk SEPARATOR ";"].

Definition tree_1_plus_2_times_3 : node :=
  Bin "+" (Lit "1") (Bin "*" (Lit "2") (Lit "3")).

(** [int main ( ) {] ... [}] around a body. *)
Definition inMain (body : list token) : list token :=
  [tk KEYWORD "int"; ident "main"; tk OPEN_PAREN "("; tk CLOSE_PAREN ")";
   tk OPEN_BRACE "{"] ++ body ++ [tk CLOSE_BRACE "}"].

Definition mainWith (statements : list node) : node :=
  Program [FunctionDeclaration (lit "int") (lit "main") []
             (CompoundStatement statements)].

(** [parsesTo tokens e]: with fuel 40 or more, [parseExpression] run from
    the first token returns [e] and leaves the cursor after the last. *)
Definition parsesTo (tokens : list token) (e : node) : Prop :=
  forall extra,
    parseExpression tokens (40 + extra) 0 = Done e (length tokens).

(** [int f ( ) { ) }]: a closing parenthesis where a statement starts. *)
Definition tokens_stray_paren : list token :=
  [tk KEYWORD "int"; ident "f"; tk OPEN_PAREN "("; tk CLOSE_PAREN ")";
   tk OPEN_BRACE "{"; tk CLOSE_PAREN ")"; tk CLOSE_BRACE "}"].

(** [int f ( int]: the input ends after a parameter type. *)
Definition tokens_cut_parameter : list token :=
  [tk KEYWORD "int"; ident "f"; tk OPEN_PAREN "("; tk KEYWORD "int"].

(** ** Printing an expression with the parentheses its levels ask for *)

Definition strIn (s : str) (l : list string) : bool :=
  existsb (fun x => str_eqb s (lit x)) l.

(** The operators of the binary levels, by level. *)
Definition operatorsAt (n : nat) : list string :=
  match n with
  | 1 => ["=="; "!="]
  | 2 => ["<"; ">"; "<="; ">="]
  | 3 => ["+"; "-"]
  | 4 => ["*"; "/"; "%"]
  | _ => []
  end%string.

Definition binaryLevel (op : str) : nat :=
  if strIn op (operatorsAt 1) then 1
  else if strIn op (operatorsAt 2) then 2
  else if strIn op (operatorsAt 3) then 3
  else if strIn op (operatorsAt 4) then 4
  else 7.

(** The level of the chain at which a tree is built: Assignment 0,
    Equality 1, Relational 2, Additive 3, Multiplicative 4, Unary 5,
    Postfix 6, Primary 7. *)
Definition level (e : node) : nat :=
  match e with
  | AssignmentExpression _ _ _ => 0
  | BinaryExpression op _ _ => binaryLevel op
  | PrefixExpression _ _ => 5
  | PostfixExpression _ _ => 6
  | _ => 7
  end.

Definition parens (ts : list token) : list token :=
  [tk OPEN_PAREN "("] ++ ts ++ [tk CLOSE_PAREN ")"].

(** [print k e]: the tokens of [e] where an expression of level [k] is
    expected, in parentheses when the level of [e] is lower. *)
Fixpoint print (k : nat) (e : node) : list token :=
  let body :=
    match e with
    | AssignmentExpression op l r => print 1 l ++ [Token OPERATOR op] ++ print 0 r
    | BinaryExpression op l r =>
        print (binaryLevel op) l ++ [Token OPERATOR op] ++ print (S (binaryLevel op)) r
    | PrefixExpression op a => [Token OPERATOR op] ++ print 5 a
    | PostfixExpression op a => print 6 a ++ [Token OPERATOR op]
    | Identifier x => [Token IDENTIFIER x]
    | Literal v => [Token NUMBER v]
    | _ => []
    end in
  if level e <? k then parens body else body.

(** The trees the chain builds from operators and operands. A lexeme of
    an operand is any text but [++] and [--]. *)
Inductive Expr : node -> Prop :=
| Expr_Identifier x : strIn x ["++"; "--"]%string = false -> Expr (Identifier x)
| Expr_Literal v : strIn v ["++"; "--"]%string = false -> Expr (Literal v)
| Expr_Assignment l r : Expr l -> Expr r -> Expr (AssignmentExpression (lit "=") l r)
| Expr_Binary op l r :
    binaryLevel op < 7 -> Expr l -> Expr r -> Expr (BinaryExpression op l r)
| Expr_Prefix op a :
    strIn op ["++"; "--"]%string = true -> Expr a -> Expr (PrefixExpression op a)
| Expr_Postfix op a :
    strIn op ["++"; "--"]%string = true -> Expr a -> Expr (PostfixExpression op a).

(** [converges f c a c']: started with the cursor at [c], the runs of [f]
    return [a] and leave the cursor at [c'] as soon as the fuel suffices. *)
Definition converges {A} (f : nat -> parser A) (c : nat) (a : A) (c' : nat) : Prop :=
  exists N, forall n, N <= n -> f n c = Done a c'.

(** The parsing function of a level, the loop of the levels that have
    one, and the test of their operators. *)
Definition levelParser (tokens : list token) (k : nat) : nat -> parser node :=
  match k with
  | 0 => parseAssignment tokens
  | 1 => parseEquality tokens
  | 2 => parseRelational tokens
  | 3 => parseAdditive tokens
  | 4 => parseMultiplicative tokens
  | 5 => parseUnary tokens
  | 6 => parsePostfix tokens
  | _ => parsePrimary tokens
  end.

Definition levelLoop (tokens : list token) (k : nat) : nat -> node -> parser node :=
  match k with
  | 1 => parseEquality_loop tokens
  | 2 => parseRelational_loop tokens
  | 3 => parseAdditive_loop tokens
  | 4 => parseMultiplicative_loop tokens
  | 6 => parsePostfix_loop tokens
  | _ => fun _ left => ret left
  end.

Definition levelOp (k : nat) (t : token) : bool :=
  match k with
  | 0 => valueIs "=" t
  | 1 | 2 | 3 | 4 => valueIn (operatorsAt k) t
  | 6 => valueIn ["++"; "--"]%string t
  | _ => false
  end.

Definition hasLoop (k : nat) : Prop := k = 1 \/ k = 2 \/ k = 3 \/ k = 4 \/ k = 6.
Definition isBinaryLevel (k : nat) : Prop := k = 1 \/ k = 2 \/ k = 3 \/ k = 4.

(** What may follow an expression parsed at level [k]: the end of the
    tokens, or a token that no loop from level [k] on takes for one of
    its operators and that is not an opening parenthesis. *)
Definition followsAt (k : nat) (rest : list token) : Prop :=
  match rest with
  | [] => True
  | t :: _ =>
      typeIs OPEN_PAREN t = false /\ forall j, k <= j -> levelOp j t = false
  end.

(** From the cursor on the first token of [print k e], the function of
    level [k] returns [e] with the cursor after the last. *)
Definition Returns (e : node) (k : nat) : Prop :=
  forall tokens c rest,
    skipn c tokens = print k e ++ rest -> followsAt k rest ->
    converges (levelParser tokens k) c e (c + length (print k e)).

(** The function of level [k] gets to its loop with [e] as the left
    operand and the cursor after [print k e]. *)
Definition Continues (e : node) (k : nat) : Prop :=
  forall tokens c rest a c2,
    skipn c tokens = print k e ++ rest -> followsAt (S k) rest ->
    converges (fun n => levelLoop tokens k n e) (c + length (print k e)) a c2 ->
    converges (levelParser tokens k) c a c2.

Definition Good (e : node) : Prop :=
  forall k, k <= 7 -> Returns e k /\ (hasLoop k -> Continues e k).

(** [steady p]: a run of [p] that returns leaves the cursor where it
    was or further. *)
Definition steady {A} (p : parser A) : Prop :=
  forall current,
    match p current with
    | Done _ current' => current <= current'
    | _ => True
    end.

Definition expression_steady (tokens : list token) (n : nat) : Prop :=
  steady (parseExpression tokens n) /\
  steady (parseAssignment tokens n) /\
  steady (parseEquality tokens n) /\
  (forall l, steady (parseEquality_loop tokens n l)) /\
  steady (parseRelational tokens n) /\
  (forall l, steady (parseRelational_loop tokens n l)) /\
  steady (parseAdditive tokens n) /\
  (forall l, steady (parseAdditive_loop tokens n l)) /\
  steady (parseMultiplicative tokens n) /\
  (forall l, steady (parseMultiplicative_loop tokens n l)) /\
  steady (parseUnary tokens n) /\
  steady (parsePostfix tokens n) /\
  steady (parsePrimary tokens n) /\
  (forall a, steady (parsePrimary_args tokens n a)).

Definition statement_steady (tokens : list token) (n : nat) : Prop :=
  steady (parseStatement tokens n) /\
  steady (parseCompoundStatement tokens n) /\
  (forall b, steady (parseCompoundStatement_loop tokens n b)) /\
  steady (parseIfStatement tokens n) /\
  steady (parseForStatement tokens n).

(** No run of the expression parser throws; no run of the statement
    parser does, started on a token where it reads one unguarded. *)
Definition expression_safe (tokens : list token) (n : nat) : Prop :=
  (forall c, parseExpression tokens n c <> Thrown) /\
  (forall c, parseAssignment tokens n c <> Thrown) /\
  (forall c, parseEquality tokens n c <> Thrown) /\
  (forall l c, parseEquality_loop tokens n l c <> Thrown) /\
  (forall c, parseRelational tokens n c <> Thrown) /\
  (forall l c, parseRelational_loop tokens n l c <> Thrown) /\
  (forall c, parseAdditive tokens n c <> Thrown) /\
  (forall l c, parseAdditive_loop tokens n l c <> Thrown) /\
  (forall c, parseMultiplicative tokens n c <> Thrown) /\
  (forall l c, parseMultiplicative_loop tokens n l c <> Thrown) /\
  (forall c, parseUnary tokens n c <> Thrown) /\
  (forall c, parsePostfix tokens n c <> Thrown) /\
  (forall c, parsePrimary tokens n c <> Thrown) /\
  (forall a c, parsePrimary_args tokens n a c <> Thrown).

Definition statement_safe (tokens : list token) (n : nat) : Prop :=
  (forall c, parseStatement tokens n c <> Thrown) /\
  (forall c t, nth_error tokens c = Some t ->
               parseCompoundStatement tokens n c <> Thrown) /\
  (forall b c, parseCompoundStatement_loop tokens n b c <> Thrown) /\
  (forall c, parseIfStatement tokens n c <> Thrown) /\
  (forall c, parseForStatement tokens n c <> Thrown).

(** ** Words and numbers *)

Definition isLetter (c : char) : bool :=
  (isLower c || isUpper c || N.eqb c (ch "_"))%bool.

(** A text made of the characters the word loop of the scanner takes. *)
Definition wordChars (w : str) : Prop := Forall (fun c => isWord c = true) w.

(** The two branches of the number pattern. *)
Definition hexNumber : regex := Cats [Chr "0"; Chr "x"; Plus (Cls isHex)].
Definition decimalNumber : regex :=
  Cats [Plus (Cls isDigit);
        Opt (Cat (Chr ".") (Plus (Cls isDigit)));
        Opt (Cats [Cls (oneOf "eE"); Opt (Cls (oneOf "-+"));
                   Plus (Cls isDigit)])].

(** The numbers a run of word characters can spell: [0x] and hexadecimal
    digits, decimal digits, or decimal digits, [e] or [E], and decimal
    digits. A run of word characters holds no [.], [+] or [-]. *)
Inductive NumberWord : str -> Prop :=
| NumberWord_hex h :
    h <> [] -> Forall (fun c => isHex c = true) h -> NumberWord (lit "0x" ++ h)
| NumberWord_decimal d :
    d <> [] -> Forall (fun c => isDigit c = true) d -> NumberWord d
| NumberWord_exponent d e x :
    d <> [] -> Forall (fun c => isDigit c = true) d ->
    oneOf "eE" e = true ->
    x <> [] -> Forall (fun c => isDigit c = true) x ->
    NumberWord (d ++ e :: x).

(** ** The tokens of the scanner *)

(** The type of a one-character punctuation token. *)
Definition punctuation (c : char) : option TokenType :=
  if oneOf ";,.:" c then Some SEPARATOR
  else if N.eqb (ch "(") c then Some OPEN_PAREN
  else if N.eqb (ch ")") c then Some CLOSE_PAREN
  else if N.eqb (ch "{") c then Some OPEN_BRACE
  else if N.eqb (ch "}") c then Some CLOSE_BRACE
  else None.

(** The tokens the scan of a line makes, by the branch that makes them. *)
Inductive Scanned (line : str) : token -> Prop :=
| Scanned_comment i :
    nth_error line i = Some (ch "/") -> nth_error line (S i) = Some (ch "/") ->
    Scanned line (Token COMMENT (sliceFrom line i))
| Scanned_string i idx m :
    exec re_STRING_LITERAL (sliceFrom line i) = Some (idx, m) ->
    Scanned line (Token STRING_LITERAL m)
| Scanned_quote : Scanned line (Token UNDEFINED [quote])
| Scanned_operator i c :
    nth_error line i = Some c -> isOperatorChar c = true ->
    Scanned line (Token OPERATOR (slice line i (i + 2)))
| Scanned_punctuation ty c :
    punctuation c = Some ty -> Scanned line (Token ty [c])
| Scanned_word w :
    w <> [] -> wordChars w -> Scanned line (classifyLexeme w)
| Scanned_other c :
    isSpace c = false -> isWord c = false -> isOperatorChar c = false ->
    punctuation c = None -> c <> quote ->
    Scanned line (Token UNDEFINED [c]).

(** The tokens of [tokenize]: a block comment of the first pass, a
    preprocessor line, or a token of the scan of a line. *)
Inductive Lexed : token -> Prop :=
| Lexed_blockComment m : isBlockComment m -> Lexed (Token COMMENT m)
| Lexed_preprocessor line :
    test re_hashLine line = true -> Lexed (Token PREPROCESSOR (trim line))
| Lexed_scanned line t : Scanned line t -> Lexed t.

(** What the type of a token of [tokenize] says of its first character
    [c] and of the characters [rest] after it. *)
Definition headOf (ty : TokenType) (c : char) (rest : str) : Prop :=
  match ty with
  | COMMENT =>
      c = ch "/" /\
      exists d rest', rest = d :: rest' /\ (d = ch "/" \/ d = ch "*")
  | PREPROCESSOR => c = ch "#"
  | STRING_LITERAL => c = quote /\ rest <> []
  | OPERATOR => isOperatorChar c = true
  | KEYWORD | IDENTIFIER | NUMBER => wordChars (c :: rest)
  | UNDEFINED =>
      wordChars (c :: rest) \/
      (rest = [] /\ isWord c = false /\ isOperatorChar c = false /\
       punctuation c = None)
  | ty => rest = [] /\ punctuation c = Some ty
  end.

(** A text without [/*]. *)
Definition noBlockCommentStart (s : str) : Prop :=
  forall pre post, s <> pre ++ lit "/*" ++ post.

(** ** Where the scanner stands *)

(** A text in which nothing reaches past its end: no operator character,
    which takes the character after it, and no double quote, from which a
    string literal runs on. *)
Definition quiet (pre : str) : Prop :=
  Forall (fun x => isOperatorChar x = false /\ x <> quote) pre.

(** [line] is a line of [text], with [above] before it and [below]
    after it. *)
Definition lineOf (text above line below : str) : Prop :=
  text = above ++ line ++ below /\ ~ In newline line /\
  (above = [] \/ exists a, above = a ++ [newline]) /\
  (below = [] \/ exists b, below = newline :: b).

(** ** The trees the parser builds *)

Definition binaryOperators : list string :=
  ["=="; "!="; "<"; ">"; "<="; ">="; "+"; "-"; "*"; "/"; "%"]%string.

#[warnings="-register-all"]
Inductive Expression : node -> Prop :=
| Expression_Null : Expression Null
| Expression_Literal v : Expression (Literal v)
| Expression_Identifier x : Expression (Identifier x)
| Expression_Unknown v : Expression (Unknown v)
| Expression_FunctionCall name args :
    Forall Expression args -> ~ In Null args ->
    Expression (FunctionCall name args)
| Expression_Assignment l r :
    Expression l -> Expression r ->
    Expression (AssignmentExpression (lit "=") l r)
| Expression_Binary op l r :
    strIn op binaryOperators = true -> Expression l -> Expression r ->
    Expression (BinaryExpression op l r)
| Expression_Prefix op a :
    strIn op ["++"; "--"]%string = true -> Expression a ->
    Expression (PrefixExpression op a)
| Expression_Postfix op a :
    strIn op ["++"; "--"]%string = true -> Expression a ->
    Expression (PostfixExpression op a).

Definition Declarator (v : node) : Prop :=
  exists name init, v = VariableDeclarator name init /\ Expression init.

Definition Declaration (d : node) : Prop :=
  exists varType variables,
    d = DeclarationStatement varType variables /\ Forall Declarator variables.

#[warnings="-register-all"]
Inductive Statement : node -> Prop :=
| Statement_Null : Statement Null
| Statement_Error e : Statement (ErrorNode e)
| Statement_Return e : Expression e -> Statement (ReturnStatement e)
| Statement_If c t e :
    Expression c -> Statement t -> Statement e -> Statement (IfStatement c t e)
| Statement_For i c u b :
    Expression i \/ Declaration i -> Expression c -> Expression u ->
    Statement b -> Statement (ForStatement i c u b)
| Statement_Declaration d : Declaration d -> Statement d
| Statement_Compound body :
    Forall Statement body -> ~ In Null body -> Statement (CompoundStatement body)
| Statement_Expression e : Expression e -> Statement (ExpressionStatement e).

(** The statements of a block: none of them is [null]. *)
Definition Body (statements : list node) : Prop :=
  Forall Statement statements /\ ~ In Null statements.

(** What [parseCompoundStatement] returns. *)
Definition Block (body : node) : Prop :=
  (exists e, body = ErrorNode e) \/
  (exists statements, body = CompoundStatement statements /\ Body statements).

Definition ParameterOf (p : node) : Prop :=
  exists paramType paramName, p = ParameterNode paramType paramName.

(** The elements of the body of a program. *)
Definition TopLevel (n : node) : Prop :=
  (exists text, n = PreprocessorDirective text) \/
  (exists e, n = ErrorNode e) \/
  (exists returnType name parameters body,
     n = FunctionDeclaration returnType name parameters body /\
     Forall ParameterOf parameters /\ Block body).

(** [yields P p]: what a run of [p] returns satisfies [P]. *)
Definition yields {A} (P : A -> Prop) (p : parser A) : Prop :=
  forall current,
    match p current with
    | Done a _ => P a
    | _ => True
    end.

Definition expression_shape (tokens : list token) (n : nat) : Prop :=
  yields Expression (parseExpression tokens n) /\
  yields Expression (parseAssignment tokens n) /\
  yields Expression (parseEquality tokens n) /\
  (forall l, Expression l -> yields Expression (parseEquality_loop tokens n l)) /\
  yields Expression (parseRelational tokens n) /\
  (forall l, Expression l -> yields Expression (parseRelational_loop tokens n l)) /\
  yields Expression (parseAdditive tokens n) /\
  (forall l, Expression l -> yields Expression (parseAdditive_loop tokens n l)) /\
  yields Expression (parseMultiplicative tokens n) /\
  (forall l, Expression l ->
             yields Expression (parseMultiplicative_loop tokens n l)) /\
  yields Expression (parseUnary tokens n) /\
  yields Expression (parsePostfix tokens n) /\
  yields Expression (parsePrimary tokens n) /\
  (forall a, Forall Expression a /\ ~ In Null a ->
             yields (fun args => Forall Expression args /\ ~ In Null args)
                    (parsePrimary_args tokens n a)).

Definition statement_shape (tokens : list token) (n : nat) : Prop :=
  yields Statement (parseStatement tokens n) /\
  yields Block (parseCompoundStatement tokens n) /\
  (forall b, Body b -> yields Body (parseCompoundStatement_loop tokens n b)) /\
  yields Statement (parseIfStatement tokens n) /\
  yields Statement (parseForStatement tokens n).

(** ** The cursor after a run *)

(** [post Q o]: the outcome [o], when it is a result, satisfies [Q]. *)
Definition post {A} (Q : A -> nat -> Prop) (o : outcome A) : Prop :=
  match o with
  | Done a current' => Q a current'
  | _ => True
  end.

(** Where [parsePrimary] returns [null] without reading a token. *)
Definition stopsAt (tokens : list token) (c : nat) : Prop :=
  match nth_error tokens c with
  | Some t => (isSemicolon t || typeIs CLOSE_PAREN t)%bool = true
  | None => True
  end.

(** A function of the chain has read a token, or it returns [null] from
    where [parsePrimary] stops. *)
Definition moves (tokens : list token) (c : nat) (e : node) (c' : nat) : Prop :=
  c < c' \/ (c' = c /\ e = Null /\ stopsAt tokens c).

(** A loop of the chain has read a token, or it returns its operand. *)
Definition extends (l : node) (c : nat) (e : node) (c' : nat) : Prop :=
  c < c' \/ (c' = c /\ e = l).

Definition advances {A} (c : nat) (_ : A) (c' : nat) : Prop := c < c'.
Definition keeps {A} (c : nat) (_ : A) (c' : nat) : Prop := c <= c'.

(** [parseStatement] returns without moving at the end of the tokens and
    at a closing parenthesis. *)
Definition stalls (tokens : list token) (c : nat) (s : node) (c' : nat) : Prop :=
  c < c' \/
  (c' = c /\
   match nth_error tokens c with
   | Some t => typeIs CLOSE_PAREN t = true /\ s = ExpressionStatement Null
   | None => s = Null
   end).

Definition emptyStatement (tokens : list token) (c : nat) (s : node) (c' : nat)
    : Prop :=
  c < c' \/
  (c' = c /\ s = ExpressionStatement Null /\
   match nth_error tokens c with
   | Some t => typeIs CLOSE_PAREN t = true
   | None => True
   end).

Definition opens (tokens : list token) (c : nat) (s : node) (c' : nat) : Prop :=
  c < c' \/
  (c' = c /\
   exists t, nth_error tokens c = Some t /\ typeIs OPEN_BRACE t = false).

Definition expression_moves (tokens : list token) (n : nat) : Prop :=
  (forall c, post (moves tokens c) (parseExpression tokens n c)) /\
  (forall c, post (moves tokens c) (parseAssignment tokens n c)) /\
  (forall c, post (moves tokens c) (parseEquality tokens n c)) /\
  (forall l c, post (extends l c) (parseEquality_loop tokens n l c)) /\
  (forall c, post (moves tokens c) (parseRelational tokens n c)) /\
  (forall l c, post (extends l c) (parseRelational_loop tokens n l c)) /\
  (forall c, post (moves tokens c) (parseAdditive tokens n c)) /\
  (forall l c, post (extends l c) (parseAdditive_loop tokens n l c)) /\
  (forall c, post (moves tokens c) (parseMultiplicative tokens n c)) /\
  (forall l c, post (extends l c) (parseMultiplicative_loop tokens n l c)) /\
  (forall c, post (moves tokens c) (parseUnary tokens n c)) /\
  (forall c, post (moves tokens c) (parsePostfix tokens n c)) /\
  (forall c, post (moves tokens c) (parsePrimary tokens n c)) /\
  (forall a c, post (keeps c) (parsePrimary_args tokens n a c)).

Definition statement_moves (tokens : list token) (n : nat) : Prop :=
  (forall c, post (stalls tokens c) (parseStatement tokens n c)) /\
  (forall c, post (opens tokens c) (parseCompoundStatement tokens n c)) /\
  (forall b c, post (keeps c) (parseCompoundStatement_loop tokens n b c)) /\
  (forall c, post (advances c) (parseIfStatement tokens n c)) /\
  (forall c, post (advances c) (parseForStatement tokens n c)).

(** A token at which [parsePrimary] returns [null] and that no function
    of the chain takes for an operator. *)
Definition inert (t : token) : Prop :=
  (isSemicolon t || typeIs CLOSE_PAREN t)%bool = true /\
  valueIs "=" t = false /\
  valueIn ["=="; "!="]%string t = false /\
  valueIn ["<"; ">"; "<="; ">="]%string t = false /\
  valueIn ["+"; "-"]%string t = false /\
  valueIn ["*"; "/"; "%"]%string t = false /\
  valueIn ["++"; "--"]%string t = false.

Definition nothing (c : nat) (e : node) (c' : nat) : Prop := c' = c /\ e = Null.
Definition same (l : node) (c : nat) (e : node) (c' : nat) : Prop :=
  c' = c /\ e = l.

Definition expression_inert (tokens : list token) (c n : nat) : Prop :=
  post (nothing c) (parseExpression tokens n c) /\
  post (nothing c) (parseAssignment tokens n c) /\
  post (nothing c) (parseEquality tokens n c) /\
  (forall l, post (same l c) (parseEquality_loop tokens n l c)) /\
  post (nothing c) (parseRelational tokens n c) /\
  (forall l, post (same l c) (parseRelational_loop tokens n l c)) /\
  post (nothing c) (parseAdditive tokens n c) /\
  (forall l, post (same l c) (parseAdditive_loop tokens n l c)) /\
  post (nothing c) (parseMultiplicative tokens n c) /\
  (forall l, post (same l c) (parseMultiplicative_loop tokens n l c)) /\
  post (nothing c) (parseUnary tokens n c) /\
  post (nothing c) (parsePostfix tokens n c) /\
  post (nothing c) (parsePrimary tokens n c).

(** Started on the tokens or at their end, a run stays there; started on
    a token, it stays there too; the parameter loop may end one past
    the end. *)
Definition within {A} (tokens : list token) (c : nat) (_ : A) (c' : nat) : Prop :=
  c <= length tokens -> c' <= length tokens.
Definition withinFrom {A} (tokens : list token) (c : nat) (_ : A) (c' : nat)
    : Prop :=
  c < length tokens -> c' <= length tokens.
Definition overBy1 {A} (tokens : list token) (c : nat) (_ : A) (c' : nat) : Prop :=
  c <= S (length tokens) -> c' <= S (length tokens).
Definition overBy1From {A} (tokens : list token) (c : nat) (_ : A) (c' : nat)
    : Prop :=
  c < length tokens -> c' <= S (length tokens).
Definition atEndBy1 {A} (tokens : list token) (c : nat) (_ : A) (c' : nat)
    : Prop :=
  length tokens <= c' /\ (c <= S (length tokens) -> c' <= S (length tokens)).

Definition expression_within (tokens : list token) (n : nat) : Prop :=
  (forall c, post (within tokens c) (parseExpression tokens n c)) /\
  (forall c, post (within tokens c) (parseAssignment tokens n c)) /\
  (forall c, post (within tokens c) (parseEquality tokens n c)) /\
  (forall l c, post (within tokens c) (parseEquality_loop tokens n l c)) /\
  (forall c, post (within tokens c) (parseRelational tokens n c)) /\
  (forall l c, post (within tokens c) (parseRelational_loop tokens n l c)) /\
  (forall c, post (within tokens c) (parseAdditive tokens n c)) /\
  (forall l c, post (within tokens c) (parseAdditive_loop tokens n l c)) /\
  (forall c, post (within tokens c) (parseMultiplicative tokens n c)) /\
  (forall l c, post (within tokens c) (parseMultiplicative_loop tokens n l c)) /\
  (forall c, post (within tokens c) (parseUnary tokens n c)) /\
  (forall c, post (within tokens c) (parsePostfix tokens n c)) /\
  (forall c, post (within tokens c) (parsePrimary tokens n c)) /\
  (forall a c, post (within tokens c) (parsePrimary_args tokens n a c)).

Definition statement_within (tokens : list token) (n : nat) : Prop :=
  (forall c, post (within tokens c) (parseStatement tokens n c)) /\
  (forall c, post (within tokens c) (parseCompoundStatement tokens n c)) /\
  (forall b c, post (within tokens c) (parseCompoundStatement_loop tokens n b c)) /\
  (forall c, post (withinFrom tokens c) (parseIfStatement tokens n c)) /\
  (forall c, post (withinFrom tokens c) (parseForStatement tokens n c)).

(** [halts f c]: with enough fuel, the runs of [f] started at [c] return. *)
Definition halts {A} (f : nat -> parser A) (c : nat) : Prop :=
  exists a c', converges f c a c'.

Definition levelsHalt (tokens : list token) (c : nat) : Prop :=
  forall k, halts (levelParser tokens k) c.
Definition loopsHalt (tokens : list token) (c : nat) : Prop :=
  forall k l, hasLoop k -> halts (fun n => levelLoop tokens k n l) c.
Definition argsHalt (tokens : list token) (c : nat) : Prop :=
  forall args, halts (fun n => parsePrimary_args tokens n args) c.
Definition allHalt (tokens : list token) (c : nat) : Prop :=
  levelsHalt tokens c /\ loopsHalt tokens c /\ argsHalt tokens c /\
  halts (parseExpression tokens) c.

(** ** The markup of a rendered tree *)

(** A text without [<]. *)
Definition noMarkup (s : str) : Prop := ~ In (ch "<") s.

(** Well-nested markup: texts without [<], [ul] and [li] elements that
    hold markup, and [span] elements of the three classes of the
    renderer, which hold a text. *)
Inductive Html : str -> Prop :=
| Html_text s : noMarkup s -> Html s
| Html_ul body : Html body -> Html (lit "<ul>" ++ body ++ lit "</ul>")
| Html_li body : Html body -> Html (lit "<li>" ++ body ++ lit "</li>")
| Html_span class body :
    In class ["ast-leaf"; "node-label"; "node-key"]%string ->
    noMarkup body -> Html (span class body)
| Html_app a b : Html a -> Html b -> Html (a ++ b).

(** No text of a value holds a [<]. *)
Fixpoint Plain (v : jsValue) : Prop :=
  match v with
  | JsNull => True
  | JsString s => noMarkup s
  | JsArray items =>
      (fix all (l : list jsValue) : Prop :=
         match l with
         | [] => True
         | x :: l' => Plain x /\ all l'
         end) items
  | JsObject fields =>
      (fix all (l : list (str * jsValue)) : Prop :=
         match l with
         | [] => True
         | f :: l' => (noMarkup (fst f) /\ Plain (snd f)) /\ all l'
         end) fields
  end.

(** The texts of a node: the lexemes and messages it holds. *)
Fixpoint texts (n : node) : list str :=
  match n with
  | Null => []
  | ErrorNode e => [e]
  | Program body => flat_map texts body
  | PreprocessorDirective v => [v]
  | FunctionDeclaration rt name ps body =>
      rt :: name :: flat_map texts ps ++ texts body
  | ParameterNode ty nm => [ty; nm]
  | CompoundStatement body => flat_map texts body
  | ReturnStatement e => texts e
  | IfStatement c t e => texts c ++ texts t ++ texts e
  | ForStatement i c u b => texts i ++ texts c ++ texts u ++ texts b
  | DeclarationStatement ty vs => ty :: flat_map texts vs
  | VariableDeclarator name e => name :: texts e
  | ExpressionStatement e => texts e
  | AssignmentExpression op l r => op :: texts l ++ texts r
  | BinaryExpression op l r => op :: texts l ++ texts r
  | PrefixExpression op a => op :: texts a
  | PostfixExpression op a => op :: texts a
  | Literal v => [v]
  | Identifier x => [x]
  | FunctionCall name args => name :: flat_map texts args
  | Unknown v => [v]
  end.

(** ** Printing statements and programs *)

Definition typeNames : list string := ["int"; "char"; "float"; "double"; "void"]%string.

Definition semicolon : token := tk SEPARATOR ";".
Definition comma : token := tk SEPARATOR ",".
Definition openParen : token := tk OPEN_PAREN "(".
Definition closeParen : token := tk CLOSE_PAREN ")".
Definition openBrace : token := tk OPEN_BRACE "{".
Definition closeBrace : token := tk CLOSE_BRACE "}".

(** [separated sep parts]: the parts with [sep] between them. *)
Fixpoint separated (sep : token) (parts : list (list token)) : list token :=
  match parts with
  | [] => []
  | [p] => p
  | p :: ps => p ++ sep :: separated sep ps
  end.

(** An expression, or none where the grammar lets it out: [return;],
    [for (;;)], [;]. *)
Definition OptExpr (e : node) : Prop := e = Null \/ Expr e.

Definition printDeclarator (v : node) : list token :=
  match v with
  | VariableDeclarator name initializer =>
      Token IDENTIFIER name ::
      match initializer with
      | Null => []
      | _ => oper "=" :: print 0 initializer
      end
  | _ => []
  end.

Definition Declr (v : node) : Prop :=
  exists name initializer, v = VariableDeclarator name initializer /\ OptExpr initializer.

(** A declaration without its semicolon. *)
Definition printDeclaration (d : node) : list token :=
  match d with
  | DeclarationStatement varType variables =>
      Token KEYWORD varType :: separated comma (map printDeclarator variables)
  | _ => []
  end.

Definition Decl (d : node) : Prop :=
  exists varType variables,
    d = DeclarationStatement varType variables /\
    strIn varType typeNames = true /\ variables <> [] /\
    Forall Declr variables.

(** The first part of a [for]: a declaration or an expression. *)
Definition printInitialization (i : node) : list token :=
  match i with
  | DeclarationStatement _ _ => printDeclaration i
  | _ => print 0 i
  end.

Fixpoint printStatement (s : node) : list token :=
  match s with
  | ReturnStatement e => tk KEYWORD "return" :: print 0 e ++ [semicolon]
  | ExpressionStatement e => print 0 e ++ [semicolon]
  | DeclarationStatement _ _ => printDeclaration s ++ [semicolon]
  | CompoundStatement body =>
      openBrace :: flat_map printStatement body ++ [closeBrace]
  | IfStatement c t e =>
      [tk KEYWORD "if"; openParen] ++ print 0 c ++ [closeParen]
        ++ printStatement t
        ++ match e with
           | Null => []
           | _ => tk KEYWORD "else" :: printStatement e
           end
  | ForStatement i c u b =>
      [tk KEYWORD "for"; openParen] ++ printInitialization i ++ [semicolon]
        ++ print 0 c ++ [semicolon] ++ print 0 u ++ [closeParen]
        ++ printStatement b
  | _ => []
  end.

(** A statement that ends with an [if] without [else]: an [else] after
    it would be taken for its own. *)
Fixpoint openIf (s : node) : bool :=
  match s with
  | IfStatement _ _ e =>
      match e with
      | Null => true
      | _ => openIf e
      end
  | ForStatement _ _ _ b => openIf b
  | _ => false
  end.

(** The statements that are printed: in an [if] with an [else], the
    first branch does not end with an [if] without [else]. *)
#[warnings="-register-all"]
Inductive Stmt : node -> Prop :=
| Stmt_Return e : OptExpr e -> Stmt (ReturnStatement e)
| Stmt_Expression e : OptExpr e -> Stmt (ExpressionStatement e)
| Stmt_Declaration d : Decl d -> Stmt d
| Stmt_Compound body : Forall Stmt body -> Stmt (CompoundStatement body)
| Stmt_If c t : OptExpr c -> Stmt t -> Stmt (IfStatement c t Null)
| Stmt_IfElse c t e :
    OptExpr c -> Stmt t -> openIf t = false -> Stmt e -> Stmt (IfStatement c t e)
| Stmt_For i c u b :
    OptExpr i \/ Decl i -> OptExpr c -> OptExpr u -> Stmt b ->
    Stmt (ForStatement i c u b).

(** The types of the tokens an expression, or the [;] of an empty
    statement, starts with. *)
Definition startsExpression (t : token) : bool :=
  match type t with
  | OPERATOR | IDENTIFIER | NUMBER | OPEN_PAREN | SEPARATOR => true
  | _ => false
  end.

Definition elseNext (rest : list token) : bool :=
  match rest with
  | t :: _ => isKeyword "else" t
  | [] => false
  end.

(** From the cursor on the first token of [printStatement s],
    [parseStatement] returns [s] with the cursor after the last. *)
Definition ParsesBack (s : node) : Prop :=
  forall tokens c rest,
    skipn c tokens = printStatement s ++ rest ->
    (openIf s = true -> elseNext rest = false) ->
    converges (parseStatement tokens) c s (c + length (printStatement s)).

(** A parameter is a type and a name; the name may be any text. *)
Definition printParameter (p : node) : list token :=
  match p with
  | ParameterNode paramType paramName =>
      [Token KEYWORD paramType; Token IDENTIFIER paramName]
  | _ => []
  end.

Definition Param (p : node) : Prop :=
  exists paramType paramName,
    p = ParameterNode paramType paramName /\ strIn paramType typeNames = true.

Definition printTop (n : node) : list token :=
  match n with
  | PreprocessorDirective v => [Token PREPROCESSOR v]
  | FunctionDeclaration returnType name parameters body =>
      [Token KEYWORD returnType; Token IDENTIFIER name; openParen]
        ++ separated comma (map printParameter parameters) ++ [closeParen]
        ++ printStatement body
  | _ => []
  end.

(** The directives and the function definitions that are printed. The
    text of a directive has no white space at its ends, as the lexer
    leaves it. *)
Inductive Top : node -> Prop :=
| Top_Directive v : trim v = v -> Top (PreprocessorDirective v)
| Top_Function returnType name parameters body :
    strIn returnType typeNames = true -> Forall Param parameters ->
    Forall Stmt body ->
    Top (FunctionDeclaration returnType name parameters (CompoundStatement body)).

(** The directives [parseProgram] makes of the preprocessor tokens. *)
Definition directives (tokens : list token) : list node :=
  map (fun t => PreprocessorDirective (trim (value t)))
      (filter (typeIs PREPROCESSOR) tokens).

(** The tokens of the arguments of a call. *)
Definition printArguments (args : list node) : list token :=
  separated comma (map (print 0) args).

(** * Fuel

    More fuel never changes an answer already given: a run that has
    returned or thrown does the same with any larger fuel. *)

Lemma le_parser_refl {A} (p : parser A) : le_parser p p.
Proof. intros c; right; reflexivity. Qed.

Lemma le_parser_bottom {A} (p : parser A) : le_parser outOfFuel p.
Proof. intros c; left; reflexivity. Qed.

Lemma le_parser_trans {A} (p q r : parser A) :
  le_parser p q -> le_parser q r -> le_parser p r.
Proof.
  intros Hpq Hqr c. destruct (Hpq c) as [E | E]; [left; exact E |].
  rewrite E. apply Hqr.
Qed.

Lemma le_parser_bind {A B} (m m' : parser A) (k k' : A -> parser B) :
  le_parser m m' -> (forall a, le_parser (k a) (k' a)) ->
  le_parser (bind m k) (bind m' k').
Proof.
  intros Hm Hk c. unfold bind.
  destruct (Hm c) as [E | E]; rewrite E.
  - left; reflexivity.
  - destruct (m' c); try (right; reflexivity). apply Hk.
Qed.

Ltac mono :=
  repeat first
    [ apply le_parser_bottom
    | apply le_parser_refl
    | match goal with H : _ |- _ => apply H end
    | apply le_parser_bind; [ | intros ]
    | match goal with
      | |- le_parser (match ?x with _ => _ end) _ => destruct x
      end ].

Section ParserFuel.

Variable tokens : list token.

Lemma parsePostfix_loop_step (n : nat) :
  forall operand,
    le_parser (parsePostfix_loop tokens n operand)
              (parsePostfix_loop tokens (S n) operand).
Proof.
  induction n as [| n IH]; intros operand; [apply le_parser_bottom |].
  cbn [parsePostfix_loop]. mono.
Qed.

Lemma expression_step_all (n : nat) : expression_step tokens n.
Proof.
  unfold expression_step.
  induction n as [| n IH].
  - repeat split; intros; apply le_parser_bottom.
  - destruct IH as (? & ? & ? & ? & ? & ? & ? & ? & ? & ? & ? & ? & ? & ?).
    pose proof (parsePostfix_loop_step n).
    pose proof (parsePostfix_loop_step (S n)).
    repeat split; intros;
      cbn [parseExpression parseAssignment parseEquality parseEquality_loop
           parseRelational parseRelational_loop parseAdditive
           parseAdditive_loop parseMultiplicative parseMultiplicative_loop
           parseUnary parsePostfix parsePrimary parsePrimary_args];
      unfold binaryRound; mono.
Qed.

Lemma parseExpression_step (n : nat) :
  le_parser (parseExpression tokens n) (parseExpression tokens (S n)).
Proof. apply (expression_step_all n). Qed.

Lemma parseDeclaration_loop_step (n : nat) :
  forall e v,
    le_parser (parseDeclaration_loop tokens n e v)
              (parseDeclaration_loop tokens (S n) e v).
Proof.
  induction n as [| n IH]; intros e v; [apply le_parser_bottom |].
  pose proof (parseExpression_step n).
  cbn [parseDeclaration_loop]. mono.
Qed.

Lemma parseDeclaration_step (n : nat) (e : bool) :
  le_parser (parseDeclaration tokens n e) (parseDeclaration tokens (S n) e).
Proof.
  destruct n as [| n]; [apply le_parser_bottom |].
  pose proof (parseDeclaration_loop_step n).
  cbn [parseDeclaration]. mono.
Qed.

Lemma parseReturnStatement_step (n : nat) :
  le_parser (parseReturnStatement tokens n) (parseReturnStatement tokens (S n)).
Proof.
  destruct n as [| n]; [apply le_parser_bottom |].
  pose proof (parseExpression_step n).
  cbn [parseReturnStatement]. mono.
Qed.

Lemma parseExpressionStatement_step (n : nat) :
  le_parser (parseExpressionStatement tokens n)
            (parseExpressionStatement tokens (S n)).
Proof.
  destruct n as [| n]; [apply le_parser_bottom |].
  pose proof (parseExpression_step n).
  cbn [parseExpressionStatement]. mono.
Qed.

Lemma statement_step_all (n : nat) : statement_step tokens n.
Proof.
  unfold statement_step.
  induction n as [| n IH].
  - repeat split; intros; apply le_parser_bottom.
  - destruct IH as (? & ? & ? & ? & ?).
    pose proof (parseExpression_step n).
    pose proof (parseDeclaration_step n).
    pose proof (parseReturnStatement_step n).
    pose proof (parseExpressionStatement_step n).
    repeat split; intros;
      cbn [parseStatement parseCompoundStatement parseCompoundStatement_loop
           parseIfStatement parseForStatement];
      mono.
Qed.

Lemma parseStatement_step (n : nat) :
  le_parser (parseStatement tokens n) (parseStatement tokens (S n)).
Proof. apply (statement_step_all n). Qed.

Lemma parseCompoundStatement_step (n : nat) :
  le_parser (parseCompoundStatement tokens n)
            (parseCompoundStatement tokens (S n)).
Proof. apply (statement_step_all n). Qed.

Lemma parseCompoundStatement_loop_step (n : nat) (b : list node) :
  le_parser (parseCompoundStatement_loop tokens n b)
            (parseCompoundStatement_loop tokens (S n) b).
Proof. apply (statement_step_all n). Qed.

Lemma parseFunctionDefinition_params_step (n : nat) :
  forall ps,
    le_parser (parseFunctionDefinition_params tokens n ps)
              (parseFunctionDefinition_params tokens (S n) ps).
Proof.
  induction n as [| n IH]; intros ps; [apply le_parser_bottom |].
  cbn [parseFunctionDefinition_params]. mono.
Qed.

Lemma parseFunctionDefinition_step (n : nat) :
  le_parser (parseFunctionDefinition tokens n)
            (parseFunctionDefinition tokens (S n)).
Proof.
  destruct n as [| n]; [apply le_parser_bottom |].
  pose proof (parseFunctionDefinition_params_step n).
  pose proof (parseCompoundStatement_step n).
  cbn [parseFunctionDefinition]. mono.
Qed.

Lemma parseProgram_loop_step (n : nat) :
  forall body,
    le_parser (parseProgram_loop tokens n body)
              (parseProgram_loop tokens (S n) body).
Proof.
  induction n as [| n IH]; intros body; [apply le_parser_bottom |].
  pose proof (parseFunctionDefinition_step n).
  cbn [parseProgram_loop]. mono.
Qed.

Lemma parseProgram_step (n : nat) :
  le_parser (parseProgram tokens n) (parseProgram tokens (S n)).
Proof.
  pose proof (parseProgram_loop_step n). unfold parseProgram. mono.
Qed.

End ParserFuel.

Lemma step_le {A} (f : nat -> parser A) :
  (forall n, le_parser (f n) (f (S n))) ->
  forall n m, n <= m -> le_parser (f n) (f m).
Proof.
  intros Hstep n m Hle. induction Hle as [| m _ IH].
  - apply le_parser_refl.
  - eapply le_parser_trans; [exact IH | apply Hstep].
Qed.

(** A run that has given an answer gives the same answer in any parser
    above it. *)
Lemma le_parser_done {A} (p q : parser A) (c : nat) (r : outcome A) :
  le_parser p q -> p c = r -> r <> OutOfFuel -> q c = r.
Proof.
  intros Hle Hp Hr. destruct (Hle c) as [E | E]; congruence.
Qed.

Lemma parse_fuel_le (tokens : list token) (n m : nat) :
  n <= m -> le_parser (parse n tokens) (parse m tokens).
Proof.
  apply (step_le (fun k => parse k tokens)).
  intros k. apply parseProgram_step.
Qed.

Lemma parse_fuel (tokens : list token) (n m : nat) (c : nat) (r : outcome node) :
  n <= m -> parse n tokens c = r -> r <> OutOfFuel -> parse m tokens c = r.
Proof.
  intros Hle. apply le_parser_done. apply parse_fuel_le; exact Hle.
Qed.

(** Two runs that both give an answer give the same answer, whatever the
    fuel of each. *)
Lemma le_parser_agree {A} (f : nat -> parser A) :
  (forall n, le_parser (f n) (f (S n))) ->
  forall n m c, f n c <> OutOfFuel -> f m c <> OutOfFuel -> f n c = f m c.
Proof.
  intros Hstep n m c Hn Hm.
  destruct (Nat.le_ge_cases n m) as [Hle | Hle].
  - symmetry. eapply le_parser_done; [apply (step_le f Hstep n m Hle) | reflexivity | exact Hn].
  - eapply le_parser_done; [apply (step_le f Hstep m n Hle) | reflexivity | exact Hm].
Qed.

(** * The matcher against a declarative reading of the patterns *)

Lemma lastOr_app (prev : option char) (m1 m2 : str) :
  lastOr prev (m1 ++ m2) = lastOr (lastOr prev m1) m2.
Proof. unfold lastOr. apply fold_left_app. Qed.

Lemma starLoop_sound (r0 : regex) (g : bool) (m0 : cont -> cont) :
  sound m0 r0 ->
  forall n k prev s x,
    starLoop m0 g k n prev s = Some x ->
    exists m rest,
      s = m ++ rest /\ Matches (Star g r0) prev m rest /\
      k (lastOr prev m) rest = Some x.
Proof.
  intros Hm0 n. induction n as [| n IH]; intros k prev s x H.
  - exists [], s. repeat split; [constructor | exact H].
  - cbn [starLoop] in H.
    assert (Hagain : forall y,
      m0 (fun p' s' => if length s' <? length s
                       then starLoop m0 g k n p' s' else None) prev s = Some y ->
      exists m rest,
        s = m ++ rest /\ Matches (Star g r0) prev m rest /\
        k (lastOr prev m) rest = Some y).
    { intros y Hy. apply Hm0 in Hy. destruct Hy as (m1 & rest1 & Hs & HM1 & Hk).
      destruct (length rest1 <? length s) eqn:Hlt; [| discriminate].
      apply IH in Hk. destruct Hk as (m2 & rest & Hrest1 & HM2 & Hk).
      exists (m1 ++ m2), rest. subst rest1. repeat split.
      - rewrite <- app_assoc. exact Hs.
      - apply M_StarS; try assumption.
        intros ->. apply Nat.ltb_lt in Hlt. simpl in Hs. subst s. lia.
      - rewrite lastOr_app. exact Hk. }
    assert (Hstop : forall y, k prev s = Some y ->
      exists m rest,
        s = m ++ rest /\ Matches (Star g r0) prev m rest /\
        k (lastOr prev m) rest = Some y).
    { intros y Hy. exists [], s. repeat split; [constructor | exact Hy]. }
    destruct g.
    + destruct (m0 _ prev s) eqn:E.
      * inversion H; subst. apply Hagain. reflexivity.
      * apply Hstop. exact H.
    + destruct (k prev s) eqn:E.
      * inversion H; subst. apply Hstop. reflexivity.
      * apply Hagain. exact H.
Qed.

Lemma rmatch_sound (r : regex) : sound (rmatch r) r.
Proof.
  induction r as [| p | r1 IH1 r2 IH2 | r1 IH1 r2 IH2 | g r0 IH | |];
    intros k prev s x H; cbn [rmatch] in H.
  - exists [], s. repeat split; [constructor | exact H].
  - destruct s as [| c s']; [discriminate |].
    destruct (p c) eqn:Hp; [| discriminate].
    exists [c], s'. repeat split; [constructor; exact Hp | exact H].
  - apply IH1 in H. destruct H as (m1 & rest1 & Hs & HM1 & H).
    apply IH2 in H. destruct H as (m2 & rest & Hr & HM2 & H).
    exists (m1 ++ m2), rest. subst rest1. repeat split.
    + rewrite <- app_assoc. exact Hs.
    + constructor; assumption.
    + rewrite lastOr_app. exact H.
  - destruct (rmatch r1 k prev s) eqn:E.
    + inversion H; subst. apply IH1 in E.
      destruct E as (m & rest & Hs & HM & Hk).
      exists m, rest. repeat split; [exact Hs | apply M_AltL; exact HM | exact Hk].
    + apply IH2 in H. destruct H as (m & rest & Hs & HM & Hk).
      exists m, rest. repeat split; [exact Hs | apply M_AltR; exact HM | exact Hk].
  - eapply starLoop_sound; [exact IH | exact H].
  - destruct prev; [discriminate |].
    exists [], s. repeat split; [constructor | exact H].
  - destruct (xorb _ _) eqn:Hx; [| discriminate].
    exists [], s. repeat split; [constructor; exact Hx | exact H].
Qed.

Lemma matchHere_sound (r : regex) (prev : option char) (s m : str) :
  matchHere r prev s = Some m ->
  exists rest, s = m ++ rest /\ Matches r prev m rest.
Proof.
  unfold matchHere. intros H.
  destruct (rmatch r accept prev s) as [rest' |] eqn:E; [| discriminate].
  inversion H; subst; clear H.
  apply rmatch_sound in E. destruct E as (m & rest & Hs & HM & Hk).
  unfold accept in Hk. inversion Hk; subst; clear Hk.
  exists rest'. split; [| ].
  - rewrite length_app, Nat.add_sub, firstn_app, Nat.sub_diag, firstn_all.
    simpl. rewrite app_nil_r. reflexivity.
  - rewrite length_app, Nat.add_sub, firstn_app, Nat.sub_diag, firstn_all.
    simpl. rewrite app_nil_r. exact HM.
Qed.

(** ** The fuel of a star

    A round of a star must consume input, so a star makes no more rounds
    than the input has characters: the fuel [S (length s)] it is given is
    never spent, and any larger fuel gives the same answer. *)

Lemma starLoop_ext (m0 : cont -> cont) (g : bool) :
  (forall k k', (forall p s, k p s = k' p s) ->
                forall p s, m0 k p s = m0 k' p s) ->
  forall n k k', (forall p s, k p s = k' p s) ->
                 forall p s, starLoop m0 g k n p s = starLoop m0 g k' n p s.
Proof.
  intros Hm0 n. induction n as [| n IH]; intros k k' Hk p s; cbn [starLoop].
  - apply Hk.
  - rewrite (Hk p s).
    rewrite (Hm0 _ (fun p' s' => if length s' <? length s
                                 then starLoop m0 g k' n p' s' else None)).
    + reflexivity.
    + intros p' s'. destruct (length s' <? length s); [| reflexivity].
      apply IH. exact Hk.
Qed.

Lemma rmatch_ext (r : regex) :
  forall k k', (forall p s, k p s = k' p s) ->
               forall p s, rmatch r k p s = rmatch r k' p s.
Proof.
  induction r as [| f | r1 IH1 r2 IH2 | r1 IH1 r2 IH2 | g r0 IH | |];
    intros k k' Hk p s; cbn [rmatch].
  - apply Hk.
  - destruct s as [| c s]; [reflexivity |]. destruct (f c); [apply Hk | reflexivity].
  - apply IH1. intros p' s'. apply IH2. exact Hk.
  - rewrite (IH1 k k' Hk), (IH2 k k' Hk). reflexivity.
  - apply starLoop_ext; assumption.
  - destruct p; [reflexivity | apply Hk].
  - destruct (xorb _ _); [apply Hk | reflexivity].
Qed.

Lemma starLoop_fuel (r : regex) (g : bool) (k : cont) (n : nat) :
  forall m p s,
    length s < n -> length s < m ->
    starLoop (rmatch r) g k n p s = starLoop (rmatch r) g k m p s.
Proof.
  induction n as [| n IH]; intros m p s Hn Hm; [lia |].
  destruct m as [| m]; [lia |]. cbn [starLoop].
  rewrite (rmatch_ext r _ (fun p' s' => if length s' <? length s
                                        then starLoop (rmatch r) g k m p' s'
                                        else None)).
  - reflexivity.
  - intros p' s'. destruct (Nat.ltb_spec (length s') (length s)); [| reflexivity].
    apply IH; lia.
Qed.

Lemma rmatch_Star_fuel (r : regex) (g : bool) (k : cont) (p : option char)
    (s : str) (extra : nat) :
  rmatch (Star g r) k p s = starLoop (rmatch r) g k (S (length s) + extra) p s.
Proof. cbn [rmatch]. apply starLoop_fuel; lia. Qed.

(** ** Patterns of the lexer *)

Lemma skip_anchored (r : regex) (c : char) (s : str) (idx : nat) :
  execFrom (Cat Bol r) (Some c) s idx = None.
Proof.
  revert c idx. induction s as [| d s IH]; intros c idx; simpl.
  - reflexivity.
  - apply IH.
Qed.

(** A pattern that starts with [^] matches at index 0 or not at all. *)
Lemma exec_anchored (r : regex) (s : str) :
  exec (Cat Bol r) s =
  match matchHere (Cat Bol r) None s with
  | Some m => Some (0, m)
  | None => None
  end.
Proof.
  unfold exec. destruct s as [| c s]; cbn [execFrom].
  - destruct (matchHere _ None []); reflexivity.
  - destruct (matchHere _ None (c :: s)); [reflexivity | apply skip_anchored].
Qed.

Lemma test_anchored (r : regex) (s : str) :
  test (Cat Bol r) s =
  match rmatch r accept None s with Some _ => true | None => false end.
Proof.
  unfold test. rewrite exec_anchored. unfold matchHere. cbn [rmatch].
  destruct (rmatch r accept None s); reflexivity.
Qed.

Lemma test_anchored_class (p : char -> bool) (c : char) (s : str) :
  test (Cat Bol (Cls p)) (c :: s) = p c.
Proof. rewrite test_anchored. cbn [rmatch]. destruct (p c); reflexivity. Qed.

Lemma test_class (p : char -> bool) (c : char) : test (Cls p) [c] = p c.
Proof. unfold test, exec. simpl. unfold matchHere. simpl. destruct (p c); reflexivity. Qed.

Lemma rmatch_Alts_last (rs : list regex) (r : regex) (k : cont)
    (prev : option char) (s : str) :
  rmatch r k prev s <> None -> rmatch (Alts rs r) k prev s <> None.
Proof.
  intros H. induction rs as [| r' rs IH]; cbn [Alts rmatch]; [exact H |].
  destruct (rmatch r' k prev s); [discriminate | exact IH].
Qed.

Lemma Matches_Str (l : str) (prev : option char) (m rest : str) :
  Matches (Str l) prev m rest -> m = l.
Proof.
  revert prev m. induction l as [| c l IH]; intros prev m H; cbn [Str] in H.
  - inversion H; reflexivity.
  - inversion H as [| | r1 r2 p m1 m2 rest' H1 H2 | | | | | |]; subst.
    inversion H1; subst. apply IH in H2. subst m2.
    match goal with E : (_ =? _)%N = true |- _ => apply N.eqb_eq in E; subst end.
    reflexivity.
Qed.

Lemma Matches_Alts (rs : list regex) (r : regex) (prev : option char)
    (m rest : str) :
  Matches (Alts rs r) prev m rest ->
  Exists (fun r' => Matches r' prev m rest) rs \/ Matches r prev m rest.
Proof.
  induction rs as [| r' rs IH]; cbn [Alts]; intros H.
  - right; exact H.
  - inversion H; subst.
    + left. constructor 1. assumption.
    + destruct (IH ltac:(assumption)) as [E | E]; [left; constructor 2; exact E | right; exact E].
Qed.

(** The operator pattern accepts a text as soon as its first character is
    an operator character. *)
Lemma test_OPERATOR (s : str) :
  test re_OPERATOR s =
  match s with c :: _ => isOperatorChar c | [] => false end.
Proof.
  unfold re_OPERATOR. rewrite test_anchored.
  destruct s as [| c s]; [reflexivity |].
  destruct (isOperatorChar c) eqn:Hc.
  - match goal with |- match ?x with _ => _ end = _ =>
      assert (Hx : x <> None); [| destruct x; [reflexivity | congruence]] end.
    apply rmatch_Alts_last. cbn [rmatch]. unfold isOperatorChar in Hc.
    rewrite Hc. discriminate.
  - match goal with |- match ?x with _ => _ end = _ => destruct x eqn:E end;
      [| reflexivity].
    exfalso. apply rmatch_sound in E. destruct E as (m & rest & Hs & HM & _).
    apply Matches_Alts in HM. destruct HM as [HM | HM].
    + apply Exists_exists in HM. destruct HM as (r' & Hin & HM).
      apply in_map_iff in Hin. destruct Hin as (w & <- & Hin).
      apply Matches_Str in HM. subst m. simpl in Hin.
      repeat destruct Hin as [<- | Hin]; try contradiction;
        vm_compute in Hs; inversion Hs; subst; vm_compute in Hc; discriminate.
    + inversion HM; subst. simpl in Hs. inversion Hs; subst.
      unfold isOperatorChar in Hc. congruence.
Qed.

(** * The lexer loses nothing *)

Lemma visible_app (a b : str) : visible (a ++ b) = visible a ++ visible b.
Proof. apply filter_app. Qed.

Lemma visible_trimStart (s : str) : visible (trimStart s) = visible s.
Proof.
  induction s as [| c s IH]; [reflexivity |].
  cbn [trimStart]. destruct (isSpace c) eqn:E; [| reflexivity].
  rewrite IH. cbn [visible filter]. rewrite E. reflexivity.
Qed.

Lemma visible_rev (s : str) : visible (rev s) = rev (visible s).
Proof. apply filter_rev. Qed.

Lemma visible_trim (s : str) : visible (trim s) = visible s.
Proof.
  unfold trim, trimEnd.
  rewrite visible_rev, visible_trimStart, visible_rev, rev_involutive.
  apply visible_trimStart.
Qed.

Lemma visible_cons (c : char) (s : str) :
  visible (c :: s) = if isSpace c then visible s else c :: visible s.
Proof. unfold visible. cbn [filter]. destruct (isSpace c); reflexivity. Qed.

Lemma visible_split (s : str) :
  visible (concat (split newline s)) = visible s.
Proof.
  induction s as [| c s IH]; [reflexivity |].
  cbn [split]. destruct (N.eqb c newline) eqn:E.
  - apply N.eqb_eq in E. subst c. cbn [concat app]. rewrite IH. reflexivity.
  - destruct (split newline s) as [| l ls] eqn:Es; cbn [concat app] in *;
      rewrite !visible_cons, <- IH; reflexivity.
Qed.

Lemma skipn_cons_nth (line : str) (i : nat) (c : char) :
  nth_error line i = Some c -> skipn i line = c :: skipn (S i) line.
Proof.
  revert i. induction line as [| d line IH]; intros [| i] H; try discriminate.
  - inversion H; reflexivity.
  - simpl in H. apply IH in H. exact H.
Qed.

Lemma skipn_nil_nth (line : str) (i : nat) :
  nth_error line i = None -> skipn i line = [].
Proof. intros H. apply skipn_all2. apply nth_error_None. exact H. Qed.

Lemma wordRun_prefix (s : str) : exists rest, s = wordRun s ++ rest.
Proof.
  induction s as [| c s IH]; [exists []; reflexivity |].
  cbn [wordRun]. destruct (test re_wordChar [c]).
  - destruct IH as (rest & IH). exists rest. simpl. rewrite <- IH. reflexivity.
  - exists (c :: s). reflexivity.
Qed.

Lemma classifyWith_value (entries : list (TokenType * regex)) (lexeme : str) :
  value (classifyWith entries lexeme) = lexeme.
Proof.
  induction entries as [| [ty re] entries IH]; [reflexivity |].
  cbn [classifyWith]. destruct (test re lexeme); [reflexivity | exact IH].
Qed.

Lemma classifyLexeme_value (lexeme : str) : value (classifyLexeme lexeme) = lexeme.
Proof. apply classifyWith_value. Qed.

(** A string literal found by the scanner is a prefix of the text it was
    looked for in, between two quotes. *)
Lemma exec_STRING_LITERAL (s : str) (idx : nat) (m : str) :
  exec re_STRING_LITERAL s = Some (idx, m) ->
  exists body rest, m = quote :: body ++ [quote] /\ s = m ++ rest.
Proof.
  unfold re_STRING_LITERAL. cbn [Cats]. rewrite exec_anchored.
  destruct (matchHere _ None s) as [m' |] eqn:E; [| discriminate].
  intros H. inversion H; subst; clear H.
  apply matchHere_sound in E. destruct E as (rest & Hs & HM).
  inversion HM as [| | r1 r2 p m1 m2 rest' H1 H2 | | | | | |]; subst; clear HM.
  inversion H1; subst; clear H1.
  inversion H2 as [| | r1 r2 p m1 m3 rest' H3 H4 | | | | | |]; subst; clear H2.
  inversion H3; subst; clear H3.
  inversion H4 as [| | r1 r2 p m4 m5 rest' H5 H6 | | | | | |]; subst; clear H4.
  inversion H6; subst; clear H6.
  repeat match goal with
         | E : isQuote _ = true |- _ => apply N.eqb_eq in E; subst
         end.
  exists m4, rest. split; reflexivity.
Qed.

Lemma scanLine_spec (n : nat) :
  forall line i,
    length line - i < n ->
    exists out,
      (forall toks, scanLine n line i toks = Some (toks ++ out)) /\
      visible (concat (map value out)) = visible (skipn i line).
Proof.
  induction n as [| n IH]; intros line i Hlen; [lia |].
  cbn [scanLine].
  destruct (nth_error line i) as [c |] eqn:Hc.
  2:{ exists []. rewrite (skipn_nil_nth _ _ Hc).
      split; [intros toks; rewrite app_nil_r |]; reflexivity. }
  pose proof (skipn_cons_nth _ _ _ Hc) as Hskip.
  assert (Hi : i < length line) by (apply nth_error_Some; congruence).
  assert (Hemit : forall t k, 1 <= k ->
    visible (value t) = visible (firstn k (skipn i line)) ->
    exists out,
      (forall toks, scanLine n line (i + k) (push toks t) = Some (toks ++ out)) /\
      visible (concat (map value out)) = visible (skipn i line)).
  { intros t k Hk Hv.
    destruct (IH line (i + k)) as (out & Hout & Hvis); [lia |].
    exists (t :: out). split.
    - intros toks. rewrite Hout. unfold push. rewrite <- app_assoc. reflexivity.
    - cbn [map concat]. rewrite visible_app, Hvis, Hv, <- visible_app.
      rewrite Nat.add_comm, <- skipn_skipn, firstn_skipn. reflexivity. }
  assert (Hone : forall ty,
    exists out,
      (forall toks,
         scanLine n line (i + 1) (push toks (Token ty [c])) = Some (toks ++ out)) /\
      visible (concat (map value out)) = visible (skipn i line)).
  { intros ty. apply Hemit; [lia |]. rewrite Hskip. reflexivity. }
  unfold re_space. rewrite test_class.
  destruct (isSpace c) eqn:Hsp.
  { destruct (IH line (i + 1)) as (out & Hout & Hvis); [lia |].
    exists out. split; [exact Hout |].
    rewrite Hvis, Hskip, Nat.add_1_r, visible_cons, Hsp. reflexivity. }
  destruct (_ && _)%bool.
  { exists [Token COMMENT (sliceFrom line i)]. split; [reflexivity |].
    cbn [map concat value]. rewrite app_nil_r. reflexivity. }
  destruct (N.eqb c quote) eqn:Hq.
  { apply N.eqb_eq in Hq. subst c.
    destruct (exec re_STRING_LITERAL (sliceFrom line i)) as [[idx m] |] eqn:E.
    - apply exec_STRING_LITERAL in E. destruct E as (body & rest & Hm & Hs).
      apply Hemit.
      + subst m. simpl. lia.
      + unfold sliceFrom in Hs. rewrite Hs, firstn_app, Nat.sub_diag, firstn_all.
        simpl. rewrite app_nil_r. reflexivity.
    - apply Hone. }
  destruct (test re_OPERATOR (slice line i (i + 2))).
  { apply Hemit; [lia |]. unfold slice.
    replace (i + 2 - i) with 2 by lia. reflexivity. }
  repeat match goal with
         | |- context [if test ?r [c] then _ else _] =>
             destruct (test r [c]); [apply Hone |]
         end.
  destruct (wordRun_prefix (sliceFrom line i)) as (rest & Hrest).
  set (lexeme := wordRun (sliceFrom line i)) in *.
  destruct (0 <? length lexeme) eqn:Hw.
  - apply Nat.ltb_lt in Hw. apply Hemit; [lia |].
    rewrite classifyLexeme_value. unfold sliceFrom in Hrest.
    rewrite Hrest, firstn_app, Nat.sub_diag, firstn_all.
    simpl. rewrite app_nil_r. reflexivity.
  - apply Hone.
Qed.

Lemma scanLines_spec (lines : list str) :
  exists out,
    (forall toks, scanLines lines toks = Some (toks ++ out)) /\
    visible (concat (map value out)) = visible (concat lines).
Proof.
  induction lines as [| line lines (out' & Hout' & Hvis')].
  - exists []. split; [intros toks; rewrite app_nil_r |]; reflexivity.
  - cbn [scanLines concat]. destruct (test re_hashLine line).
    + exists (Token PREPROCESSOR (trim line) :: out'). split.
      * intros toks. rewrite Hout'. unfold push. rewrite <- app_assoc. reflexivity.
      * cbn [map concat value]. rewrite !visible_app, Hvis', visible_trim.
        reflexivity.
    + destruct (scanLine_spec (S (length line)) line 0) as (out & Hout & Hvis);
        [lia |].
      exists (out ++ out'). split.
      * intros toks. rewrite Hout, Hout', app_assoc. reflexivity.
      * rewrite map_app, concat_app, !visible_app, Hvis, Hvis'. reflexivity.
Qed.

(** ** The block-comment pass *)

Lemma matchHere_blockComment (prev : option char) (s m : str) :
  matchHere blockComment prev s = Some m ->
  isBlockComment m /\ exists rest, s = m ++ rest.
Proof.
  intros E. apply matchHere_sound in E. destruct E as (rest & Hs & HM).
  split; [| exists rest; exact Hs]. clear Hs.
  unfold blockComment in HM. cbn [Cats] in HM.
  inversion HM as [| | r1 r2 p m1 m2 rest' H1 H2 | | | | | |]; subst; clear HM.
  inversion H1; subst; clear H1.
  inversion H2 as [| | r1 r2 p m1 m3 rest' H3 H4 | | | | | |]; subst; clear H2.
  inversion H3; subst; clear H3.
  inversion H4 as [| | r1 r2 p m4 m5 rest' H5 H6 | | | | | |]; subst; clear H4.
  inversion H6 as [| | r1 r2 p m6 m7 rest' H7 H8 | | | | | |]; subst; clear H6.
  inversion H7; subst; clear H7. inversion H8; subst; clear H8.
  repeat match goal with
         | E : (_ =? _)%N = true |- _ => apply N.eqb_eq in E; subst
         end.
  exists m4. reflexivity.
Qed.

Lemma replaceFrom_blockComment (n : nat) :
  forall prev s,
    length s < n ->
    exists ms out,
      replaceFrom n blockComment (fun m => repeat space (length m)) prev s
        = Some (ms, out) /\
      Blanked s ms out.
Proof.
  induction n as [| n IH]; intros prev s Hlen; [lia |].
  cbn [replaceFrom].
  destruct (matchHere blockComment prev s) as [m |] eqn:E.
  - apply matchHere_blockComment in E.
    destruct E as ((body & Hm) & rest & Hs).
    destruct m as [| c m']; [discriminate |].
    assert (Hrest : skipn (length (c :: m')) s = rest).
    { rewrite Hs, skipn_app, Nat.sub_diag, skipn_all. reflexivity. }
    rewrite Hrest.
    destruct (IH (Some (last (c :: m') c)) rest) as (ms & out & Hr & HB).
    { subst s. rewrite length_app in Hlen. simpl in Hlen. lia. }
    rewrite Hr. eexists _, _. split; [reflexivity |].
    subst s. apply Blanked_span; [exists body; exact Hm | exact HB].
  - destruct s as [| c s].
    + exists [], []. split; [reflexivity | constructor].
    + destruct (IH (Some c) s) as (ms & out & Hr & HB); [simpl in Hlen; lia |].
      rewrite Hr. eexists _, _. split; [reflexivity |].
      constructor. exact HB.
Qed.


(** The shape of every run of [tokenize]. *)
Lemma tokenize_structure (source : str) :
  exists matches blanked lineTokens,
    blankComments source = Some (matches, blanked) /\
    Blanked source matches blanked /\
    scanLines (split newline blanked) [] = Some lineTokens /\
    tokenize source = Some (map (Token COMMENT) matches ++ lineTokens) /\
    visible (concat (map value lineTokens)) = visible blanked.
Proof.
  destruct (replaceFrom_blockComment (S (length source)) None source)
    as (ms & out & Hr & HB); [lia |].
  destruct (scanLines_spec (split newline out)) as (lineTokens & Hscan & Hvis).
  exists ms, out, lineTokens. unfold tokenize, blankComments, replaceAll.
  rewrite Hr. repeat split.
  - exact HB.
  - apply (Hscan []).
  - apply Hscan.
  - rewrite Hvis. apply visible_split.
Qed.

(** ** Two runs of [parse] *)

Lemma parse_agree (tokens : list token) (n m : nat) (c : nat) :
  parse n tokens c <> OutOfFuel -> parse m tokens c <> OutOfFuel ->
  parse n tokens c = parse m tokens c.
Proof.
  apply (le_parser_agree (fun k => parse k tokens)).
  intros k. apply parseProgram_step.
Qed.

(** [parse] starts by setting the cursor: where the cursor was does not
    matter. *)
Lemma parse_resets (fuel : nat) (tokens : list token) (c c' : nat) :
  parse fuel tokens c = parse fuel tokens c'.
Proof. reflexivity. Qed.

(** * The properties *)

(** C5. Every reserved word is classified as a keyword and never as an
    identifier, although the identifier pattern matches it too: the
    keyword pattern comes first in the ordered list of patterns. *)
Theorem keyword_precedence (w : str) :
  In w keywords ->
  classifyLexeme w = Token KEYWORD w /\
  test re_IDENTIFIER w = true /\
  map fst tokenRegex =
    [PREPROCESSOR; KEYWORD; IDENTIFIER; NUMBER; STRING_LITERAL; OPERATOR;
     SEPARATOR; OPEN_PAREN; CLOSE_PAREN; OPEN_BRACE; CLOSE_BRACE; COMMENT].
Proof.
  intros H. cbn [keywords map] in H.
  repeat (destruct H as [<- | H]; [repeat split; vm_compute; reflexivity |]).
  contradiction.
Qed.

Lemma keyword_precedence_return :
  In (lit "return") keywords /\
  classifyLexeme (lit "return") = Token KEYWORD (lit "return").
Proof.
  assert (H : In (lit "return") keywords) by (vm_compute; tauto).
  split; [exact H | exact (proj1 (keyword_precedence (lit "return") H))].
Defined.

(** C3. [int main(){ return 0; }] is tokenized and parsed into a program
    of exactly one function declaration: return type [int], name [main],
    no parameter, and a compound statement holding one return statement
    of the literal [0]. *)
Theorem function_round_trip (extra current : nat) :
  tokenizeThenParse (15 + extra) (lit "int main(){ return 0; }") current =
  Some (Done (mainWith [ReturnStatement (Lit "0")]) 9).
Proof. vm_compute. reflexivity. Qed.

Lemma tokenize_1_plus_2_times_3 :
  tokenize (lit "1+2*3;") =
  Some [number "1"; oper "+2"; oper "*3"; tk SEPARATOR ";"].
Proof. vm_compute. reflexivity. Qed.

(** C1, as stated, fails: no run of the pipeline on [1+2*3;] returns a
    program with the expression statement anywhere inside; every run
    that returns gives the empty program. *)
Lemma precedence_through_pipeline_fails :
  ~ exists fuel current program current',
      tokenizeThenParse fuel (lit "1+2*3;") current
        = Some (Done program current') /\
      inside (ExpressionStatement tree_1_plus_2_times_3) program.
Proof.
  intros (fuel & current & program & current' & H & Hin).
  unfold tokenizeThenParse in H. rewrite tokenize_1_plus_2_times_3 in H.
  inversion H as [H']; clear H.
  match type of H' with parse _ ?toks _ = _ =>
    assert (H5 : parse 5 toks current = Done (Program []) 4)
      by (vm_compute; reflexivity);
    assert (E : parse fuel toks current = parse 5 toks current)
      by (apply parse_agree; congruence)
  end.
  rewrite H', H5 in E. inversion E; subst.
  inversion Hin as [| body n Hn _ | | | | | | | | | | | | |]; subst.
  inversion Hn.
Qed.

(** C1, amended. On the tokens [1 + 2 * 3 ;], each operator a token of its
    own, [parseExpressionStatement] returns the expression statement of
    [1 + (2 * 3)] and leaves the cursor after the semicolon; and [parse]
    returns a program with this statement inside when the tokens stand in
    the body of a function. *)
Theorem precedence_of_times_over_plus (extra current : nat) :
  parseExpressionStatement tokens_1_plus_2_times_3 (15 + extra) 0 =
    Done (ExpressionStatement tree_1_plus_2_times_3) 6 /\
  parse (20 + extra) (inMain tokens_1_plus_2_times_3) current =
    Done (mainWith [ExpressionStatement tree_1_plus_2_times_3]) 12 /\
  inside (ExpressionStatement tree_1_plus_2_times_3)
         (mainWith [ExpressionStatement tree_1_plus_2_times_3]).
Proof.
  split; [vm_compute; reflexivity |]. split; [vm_compute; reflexivity |].
  unfold mainWith.
  eapply inside_Program; [left; reflexivity |].
  eapply inside_FunctionDeclaration; [left; reflexivity |].
  eapply inside_CompoundStatement; [left; reflexivity |].
  apply inside_here.
Qed.

(** ** The cursor never moves back *)

Lemma steady_ret {A} (a : A) : steady (ret a).
Proof. intros c. simpl. lia. Qed.

Lemma steady_outOfFuel {A} : steady (@outOfFuel A).
Proof. intros c. exact I. Qed.

Lemma steady_advance : steady advance.
Proof. intros c. simpl. lia. Qed.

Lemma steady_bind {A B} (m : parser A) (k : A -> parser B) :
  steady m -> (forall a, steady (k a)) -> steady (bind m k).
Proof.
  intros Hm Hk c. unfold bind. specialize (Hm c).
  destruct (m c) as [a c' | |]; try exact I.
  specialize (Hk a c'). destruct (k a c'); try exact I. lia.
Qed.

Section Steady.

Variable tokens : list token.

Lemma steady_peek : steady (peek tokens).
Proof. intros c. simpl. lia. Qed.

Lemma steady_tokenAt : steady (tokenAt tokens).
Proof. intros c. unfold tokenAt. destruct (nth_error tokens c); simpl; lia. Qed.

Ltac steadily :=
  unfold binaryRound, skipSemicolon, skipIf, here, atEnd, atEndOr;
  repeat first
    [ apply steady_ret
    | apply steady_outOfFuel
    | apply steady_advance
    | apply steady_peek
    | apply steady_tokenAt
    | match goal with H : _ |- _ => apply H end
    | apply steady_bind; [ | intros ]
    | match goal with
      | |- steady (match ?x with _ => _ end) => destruct x
      end ].

Lemma parsePostfix_loop_steady (n : nat) :
  forall operand, steady (parsePostfix_loop tokens n operand).
Proof.
  induction n as [| n IH]; intros operand; [apply steady_outOfFuel |].
  cbn [parsePostfix_loop]. steadily.
Qed.

Lemma expression_steady_all (n : nat) : expression_steady tokens n.
Proof.
  unfold expression_steady.
  induction n as [| n IH].
  - repeat split; intros; apply steady_outOfFuel.
  - destruct IH as (? & ? & ? & ? & ? & ? & ? & ? & ? & ? & ? & ? & ? & ?).
    pose proof (parsePostfix_loop_steady n).
    repeat split; intros;
      cbn [parseExpression parseAssignment parseEquality parseEquality_loop
           parseRelational parseRelational_loop parseAdditive
           parseAdditive_loop parseMultiplicative parseMultiplicative_loop
           parseUnary parsePostfix parsePrimary parsePrimary_args];
      steadily.
Qed.

Lemma parseExpression_steady (n : nat) : steady (parseExpression tokens n).
Proof. apply (expression_steady_all n). Qed.

Lemma parseDeclaration_loop_steady (n : nat) :
  forall e v, steady (parseDeclaration_loop tokens n e v).
Proof.
  induction n as [| n IH]; intros e v; [apply steady_outOfFuel |].
  pose proof (parseExpression_steady n).
  cbn [parseDeclaration_loop]. steadily.
Qed.

Lemma parseDeclaration_steady (n : nat) (e : bool) :
  steady (parseDeclaration tokens n e).
Proof.
  destruct n as [| n]; [apply steady_outOfFuel |].
  pose proof (parseDeclaration_loop_steady n).
  cbn [parseDeclaration]. steadily.
Qed.

Lemma parseReturnStatement_steady (n : nat) :
  steady (parseReturnStatement tokens n).
Proof.
  destruct n as [| n]; [apply steady_outOfFuel |].
  pose proof (parseExpression_steady n).
  cbn [parseReturnStatement]. steadily.
Qed.

Lemma parseExpressionStatement_steady (n : nat) :
  steady (parseExpressionStatement tokens n).
Proof.
  destruct n as [| n]; [apply steady_outOfFuel |].
  pose proof (parseExpression_steady n).
  cbn [parseExpressionStatement]. steadily.
Qed.

Lemma statement_steady_all (n : nat) : statement_steady tokens n.
Proof.
  unfold statement_steady.
  induction n as [| n IH].
  - repeat split; intros; apply steady_outOfFuel.
  - destruct IH as (? & ? & ? & ? & ?).
    pose proof (parseExpression_steady n).
    pose proof (parseDeclaration_steady n).
    pose proof (parseReturnStatement_steady n).
    pose proof (parseExpressionStatement_steady n).
    repeat split; intros;
      cbn [parseStatement parseCompoundStatement parseCompoundStatement_loop
           parseIfStatement parseForStatement];
      steadily.
Qed.

Lemma parseStatement_steady (n : nat) : steady (parseStatement tokens n).
Proof. apply (statement_steady_all n). Qed.

Lemma parseCompoundStatement_steady (n : nat) :
  steady (parseCompoundStatement tokens n).
Proof. apply (statement_steady_all n). Qed.

Lemma parseFunctionDefinition_params_steady (n : nat) :
  forall ps, steady (parseFunctionDefinition_params tokens n ps).
Proof.
  induction n as [| n IH]; intros ps; [apply steady_outOfFuel |].
  cbn [parseFunctionDefinition_params]. steadily.
Qed.

Lemma parseFunctionDefinition_steady (n : nat) :
  steady (parseFunctionDefinition tokens n).
Proof.
  destruct n as [| n]; [apply steady_outOfFuel |].
  pose proof (parseFunctionDefinition_params_steady n).
  pose proof (parseCompoundStatement_steady n).
  cbn [parseFunctionDefinition]. steadily.
Qed.

Lemma parseProgram_loop_steady (n : nat) :
  forall body, steady (parseProgram_loop tokens n body).
Proof.
  induction n as [| n IH]; intros body; [apply steady_outOfFuel |].
  pose proof (parseFunctionDefinition_steady n).
  cbn [parseProgram_loop]. steadily.
Qed.

End Steady.

(** ** No exception *)

Lemma safe_bind_at {A B} (m : parser A) (k : A -> parser B) (c : nat) :
  m c <> Thrown ->
  (forall a c', m c = Done a c' -> k a c' <> Thrown) ->
  bind m k c <> Thrown.
Proof.
  intros Hm Hk. unfold bind. destruct (m c) as [a c' | |] eqn:E.
  - apply Hk. reflexivity.
  - congruence.
  - discriminate.
Qed.

Section Safe.
Variable tokens : list token.

Lemma safe_peek {B} (k : option token -> parser B) (c : nat) :
  k (nth_error tokens c) c <> Thrown -> bind (peek tokens) k c <> Thrown.
Proof. intros H. exact H. Qed.

Lemma safe_advance {B} (k : unit -> parser B) (c : nat) :
  k tt (S c) <> Thrown -> bind advance k c <> Thrown.
Proof. intros H. exact H. Qed.

Lemma safe_tokenAt {B} (k : token -> parser B) (c : nat) (t : token) :
  nth_error tokens c = Some t -> k t c <> Thrown ->
  bind (tokenAt tokens) k c <> Thrown.
Proof. intros Hc H. unfold bind, tokenAt. rewrite Hc. exact H. Qed.

Lemma safe_here {B} (p : token -> bool) (k : bool -> parser B) (c : nat) :
  k (match nth_error tokens c with Some t => p t | None => false end) c
    <> Thrown ->
  bind (here tokens p) k c <> Thrown.
Proof. intros H. exact H. Qed.

Lemma safe_atEndOr {B} (p : token -> bool) (k : bool -> parser B) (c : nat) :
  k (match nth_error tokens c with Some t => p t | None => true end) c
    <> Thrown ->
  bind (atEndOr tokens p) k c <> Thrown.
Proof. intros H. exact H. Qed.

Lemma safe_skipIf {B} (p : token -> bool) (k : unit -> parser B) (c : nat) :
  (if match nth_error tokens c with Some t => p t | None => false end
   then k tt (S c) else k tt c) <> Thrown ->
  bind (skipIf tokens p) k c <> Thrown.
Proof.
  intros H. unfold skipIf, here, bind, peek, ret in *.
  destruct (nth_error tokens c) as [t |]; [destruct (p t) |]; exact H.
Qed.

Ltac run :=
  unfold binaryRound, skipSemicolon, atEnd;
  repeat first
    [ progress cbv beta
    | match goal with
      | |- context [nth_error tokens ?c] => destruct (nth_error tokens c) eqn:?
      | |- ret _ _ <> Thrown => discriminate
      | |- outOfFuel _ <> Thrown => discriminate
      | |- advance _ <> Thrown => discriminate
      | H : nth_error tokens ?c = Some _ |- bind (tokenAt _) _ ?c <> Thrown =>
          apply (safe_tokenAt _ _ _ H)
      | |- bind (peek _) _ _ <> Thrown => apply safe_peek
      | |- bind (here _ _) _ _ <> Thrown => apply safe_here
      | |- bind (atEndOr _ _) _ _ <> Thrown => apply safe_atEndOr
      | |- bind (skipIf _ _) _ _ <> Thrown => apply safe_skipIf
      | |- bind advance _ _ <> Thrown => apply safe_advance
      | |- bind (if ?b then _ else _) _ _ <> Thrown => destruct b
      | H : forall c, ?f c <> Thrown |- ?f _ <> Thrown => apply H
      | H : forall x c, ?f x c <> Thrown |- ?f _ _ <> Thrown => apply H
      | H : forall x y c, ?f x y c <> Thrown |- ?f _ _ _ <> Thrown => apply H
      | H : forall c t, nth_error tokens c = Some t -> ?f c <> Thrown,
        H' : nth_error tokens ?c = Some _ |- ?f ?c <> Thrown => apply (H c _ H')
      | H : forall x c t, nth_error tokens c = Some t -> ?f x c <> Thrown,
        H' : nth_error tokens ?c = Some _ |- ?f _ ?c <> Thrown => apply (H _ c _ H')
      | |- bind _ _ _ <> Thrown => apply safe_bind_at; [ | intros ? ? _ ]
      | |- (if ?b then _ else _) _ <> Thrown => destruct b
      | |- (if ?b then _ else _) <> Thrown => destruct b
      | |- (match ?x with _ => _ end) _ <> Thrown => destruct x
      end ].

Lemma parsePostfix_loop_safe (n : nat) :
  forall operand c, parsePostfix_loop tokens n operand c <> Thrown.
Proof.
  induction n as [| n IH]; intros operand c; [discriminate |].
  cbn [parsePostfix_loop]. run.
Qed.

Lemma expression_safe_all (n : nat) : expression_safe tokens n.
Proof.
  unfold expression_safe.
  induction n as [| n IH].
  - repeat split; intros; discriminate.
  - destruct IH as (? & ? & ? & ? & ? & ? & ? & ? & ? & ? & ? & ? & ? & ?).
    pose proof (parsePostfix_loop_safe n).
    repeat split; intros;
      cbn [parseExpression parseAssignment parseEquality parseEquality_loop
           parseRelational parseRelational_loop parseAdditive
           parseAdditive_loop parseMultiplicative parseMultiplicative_loop
           parseUnary parsePostfix parsePrimary parsePrimary_args];
      run.
Qed.

Lemma parseExpression_safe (n : nat) : forall c, parseExpression tokens n c <> Thrown.
Proof. apply (expression_safe_all n). Qed.

Lemma parseDeclaration_loop_safe (n : nat) :
  forall e v c, parseDeclaration_loop tokens n e v c <> Thrown.
Proof.
  induction n as [| n IH]; intros e v c; [discriminate |].
  pose proof (parseExpression_safe n).
  cbn [parseDeclaration_loop]. run.
Qed.

Lemma parseDeclaration_safe (n : nat) (e : bool) :
  forall c t, nth_error tokens c = Some t -> parseDeclaration tokens n e c <> Thrown.
Proof.
  destruct n as [| n]; intros c t Hc; [discriminate |].
  pose proof (parseDeclaration_loop_safe n).
  cbn [parseDeclaration]. run.
Qed.

Lemma parseReturnStatement_safe (n : nat) :
  forall c, parseReturnStatement tokens n c <> Thrown.
Proof.
  destruct n as [| n]; intros c; [discriminate |].
  pose proof (parseExpression_safe n).
  cbn [parseReturnStatement]. run.
Qed.

Lemma parseExpressionStatement_safe (n : nat) :
  forall c, parseExpressionStatement tokens n c <> Thrown.
Proof.
  destruct n as [| n]; intros c; [discriminate |].
  pose proof (parseExpression_safe n).
  cbn [parseExpressionStatement]. run.
Qed.

Lemma statement_safe_all (n : nat) : statement_safe tokens n.
Proof.
  unfold statement_safe.
  induction n as [| n IH].
  - repeat split; intros; discriminate.
  - destruct IH as (? & ? & ? & ? & ?).
    pose proof (parseExpression_safe n).
    pose proof (fun e => parseDeclaration_safe n e).
    pose proof (parseReturnStatement_safe n).
    pose proof (parseExpressionStatement_safe n).
    repeat split; intros;
      cbn [parseStatement parseCompoundStatement parseCompoundStatement_loop
           parseIfStatement parseForStatement];
      run.
Qed.

Lemma parseFunctionDefinition_params_safe (n : nat) :
  forall ps c, parseFunctionDefinition_params tokens n ps c <> Thrown.
Proof.
  induction n as [| n IH]; intros ps c; [discriminate |].
  cbn [parseFunctionDefinition_params]. run.
Qed.

Lemma parseFunctionDefinition_safe (n : nat) :
  forall c t, nth_error tokens c = Some t ->
              parseFunctionDefinition tokens n c <> Thrown.
Proof.
  destruct n as [| n]; intros c t Hc; [discriminate |].
  pose proof (parseFunctionDefinition_params_safe n).
  pose proof (proj1 (proj2 (statement_safe_all n))).
  cbn [parseFunctionDefinition]. run.
Qed.

Lemma parseProgram_loop_safe (n : nat) :
  forall body c, parseProgram_loop tokens n body c <> Thrown.
Proof.
  induction n as [| n IH]; intros body c; [discriminate |].
  pose proof (parseFunctionDefinition_safe n).
  cbn [parseProgram_loop]. run.
Qed.

End Safe.

(** No run of [parse] throws: every read of [tokens[current]] that is
    not guarded in its own condition comes after a guard that holds at the
    same cursor. *)
Lemma parse_never_throws (tokens : list token) (fuel current : nat) :
  parse fuel tokens current <> Thrown.
Proof.
  unfold parse, parseProgram. apply safe_bind_at; [discriminate |].
  intros a c' _. apply parseProgram_loop_safe.
Qed.

(** C7. [int f(int a { return a; }], where the [)] is missing, is parsed
    without an exception into a program whose only node is the error
    [Unexpected end of input while parsing function parameters]; and no
    parse of any tokens throws. *)
Theorem missing_paren_is_an_error_node (extra current : nat) :
  tokenizeThenParse (9 + extra) (lit "int f(int a { return a; }") current =
  Some (Done (Program
                [ErrorNode
                   (lit "Unexpected end of input while parsing function parameters")])
             10) /\
  (forall tokens fuel, parse fuel tokens current <> Thrown).
Proof.
  split; [vm_compute; reflexivity |].
  intros tokens fuel. apply parse_never_throws.
Qed.

(** ** A parse that never returns *)

Lemma stray_paren_statement (n : nat) :
  parseStatement tokens_stray_paren n 5 = OutOfFuel \/
  parseStatement tokens_stray_paren n 5 = Done (ExpressionStatement Null) 5.
Proof.
  assert (H20 : parseStatement tokens_stray_paren 20 5
                = Done (ExpressionStatement Null) 5) by (vm_compute; reflexivity).
  pose proof (step_le (parseStatement tokens_stray_paren)
                (parseStatement_step tokens_stray_paren)) as Hle.
  destruct (Nat.le_ge_cases n 20) as [H | H].
  - destruct (Hle n 20 H 5) as [E | E]; [left; exact E | right; congruence].
  - right. apply (le_parser_done _ _ 5 _ (Hle 20 n H) H20). discriminate.
Qed.

Lemma stray_paren_loop (n : nat) :
  forall body, parseCompoundStatement_loop tokens_stray_paren n body 5 = OutOfFuel.
Proof.
  induction n as [| n IH]; intros body; [reflexivity |].
  change (parseCompoundStatement_loop tokens_stray_paren (S n) body 5) with
    (match parseStatement tokens_stray_paren n 5 with
     | Done stmt c =>
         parseCompoundStatement_loop tokens_stray_paren n (pushNode body stmt) c
     | Thrown => Thrown
     | OutOfFuel => OutOfFuel
     end).
  destruct (stray_paren_statement n) as [E | E]; rewrite E; [reflexivity | apply IH].
Qed.

(** The way down to the loop on [int f ( ) { ) }]: [parse] calls
    [parseFunctionDefinition] at the first token, which calls
    [parseCompoundStatement] at the brace, which enters its loop with the
    cursor on the stray parenthesis. *)
Lemma stray_paren_parse (n current : nat) :
  parse (S (S (S n))) tokens_stray_paren current =
  bind (parseFunctionDefinition tokens_stray_paren (S (S n)))
    (fun funcNode =>
       parseProgram_loop tokens_stray_paren (S (S n)) (pushNode [] funcNode))
    0.
Proof. reflexivity. Qed.

Lemma stray_paren_function (n : nat) :
  parseFunctionDefinition tokens_stray_paren (S (S n)) 0 =
  bind (parseCompoundStatement tokens_stray_paren (S n))
    (fun bodyNode => ret (FunctionDeclaration (lit "int") (lit "f") [] bodyNode))
    4.
Proof. reflexivity. Qed.

Lemma stray_paren_compound (n : nat) :
  parseCompoundStatement tokens_stray_paren (S n) 4 =
  bind (parseCompoundStatement_loop tokens_stray_paren n [])
    (fun body =>
       closed <- here tokens_stray_paren (typeIs CLOSE_BRACE) ;;
       if closed then advance ;; ret (CompoundStatement body)
       else ret (ErrorNode (lit "Expected '}' at end of compound statement")))
    5.
Proof. reflexivity. Qed.

(** C2, at an input on which it fails. The cursor never moves back
    inside a parse, but the parse need not halt, nor stop at the token
    count. [int f(){ ) }] is tokenized into seven tokens on which [parse]
    returns with no amount of fuel: at the [)] where a statement should
    start, [parseStatement] returns an empty expression statement without
    moving the cursor, and the loop of [parseCompoundStatement] calls it
    again and again. And on [int f(int] the parse returns with the cursor
    at 5, past the four tokens. *)
Theorem parse_stalls_at_stray_paren :
  tokenize (lit "int f(){ ) }") = Some tokens_stray_paren /\
  (forall fuel current, parse fuel tokens_stray_paren current = OutOfFuel) /\
  tokenize (lit "int f(int") = Some tokens_cut_parameter /\
  (forall extra current,
     exists body,
       parse (4 + extra) tokens_cut_parameter current = Done (Program body) 5 /\
       length tokens_cut_parameter < 5) /\
  (forall tokens fuel,
     (forall body, steady (parseProgram_loop tokens fuel body)) /\
     steady (parseFunctionDefinition tokens fuel) /\
     steady (parseStatement tokens fuel) /\
     steady (parseExpression tokens fuel)).
Proof.
  split; [vm_compute; reflexivity |].
  split.
  - intros fuel current.
    destruct fuel as [| [| [| n]]]; try reflexivity.
    rewrite stray_paren_parse. unfold bind at 1.
    rewrite stray_paren_function. unfold bind at 1.
    rewrite stray_paren_compound. unfold bind at 1.
    rewrite stray_paren_loop. reflexivity.
  - split; [vm_compute; reflexivity |].
    split.
    + intros extra current. eexists. split; [vm_compute; reflexivity |].
      simpl. lia.
    + intros tokens fuel. repeat split.
      * apply parseProgram_loop_steady.
      * apply parseFunctionDefinition_steady.
      * apply parseStatement_steady.
      * apply parseExpression_steady.
Qed.

(** ** One answer per input *)

(** C10. [tokenize] reads nothing but its argument, so two runs on one
    source return the same tokens; and two runs of [parse] on one token
    sequence that both return, whatever fuel each has and wherever the
    cursor was left before each (after a first run, for the second),
    return the same program and leave the same cursor: [parse] starts
    by setting the cursor to 0. *)
Theorem tokenize_parse_deterministic (source : str) (tokens t1 t2 : list token)
    (fuel1 fuel2 before1 before2 : nat) (p1 p2 : node) (after1 after2 : nat) :
  tokenize source = Some t1 ->
  tokenize source = Some t2 ->
  parse fuel1 tokens before1 = Done p1 after1 ->
  parse fuel2 tokens before2 = Done p2 after2 ->
  t1 = t2 /\ p1 = p2 /\ after1 = after2.
Proof.
  intros Ht1 Ht2 Hp1 Hp2. split; [congruence |].
  rewrite (parse_resets fuel2 tokens before2 before1) in Hp2.
  assert (E : parse fuel1 tokens before1 = parse fuel2 tokens before1)
    by (apply parse_agree; congruence).
  rewrite Hp1, Hp2 in E. inversion E. split; reflexivity.
Qed.

Lemma tokenize_parse_deterministic_main :
  let source := lit "int main(){ return 0; }" in
  let tokens := inMain [tk KEYWORD "return"; number "0"; tk SEPARATOR ";"] in
  let p := mainWith [ReturnStatement (Lit "0")] in
  (tokenize source = Some tokens /\
   parse 15 tokens 0 = Done p 9 /\
   parse 40 tokens 9 = Done p 9) /\
  (tokens = tokens /\ p = p /\ 9 = 9).
Proof.
  intros source tokens p.
  assert (Ht : tokenize source = Some tokens) by (vm_compute; reflexivity).
  assert (H1 : parse 15 tokens 0 = Done p 9) by (vm_compute; reflexivity).
  assert (H2 : parse 40 tokens 9 = Done p 9) by (vm_compute; reflexivity).
  split; [repeat split; assumption |].
  exact (tokenize_parse_deterministic source tokens tokens tokens 15 40 0 9
           p p 9 9 Ht Ht H1 H2).
Defined.

(** ** The two-character operator test *)

Lemma operator_char_cases (c : char) :
  isOperatorChar c = true -> In c (lit operatorChars).
Proof.
  unfold isOperatorChar, oneOf. intros H.
  apply existsb_exists in H. destruct H as (x & Hin & Hx).
  apply N.eqb_eq in Hx. subst x. exact Hin.
Qed.

Lemma operator_char_not_space (c : char) :
  isOperatorChar c = true -> isSpace c = false /\ N.eqb c quote = false.
Proof.
  intros H. apply operator_char_cases in H. vm_compute in H.
  repeat (destruct H as [<- | H]; [split; reflexivity |]). contradiction.
Qed.

Lemma slice_two (line : str) (i : nat) (c d : char) :
  nth_error line i = Some c -> nth_error line (S i) = Some d ->
  slice line i (i + 2) = [c; d].
Proof.
  intros Hc Hd. unfold slice. replace (i + 2 - i) with 2 by lia.
  rewrite (skipn_cons_nth _ _ _ Hc), (skipn_cons_nth _ _ _ Hd). reflexivity.
Qed.

(** C9, as stated, fails: at the first [/] of [1//2] the scanner emits the
    line comment, not the operator token [//]. *)
Lemma two_char_operator_fails_at_line_comment :
  ~ (forall (line : str) (i : nat) (c d : char) (toks : list token) (fuel : nat),
       nth_error line i = Some c ->
       nth_error line (S i) = Some d ->
       isOperatorChar c = true ->
       scanLine (S fuel) line i toks =
       scanLine fuel line (i + 2) (push toks (Token OPERATOR [c; d]))).
Proof.
  intros H.
  specialize (H (lit "1//2") 1 (ch "/") (ch "/") [number "1"] 5
                eq_refl eq_refl eq_refl).
  vm_compute in H. discriminate.
Qed.

(** ** Totality and losslessness of the lexer *)

Lemma isWord_cases (c : char) :
  isWord c = true ->
  (isLower c || isUpper c || N.eqb c (ch "_"))%bool = true \/ isDigit c = true.
Proof.
  unfold isWord.
  destruct (isLower c), (isUpper c), (isDigit c), (N.eqb c (ch "_"));
    simpl; auto.
Qed.





(** ** Lines *)

Lemma split_not_nil (sep : char) (s : str) : split sep s <> [].
Proof.
  induction s as [| c s IH]; cbn [split]; [discriminate |].
  destruct (N.eqb c sep); [discriminate |].
  destruct (split sep s); [congruence | discriminate].
Qed.

Lemma split_app (sep : char) (a b : str) :
  split sep (a ++ sep :: b) = split sep a ++ split sep b.
Proof.
  induction a as [| c a IH]; cbn [app split].
  - rewrite N.eqb_refl. reflexivity.
  - destruct (N.eqb c sep); [rewrite IH; reflexivity |].
    rewrite IH. pose proof (split_not_nil sep a).
    destruct (split sep a); [congruence | reflexivity].
Qed.

Lemma scanLines_app (l1 l2 : list str) :
  forall toks,
    scanLines (l1 ++ l2) toks =
    match scanLines l1 toks with
    | Some toks' => scanLines l2 toks'
    | None => None
    end.
Proof.
  induction l1 as [| line l1 IH]; intros toks; cbn [app scanLines]; [reflexivity |].
  destruct (test re_hashLine line); [apply IH |].
  destruct (scanLine _ line 0 toks); [apply IH | reflexivity].
Qed.

Lemma split_line (line : str) : ~ In newline line -> split newline line = [line].
Proof.
  induction line as [| c line IH]; intros H; [reflexivity |].
  cbn [split]. destruct (N.eqb c newline) eqn:E.
  - apply N.eqb_eq in E. exfalso. apply H. left. exact E.
  - rewrite IH; [reflexivity |]. intros Hin. apply H. right. exact Hin.
Qed.

Lemma lineOf_split (text above line below : str) :
  lineOf text above line below ->
  exists la lb,
    split newline text = la ++ line :: lb /\
    visible (concat la) = visible above /\
    visible (concat lb) = visible below.
Proof.
  intros (-> & Hline & Ha & Hb).
  assert (Hrest : exists lb,
            split newline (line ++ below) = line :: lb /\
            visible (concat lb) = visible below).
  { destruct Hb as [-> | (b & ->)].
    - exists []. rewrite app_nil_r, (split_line line Hline). split; reflexivity.
    - exists (split newline b). rewrite split_app, (split_line line Hline).
      split; [reflexivity |]. rewrite visible_split. reflexivity. }
  destruct Hrest as (lb & Hsplit & Hvb).
  destruct Ha as [-> | (a & ->)].
  - exists [], lb. cbn [app]. repeat split; assumption.
  - exists (split newline a), lb.
    rewrite <- app_assoc. cbn [app]. rewrite split_app, Hsplit.
    repeat split; [| exact Hvb].
    rewrite visible_split, visible_app. cbn. rewrite app_nil_r. reflexivity.
Qed.

(** The tokens of a line among the tokens of the text. *)
Lemma scanLines_line (text above line below : str) (mid : list token) :
  lineOf text above line below ->
  test re_hashLine line = false ->
  (forall toks, scanLine (S (length line)) line 0 toks = Some (toks ++ mid)) ->
  exists ta tb,
    (forall toks,
       scanLines (split newline text) toks = Some (toks ++ ta ++ mid ++ tb)) /\
    visible (concat (map value ta)) = visible above /\
    visible (concat (map value tb)) = visible below.
Proof.
  intros Hl Hhash Hmid.
  destruct (lineOf_split _ _ _ _ Hl) as (la & lb & -> & Hva & Hvb).
  destruct (scanLines_spec la) as (ta & Hta & Hvta).
  destruct (scanLines_spec lb) as (tb & Htb & Hvtb).
  exists ta, tb. repeat split.
  - intros toks. rewrite scanLines_app, Hta. cbn [scanLines].
    rewrite Hhash, Hmid, Htb, <- !app_assoc. reflexivity.
  - rewrite Hvta. exact Hva.
  - rewrite Hvtb. exact Hvb.
Qed.

Lemma tokenize_line (source : str) (matches : list str)
    (blanked above line below : str) (mid : list token) :
  blankComments source = Some (matches, blanked) ->
  lineOf blanked above line below ->
  test re_hashLine line = false ->
  (forall toks, scanLine (S (length line)) line 0 toks = Some (toks ++ mid)) ->
  exists ta tb,
    tokenize source = Some (map (Token COMMENT) matches ++ ta ++ mid ++ tb) /\
    visible (concat (map value ta)) = visible above /\
    visible (concat (map value tb)) = visible below.
Proof.
  intros Hb Hl Hhash Hmid.
  destruct (scanLines_line _ _ _ _ mid Hl Hhash Hmid) as (ta & tb & Hs & Hva & Hvb).
  exists ta, tb. unfold tokenize. rewrite Hb, Hs. repeat split; assumption.
Qed.

(** ** The scan of a quiet text *)

Lemma firstn_add {A} (a b : nat) (l : list A) :
  firstn (a + b) l = firstn a l ++ firstn b (skipn a l).
Proof.
  revert l. induction a as [| a IH]; intros l; [reflexivity |].
  destruct l as [| x l]; cbn [plus firstn skipn app].
  - rewrite firstn_nil. reflexivity.
  - rewrite IH. reflexivity.
Qed.

Lemma wordRun_length (s : str) (j : nat) :
  match nth_error s j with
  | Some x => isWord x = false
  | None => True
  end ->
  length (wordRun s) <= j.
Proof.
  revert j. induction s as [| c s IH]; intros j H; cbn [wordRun length]; [lia |].
  unfold re_wordChar. rewrite test_class.
  destruct (isWord c) eqn:E; cbn [length]; [| lia].
  destruct j as [| j]; cbn [nth_error] in H; [congruence |].
  specialize (IH j H). lia.
Qed.

Lemma scanLine_quiet (line : str) (p : nat) :
  quiet (firstn p line) -> p <= length line ->
  match nth_error line p with
  | Some x => isWord x = false
  | None => True
  end ->
  forall m i,
    i <= p -> p - i <= m ->
    exists before steps,
      steps <= p - i /\
      visible (concat (map value before)) = visible (firstn (p - i) (skipn i line)) /\
      forall n toks,
        scanLine (steps + n) line i toks = scanLine n line p (toks ++ before).
Proof.
  intros Hq Hp Hstop.
  induction m as [| m IH]; intros i Hi Hm.
  { exists [], 0. replace (p - i) with 0 by lia. replace i with p by lia.
    repeat split; [lia |]. intros n toks. rewrite app_nil_r. reflexivity. }
  destruct (Nat.eq_dec i p) as [-> | Hne].
  { exists [], 0. rewrite Nat.sub_diag.
    repeat split; [lia |]. intros n toks. rewrite app_nil_r. reflexivity. }
  assert (Hlt : i < p) by lia.
  destruct (nth_error line i) as [c |] eqn:Hc.
  2:{ apply nth_error_None in Hc. lia. }
  pose proof (skipn_cons_nth _ _ _ Hc) as Hskip.
  assert (Hin : In c (firstn p line)).
  { apply (nth_error_In _ i). rewrite nth_error_firstn.
    destruct (Nat.ltb_spec i p); [exact Hc | lia]. }
  unfold quiet in Hq. rewrite Forall_forall in Hq.
  destruct (Hq c Hin) as [Hop Hquote].
  assert (Hemit : forall t k, 1 <= k -> i + k <= p ->
    visible (value t) = visible (firstn k (skipn i line)) ->
    (forall f toks,
       scanLine (S f) line i toks = scanLine f line (i + k) (push toks t)) ->
    exists before steps,
      steps <= p - i /\
      visible (concat (map value before)) = visible (firstn (p - i) (skipn i line)) /\
      forall n toks,
        scanLine (steps + n) line i toks = scanLine n line p (toks ++ before)).
  { intros t k Hk Hik Hv Hstep.
    destruct (IH (i + k)) as (before & steps & Hs & Hvis & Hrun); [lia | lia |].
    exists (t :: before), (S steps). split; [lia |]. split.
    - cbn [map concat]. rewrite visible_app, Hv, Hvis, <- visible_app.
      replace (p - i) with (k + (p - (i + k))) by lia.
      rewrite firstn_add, skipn_skipn, (Nat.add_comm k i). reflexivity.
    - intros n toks. cbn [plus]. rewrite Hstep, Hrun. unfold push.
      rewrite <- app_assoc. reflexivity. }
  destruct (isSpace c) eqn:Hsp.
  { destruct (IH (i + 1)) as (before & steps & Hs & Hvis & Hrun); [lia | lia |].
    exists before, (S steps). split; [lia |]. split.
    - rewrite Hvis. replace (p - i) with (S (p - (i + 1))) by lia.
      rewrite Hskip. cbn [firstn]. rewrite visible_cons, Hsp, Nat.add_1_r.
      reflexivity.
    - intros n toks. cbn [plus scanLine]. rewrite Hc. unfold re_space.
      rewrite test_class, Hsp. apply Hrun. }
  assert (Hslash : N.eqb c (ch "/") = false).
  { destruct (N.eqb c (ch "/")) eqn:E; [| reflexivity].
    apply N.eqb_eq in E. subst c. vm_compute in Hop. discriminate. }
  assert (Hnq : N.eqb c quote = false) by (apply N.eqb_neq; exact Hquote).
  assert (Htwo : test re_OPERATOR (slice line i (i + 2)) = false).
  { rewrite test_OPERATOR. unfold slice. replace (i + 2 - i) with 2 by lia.
    rewrite Hskip. cbn [firstn]. exact Hop. }
  assert (Hone : test re_OPERATOR [c] = false) by (rewrite test_OPERATOR; exact Hop).
  assert (Hchar : forall ty, visible (value (Token ty [c])) =
                             visible (firstn 1 (skipn i line))).
  { intros ty. rewrite Hskip. reflexivity. }
  destruct (test re_SEPARATOR [c]) eqn:E1.
  { apply (Hemit (Token SEPARATOR [c]) 1); [lia | lia | apply Hchar |].
    intros f toks. cbn [scanLine]. rewrite Hc. unfold re_space.
    rewrite test_class, Hsp, Hslash. cbn [andb]. rewrite Hnq, Htwo, Hone, E1.
    reflexivity. }
  destruct (test re_OPEN_PAREN [c]) eqn:E2.
  { apply (Hemit (Token OPEN_PAREN [c]) 1); [lia | lia | apply Hchar |].
    intros f toks. cbn [scanLine]. rewrite Hc. unfold re_space.
    rewrite test_class, Hsp, Hslash. cbn [andb]. rewrite Hnq, Htwo, Hone, E1, E2.
    reflexivity. }
  destruct (test re_CLOSE_PAREN [c]) eqn:E3.
  { apply (Hemit (Token CLOSE_PAREN [c]) 1); [lia | lia | apply Hchar |].
    intros f toks. cbn [scanLine]. rewrite Hc. unfold re_space.
    rewrite test_class, Hsp, Hslash. cbn [andb].
    rewrite Hnq, Htwo, Hone, E1, E2, E3. reflexivity. }
  destruct (test re_OPEN_BRACE [c]) eqn:E4.
  { apply (Hemit (Token OPEN_BRACE [c]) 1); [lia | lia | apply Hchar |].
    intros f toks. cbn [scanLine]. rewrite Hc. unfold re_space.
    rewrite test_class, Hsp, Hslash. cbn [andb].
    rewrite Hnq, Htwo, Hone, E1, E2, E3, E4. reflexivity. }
  destruct (test re_CLOSE_BRACE [c]) eqn:E5.
  { apply (Hemit (Token CLOSE_BRACE [c]) 1); [lia | lia | apply Hchar |].
    intros f toks. cbn [scanLine]. rewrite Hc. unfold re_space.
    rewrite test_class, Hsp, Hslash. cbn [andb].
    rewrite Hnq, Htwo, Hone, E1, E2, E3, E4, E5. reflexivity. }
  destruct (wordRun_prefix (sliceFrom line i)) as (rest & Hrest).
  assert (Hlen : length (wordRun (sliceFrom line i)) <= p - i).
  { apply wordRun_length. unfold sliceFrom. rewrite nth_error_skipn.
    replace (i + (p - i)) with p by lia. exact Hstop. }
  destruct (0 <? length (wordRun (sliceFrom line i))) eqn:Hw.
  - apply Nat.ltb_lt in Hw.
    apply (Hemit (classifyLexeme (wordRun (sliceFrom line i)))
             (length (wordRun (sliceFrom line i)))); [lia | lia | |].
    + rewrite classifyLexeme_value. unfold sliceFrom in *.
      rewrite Hrest at 3. rewrite firstn_app, Nat.sub_diag, firstn_all.
      cbn [firstn]. rewrite app_nil_r. reflexivity.
    + intros f toks. cbn [scanLine]. rewrite Hc. unfold re_space.
      rewrite test_class, Hsp, Hslash. cbn [andb].
      rewrite Hnq, Htwo, Hone, E1, E2, E3, E4, E5.
      apply Nat.ltb_lt in Hw. rewrite Hw. reflexivity.
  - apply (Hemit (Token UNDEFINED [c]) 1); [lia | lia | apply Hchar |].
    intros f toks. cbn [scanLine]. rewrite Hc. unfold re_space.
    rewrite test_class, Hsp, Hslash. cbn [andb].
    rewrite Hnq, Htwo, Hone, E1, E2, E3, E4, E5, Hw. reflexivity.
Qed.

(** A token the scanner makes where it stands, with what it has made
    before and what it makes after. *)
Lemma scanLine_from (line : str) (i k : nat) (t : token) :
  i < length line -> 1 <= k ->
  (forall n toks,
     scanLine (S n) line i toks = scanLine n line (i + k) (push toks t)) ->
  forall fuel toks,
    length line - i <= fuel ->
    exists after,
      scanLine (S fuel) line i toks = Some (toks ++ t :: after) /\
      scanLine fuel line (i + k) [] = Some after /\
      visible (concat (map value after)) = visible (skipn (i + k) line).
Proof.
  intros Hi Hk Hstep fuel toks Hfuel.
  destruct (scanLine_spec fuel line (i + k)) as (after & Hafter & Hvis); [lia |].
  exists after. rewrite Hstep, !Hafter. unfold push. rewrite <- app_assoc.
  repeat split. exact Hvis.
Qed.

Lemma scanLine_at (line : str) (p k : nat) (t : token) :
  quiet (firstn p line) -> p < length line -> 1 <= k ->
  match nth_error line p with
  | Some x => isWord x = false
  | None => True
  end ->
  (forall n toks,
     scanLine (S n) line p toks = scanLine n line (p + k) (push toks t)) ->
  exists before after,
    (forall toks,
       scanLine (S (length line)) line 0 toks = Some (toks ++ before ++ t :: after)) /\
    visible (concat (map value before)) = visible (firstn p line) /\
    visible (concat (map value after)) = visible (skipn (p + k) line).
Proof.
  intros Hq Hp Hk Hstop Hstep.
  destruct (scanLine_quiet line p Hq ltac:(lia) Hstop p 0 ltac:(lia) ltac:(lia))
    as (before & steps & Hs & Hvis & Hrun).
  rewrite Nat.sub_0_r in *. cbn [skipn] in Hvis.
  destruct (scanLine_from line p k t Hp Hk Hstep (length line - steps) [])
    as (after & _ & Hafter & Hva); [lia |].
  exists before, after. repeat split; [| exact Hvis | exact Hva].
  intros toks.
  replace (S (length line)) with (steps + S (length line - steps)) by lia.
  rewrite Hrun.
  destruct (scanLine_from line p k t Hp Hk Hstep (length line - steps)
              (toks ++ before)) as (after' & Hrun' & Hafter' & _); [lia |].
  rewrite Hrun', <- app_assoc. congruence.
Qed.

(** The step of the scanner at an operator character that another
    character follows. *)
Lemma two_char_step (line : str) (i : nat) (c d : char) :
  nth_error line i = Some c ->
  nth_error line (S i) = Some d ->
  isOperatorChar c = true ->
  ~ (c = ch "/" /\ d = ch "/") ->
  forall fuel toks,
    scanLine (S fuel) line i toks =
    scanLine fuel line (i + 2) (push toks (Token OPERATOR [c; d])).
Proof.
  intros Hc Hd Hop Hcomment fuel toks.
  destruct (operator_char_not_space c Hop) as [Hsp Hq].
  cbn [scanLine]. rewrite Hc. unfold re_space. rewrite test_class, Hsp.
  rewrite Nat.add_1_r, Hd.
  destruct (N.eqb c (ch "/") && N.eqb d (ch "/"))%bool eqn:E.
  { apply andb_true_iff in E. destruct E as [E1 E2].
    apply N.eqb_eq in E1, E2. tauto. }
  rewrite Hq, (slice_two line i c d Hc Hd), test_OPERATOR, Hop.
  reflexivity.
Qed.

Lemma operator_char_not_word (c : char) :
  isOperatorChar c = true -> isWord c = false.
Proof.
  intros H. apply operator_char_cases in H. vm_compute in H.
  repeat (destruct H as [<- | H]; [reflexivity |]). contradiction.
Qed.


(** ** What the scanner emits *)

(** C9, amended. When the scanner is at an operator character [c] that
    is followed on its line by a character [d], and [c d] is not [//], it
    emits the one operator token [c d], whatever [d] is, and goes on two
    characters further: whatever tokens it has made so far, the scan of
    the line from [c] returns them, then the token [c d], then the tokens
    of the scan from two characters further. The scanner is at [c]
    whenever no operator character and no double quote stands before [c]
    on its line and the line is not a preprocessor line: then, for every
    source whose text without block comments has this line, [tokenize]
    returns the token [c d], after the tokens of what stands before [c]
    and before the tokens of what stands after [d]. *)
Theorem two_char_operator (line : str) (i : nat) (c d : char) :
  nth_error line i = Some c ->
  nth_error line (S i) = Some d ->
  isOperatorChar c = true ->
  ~ (c = ch "/" /\ d = ch "/") ->
  (forall toks fuel,
     length line - i <= fuel ->
     exists after,
       scanLine (S fuel) line i toks =
         Some (toks ++ Token OPERATOR [c; d] :: after) /\
       scanLine fuel line (i + 2) [] = Some after) /\
  (forall source matches blanked above below,
     blankComments source = Some (matches, blanked) ->
     lineOf blanked above line below ->
     test re_hashLine line = false ->
     quiet (firstn i line) ->
     exists ta before after,
       tokenize source =
         Some (map (Token COMMENT) matches ++ ta ++ before
                 ++ Token OPERATOR [c; d] :: after) /\
       visible (concat (map value ta)) = visible above /\
       visible (concat (map value before)) = visible (firstn i line) /\
       visible (concat (map value after)) = visible (skipn (i + 2) line ++ below)).
Proof.
  intros Hc Hd Hop Hcomment.
  assert (Hi : i < length line) by (apply nth_error_Some; congruence).
  pose proof (two_char_step line i c d Hc Hd Hop Hcomment) as Hstep.
  assert (Hstep' : forall n toks,
            scanLine (S n) line i toks =
            scanLine n line (i + 2) (push toks (Token OPERATOR [c; d])))
    by (intros n toks; apply Hstep).
  split.
  - intros toks fuel Hfuel.
    destruct (scanLine_from line i 2 _ Hi ltac:(lia) Hstep' fuel toks Hfuel)
      as (after & H1 & H2 & _).
    exists after. split; assumption.
  - intros source matches blanked above below Hb Hl Hhash Hq.
    destruct (scanLine_at line i 2 (Token OPERATOR [c; d]) Hq Hi ltac:(lia))
      as (before & after & Hrun & Hvb & Hva); [| exact Hstep' |].
    { rewrite Hc. apply operator_char_not_word. exact Hop. }
    destruct (tokenize_line source matches blanked above line below
                (before ++ Token OPERATOR [c; d] :: after) Hb Hl Hhash Hrun)
      as (ta & tb & Ht & Hvta & Hvtb).
    exists ta, before, (after ++ tb). rewrite Ht, <- !app_assoc. cbn [app].
    repeat split; [exact Hvta | exact Hvb |].
    rewrite map_app, concat_app, !visible_app, Hva, Hvtb. reflexivity.
Qed.

Lemma two_char_operator_in_1_plus_2 :
  (nth_error (lit "1+2") 1 = Some (ch "+") /\
   nth_error (lit "1+2") 2 = Some (ch "2") /\
   isOperatorChar (ch "+") = true /\
   ~ (ch "+" = ch "/" /\ ch "2" = ch "/")) /\
  (exists after,
     scanLine 3 (lit "1+2") 1 [number "1"] =
       Some ([number "1"] ++ Token OPERATOR [ch "+"; ch "2"] :: after) /\
     scanLine 2 (lit "1+2") (1 + 2) [] = Some after) /\
  (blankComments (lit "1+2") = Some ([], lit "1+2") /\
   lineOf (lit "1+2") [] (lit "1+2") [] /\
   test re_hashLine (lit "1+2") = false /\
   quiet (firstn 1 (lit "1+2"))) /\
  exists ta before after,
    tokenize (lit "1+2") =
      Some (map (Token COMMENT) [] ++ ta ++ before
              ++ Token OPERATOR [ch "+"; ch "2"] :: after) /\
    visible (concat (map value ta)) = visible [] /\
    visible (concat (map value before)) = visible (firstn 1 (lit "1+2")) /\
    visible (concat (map value after)) = visible (skipn (1 + 2) (lit "1+2") ++ []).
Proof.
  assert (Hc : nth_error (lit "1+2") 1 = Some (ch "+")) by reflexivity.
  assert (Hd : nth_error (lit "1+2") 2 = Some (ch "2")) by reflexivity.
  assert (Hop : isOperatorChar (ch "+") = true) by reflexivity.
  assert (Hn : ~ (ch "+" = ch "/" /\ ch "2" = ch "/"))
    by (intros [H _]; discriminate H).
  assert (Hfuel : length (lit "1+2") - 1 <= 2) by (cbn; lia).
  assert (Hb : blankComments (lit "1+2") = Some ([], lit "1+2")) by reflexivity.
  assert (Hl : lineOf (lit "1+2") [] (lit "1+2") []).
  { repeat split; [| left; reflexivity | left; reflexivity].
    intros H. cbn in H. repeat (destruct H as [H | H]; [discriminate H |]).
    exact H. }
  assert (Hh : test re_hashLine (lit "1+2") = false) by reflexivity.
  assert (Hq : quiet (firstn 1 (lit "1+2"))).
  { cbn. repeat constructor. discriminate. }
  split; [repeat split; assumption |].
  split; [| split; [exact (conj Hb (conj Hl (conj Hh Hq))) |]].
  - exact (proj1 (two_char_operator (lit "1+2") 1 (ch "+") (ch "2") Hc Hd Hop Hn)
             [number "1"] 2 Hfuel).
  - exact (proj2 (two_char_operator (lit "1+2") 1 (ch "+") (ch "2") Hc Hd Hop Hn)
             (lit "1+2") [] (lit "1+2") [] [] Hb Hl Hh Hq).
Defined.




(** ** Block comments come first *)




Lemma Blanked_comments (s : str) (ms : list str) (s' : str) :
  Blanked s ms s' -> Forall isBlockComment ms.
Proof. induction 1; auto. Qed.



(** ** Precedence and associativity *)

(** *** One step of each function of the chain *)

Section Chain.

Variable tokens : list token.

Lemma converges_enter (k : nat) (c c1 c2 : nat) (l a : node) :
  hasLoop k ->
  converges (levelParser tokens (S k)) c l c1 ->
  converges (fun n => levelLoop tokens k n l) c1 a c2 ->
  converges (levelParser tokens k) c a c2.
Proof.
  intros Hk (N1 & H1) (N2 & H2). exists (S (Nat.max N1 N2)).
  intros [| n] Hn; [lia |].
  assert (E1 : levelParser tokens (S k) n c = Done l c1) by (apply H1; lia).
  assert (E2 : levelLoop tokens k n l c1 = Done a c2) by (apply H2; lia).
  destruct Hk as [-> | [-> | [-> | [-> | ->]]]];
    cbn [levelParser levelLoop] in *;
    cbn [parseEquality parseRelational parseAdditive parseMultiplicative parsePostfix];
    unfold bind; rewrite E1; exact E2.
Qed.

Lemma converges_loop_exit (k : nat) (c : nat) (l : node) :
  match nth_error tokens c with
  | Some t => levelOp k t = false
  | None => True
  end ->
  converges (fun n => levelLoop tokens k n l) c l c.
Proof.
  intros H. exists 1. intros [| n] Hn; [lia |].
  destruct k as [| [| [| [| [| [| [| k]]]]]]];
    cbn [levelLoop levelOp operatorsAt] in *; try reflexivity;
    cbn [parseEquality_loop parseRelational_loop parseAdditive_loop
         parseMultiplicative_loop parsePostfix_loop];
    unfold binaryRound, bind, peek, ret;
    destruct (nth_error tokens c); try rewrite H; reflexivity.
Qed.

Lemma converges_loop_step (k : nat) (c c1 c2 : nat) (t : token) (l r a : node) :
  isBinaryLevel k ->
  nth_error tokens c = Some t ->
  levelOp k t = true ->
  converges (levelParser tokens (S k)) (S c) r c1 ->
  converges (fun n => levelLoop tokens k n (BinaryExpression (value t) l r)) c1 a c2 ->
  converges (fun n => levelLoop tokens k n l) c a c2.
Proof.
  intros Hk Ht Hop (N1 & H1) (N2 & H2). exists (S (Nat.max N1 N2)).
  intros [| n] Hn; [lia |].
  assert (E1 : levelParser tokens (S k) n (S c) = Done r c1) by (apply H1; lia).
  assert (E2 : levelLoop tokens k n (BinaryExpression (value t) l r) c1 = Done a c2)
    by (apply H2; lia).
  destruct Hk as [-> | [-> | [-> | ->]]];
    cbn [levelParser levelLoop levelOp operatorsAt] in *;
    cbn [parseEquality_loop parseRelational_loop parseAdditive_loop
         parseMultiplicative_loop];
    unfold binaryRound, bind, peek, advance; rewrite Ht, Hop, E1; exact E2.
Qed.

Lemma converges_postfix_step (c c2 : nat) (t : token) (l a : node) :
  nth_error tokens c = Some t ->
  levelOp 6 t = true ->
  converges (fun n => levelLoop tokens 6 n (PostfixExpression (value t) l)) (S c) a c2 ->
  converges (fun n => levelLoop tokens 6 n l) c a c2.
Proof.
  intros Ht Hop (N2 & H2). exists (S N2).
  intros [| n] Hn; [lia |].
  assert (E2 : levelLoop tokens 6 n (PostfixExpression (value t) l) (S c) = Done a c2)
    by (apply H2; lia).
  cbn [levelLoop levelOp] in *. cbn [parsePostfix_loop].
  unfold bind, peek, advance. rewrite Ht, Hop. exact E2.
Qed.

Lemma converges_unary_prefix (c c1 : nat) (t : token) (a : node) :
  nth_error tokens c = Some t ->
  valueIn ["++"; "--"]%string t = true ->
  converges (levelParser tokens 5) (S c) a c1 ->
  converges (levelParser tokens 5) c (PrefixExpression (value t) a) c1.
Proof.
  intros Ht Hop (N1 & H1). exists (S N1).
  intros [| n] Hn; [lia |].
  assert (E1 : levelParser tokens 5 n (S c) = Done a c1) by (apply H1; lia).
  cbn [levelParser] in *. cbn [parseUnary].
  unfold bind, peek, advance. rewrite Ht, Hop, E1. reflexivity.
Qed.

Lemma converges_unary_pass (c c1 : nat) (a : node) :
  match nth_error tokens c with
  | Some t => valueIn ["++"; "--"]%string t = false
  | None => True
  end ->
  converges (levelParser tokens 6) c a c1 ->
  converges (levelParser tokens 5) c a c1.
Proof.
  intros H (N1 & H1). exists (S N1).
  intros [| n] Hn; [lia |].
  assert (E1 : levelParser tokens 6 n c = Done a c1) by (apply H1; lia).
  cbn [levelParser] in *. cbn [parseUnary].
  unfold bind, peek. destruct (nth_error tokens c); try rewrite H; exact E1.
Qed.

Lemma converges_assignment_pass (c c1 : nat) (l : node) :
  converges (levelParser tokens 1) c l c1 ->
  match nth_error tokens c1 with
  | Some t => valueIs "=" t = false
  | None => True
  end ->
  converges (levelParser tokens 0) c l c1.
Proof.
  intros (N1 & H1) H. exists (S N1).
  intros [| n] Hn; [lia |].
  assert (E1 : levelParser tokens 1 n c = Done l c1) by (apply H1; lia).
  cbn [levelParser] in *. cbn [parseAssignment].
  unfold bind, peek. rewrite E1.
  destruct (nth_error tokens c1); try rewrite H; reflexivity.
Qed.

Lemma converges_assignment_step (c c1 c2 : nat) (t : token) (l r : node) :
  converges (levelParser tokens 1) c l c1 ->
  nth_error tokens c1 = Some t ->
  valueIs "=" t = true ->
  converges (levelParser tokens 0) (S c1) r c2 ->
  converges (levelParser tokens 0) c (AssignmentExpression (value t) l r) c2.
Proof.
  intros (N1 & H1) Ht Hop (N2 & H2). exists (S (Nat.max N1 N2)).
  intros [| n] Hn; [lia |].
  assert (E1 : levelParser tokens 1 n c = Done l c1) by (apply H1; lia).
  assert (E2 : levelParser tokens 0 n (S c1) = Done r c2) by (apply H2; lia).
  cbn [levelParser] in *. cbn [parseAssignment].
  unfold bind, peek, advance. rewrite E1, Ht, Hop, E2. reflexivity.
Qed.

Lemma converges_primary_identifier (c : nat) (x : str) :
  nth_error tokens c = Some (Token IDENTIFIER x) ->
  match nth_error tokens (S c) with
  | Some t => typeIs OPEN_PAREN t = false
  | None => True
  end ->
  converges (levelParser tokens 7) c (Identifier x) (S c).
Proof.
  intros Ht Hnext. exists 1. intros [| n] Hn; [lia |].
  cbn [levelParser parsePrimary].
  unfold here, bind, peek, advance, ret. rewrite Ht.
  cbn [isSemicolon typeIs TokenType_eqb type value andb orb negb isTypeSpecifier].
  destruct (nth_error tokens (S c)); try rewrite Hnext; reflexivity.
Qed.

Lemma converges_primary_literal (c : nat) (v : str) :
  nth_error tokens c = Some (Token NUMBER v) ->
  converges (levelParser tokens 7) c (Literal v) (S c).
Proof.
  intros Ht. exists 1. intros [| n] Hn; [lia |].
  cbn [levelParser parsePrimary].
  unfold bind, peek, advance, ret. rewrite Ht. reflexivity.
Qed.

Lemma converges_primary_parens (c c1 : nat) (e : node) :
  nth_error tokens c = Some (tk OPEN_PAREN "(") ->
  converges (levelParser tokens 0) (S c) e c1 ->
  nth_error tokens c1 = Some (tk CLOSE_PAREN ")") ->
  converges (levelParser tokens 7) c e (S c1).
Proof.
  intros Ht (N1 & H1) Hclose. exists (S (S N1)).
  intros [| [| n]] Hn; try lia.
  assert (E1 : levelParser tokens 0 n (S c) = Done e c1) by (apply H1; lia).
  cbn [levelParser] in *. cbn [parsePrimary parseExpression].
  unfold skipIf, here, bind, peek, advance, ret. rewrite Ht.
  cbn [isSemicolon typeIs TokenType_eqb type value andb orb negb isTypeSpecifier tk].
  rewrite E1, Hclose. reflexivity.
Qed.

End Chain.

(** *** Lists of tokens *)

Lemma nth_error_at_skipn {A} (l : list A) (c : nat) :
  nth_error l c = hd_error (skipn c l).
Proof.
  revert c. induction l as [| x l IH]; intros [| c]; try reflexivity.
  apply IH.
Qed.

Lemma skipn_after {A} (l : list A) (c : nat) (m rest : list A) :
  skipn c l = m ++ rest -> skipn (c + length m) l = rest.
Proof.
  intros H. rewrite Nat.add_comm, <- skipn_skipn, H.
  rewrite skipn_app, Nat.sub_diag, skipn_all. reflexivity.
Qed.

Lemma skipn_head {A} (l : list A) (c : nat) (t : A) (rest : list A) :
  skipn c l = t :: rest -> nth_error l c = Some t /\ skipn (S c) l = rest.
Proof.
  intros H. split.
  - rewrite nth_error_at_skipn, H. reflexivity.
  - replace (S c) with (c + length [t]) by (simpl; lia).
    apply skipn_after. exact H.
Qed.

Lemma followsAt_le (k k' : nat) (rest : list token) :
  k <= k' -> followsAt k rest -> followsAt k' rest.
Proof.
  intros Hle. destruct rest as [| t rest]; [trivial |].
  intros [H1 H2]. split; [exact H1 |]. intros j Hj. apply H2. lia.
Qed.

Lemma followsAt_head (k : nat) (tokens rest : list token) (c : nat) :
  skipn c tokens = rest -> followsAt k rest ->
  match nth_error tokens c with
  | Some t => levelOp k t = false /\ typeIs OPEN_PAREN t = false
  | None => True
  end.
Proof.
  intros Hs Hf. rewrite nth_error_at_skipn, Hs.
  destruct rest as [| t rest]; [exact I |].
  destruct Hf as [H1 H2]. split; [apply H2; lia | exact H1].
Qed.

(** *** The printer *)

Lemma print_wrap (k : nat) (e : node) :
  print k e = if level e <? k then parens (print 0 e) else print 0 e.
Proof. destruct e; reflexivity. Qed.

Lemma print_same (k : nat) (e : node) :
  level e <> k -> print k e = print (S k) e.
Proof.
  intros H. rewrite (print_wrap k), (print_wrap (S k)).
  destruct (Nat.ltb_spec (level e) k), (Nat.ltb_spec (level e) (S k));
    try reflexivity; lia.
Qed.

Lemma str_eqb_eq (a b : str) : str_eqb a b = true -> a = b.
Proof.
  revert b. induction a as [| x a IH]; intros [| y b] H; try discriminate.
  - reflexivity.
  - simpl in H. apply andb_true_iff in H. destruct H as [H1 H2].
    apply N.eqb_eq in H1. apply IH in H2. subst. reflexivity.
Qed.

Lemma strIn_cases (s : str) (l : list string) :
  strIn s l = true -> In s (map lit l).
Proof.
  unfold strIn. intros H. apply existsb_exists in H.
  destruct H as (x & Hin & Hx). apply str_eqb_eq in Hx. subst s.
  apply in_map. exact Hin.
Qed.

Lemma level_le_7 (e : node) : level e <= 7.
Proof.
  destruct e; cbn [level]; try lia.
  unfold binaryLevel.
  repeat match goal with |- context [if ?b then _ else _] => destruct b end; lia.
Qed.

Ltac levels j :=
  destruct j as [| [| [| [| [| [| [| j]]]]]]]; try lia; try reflexivity.

(** An operator of a binary level is taken by the loop of its level and
    by no loop of a later level. *)
Lemma binary_operator (op : str) :
  binaryLevel op < 7 ->
  isBinaryLevel (binaryLevel op) /\
  levelOp (binaryLevel op) (Token OPERATOR op) = true /\
  forall j, binaryLevel op < j -> levelOp j (Token OPERATOR op) = false.
Proof.
  unfold binaryLevel, isBinaryLevel.
  destruct (strIn op (operatorsAt 1)) eqn:E1;
    [| destruct (strIn op (operatorsAt 2)) eqn:E2;
       [| destruct (strIn op (operatorsAt 3)) eqn:E3;
          [| destruct (strIn op (operatorsAt 4)) eqn:E4; [| lia]]]];
    intros _; (split; [tauto |]); (split; [assumption |]);
    intros j Hj;
    match goal with
    | E : strIn op _ = true |- _ => apply strIn_cases in E; cbn [operatorsAt map] in E
    end;
    repeat match goal with
           | E : In _ (_ :: _) |- _ => destruct E as [<- | E]
           | E : In _ [] |- _ => destruct E
           end;
    levels j.
Qed.

Lemma step_operator (op : str) :
  strIn op ["++"; "--"]%string = true ->
  levelOp 6 (Token OPERATOR op) = true /\
  valueIn ["++"; "--"]%string (Token OPERATOR op) = true /\
  followsAt 7 [Token OPERATOR op].
Proof.
  intros H. repeat split; try exact H.
  intros j Hj. levels j.
Qed.

(** *** From one level to the next *)

Lemma continues_returns (e : node) (k : nat) :
  hasLoop k -> Continues e k -> Returns e k.
Proof.
  intros Hk HC tokens c rest Hs Hf.
  apply (HC tokens c rest e _ Hs).
  - apply (followsAt_le k); [lia | exact Hf].
  - apply converges_loop_exit.
    pose proof (followsAt_head k tokens rest _ (skipn_after _ _ _ _ Hs) Hf) as H.
    destruct (nth_error tokens (c + length (print k e))); [apply H | exact I].
Qed.

Lemma returns_continues (e : node) (k : nat) :
  hasLoop k -> level e <> k -> Returns e (S k) -> Continues e k.
Proof.
  intros Hk Hlevel HR tokens c rest a c2 Hs Hf Hloop.
  rewrite (print_same k e Hlevel) in *.
  eapply (converges_enter tokens k c _ c2 e a Hk).
  - apply (HR tokens c rest Hs Hf).
  - exact Hloop.
Qed.

(** The first token of an expression of the levels Postfix and Primary is
    no prefix operator. *)
Lemma first_token (e : node) :
  Expr e ->
  forall k, 6 <= level e \/ level e < k ->
    exists t ts, print k e = t :: ts /\ valueIn ["++"; "--"]%string t = false.
Proof.
  assert (Hparen : forall k e', level e' < k ->
            exists t ts, print k e' = t :: ts /\
                         valueIn ["++"; "--"]%string t = false).
  { intros k e' H. rewrite print_wrap.
    destruct (Nat.ltb_spec (level e') k); [| lia].
    eexists _, _. split; reflexivity. }
  induction 1 as [x Hx | v Hv | l r _ _ _ _ | op l r Hop _ _ _ _
                 | op a Hop _ _ | op a Hop _ IH];
    intros k Hk;
    match goal with
    | |- context [print k ?e] =>
        destruct (Nat.lt_ge_cases (level e) k) as [Hlt | Hge];
        [apply Hparen; exact Hlt |]
    end;
    rewrite print_wrap;
    match goal with
    | |- context [level ?e <? k] =>
        destruct (Nat.ltb_spec (level e) k) as [Hlt | _]; [lia |]
    end.
  - eexists _, _. split; [reflexivity | exact Hx].
  - eexists _, _. split; [reflexivity | exact Hv].
  - cbn [level] in *. lia.
  - destruct (binary_operator op Hop) as (Hn & _). cbn [level] in *.
    unfold isBinaryLevel in Hn. lia.
  - cbn [level] in *. lia.
  - cbn [print level Nat.ltb Nat.leb].
    destruct (IH 6) as (t & ts & Ht & Hv).
    { destruct (Nat.lt_ge_cases (level a) 6); [right | left]; assumption. }
    rewrite Ht. eexists _, _. split; [reflexivity | exact Hv].
Qed.

Lemma descend (e : node) (k : nat) :
  Expr e -> k < 7 -> level e <> k -> Returns e (S k) ->
  Returns e k /\ (hasLoop k -> Continues e k).
Proof.
  intros He Hk Hlevel HR.
  assert (Hloop : hasLoop k -> Continues e k)
    by (intros H; apply returns_continues; assumption).
  split; [| exact Hloop].
  destruct k as [| [| [| [| [| [| [| k]]]]]]]; try lia;
    try (apply continues_returns; [| apply Hloop]; unfold hasLoop; tauto).
  - (* Assignment: no [=] follows *)
    intros tokens c rest Hs Hf. rewrite (print_same 0 e Hlevel) in *.
    apply converges_assignment_pass.
    + apply (HR tokens c rest Hs). apply (followsAt_le 0); [lia | exact Hf].
    + pose proof (followsAt_head 0 tokens rest _ (skipn_after _ _ _ _ Hs) Hf) as H.
      destruct (nth_error tokens _); [apply H | exact I].
  - (* Unary: the first token is no prefix operator *)
    intros tokens c rest Hs Hf. rewrite (print_same 5 e Hlevel) in *.
    apply converges_unary_pass.
    + destruct (first_token e He 6) as (t & ts & Ht & Hv).
      { destruct (Nat.lt_ge_cases (level e) 6); [right | left]; assumption. }
      rewrite nth_error_at_skipn, Hs, Ht. exact Hv.
    + apply (HR tokens c rest Hs). apply (followsAt_le 5); [lia | exact Hf].
Qed.

(** In parentheses, an expression is a primary. *)
Lemma returns_in_parens (e : node) :
  level e < 7 -> Returns e 0 -> Returns e 7.
Proof.
  intros Hlevel HR tokens c rest Hs Hf.
  rewrite print_wrap in *.
  destruct (Nat.ltb_spec (level e) 7) as [_ | H]; [| lia].
  unfold parens in *. cbn [app] in Hs.
  destruct (skipn_head _ _ _ _ Hs) as [Hopen Hs'].
  rewrite <- app_assoc in Hs'.
  replace (c + length ([tk OPEN_PAREN "("] ++ print 0 e ++ [tk CLOSE_PAREN ")"]))
    with (S (S c + length (print 0 e)))
    by (rewrite !length_app; simpl; lia).
  apply converges_primary_parens.
  - exact Hopen.
  - apply (HR tokens (S c) _ Hs').
    cbn [app followsAt]. split; [reflexivity |]. intros j _. levels j.
  - pose proof (skipn_after _ _ _ _ Hs') as Hs''.
    cbn [app] in Hs''. apply (skipn_head _ _ _ _ Hs'').
Qed.

Lemma good_from_own_level (e : node) :
  Expr e ->
  Returns e (level e) -> (hasLoop (level e) -> Continues e (level e)) ->
  Good e.
Proof.
  intros He HR HC.
  assert (Hbelow : forall d k, k + d = level e ->
            Returns e k /\ (hasLoop k -> Continues e k)).
  { induction d as [| d IH]; intros k Hk.
    - replace k with (level e) by lia. split; assumption.
    - pose proof (level_le_7 e).
      apply descend; try assumption; try lia.
      apply (IH (S k)). lia. }
  assert (Habove : forall d k, level e < k -> k + d = 7 ->
            Returns e k /\ (hasLoop k -> Continues e k)).
  { induction d as [| d IH]; intros k Hlt Hk.
    - replace k with 7 by lia. split.
      + apply returns_in_parens; [lia |]. apply (Hbelow (level e) 0). lia.
      + unfold hasLoop. lia.
    - apply descend; try assumption; try lia.
      apply (IH (S k)); lia. }
  intros k Hk.
  destruct (Nat.lt_ge_cases (level e) k) as [H | H].
  - apply (Habove (7 - k) k); lia.
  - apply (Hbelow (level e - k) k). lia.
Qed.

(** *** Every expression *)

Lemma good_expression (e : node) : Expr e -> Good e.
Proof.
  induction 1 as [x Hx | v Hv | l r Hl IHl Hr IHr | op l r Hop Hl IHl Hr IHr
                 | op a Hop Ha IHa | op a Hop Ha IHa].
  - (* Identifier *)
    apply good_from_own_level; [constructor; assumption | | unfold hasLoop; cbn; lia].
    intros tokens c rest Hs Hf. cbn [level print Nat.ltb Nat.leb length] in *.
    destruct (skipn_head _ _ _ _ Hs) as [Ht Hs'].
    rewrite Nat.add_1_r. apply converges_primary_identifier; [exact Ht |].
    pose proof (followsAt_head 7 tokens rest _ Hs' Hf) as H.
    destruct (nth_error tokens (S c)); [apply H | exact I].
  - (* Literal *)
    apply good_from_own_level; [constructor; assumption | | unfold hasLoop; cbn; lia].
    intros tokens c rest Hs Hf. cbn [level print Nat.ltb Nat.leb length] in *.
    destruct (skipn_head _ _ _ _ Hs) as [Ht Hs'].
    rewrite Nat.add_1_r. apply converges_primary_literal. exact Ht.
  - (* Assignment *)
    apply good_from_own_level; [constructor; assumption | | unfold hasLoop; cbn; lia].
    intros tokens c rest Hs Hf. cbn [level print Nat.ltb Nat.leb] in *.
    rewrite <- !app_assoc in Hs.
    pose proof (skipn_after _ _ _ _ Hs) as Hs1. cbn [app] in Hs1.
    destruct (skipn_head _ _ _ _ Hs1) as [Ht Hs2].
    replace (c + length (print 1 l ++ [Token OPERATOR (lit "=")] ++ print 0 r))
      with (S (c + length (print 1 l)) + length (print 0 r))
      by (rewrite !length_app; simpl; lia).
    eapply (converges_assignment_step tokens c _ _ (Token OPERATOR (lit "=")) l r).
    + apply (proj1 (IHl 1 ltac:(lia)) tokens c _ Hs).
      cbn [app followsAt]. split; [reflexivity |]. intros j Hj. levels j.
    + exact Ht.
    + reflexivity.
    + apply (proj1 (IHr 0 ltac:(lia)) tokens _ rest Hs2 Hf).
  - (* a binary level *)
    destruct (binary_operator op Hop) as (Hn & Hown & Hlater).
    assert (HL : hasLoop (binaryLevel op)) by (unfold hasLoop, isBinaryLevel in *; tauto).
    assert (HC : Continues (BinaryExpression op l r) (binaryLevel op)).
    { intros tokens c rest a c2 Hs Hf Hloop.
      cbn [level print] in *. rewrite Nat.ltb_irrefl in *.
      rewrite <- !app_assoc in Hs.
      pose proof (skipn_after _ _ _ _ Hs) as Hs1. cbn [app] in Hs1.
      destruct (skipn_head _ _ _ _ Hs1) as [Ht Hs2].
      assert (Hlen : c + length (print (binaryLevel op) l ++ [Token OPERATOR op]
                                   ++ print (S (binaryLevel op)) r)
                     = S (c + length (print (binaryLevel op) l))
                       + length (print (S (binaryLevel op)) r))
        by (rewrite !length_app; simpl; lia).
      rewrite Hlen in Hloop.
      assert (H7 : binaryLevel op <= 7) by lia.
      apply (proj2 (IHl (binaryLevel op) H7) HL tokens c _ a c2 Hs).
      { cbn [app followsAt]. split; [reflexivity |]. intros j Hj. apply Hlater. lia. }
      eapply (converges_loop_step tokens (binaryLevel op) _ _ c2
               (Token OPERATOR op) l r a Hn Ht Hown).
      - apply (proj1 (IHr (S (binaryLevel op)) ltac:(lia)) tokens _ rest Hs2 Hf).
      - exact Hloop. }
    apply good_from_own_level; [constructor; assumption | | intros _; exact HC].
    apply continues_returns; assumption.
  - (* Prefix *)
    destruct (step_operator op Hop) as (_ & Hval & _).
    apply good_from_own_level; [constructor; assumption | | unfold hasLoop; cbn; lia].
    intros tokens c rest Hs Hf. cbn [level print Nat.ltb Nat.leb] in *.
    cbn [app] in Hs. destruct (skipn_head _ _ _ _ Hs) as [Ht Hs'].
    replace (c + length ([Token OPERATOR op] ++ print 5 a))
      with (S c + length (print 5 a)) by (simpl; lia).
    apply (converges_unary_prefix tokens c _ (Token OPERATOR op) a Ht Hval).
    apply (proj1 (IHa 5 ltac:(lia)) tokens _ rest Hs' Hf).
  - (* Postfix *)
    destruct (step_operator op Hop) as (Hown & _ & Hfollow).
    assert (HL : hasLoop 6) by (unfold hasLoop; tauto).
    assert (HC : Continues (PostfixExpression op a) 6).
    { intros tokens c rest r c2 Hs Hf Hloop.
      cbn [level print Nat.ltb Nat.leb] in *.
      rewrite <- !app_assoc in Hs.
      pose proof (skipn_after _ _ _ _ Hs) as Hs1. cbn [app] in Hs1.
      destruct (skipn_head _ _ _ _ Hs1) as [Ht Hs2].
      replace (c + length (print 6 a ++ [Token OPERATOR op]))
        with (S (c + length (print 6 a))) in Hloop
        by (rewrite !length_app; simpl; lia).
      apply (proj2 (IHa 6 ltac:(lia)) HL tokens c _ r c2 Hs).
      { cbn [app]. exact Hfollow. }
      apply (converges_postfix_step tokens _ c2 (Token OPERATOR op) a r Ht Hown).
      exact Hloop. }
    apply good_from_own_level; [constructor; assumption | | intros _; exact HC].
    apply continues_returns; assumption.
Qed.

(** The groupings of several operators, level by level. *)
Lemma precedence_examples :
  (* assignment groups to the right, subtraction to the left *)
  parsesTo [ident "a"; oper "="; ident "b"; oper "="; ident "c"]
           (Assign (Id "a") (Assign (Id "b") (Id "c"))) /\
  parsesTo [ident "a"; oper "-"; ident "b"; oper "-"; ident "c"]
           (Bin "-" (Bin "-" (Id "a") (Id "b")) (Id "c")) /\
  (* every binary level groups to the left *)
  parsesTo [ident "a"; oper "=="; ident "b"; oper "!="; ident "c"]
           (Bin "!=" (Bin "==" (Id "a") (Id "b")) (Id "c")) /\
  parsesTo [ident "a"; oper "<"; ident "b"; oper ">="; ident "c"]
           (Bin ">=" (Bin "<" (Id "a") (Id "b")) (Id "c")) /\
  parsesTo [ident "a"; oper ">"; ident "b"; oper "<="; ident "c"]
           (Bin "<=" (Bin ">" (Id "a") (Id "b")) (Id "c")) /\
  parsesTo [ident "a"; oper "+"; ident "b"; oper "-"; ident "c"]
           (Bin "-" (Bin "+" (Id "a") (Id "b")) (Id "c")) /\
  parsesTo [ident "a"; oper "*"; ident "b"; oper "/"; ident "c"; oper "%"; ident "d"]
           (Bin "%" (Bin "/" (Bin "*" (Id "a") (Id "b")) (Id "c")) (Id "d")) /\
  (* Assignment below Equality *)
  parsesTo [ident "a"; oper "="; ident "b"; oper "=="; ident "c"]
           (Assign (Id "a") (Bin "==" (Id "b") (Id "c"))) /\
  parsesTo [ident "a"; oper "=="; ident "b"; oper "="; ident "c"]
           (Assign (Bin "==" (Id "a") (Id "b")) (Id "c")) /\
  (* Equality below Relational *)
  parsesTo [ident "a"; oper "=="; ident "b"; oper "<"; ident "c"]
           (Bin "==" (Id "a") (Bin "<" (Id "b") (Id "c"))) /\
  parsesTo [ident "a"; oper "<"; ident "b"; oper "=="; ident "c"]
           (Bin "==" (Bin "<" (Id "a") (Id "b")) (Id "c")) /\
  (* Relational below Additive *)
  parsesTo [ident "a"; oper "<"; ident "b"; oper "+"; ident "c"]
           (Bin "<" (Id "a") (Bin "+" (Id "b") (Id "c"))) /\
  parsesTo [ident "a"; oper "+"; ident "b"; oper "<"; ident "c"]
           (Bin "<" (Bin "+" (Id "a") (Id "b")) (Id "c")) /\
  (* Additive below Multiplicative *)
  parsesTo [ident "a"; oper "+"; ident "b"; oper "*"; ident "c"]
           (Bin "+" (Id "a") (Bin "*" (Id "b") (Id "c"))) /\
  parsesTo [ident "a"; oper "*"; ident "b"; oper "+"; ident "c"]
           (Bin "+" (Bin "*" (Id "a") (Id "b")) (Id "c")) /\
  (* Multiplicative below Unary *)
  parsesTo [oper "++"; ident "a"; oper "*"; oper "--"; ident "b"]
           (Bin "*" (Pre "++" (Id "a")) (Pre "--" (Id "b"))) /\
  (* Unary is recursive and below Postfix *)
  parsesTo [oper "--"; oper "++"; ident "a"]
           (Pre "--" (Pre "++" (Id "a"))) /\
  parsesTo [oper "++"; ident "a"; oper "--"]
           (Pre "++" (Post "--" (Id "a"))) /\
  parsesTo [ident "a"; oper "++"; oper "--"]
           (Post "--" (Post "++" (Id "a"))) /\
  (* Primary: a parenthesised expression starts from Assignment again *)
  parsesTo [tk OPEN_PAREN "("; ident "a"; oper "+"; ident "b";
            tk CLOSE_PAREN ")"; oper "*"; ident "c"]
           (Bin "*" (Bin "+" (Id "a") (Id "b")) (Id "c")) /\
  parsesTo [ident "a"; oper "*"; tk OPEN_PAREN "("; ident "b"; oper "=";
            ident "c"; tk CLOSE_PAREN ")"]
           (Bin "*" (Id "a") (Assign (Id "b") (Id "c"))) /\
  (* all the levels at once *)
  parsesTo [ident "a"; oper "="; ident "b"; oper "=="; ident "c"; oper "<";
            ident "d"; oper "+"; ident "e"; oper "*"; oper "++"; ident "f";
            oper "--"]
           (Assign (Id "a")
              (Bin "==" (Id "b")
                 (Bin "<" (Id "c")
                    (Bin "+" (Id "d")
                       (Bin "*" (Id "e") (Pre "++" (Post "--" (Id "f")))))))).
Proof.
  unfold parsesTo. repeat split; intros extra; vm_compute; reflexivity.
Qed.

(** C8. The expression parser implements the order Assignment, Equality,
    Relational, Additive, Multiplicative, Unary, Postfix, Primary, the
    binary levels grouping to the left and assignment to the right: when
    any tree of operators and operands is printed with parentheses
    exactly where this order and these groupings require them, the
    parser returns the tree from the tokens. So [a = b = c] is
    [a = (b = c)] and [a - b - c] is [(a - b) - c]. *)
Theorem expression_precedence (e : node) :
  Expr e ->
  (exists N, forall extra,
     parseExpression (print 0 e) (N + extra) 0 = Done e (length (print 0 e))) /\
  parsesTo [ident "a"; oper "="; ident "b"; oper "="; ident "c"]
           (Assign (Id "a") (Assign (Id "b") (Id "c"))) /\
  parsesTo [ident "a"; oper "-"; ident "b"; oper "-"; ident "c"]
           (Bin "-" (Bin "-" (Id "a") (Id "b")) (Id "c")).
Proof.
  intros He. split; [| split; intros extra; vm_compute; reflexivity].
  destruct (proj1 (good_expression e He 0 ltac:(lia)) (print 0 e) 0 [])
    as (N & HN).
  - rewrite app_nil_r. reflexivity.
  - exact I.
  - exists (S N). intros extra. cbn [parseExpression plus].
    apply HN. lia.
Qed.

Lemma expression_precedence_minus :
  let e := Bin "-" (Id "a") (Bin "-" (Id "b") (Id "c")) in
  Expr e /\
  print 0 e = [ident "a"; oper "-"; tk OPEN_PAREN "("; ident "b"; oper "-";
               ident "c"; tk CLOSE_PAREN ")"] /\
  exists N, forall extra,
    parseExpression (print 0 e) (N + extra) 0 = Done e (length (print 0 e)).
Proof.
  intros e.
  assert (He : Expr e).
  { repeat constructor. }
  split; [exact He |]. split; [reflexivity |].
  exact (proj1 (expression_precedence e He)).
Defined.

(** * Completeness of the matcher *)

Lemma rmatch_complete (r : regex) (prev : option char) (m rest : str) :
  Matches r prev m rest ->
  forall k, k (lastOr prev m) rest <> None -> rmatch r k prev (m ++ rest) <> None.
Proof.
  induction 1 as
    [ prev rest | p prev c rest Hp
    | r1 r2 prev m1 m2 rest _ IH1 _ IH2
    | r1 r2 prev m rest _ IH | r1 r2 prev m rest _ IH
    | g r prev rest
    | g r prev m1 m2 rest _ IH1 Hne _ IH2
    | rest | prev rest Hx ];
    intros k Hk.
  - exact Hk.
  - cbn [rmatch app]. rewrite Hp. exact Hk.
  - cbn [rmatch]. rewrite <- app_assoc. apply IH1. apply IH2.
    rewrite <- lastOr_app. exact Hk.
  - cbn [rmatch]. specialize (IH k Hk).
    destruct (rmatch r1 k prev (m ++ rest)); [discriminate | congruence].
  - cbn [rmatch]. specialize (IH k Hk).
    destruct (rmatch r1 k prev (m ++ rest)); [discriminate | exact IH].
  - cbn [rmatch app starLoop]. cbn [lastOr fold_left] in Hk.
    destruct g.
    + destruct (rmatch r _ prev rest); [discriminate | exact Hk].
    + destruct (k prev rest); [discriminate | congruence].
  - cbn [rmatch starLoop].
    assert (Hagain :
      rmatch r
        (fun p' s' =>
           if length s' <? length ((m1 ++ m2) ++ rest)
           then starLoop (rmatch r) g k (length ((m1 ++ m2) ++ rest)) p' s'
           else None) prev ((m1 ++ m2) ++ rest) <> None).
    { rewrite <- app_assoc. apply IH1.
      assert (Hlt : length (m2 ++ rest) < length (m1 ++ m2 ++ rest)).
      { rewrite (length_app m1). destruct m1; [congruence | simpl; lia]. }
      apply Nat.ltb_lt in Hlt. rewrite Hlt.
      specialize (IH2 k). rewrite <- lastOr_app in IH2. specialize (IH2 Hk).
      cbn [rmatch] in IH2.
      rewrite (starLoop_fuel r g k _ (S (length (m2 ++ rest)))).
      - exact IH2.
      - apply Nat.ltb_lt. exact Hlt.
      - lia. }
    destruct g.
    + destruct (rmatch r _ prev _); [discriminate | congruence].
    + destruct (k prev _); [discriminate | exact Hagain].
  - exact Hk.
  - cbn [rmatch app]. rewrite Hx. exact Hk.
Qed.

Lemma execFrom_sound (r : regex) (s : str) :
  forall prev idx j m,
    execFrom r prev s idx = Some (j, m) ->
    exists pre rest, s = pre ++ m ++ rest /\ Matches r (lastOr prev pre) m rest.
Proof.
  induction s as [| c s IH]; intros prev idx j m H; cbn [execFrom] in H.
  - destruct (matchHere r prev []) as [m' |] eqn:E; [| discriminate].
    inversion H; subst. apply matchHere_sound in E.
    destruct E as (rest & Hs & HM). exists [], rest. split; assumption.
  - destruct (matchHere r prev (c :: s)) as [m' |] eqn:E.
    + inversion H; subst. apply matchHere_sound in E.
      destruct E as (rest & Hs & HM). exists [], rest. split; assumption.
    + apply IH in H. destruct H as (pre & rest & Hs & HM).
      exists (c :: pre), rest. split; [simpl; rewrite Hs; reflexivity | exact HM].
Qed.

Lemma execFrom_complete (r : regex) (pre m rest : str) :
  forall prev idx,
    Matches r (lastOr prev pre) m rest ->
    execFrom r prev (pre ++ m ++ rest) idx <> None.
Proof.
  induction pre as [| c pre IH]; intros prev idx HM.
  - cbn [app]. destruct (m ++ rest) as [| c s] eqn:Es; cbn [execFrom];
      unfold matchHere; rewrite <- Es;
      pose proof (rmatch_complete r prev m rest HM accept ltac:(discriminate)) as Hc;
      destruct (rmatch r accept prev (m ++ rest)); congruence.
  - cbn [app execFrom]. destruct (matchHere r prev _); [discriminate |].
    apply IH. exact HM.
Qed.

(** What [test] decides. *)
Lemma test_true (r : regex) (s : str) :
  test r s = true <->
  exists pre m rest, s = pre ++ m ++ rest /\ Matches r (lastOr None pre) m rest.
Proof.
  unfold test, exec. split.
  - destruct (execFrom r None s 0) as [[j m] |] eqn:E; [| discriminate].
    intros _. apply execFrom_sound in E. destruct E as (pre & rest & Hs & HM).
    exists pre, m, rest. split; assumption.
  - intros (pre & m & rest & Hs & HM). subst s.
    pose proof (execFrom_complete r pre m rest None 0 HM).
    destruct (execFrom r None _ 0); congruence.
Qed.

(** ** Runs of word characters and the patterns of the lexer *)

Lemma isWord_range (c : char) :
  isWord c = true ->
  (97 <= c <= 122 \/ 65 <= c <= 90 \/ 48 <= c <= 57 \/ c = 95)%N.
Proof.
  unfold isWord, isLower, isUpper, isDigit, inRange.
  rewrite !orb_true_iff, !andb_true_iff, !N.leb_le, N.eqb_eq.
  replace (ch "a") with 97%N by reflexivity.
  replace (ch "z") with 122%N by reflexivity.
  replace (ch "A") with 65%N by reflexivity.
  replace (ch "Z") with 90%N by reflexivity.
  replace (ch "0") with 48%N by reflexivity.
  replace (ch "9") with 57%N by reflexivity.
  replace (ch "_") with 95%N by reflexivity.
  tauto.
Qed.

Lemma isDigit_range (c : char) : isDigit c = true <-> (48 <= c <= 57)%N.
Proof.
  unfold isDigit, inRange. rewrite andb_true_iff, !N.leb_le. reflexivity.
Qed.

Lemma isLetter_range (c : char) :
  isLetter c = true <-> (97 <= c <= 122 \/ 65 <= c <= 90 \/ c = 95)%N.
Proof.
  unfold isLetter, isLower, isUpper, inRange.
  rewrite !orb_true_iff, !andb_true_iff, !N.leb_le, N.eqb_eq.
  replace (ch "a") with 97%N by reflexivity.
  replace (ch "z") with 122%N by reflexivity.
  replace (ch "A") with 65%N by reflexivity.
  replace (ch "Z") with 90%N by reflexivity.
  replace (ch "_") with 95%N by reflexivity.
  tauto.
Qed.

Lemma lastOr_cons (prev : option char) (c : char) (s : str) :
  lastOr prev (c :: s) = lastOr (Some c) s.
Proof. reflexivity. Qed.

Lemma last_default (e : char) (s : str) (c d : char) :
  last (e :: s) c = last (e :: s) d.
Proof.
  revert e. induction s as [| x s IH]; intros e; [reflexivity |].
  change (last (x :: s) c = last (x :: s) d). apply IH.
Qed.

Lemma lastOr_Some (c : char) (s : str) : lastOr (Some c) s = Some (last s c).
Proof.
  revert c. induction s as [| d s IH]; intros c; [reflexivity |].
  rewrite lastOr_cons, IH. destruct s as [| e s]; [reflexivity |].
  f_equal. change (last (d :: e :: s) c) with (last (e :: s) c).
  apply last_default.
Qed.

Lemma lastOr_None (s : str) : lastOr None s = None -> s = [].
Proof.
  destruct s as [| c s]; [reflexivity |].
  rewrite lastOr_cons, lastOr_Some. discriminate.
Qed.

Lemma last_Forall (P : char -> Prop) (s : str) (c : char) :
  P c -> Forall P s -> P (last s c).
Proof.
  intros Hc H. revert c Hc. induction H as [| d s Hd _ IH]; intros c Hc.
  - exact Hc.
  - destruct s as [| e s]; [exact Hd |].
    change (P (last (e :: s) c)). apply (IH c Hc).
Qed.

(** Inside a run of word characters there is no word boundary: a text
    matched between two [\b] is the whole run. *)
Lemma whole_word (w pre m rest : str) :
  wordChars w -> w = pre ++ m ++ rest -> m <> [] ->
  xorb (isWordOpt (lastOr None pre)) (isWordOpt (hd_error (m ++ rest))) = true ->
  xorb (isWordOpt (lastOr (lastOr None pre) m)) (isWordOpt (hd_error rest)) = true ->
  pre = [] /\ rest = [].
Proof.
  intros Hw -> Hm H1 H2. unfold wordChars in Hw.
  apply Forall_app in Hw. destruct Hw as [Hpre Hw].
  apply Forall_app in Hw. destruct Hw as [Hmw Hrest].
  destruct m as [| c m]; [congruence |].
  inversion Hmw as [| ? ? Hc Hm']; subst.
  split.
  - destruct pre as [| p pre]; [reflexivity |]. exfalso.
    rewrite lastOr_cons, lastOr_Some in H1. cbn [isWordOpt app hd_error] in H1.
    inversion Hpre as [| ? ? Hp Hpre']; subst.
    rewrite (last_Forall (fun c => isWord c = true) pre p Hp Hpre'), Hc in H1.
    discriminate.
  - destruct rest as [| r rest]; [reflexivity |]. exfalso.
    rewrite lastOr_cons, lastOr_Some in H2. cbn [isWordOpt hd_error] in H2.
    inversion Hrest as [| ? ? Hr _]; subst.
    rewrite (last_Forall (fun c => isWord c = true) m c Hc Hm'), Hr in H2.
    discriminate.
Qed.

Lemma Matches_between (x : regex) (p : option char) (m rest : str) :
  Matches (Cats [WordB; x; WordB]) p m rest <->
  Matches x p m rest /\
  xorb (isWordOpt p) (isWordOpt (hd_error (m ++ rest))) = true /\
  xorb (isWordOpt (lastOr p m)) (isWordOpt (hd_error rest)) = true.
Proof.
  cbn [Cats]. split.
  - intros H.
    inversion H as [| | r1 r2 p' m1 m2 rest' H1 H2 | | | | | |]; subst; clear H.
    inversion H1; subst; clear H1.
    inversion H2 as [| | r1 r2 p' m3 m4 rest' H3 H4 | | | | | |]; subst; clear H2.
    inversion H4; subst; clear H4.
    cbn [app lastOr fold_left] in *. rewrite app_nil_r in *.
    repeat split; assumption.
  - intros (Hx & H1 & H2).
    change m with ([] ++ m). constructor; [constructor; exact H1 |].
    rewrite <- (app_nil_r m). constructor.
    + cbn [app lastOr fold_left]. exact Hx.
    + constructor. exact H2.
Qed.

(** On a run of word characters a pattern between two [\b] is tested
    against the whole run. *)
Lemma test_between (x : regex) (w : str) :
  wordChars w -> w <> [] ->
  (forall p m rest, Matches x p m rest -> m <> []) ->
  (test (Cats [WordB; x; WordB]) w = true <-> Matches x None w []).
Proof.
  intros Hw Hne Hx. rewrite test_true. split.
  - intros (pre & m & rest & Hs & HM).
    apply Matches_between in HM. destruct HM as (HM & H1 & H2).
    destruct (whole_word w pre m rest Hw Hs (Hx _ _ _ HM) H1 H2) as [-> ->].
    cbn [lastOr fold_left] in HM. subst w. rewrite app_nil_r. exact HM.
  - intros HM. exists [], w, []. split; [rewrite app_nil_r; reflexivity |].
    apply Matches_between. split; [exact HM |].
    destruct w as [| c w]; [congruence |].
    inversion Hw as [| ? ? Hc Hw']; subst.
    split.
    + cbn [lastOr fold_left isWordOpt app hd_error]. rewrite Hc. reflexivity.
    + rewrite lastOr_cons, lastOr_Some. cbn [isWordOpt hd_error].
      rewrite (last_Forall (fun c => isWord c = true) w c Hc Hw'). reflexivity.
Qed.

Lemma Matches_Str_intro (l : str) (prev : option char) (rest : str) :
  Matches (Str l) prev l rest.
Proof.
  revert prev. induction l as [| c l IH]; intros prev; cbn [Str].
  - constructor.
  - change (c :: l) with ([c] ++ l). constructor.
    + constructor. apply N.eqb_refl.
    + apply IH.
Qed.

Lemma Matches_Alts_intro (rs : list regex) (r : regex) (prev : option char)
    (m rest : str) :
  Exists (fun r' => Matches r' prev m rest) rs \/ Matches r prev m rest ->
  Matches (Alts rs r) prev m rest.
Proof.
  induction rs as [| r' rs IH]; cbn [Alts]; intros [H | H].
  - inversion H.
  - exact H.
  - inversion H; subst; [apply M_AltL; assumption | apply M_AltR; apply IH; left; assumption].
  - apply M_AltR. apply IH. right. exact H.
Qed.

Lemma Matches_Star_class (g : bool) (p : char -> bool) (prev : option char)
    (m rest : str) :
  Matches (Star g (Cls p)) prev m rest <-> Forall (fun c => p c = true) m.
Proof.
  split.
  - intros H. remember (Star g (Cls p)) as r eqn:Er.
    induction H as
      [ | | | | | | g' r' prev m1 m2 rest H1 _ Hne _ IH2 | | ];
      try discriminate; inversion Er; subst.
    + constructor.
    + inversion H1; subst. constructor; [assumption | apply IH2; reflexivity].
  - intros H. revert prev. induction H as [| c m Hc _ IH]; intros prev.
    + constructor.
    + change (c :: m) with ([c] ++ m). constructor.
      * constructor. exact Hc.
      * discriminate.
      * apply IH.
Qed.

Lemma Matches_Plus_class (p : char -> bool) (prev : option char) (m rest : str) :
  Matches (Plus (Cls p)) prev m rest <-> m <> [] /\ Forall (fun c => p c = true) m.
Proof.
  unfold Plus. split.
  - intros H.
    inversion H as [| | r1 r2 p' m1 m2 rest' H1 H2 | | | | | |]; subst; clear H.
    inversion H1; subst; clear H1. apply Matches_Star_class in H2.
    split; [discriminate | constructor; assumption].
  - intros [Hne H]. destruct H as [| c m Hc Hm]; [congruence |].
    change (c :: m) with ([c] ++ m). constructor.
    + constructor. exact Hc.
    + apply Matches_Star_class. exact Hm.
Qed.

Lemma Matches_Cat_assoc (a b c : regex) (p : option char) (m rest : str) :
  Matches (Cat a (Cat b c)) p m rest <-> Matches (Cat (Cat a b) c) p m rest.
Proof.
  split; intros H.
  - inversion H as [| | r1 r2 p' m1 m2 rest' H1 H2 | | | | | |]; subst; clear H.
    inversion H2 as [| | r1 r2 p' m3 m4 rest' H3 H4 | | | | | |]; subst; clear H2.
    rewrite app_assoc. apply M_Cat.
    + apply M_Cat; [rewrite <- app_assoc in H1; exact H1 | exact H3].
    + rewrite lastOr_app. exact H4.
  - inversion H as [| | r1 r2 p' m1 m2 rest' H1 H2 | | | | | |]; subst; clear H.
    inversion H1 as [| | r1 r2 p' m3 m4 rest' H3 H4 | | | | | |]; subst; clear H1.
    rewrite <- app_assoc. apply M_Cat.
    + rewrite <- app_assoc. exact H3.
    + apply M_Cat; [exact H4 | rewrite <- lastOr_app; exact H2].
Qed.

Lemma keywords_letter (w : str) :
  In w keywords -> exists c w', w = c :: w' /\ isLetter c = true /\ wordChars w.
Proof.
  intros H. vm_compute in H.
  repeat (destruct H as [<- | H];
          [eexists _, _; split; [reflexivity |];
           split; [reflexivity | repeat constructor] |]).
  contradiction.
Qed.

Lemma test_PREPROCESSOR_hash (s : str) :
  test re_PREPROCESSOR s = true -> exists s', s = ch "#" :: s'.
Proof.
  unfold re_PREPROCESSOR. cbn [Cats]. rewrite test_anchored.
  destruct s as [| c s]; cbn [rmatch Chr]; [discriminate |].
  destruct (N.eqb (ch "#") c) eqn:E; [| discriminate].
  apply N.eqb_eq in E. subst c. intros _. exists s. reflexivity.
Qed.

Lemma test_KEYWORD_word (w : str) :
  wordChars w -> w <> [] -> (test re_KEYWORD w = true <-> In w keywords).
Proof.
  intros Hw Hne. unfold re_KEYWORD. rewrite test_between; [| exact Hw | exact Hne |].
  - split.
    + intros HM. apply Matches_Alts in HM. destruct HM as [HM | HM].
      * apply Exists_exists in HM. destruct HM as (r' & Hin & HM).
        apply in_map_iff in Hin. destruct Hin as (k & <- & Hin).
        apply Matches_Str in HM. subst k.
        change keywords with (removelast keywords ++ [last keywords []]).
        apply in_or_app. left. exact Hin.
      * apply Matches_Str in HM. subst w.
        change keywords with (removelast keywords ++ [last keywords []]).
        apply in_or_app. right. left. reflexivity.
    + intros Hin. apply Matches_Alts_intro.
      change keywords with (removelast keywords ++ [last keywords []]) in Hin.
      apply in_app_or in Hin. destruct Hin as [Hin | [<- | []]].
      * left. apply Exists_exists. exists (Str w).
        split; [apply in_map; exact Hin | apply Matches_Str_intro].
      * right. apply Matches_Str_intro.
  - intros p m rest HM. apply Matches_Alts in HM. destruct HM as [HM | HM].
    + apply Exists_exists in HM. destruct HM as (r' & Hin & HM).
      apply in_map_iff in Hin. destruct Hin as (k & <- & Hin).
      apply Matches_Str in HM. subst k. intros ->. vm_compute in Hin.
      repeat (destruct Hin as [Hin | Hin]; [discriminate |]). contradiction.
    + apply Matches_Str in HM. subst m. discriminate.
Qed.

Lemma test_Cat_assoc_between (a b : regex) (s : str) :
  test (Cats [WordB; a; b; WordB]) s = test (Cats [WordB; Cat a b; WordB]) s.
Proof.
  apply eq_true_iff_eq. rewrite !test_true.
  split; intros (pre & m & rest & Hs & HM); exists pre, m, rest;
    (split; [exact Hs |]); cbn [Cats] in *.
  - inversion HM as [| | r1 r2 p' m1 m2 rest' H1 H2 | | | | | |]; subst; clear HM.
    apply M_Cat; [exact H1 |]. apply Matches_Cat_assoc. exact H2.
  - inversion HM as [| | r1 r2 p' m1 m2 rest' H1 H2 | | | | | |]; subst; clear HM.
    apply M_Cat; [exact H1 |]. apply Matches_Cat_assoc. exact H2.
Qed.

Lemma test_IDENTIFIER_word (w : str) :
  wordChars w ->
  (test re_IDENTIFIER w = true <-> exists c w', w = c :: w' /\ isLetter c = true).
Proof.
  intros Hw. unfold re_IDENTIFIER. rewrite test_Cat_assoc_between.
  destruct w as [| c w'].
  { split; [| intros (? & ? & ? & _); discriminate].
    rewrite test_true. intros (pre & m & rest & Hs & HM).
    apply Matches_between in HM. destruct HM as (HM & _).
    inversion HM as [| | r1 r2 p' m1 m2 rest' H1 H2 | | | | | |]; subst; clear HM.
    inversion H1; subst. destruct pre; discriminate. }
  rewrite test_between; [| exact Hw | discriminate |].
  - split.
    + intros HM.
      inversion HM as [| | r1 r2 p' m1 m2 rest' H1 H2 | | | | | |]; subst; clear HM.
      inversion H1; subst.
      match goal with E : _ ++ _ = _ :: _ |- _ => inversion E; subst end.
      exists c, w'. split; [reflexivity | assumption].
    + intros (c' & w'' & E & Hc). inversion E; subst c' w''.
      change (c :: w') with ([c] ++ w'). apply M_Cat.
      * constructor. exact Hc.
      * apply Matches_Star_class. inversion Hw; assumption.
  - intros p m rest HM.
    inversion HM as [| | r1 r2 p' m1 m2 rest' H1 H2 | | | | | |]; subst; clear HM.
    inversion H1; subst. discriminate.
Qed.

Lemma wordChars_app (a b : str) : wordChars (a ++ b) <-> wordChars a /\ wordChars b.
Proof. apply Forall_app. Qed.

Lemma digits_wordChars (d : str) :
  Forall (fun c => isDigit c = true) d -> wordChars d.
Proof.
  apply Forall_impl. intros c H. unfold isWord. rewrite H.
  destruct (isLower c), (isUpper c); reflexivity.
Qed.

Lemma Matches_number (w : str) :
  wordChars w ->
  (Matches (Alt hexNumber decimalNumber) None w [] <-> NumberWord w).
Proof.
  intros Hw. split.
  - intros HM. inversion HM as [| | | r1 r2 p m rest H | r1 r2 p m rest H | | | |];
      subst; clear HM.
    + unfold hexNumber in H. cbn [Cats] in H.
      inversion H as [| | r1 r2 p' m1 m2 rest' H1 H2 | | | | | |]; subst; clear H.
      inversion H1; subst; clear H1.
      inversion H2 as [| | r1 r2 p' m3 m4 rest' H3 H4 | | | | | |]; subst; clear H2.
      inversion H3; subst; clear H3.
      apply Matches_Plus_class in H4. destruct H4 as [Hne Hh].
      repeat match goal with
             | E : (_ =? _)%N = true |- _ => apply N.eqb_eq in E; subst
             end.
      apply (NumberWord_hex m4 Hne Hh).
    + unfold decimalNumber in H. cbn [Cats] in H.
      inversion H as [| | r1 r2 p' d m2 rest' H1 H2 | | | | | |]; subst; clear H.
      apply Matches_Plus_class in H1. destruct H1 as [Hne Hd].
      inversion H2 as [| | r1 r2 p' f e rest' H3 H4 | | | | | |]; subst; clear H2.
      apply wordChars_app in Hw. destruct Hw as [_ Hw].
      apply wordChars_app in Hw. destruct Hw as [Hf He].
      assert (f = []) as ->.
      { inversion H3 as [| | | r1 r2 p m rest H | r1 r2 p m rest H | | | |];
          subst; clear H3.
        - inversion H as [| | r1 r2 p' m1 m2 rest' H1 H2 | | | | | |]; subst.
          inversion H1; subst.
          match goal with
          | E : (_ =? _)%N = true |- _ => apply N.eqb_eq in E; subst
          end.
          inversion Hf as [| ? ? Hdot _]; subst. vm_compute in Hdot. discriminate.
        - inversion H; reflexivity. }
      cbn [app].
      inversion H4 as [| | | r1 r2 p m rest H | r1 r2 p m rest H | | | |];
        subst; clear H4.
      * cbn [Cats] in H.
        inversion H as [| | r1 r2 p' m1 m2 rest' H1 H2 | | | | | |]; subst; clear H.
        inversion H1; subst; clear H1.
        inversion H2 as [| | r1 r2 p' sgn x rest' H5 H6 | | | | | |]; subst; clear H2.
        apply Matches_Plus_class in H6. destruct H6 as [Hxne Hx].
        assert (sgn = []) as ->.
        { inversion H5 as [| | | r1 r2 p m rest H | r1 r2 p m rest H | | | |];
            subst; clear H5.
          - inversion H; subst.
            inversion He as [| ? ? _ He']; subst.
            inversion He' as [| ? ? Hs _]; subst.
            match goal with
            | E : oneOf "-+" _ = true |- _ =>
                unfold oneOf in E; cbn [lit list_ascii_of_string map existsb] in E;
                rewrite !orb_true_iff, !N.eqb_eq in E;
                destruct E as [E | [E | E]]; [subst; vm_compute in Hs.. |];
                discriminate
            end.
          - inversion H; reflexivity. }
        cbn [app]. apply NumberWord_exponent; assumption.
      * inversion H; subst. rewrite app_nil_r.
        apply NumberWord_decimal; assumption.
  - intros HN. destruct HN as [h Hne Hh | d Hne Hd | d e x Hne Hd He Hxne Hx].
    + apply M_AltL. unfold hexNumber. cbn [Cats].
      change (lit "0x" ++ h) with ([ch "0"] ++ [ch "x"] ++ h).
      apply M_Cat; [constructor; apply N.eqb_refl |].
      apply M_Cat; [constructor; apply N.eqb_refl |].
      apply Matches_Plus_class. split; assumption.
    + apply M_AltR. unfold decimalNumber. cbn [Cats].
      rewrite <- (app_nil_r d). apply M_Cat.
      * apply Matches_Plus_class. split; assumption.
      * change (@nil char) with (@nil char ++ []) at 1. apply M_Cat.
        -- apply M_AltR. constructor.
        -- apply M_AltR. constructor.
    + apply M_AltR. unfold decimalNumber. cbn [Cats].
      apply M_Cat.
      * apply Matches_Plus_class. split; assumption.
      * change (e :: x) with ([] ++ e :: x). apply M_Cat.
        -- apply M_AltR. constructor.
        -- apply M_AltL. rewrite <- (app_nil_r (e :: x)).
           change (e :: x) with ([e] ++ [] ++ x).
           rewrite <- !app_assoc.
           apply M_Cat; [constructor; exact He |].
           apply M_Cat; [apply M_AltR; constructor |].
           rewrite app_nil_r.
           apply Matches_Plus_class. split; assumption.
Qed.

Lemma number_nonempty (p : option char) (m rest : str) :
  Matches (Alt hexNumber decimalNumber) p m rest -> m <> [].
Proof.
  intros HM. inversion HM as [| | | r1 r2 p' m' rest' H | r1 r2 p' m' rest' H | | | |];
    subst; clear HM.
  - unfold hexNumber in H. cbn [Cats] in H.
    inversion H as [| | r1 r2 p' m1 m2 rest' H1 H2 | | | | | |]; subst; clear H.
    inversion H1; subst. discriminate.
  - unfold decimalNumber in H. cbn [Cats] in H.
    inversion H as [| | r1 r2 p' d m2 rest' H1 H2 | | | | | |]; subst; clear H.
    apply Matches_Plus_class in H1. destruct H1 as [Hne _].
    destruct d; [congruence | discriminate].
Qed.

Lemma test_NUMBER_word (w : str) :
  wordChars w -> w <> [] -> (test re_NUMBER w = true <-> NumberWord w).
Proof.
  intros Hw Hne.
  change re_NUMBER with (Cats [WordB; Alt hexNumber decimalNumber; WordB]).
  rewrite test_between; [| exact Hw | exact Hne | apply number_nonempty].
  apply Matches_number. exact Hw.
Qed.

Lemma test_COMMENT_slash (s : str) :
  test re_COMMENT s = true -> exists s', s = ch "/" :: s'.
Proof.
  rewrite test_true. intros (pre & m & rest & Hs & HM). unfold re_COMMENT in HM.
  assert (H : lastOr None pre = None /\ exists m', m = ch "/" :: m').
  { inversion HM as [| | | r1 r2 p m0 rest0 H | r1 r2 p m0 rest0 H | | | |];
      subst; clear HM.
    - cbn [Cats] in H.
      inversion H as [| | r1 r2 p' m1 m2 rest' H1 H2 | | | | | |]; subst; clear H.
      inversion H1; subst; clear H1.
      inversion H2 as [| | r1 r2 p' m3 m4 rest' H3 H4 | | | | | |]; subst; clear H2.
      inversion H3; subst; clear H3.
      match goal with E : (_ =? _)%N = true |- _ => apply N.eqb_eq in E; subst end.
      split; [congruence | eexists; reflexivity].
    - unfold blockComment in H. cbn [Cats] in H.
      inversion H as [| | r1 r2 p' m1 m2 rest' H1 H2 | | | | | |]; subst; clear H.
      inversion H1; subst; clear H1.
      inversion H2 as [| | r1 r2 p' m3 m4 rest' H3 H4 | | | | | |]; subst; clear H2.
      inversion H3; subst; clear H3.
      match goal with E : (_ =? _)%N = true |- _ => apply N.eqb_eq in E; subst end.
      split; [congruence | eexists; reflexivity]. }
  destruct H as (Hpre & m' & ->). apply lastOr_None in Hpre. subst pre s.
  eexists. reflexivity.
Qed.

Lemma test_STRING_LITERAL_quote (s : str) :
  test re_STRING_LITERAL s = true -> exists s', s = quote :: s'.
Proof.
  unfold re_STRING_LITERAL. cbn [Cats]. rewrite test_anchored.
  destruct s as [| c s]; cbn [rmatch]; [discriminate |].
  destruct (isQuote c) eqn:E; [| discriminate].
  apply N.eqb_eq in E. subst c. intros _. exists s. reflexivity.
Qed.

(** A word character is none of the characters the other patterns start
    with. *)
Lemma word_first (c : char) (w : str) :
  isWord c = true ->
  test re_PREPROCESSOR (c :: w) = false /\
  test re_STRING_LITERAL (c :: w) = false /\
  test re_OPERATOR (c :: w) = false /\
  test re_SEPARATOR (c :: w) = false /\
  test re_OPEN_PAREN (c :: w) = false /\
  test re_CLOSE_PAREN (c :: w) = false /\
  test re_OPEN_BRACE (c :: w) = false /\
  test re_CLOSE_BRACE (c :: w) = false /\
  test re_COMMENT (c :: w) = false.
Proof.
  intros Hc.
  assert (Hneq : forall k, isWord k = false -> c <> k)
    by (intros k Hk ->; congruence).
  repeat split.
  - destruct (test re_PREPROCESSOR (c :: w)) eqn:E; [| reflexivity].
    apply test_PREPROCESSOR_hash in E. destruct E as (s' & E).
    inversion E. exfalso. apply (Hneq (ch "#")); [reflexivity | assumption].
  - destruct (test re_STRING_LITERAL (c :: w)) eqn:E; [| reflexivity].
    apply test_STRING_LITERAL_quote in E. destruct E as (s' & E).
    inversion E. exfalso. apply (Hneq quote); [reflexivity | assumption].
  - rewrite test_OPERATOR.
    destruct (isOperatorChar c) eqn:E; [| reflexivity].
    apply operator_char_cases in E. vm_compute in E.
    repeat (destruct E as [E | E];
            [exfalso; symmetry in E; revert E; apply Hneq; reflexivity |]).
    contradiction.
  - unfold re_SEPARATOR. rewrite test_anchored_class.
    unfold oneOf. cbn [lit list_ascii_of_string map existsb].
    repeat match goal with
           | |- context [N.eqb c ?k] =>
               replace (N.eqb c k) with false
                 by (symmetry; apply N.eqb_neq; apply Hneq; reflexivity)
           end.
    reflexivity.
  - unfold re_OPEN_PAREN, Chr. rewrite test_anchored_class.
    apply N.eqb_neq. intros E. apply (Hneq (ch "(")); [reflexivity | congruence].
  - unfold re_CLOSE_PAREN, Chr. rewrite test_anchored_class.
    apply N.eqb_neq. intros E. apply (Hneq (ch ")")); [reflexivity | congruence].
  - unfold re_OPEN_BRACE, Chr. rewrite test_anchored_class.
    apply N.eqb_neq. intros E. apply (Hneq (ch "{")); [reflexivity | congruence].
  - unfold re_CLOSE_BRACE, Chr. rewrite test_anchored_class.
    apply N.eqb_neq. intros E. apply (Hneq (ch "}")); [reflexivity | congruence].
  - destruct (test re_COMMENT (c :: w)) eqn:E; [| reflexivity].
    apply test_COMMENT_slash in E. destruct E as (s' & E).
    inversion E. exfalso. apply (Hneq (ch "/")); [reflexivity | assumption].
Qed.

(** The classification of a run of word characters is decided by three
    patterns. *)
Lemma classifyLexeme_word (w : str) :
  wordChars w -> w <> [] ->
  classifyLexeme w =
  if test re_KEYWORD w then Token KEYWORD w
  else if test re_IDENTIFIER w then Token IDENTIFIER w
  else if test re_NUMBER w then Token NUMBER w
  else Token UNDEFINED w.
Proof.
  intros Hw Hne. destruct w as [| c w]; [congruence |].
  inversion Hw as [| ? ? Hc _]; subst.
  destruct (word_first c w Hc) as (H1 & H2 & H3 & H4 & H5 & H6 & H7 & H8 & H9).
  unfold classifyLexeme, tokenRegex. cbn [classifyWith].
  rewrite H1, H2, H3, H4, H5, H6, H7, H8, H9. reflexivity.
Qed.

(** * The tokens of the lexer *)

Lemma wordRun_wordChars (s : str) : wordChars (wordRun s).
Proof.
  induction s as [| c s IH]; cbn [wordRun]; [constructor |].
  unfold re_wordChar. rewrite test_class.
  destruct (isWord c) eqn:E; constructor; assumption.
Qed.

Lemma wordRun_head (c : char) (s : str) :
  wordRun (c :: s) = [] -> isWord c = false.
Proof.
  cbn [wordRun]. unfold re_wordChar. rewrite test_class.
  destruct (isWord c); [discriminate | reflexivity].
Qed.

Lemma punctuation_tests (c : char) :
  test re_SEPARATOR [c] = false -> test re_OPEN_PAREN [c] = false ->
  test re_CLOSE_PAREN [c] = false -> test re_OPEN_BRACE [c] = false ->
  test re_CLOSE_BRACE [c] = false -> punctuation c = None.
Proof.
  unfold re_SEPARATOR, re_OPEN_PAREN, re_CLOSE_PAREN, re_OPEN_BRACE,
    re_CLOSE_BRACE, Chr, punctuation.
  rewrite !test_anchored_class. intros -> -> -> -> ->. reflexivity.
Qed.

Lemma scanLine_scanned (n : nat) :
  forall line i,
    length line - i < n ->
    exists out,
      (forall toks, scanLine n line i toks = Some (toks ++ out)) /\
      Forall (Scanned line) out.
Proof.
  induction n as [| n IH]; intros line i Hlen; [lia |].
  cbn [scanLine].
  destruct (nth_error line i) as [c |] eqn:Hc.
  2:{ exists []. split; [intros toks; rewrite app_nil_r; reflexivity | constructor]. }
  pose proof (skipn_cons_nth _ _ _ Hc) as Hskip.
  assert (Hi : i < length line) by (apply nth_error_Some; congruence).
  assert (Hemit : forall t k, 1 <= k -> Scanned line t ->
    exists out,
      (forall toks, scanLine n line (i + k) (push toks t) = Some (toks ++ out)) /\
      Forall (Scanned line) out).
  { intros t k Hk Ht.
    destruct (IH line (i + k)) as (out & Hout & Hall); [lia |].
    exists (t :: out). split.
    - intros toks. rewrite Hout. unfold push. rewrite <- app_assoc. reflexivity.
    - constructor; assumption. }
  unfold re_space. rewrite test_class.
  destruct (isSpace c) eqn:Hsp.
  { destruct (IH line (i + 1)) as (out & Hout & Hall); [lia |].
    exists out. split; assumption. }
  destruct (N.eqb c (ch "/") && _)%bool eqn:Hcom.
  { exists [Token COMMENT (sliceFrom line i)]. split; [reflexivity |].
    constructor; [| constructor].
    apply andb_true_iff in Hcom. destruct Hcom as [H1 H2].
    apply N.eqb_eq in H1. subst c.
    rewrite Nat.add_1_r in H2.
    destruct (nth_error line (S i)) as [d |] eqn:Hd; [| discriminate].
    apply N.eqb_eq in H2. subst d.
    apply (Scanned_comment line i); assumption. }
  destruct (N.eqb c quote) eqn:Hq.
  { apply N.eqb_eq in Hq. subst c.
    destruct (exec re_STRING_LITERAL (sliceFrom line i)) as [[idx m] |] eqn:E.
    - apply Hemit.
      + apply exec_STRING_LITERAL in E. destruct E as (body & rest & -> & _).
        simpl. lia.
      + apply (Scanned_string line i idx m E).
    - apply Hemit; [lia | constructor]. }
  rewrite !test_OPERATOR.
  assert (Htwo : slice line i (i + 2) = c :: firstn 1 (skipn (S i) line)).
  { unfold slice. replace (i + 2 - i) with 2 by lia. rewrite Hskip. reflexivity. }
  rewrite Htwo.
  destruct (isOperatorChar c) eqn:Hop.
  { apply Hemit; [lia |]. rewrite <- Htwo.
    apply (Scanned_operator line i c); assumption. }
  destruct (test re_SEPARATOR [c]) eqn:H1.
  { apply Hemit; [lia |]. apply Scanned_punctuation.
    unfold re_SEPARATOR in H1. rewrite test_anchored_class in H1.
    unfold punctuation. rewrite H1. reflexivity. }
  destruct (test re_OPEN_PAREN [c]) eqn:H2.
  { apply Hemit; [lia |]. apply Scanned_punctuation.
    unfold re_SEPARATOR, re_OPEN_PAREN, Chr in *.
    rewrite test_anchored_class in *.
    unfold punctuation. rewrite H1, H2. reflexivity. }
  destruct (test re_CLOSE_PAREN [c]) eqn:H3.
  { apply Hemit; [lia |]. apply Scanned_punctuation.
    unfold re_SEPARATOR, re_OPEN_PAREN, re_CLOSE_PAREN, Chr in *.
    rewrite test_anchored_class in *.
    unfold punctuation. rewrite H1, H2, H3. reflexivity. }
  destruct (test re_OPEN_BRACE [c]) eqn:H4.
  { apply Hemit; [lia |]. apply Scanned_punctuation.
    unfold re_SEPARATOR, re_OPEN_PAREN, re_CLOSE_PAREN, re_OPEN_BRACE, Chr in *.
    rewrite test_anchored_class in *.
    unfold punctuation. rewrite H1, H2, H3, H4. reflexivity. }
  destruct (test re_CLOSE_BRACE [c]) eqn:H5.
  { apply Hemit; [lia |]. apply Scanned_punctuation.
    unfold re_SEPARATOR, re_OPEN_PAREN, re_CLOSE_PAREN, re_OPEN_BRACE,
      re_CLOSE_BRACE, Chr in *.
    rewrite test_anchored_class in *.
    unfold punctuation. rewrite H1, H2, H3, H4, H5. reflexivity. }
  pose proof (wordRun_wordChars (sliceFrom line i)) as Hw.
  pose proof (wordRun_head c (skipn (S i) line)) as Hhead.
  unfold sliceFrom in *. rewrite Hskip in Hw |- *.
  set (lexeme := wordRun (c :: skipn (S i) line)) in *.
  destruct (0 <? length lexeme) eqn:Hl.
  - apply Nat.ltb_lt in Hl. apply Hemit; [lia |].
    apply Scanned_word; [destruct lexeme; [simpl in Hl; lia | discriminate] | exact Hw].
  - apply Hemit; [lia |]. apply Nat.ltb_ge in Hl.
    apply Scanned_other; try assumption.
    + apply Hhead. destruct lexeme; [reflexivity | simpl in Hl; lia].
    + apply punctuation_tests; assumption.
    + intros ->. rewrite N.eqb_refl in Hq. discriminate.
Qed.

Lemma scanLines_lexed (lines : list str) :
  exists out,
    (forall toks, scanLines lines toks = Some (toks ++ out)) /\
    Forall Lexed out.
Proof.
  induction lines as [| line lines (out' & Hout' & Hall')].
  - exists []. split; [intros toks; rewrite app_nil_r; reflexivity | constructor].
  - cbn [scanLines]. destruct (test re_hashLine line) eqn:Hh.
    + exists (Token PREPROCESSOR (trim line) :: out'). split.
      * intros toks. rewrite Hout'. unfold push. rewrite <- app_assoc. reflexivity.
      * constructor; [apply Lexed_preprocessor; exact Hh | exact Hall'].
    + destruct (scanLine_scanned (S (length line)) line 0) as (out & Hout & Hall);
        [lia |].
      exists (out ++ out'). split.
      * intros toks. rewrite Hout, Hout', app_assoc. reflexivity.
      * apply Forall_app. split; [| exact Hall'].
        revert Hall. apply Forall_impl. intros t. apply Lexed_scanned.
Qed.

Lemma tokenize_lexed (source : str) (tokens : list token) :
  tokenize source = Some tokens -> Forall Lexed tokens.
Proof.
  destruct (tokenize_structure source)
    as (matches & blanked & lineTokens & _ & HB & Hs & Ht & _).
  rewrite Ht. intros E. inversion E; subst; clear E.
  apply Forall_app. split.
  - apply Blanked_comments in HB. clear -HB.
    induction HB; constructor; [apply Lexed_blockComment; assumption | assumption].
  - destruct (scanLines_lexed (split newline blanked)) as (out & Hout & Hall).
    rewrite (Hout []) in Hs. inversion Hs; subst. exact Hall.
Qed.

Lemma trimStart_spaces (ws : str) (c : char) (rest : str) :
  Forall (fun x => isSpace x = true) ws -> isSpace c = false ->
  trimStart (ws ++ c :: rest) = c :: rest.
Proof.
  intros Hws Hc. induction Hws as [| x ws Hx _ IH]; cbn [app trimStart].
  - rewrite Hc. reflexivity.
  - rewrite Hx. exact IH.
Qed.

Lemma trimStart_keeps_last (s : str) (c : char) :
  isSpace c = false -> exists s', trimStart (s ++ [c]) = s' ++ [c].
Proof.
  intros Hc. induction s as [| x s IH]; cbn [app trimStart].
  - rewrite Hc. exists []. reflexivity.
  - destruct (isSpace x); [exact IH | exists (x :: s); reflexivity].
Qed.

Lemma trim_first (ws : str) (c : char) (rest : str) :
  Forall (fun x => isSpace x = true) ws -> isSpace c = false ->
  exists rest', trim (ws ++ c :: rest) = c :: rest'.
Proof.
  intros Hws Hc. unfold trim, trimEnd.
  rewrite (trimStart_spaces ws c rest Hws Hc). cbn [rev].
  destruct (trimStart_keeps_last (rev rest) c Hc) as (s' & ->).
  rewrite rev_app_distr. cbn [rev app]. eexists. reflexivity.
Qed.

Lemma hashLine_trim (line : str) :
  test re_hashLine line = true -> exists rest, trim line = ch "#" :: rest.
Proof.
  unfold re_hashLine. cbn [Cats]. rewrite test_anchored.
  destruct (rmatch _ accept None line) eqn:E; [| discriminate]. intros _.
  apply rmatch_sound in E. destruct E as (m & rest & Hs & HM & _).
  inversion HM as [| | r1 r2 p' ws m2 rest' H1 H2 | | | | | |]; subst; clear HM.
  apply Matches_Star_class in H1. inversion H2; subst; clear H2.
  match goal with E : (_ =? _)%N = true |- _ => apply N.eqb_eq in E; subst end.
  rewrite <- app_assoc. cbn [app].
  apply trim_first; [exact H1 | reflexivity].
Qed.

Lemma punctuation_types (c : char) (ty : TokenType) :
  punctuation c = Some ty ->
  (ty = SEPARATOR /\ oneOf ";,.:" c = true) \/
  (ty = OPEN_PAREN /\ c = ch "(") \/ (ty = CLOSE_PAREN /\ c = ch ")") \/
  (ty = OPEN_BRACE /\ c = ch "{") \/ (ty = CLOSE_BRACE /\ c = ch "}").
Proof.
  unfold punctuation.
  destruct (oneOf ";,.:" c); [intros E; inversion E; auto |].
  repeat match goal with
         | |- context [N.eqb ?k c] =>
             destruct (N.eqb k c) eqn:?;
             [ match goal with E : (_ =? _)%N = true |- _ =>
                 apply N.eqb_eq in E; subst c end;
               intros E; inversion E; auto 10 |]
         end.
  discriminate.
Qed.

Lemma classifyLexeme_word_type (w : str) :
  wordChars w -> w <> [] ->
  (type (classifyLexeme w) = KEYWORD /\ In w keywords) \/
  (type (classifyLexeme w) = IDENTIFIER /\ ~ In w keywords /\
   exists c w', w = c :: w' /\ isLetter c = true) \/
  (type (classifyLexeme w) = NUMBER /\ NumberWord w) \/
  (type (classifyLexeme w) = UNDEFINED /\ ~ NumberWord w /\
   exists c w', w = c :: w' /\ isDigit c = true).
Proof.
  intros Hw Hne. rewrite (classifyLexeme_word w Hw Hne).
  pose proof (test_KEYWORD_word w Hw Hne) as HK.
  pose proof (test_IDENTIFIER_word w Hw) as HI.
  pose proof (test_NUMBER_word w Hw Hne) as HN.
  destruct (test re_KEYWORD w).
  { left. split; [reflexivity | apply HK; reflexivity]. }
  assert (HnK : ~ In w keywords) by (intros H; apply HK in H; discriminate).
  destruct (test re_IDENTIFIER w).
  { right; left. split; [reflexivity |]. split; [exact HnK | apply HI; reflexivity]. }
  assert (Hd : exists c w', w = c :: w' /\ isDigit c = true).
  { destruct w as [| c w']; [congruence |]. exists c, w'. split; [reflexivity |].
    inversion Hw as [| ? ? Hc _]; subst.
    destruct (isWord_cases c Hc) as [H | H]; [| exact H].
    assert (false = true); [| discriminate].
    apply HI. exists c, w'. split; [reflexivity | exact H]. }
  destruct (test re_NUMBER w).
  { right; right; left. split; [reflexivity | apply HN; reflexivity]. }
  right; right; right. split; [reflexivity |]. split; [| exact Hd].
  intros H. apply HN in H. discriminate.
Qed.

Lemma Lexed_head (t : token) :
  Lexed t -> exists c rest, value t = c :: rest /\ headOf (type t) c rest.
Proof.
  intros [m (body & ->) | line Hh | line t' Ht].
  - eexists _, _. split; [reflexivity |]. cbn [type headOf].
    split; [reflexivity |]. eexists _, _. split; [reflexivity |]. right; reflexivity.
  - destruct (hashLine_trim line Hh) as (rest & E).
    exists (ch "#"), rest. split; [exact E | reflexivity].
  - destruct Ht as [i H1 H2 | i idx m E | | i c Hc Hop | ty c Hp | w Hne Hw
                   | c Hsp Hw Hop Hp Hq].
    + exists (ch "/"), (skipn (S i) line). cbn [value type headOf]. unfold sliceFrom.
      split; [apply skipn_cons_nth; exact H1 |]. split; [reflexivity |].
      exists (ch "/"), (skipn (S (S i)) line).
      split; [apply skipn_cons_nth; exact H2 | left; reflexivity].
    + apply exec_STRING_LITERAL in E. destruct E as (body & rest & -> & _).
      eexists _, _. split; [reflexivity |]. cbn [type headOf].
      split; [reflexivity |]. destruct body; discriminate.
    + exists quote, []. split; [reflexivity |]. cbn [type headOf].
      right. repeat split; reflexivity.
    + exists c, (firstn 1 (skipn (S i) line)). cbn [value type headOf].
      split; [| exact Hop]. unfold slice. replace (i + 2 - i) with 2 by lia.
      rewrite (skipn_cons_nth _ _ _ Hc). reflexivity.
    + exists c, []. split; [reflexivity |]. cbn [type].
      destruct (punctuation_types c ty Hp)
        as [[-> _] | [[-> _] | [[-> _] | [[-> _] | [-> _]]]]];
        cbn [headOf]; split; (reflexivity || exact Hp).
    + destruct w as [| c w']; [congruence |].
      exists c, w'. split; [apply classifyLexeme_value |].
      destruct (classifyLexeme_word_type (c :: w') Hw Hne)
        as [[-> _] | [[-> _] | [[-> _] | [-> _]]]]; cbn [headOf];
        try exact Hw. left. exact Hw.
    + exists c, []. split; [reflexivity |]. cbn [type headOf].
      right. repeat split; assumption.
Qed.

(** X1. A run of word characters is classified as a keyword exactly when
    it is one of the reserved words: the word boundaries of the keyword
    pattern leave no room for a reserved word inside a longer run. *)
Theorem keyword_iff_reserved_word (w : str) :
  wordChars w -> w <> [] ->
  (type (classifyLexeme w) = KEYWORD <-> In w keywords).
Proof.
  intros Hw Hne. rewrite (classifyLexeme_word w Hw Hne).
  rewrite <- (test_KEYWORD_word w Hw Hne).
  destruct (test re_KEYWORD w); [split; reflexivity |].
  destruct (test re_IDENTIFIER w), (test re_NUMBER w);
    split; intros H; discriminate H.
Qed.

Lemma keyword_iff_reserved_word_integer :
  (wordChars (lit "integer") /\ lit "integer" <> []) /\
  (type (classifyLexeme (lit "integer")) = KEYWORD <-> In (lit "integer") keywords).
Proof.
  assert (H1 : wordChars (lit "integer")) by (repeat constructor).
  assert (H2 : lit "integer" <> []) by discriminate.
  split; [split; assumption |].
  exact (keyword_iff_reserved_word (lit "integer") H1 H2).
Defined.

(** X2. A run of word characters that starts with a letter or [_] and is
    no reserved word is classified as an identifier, with itself as
    value. *)
Theorem identifier_classification (c : char) (w : str) :
  isLetter c = true -> wordChars w -> ~ In (c :: w) keywords ->
  classifyLexeme (c :: w) = Token IDENTIFIER (c :: w).
Proof.
  intros Hc Hw Hk.
  assert (Hcw : wordChars (c :: w)).
  { constructor; [| exact Hw]. unfold isLetter in Hc. unfold isWord.
    destruct (isLower c), (isUpper c), (isDigit c), (N.eqb c (ch "_"));
      simpl in *; congruence. }
  rewrite (classifyLexeme_word (c :: w) Hcw ltac:(discriminate)).
  destruct (test re_KEYWORD (c :: w)) eqn:E.
  { exfalso. apply Hk. apply test_KEYWORD_word; [exact Hcw | discriminate | exact E]. }
  replace (test re_IDENTIFIER (c :: w)) with true; [reflexivity |].
  symmetry. apply test_IDENTIFIER_word; [exact Hcw |].
  exists c, w. split; [reflexivity | exact Hc].
Qed.

Lemma identifier_classification_print :
  (isLetter (ch "p") = true /\ wordChars (lit "rint") /\
   ~ In (lit "print") keywords) /\
  classifyLexeme (lit "print") = Token IDENTIFIER (lit "print").
Proof.
  assert (H1 : isLetter (ch "p") = true) by reflexivity.
  assert (H2 : wordChars (lit "rint")) by (repeat constructor).
  assert (H3 : ~ In (lit "print") keywords).
  { intros H. vm_compute in H.
    repeat (destruct H as [H | H]; [discriminate H |]). contradiction. }
  split; [repeat split; assumption |].
  exact (identifier_classification (ch "p") (lit "rint") H1 H2 H3).
Defined.

(** X3. A run of word characters that starts with a digit is a number
    when it spells one, [0x] and hexadecimal digits or decimal digits
    with an optional exponent, and is undefined otherwise: never a
    keyword or an identifier. *)
Theorem number_classification (c : char) (w : str) :
  isDigit c = true -> wordChars w ->
  (NumberWord (c :: w) -> classifyLexeme (c :: w) = Token NUMBER (c :: w)) /\
  (~ NumberWord (c :: w) -> classifyLexeme (c :: w) = Token UNDEFINED (c :: w)).
Proof.
  intros Hc Hw.
  assert (Hcw : wordChars (c :: w)).
  { constructor; [| exact Hw]. unfold isWord. rewrite Hc.
    destruct (isLower c), (isUpper c); reflexivity. }
  rewrite (classifyLexeme_word (c :: w) Hcw ltac:(discriminate)).
  pose proof (test_KEYWORD_word (c :: w) Hcw ltac:(discriminate)) as HK.
  pose proof (test_IDENTIFIER_word (c :: w) Hcw) as HI.
  pose proof (test_NUMBER_word (c :: w) Hcw ltac:(discriminate)) as HN.
  assert (Hnl : isLetter c = false).
  { apply isDigit_range in Hc. destruct (isLetter c) eqn:E; [| reflexivity].
    apply isLetter_range in E. unfold char in *. lia. }
  destruct (test re_KEYWORD (c :: w)).
  { exfalso. destruct (keywords_letter (c :: w)) as (c' & w' & E & Hl & _);
      [apply HK; reflexivity |].
    inversion E; subst. congruence. }
  destruct (test re_IDENTIFIER (c :: w)).
  { exfalso. destruct HI as [HI _]. destruct (HI eq_refl) as (c' & w' & E & Hl).
    inversion E; subst. congruence. }
  destruct (test re_NUMBER (c :: w)); split; intros H; try reflexivity.
  - exfalso. apply H. apply HN. reflexivity.
  - apply HN in H. discriminate.
Qed.

Lemma number_classification_1e5 :
  (isDigit (ch "1") = true /\ wordChars (lit "e5")) /\
  classifyLexeme (lit "1e5") = Token NUMBER (lit "1e5").
Proof.
  assert (H1 : isDigit (ch "1") = true) by reflexivity.
  assert (H2 : wordChars (lit "e5")) by (repeat constructor).
  split; [split; assumption |].
  apply (proj1 (number_classification (ch "1") (lit "e5") H1 H2)).
  apply (NumberWord_exponent (lit "1") (ch "e") (lit "5"));
    try discriminate; try reflexivity; repeat constructor.
Defined.

(** X4. No token of [tokenize] has an empty value. *)
Theorem tokens_not_empty (source : str) (tokens : list token) (t : token) :
  tokenize source = Some tokens -> In t tokens -> value t <> [].
Proof.
  intros Ht Hin. apply tokenize_lexed in Ht.
  rewrite Forall_forall in Ht. specialize (Ht t Hin).
  destruct (Lexed_head t Ht) as (c & rest & -> & _). discriminate.
Qed.

Lemma tokens_not_empty_x :
  (tokenize (lit "x = 1;") = Some [ident "x"; oper "= "; number "1"; tk SEPARATOR ";"] /\
   In (oper "= ") [ident "x"; oper "= "; number "1"; tk SEPARATOR ";"]) /\
  value (oper "= ") <> [].
Proof.
  assert (H1 : tokenize (lit "x = 1;") =
               Some [ident "x"; oper "= "; number "1"; tk SEPARATOR ";"])
    by reflexivity.
  assert (H2 : In (oper "= ") [ident "x"; oper "= "; number "1"; tk SEPARATOR ";"])
    by (right; left; reflexivity).
  split; [split; assumption |].
  exact (tokens_not_empty _ _ _ H1 H2).
Defined.

(** X5. What the type of a token of [tokenize] says of its value: a
    keyword is a reserved word; an identifier is no reserved word and is
    a letter or [_] followed by word characters; a number is a run of
    word characters that spells a number, so it holds no [.] and no
    sign. *)
Theorem word_tokens (source : str) (tokens : list token) (t : token) :
  tokenize source = Some tokens -> In t tokens ->
  (type t = KEYWORD -> In (value t) keywords) /\
  (type t = IDENTIFIER ->
   ~ In (value t) keywords /\
   exists c w, value t = c :: w /\ isLetter c = true /\ wordChars w) /\
  (type t = NUMBER -> NumberWord (value t) /\ wordChars (value t)).
Proof.
  intros Ht Hin. apply tokenize_lexed in Ht.
  rewrite Forall_forall in Ht. specialize (Ht t Hin).
  destruct Ht as [m _ | line _ | line t' Hs];
    [repeat split; discriminate.. |].
  destruct Hs as [i H1 H2 | i idx m E | | i c Hc Hop | ty c Hp | w Hne Hw
                 | c Hsp Hw Hop Hp Hq];
    try (repeat split; discriminate).
  - destruct (punctuation_types c ty Hp)
      as [[-> _] | [[-> _] | [[-> _] | [[-> _] | [-> _]]]]];
      repeat split; discriminate.
  - rewrite classifyLexeme_value.
    destruct (classifyLexeme_word_type w Hw Hne)
      as [[E H] | [[E (Hk & c & w' & Ew & Hl)] | [[E H] | [E _]]]];
      rewrite E; (split; [| split]); intros E'; try discriminate E'.
    + exact H.
    + split; [exact Hk |]. subst w. exists c, w'.
      repeat split; try assumption. inversion Hw; assumption.
    + split; assumption.
Qed.

Lemma word_tokens_int :
  (tokenize (lit "int x1;") =
     Some [tk KEYWORD "int"; ident "x1"; tk SEPARATOR ";"] /\
   In (ident "x1") [tk KEYWORD "int"; ident "x1"; tk SEPARATOR ";"]) /\
  (type (ident "x1") = KEYWORD -> In (value (ident "x1")) keywords) /\
  (type (ident "x1") = IDENTIFIER ->
   ~ In (value (ident "x1")) keywords /\
   exists c w, value (ident "x1") = c :: w /\ isLetter c = true /\ wordChars w) /\
  (type (ident "x1") = NUMBER ->
   NumberWord (value (ident "x1")) /\ wordChars (value (ident "x1"))).
Proof.
  assert (H1 : tokenize (lit "int x1;") =
               Some [tk KEYWORD "int"; ident "x1"; tk SEPARATOR ";"])
    by reflexivity.
  assert (H2 : In (ident "x1") [tk KEYWORD "int"; ident "x1"; tk SEPARATOR ";"])
    by (right; left; reflexivity).
  split; [split; assumption |].
  exact (word_tokens _ _ _ H1 H2).
Defined.

Lemma headOf_punctuation (ty : TokenType) (c : char) (found : TokenType) :
  punctuation c = Some found -> headOf ty c [] -> ty = found.
Proof.
  intros Hp H.
  assert (Hw : isWord c = false).
  { unfold punctuation in Hp. destruct (isWord c) eqn:E; [| reflexivity].
    destruct (word_first c [] E) as (_ & _ & _ & H4 & H5 & H6 & H7 & H8 & _).
    unfold re_SEPARATOR, re_OPEN_PAREN, re_CLOSE_PAREN, re_OPEN_BRACE,
      re_CLOSE_BRACE, Chr in *.
    rewrite test_anchored_class in *. rewrite H4, H5, H6, H7, H8 in Hp.
    discriminate. }
  assert (Hop : isOperatorChar c = false).
  { destruct (isOperatorChar c) eqn:E; [| reflexivity].
    apply operator_char_cases in E. vm_compute in E.
    repeat (destruct E as [<- | E]; [vm_compute in Hp; discriminate |]).
    contradiction. }
  assert (Hnw : ~ wordChars [c]) by (intros W; inversion W; congruence).
  destruct ty; cbn [headOf] in H.
  - subst c. vm_compute in Hp. discriminate.
  - contradiction.
  - contradiction.
  - contradiction.
  - destruct H as [_ H]. congruence.
  - congruence.
  - destruct H as [_ H]. congruence.
  - destruct H as [_ H]. congruence.
  - destruct H as [_ H]. congruence.
  - destruct H as [_ H]. congruence.
  - destruct H as [_ H]. congruence.
  - destruct H as [_ (d & rest' & H & _)]. discriminate.
  - destruct H as [H | (_ & _ & _ & H)]; [contradiction | congruence].
Qed.

(** X6. Among the tokens of [tokenize], the type of a parenthesis, a
    brace or a separator and its one-character value determine each
    other: a token has the type exactly when it has the value. *)
Theorem punctuation_type_and_value (source : str) (tokens : list token)
    (t : token) :
  tokenize source = Some tokens -> In t tokens ->
  (type t = OPEN_PAREN <-> value t = lit "(") /\
  (type t = CLOSE_PAREN <-> value t = lit ")") /\
  (type t = OPEN_BRACE <-> value t = lit "{") /\
  (type t = CLOSE_BRACE <-> value t = lit "}") /\
  (type t = SEPARATOR <-> In (value t) (map lit [";"; ","; "."; ":"]%string)).
Proof.
  intros Ht Hin. apply tokenize_lexed in Ht.
  rewrite Forall_forall in Ht. specialize (Ht t Hin).
  destruct (Lexed_head t Ht) as (c & rest & Hv & Hh). rewrite Hv.
  assert (Hfrom : forall ty,
            match ty with
            | SEPARATOR | OPEN_PAREN | CLOSE_PAREN | OPEN_BRACE | CLOSE_BRACE => True
            | _ => False
            end ->
            type t = ty -> rest = [] /\ punctuation c = Some ty).
  { intros ty Hty E. rewrite E in Hh. destruct ty; try contradiction; exact Hh. }
  assert (Hto : forall k ty,
            punctuation k = Some ty -> c :: rest = [k] -> type t = ty).
  { intros k ty Hp E. inversion E; subst.
    apply (headOf_punctuation _ _ _ Hp Hh). }
  repeat split; intros H.
  - destruct (Hfrom OPEN_PAREN I H) as [-> Hp].
    destruct (punctuation_types _ _ Hp)
      as [[? _] | [[_ ->] | [[? _] | [[? _] | [? _]]]]];
      (discriminate || reflexivity).
  - apply (Hto (ch "(")); [reflexivity | exact H].
  - destruct (Hfrom CLOSE_PAREN I H) as [-> Hp].
    destruct (punctuation_types _ _ Hp)
      as [[? _] | [[? _] | [[_ ->] | [[? _] | [? _]]]]];
      (discriminate || reflexivity).
  - apply (Hto (ch ")")); [reflexivity | exact H].
  - destruct (Hfrom OPEN_BRACE I H) as [-> Hp].
    destruct (punctuation_types _ _ Hp)
      as [[? _] | [[? _] | [[? _] | [[_ ->] | [? _]]]]];
      (discriminate || reflexivity).
  - apply (Hto (ch "{")); [reflexivity | exact H].
  - destruct (Hfrom CLOSE_BRACE I H) as [-> Hp].
    destruct (punctuation_types _ _ Hp)
      as [[? _] | [[? _] | [[? _] | [[? _] | [_ ->]]]]];
      (discriminate || reflexivity).
  - apply (Hto (ch "}")); [reflexivity | exact H].
  - destruct (Hfrom SEPARATOR I H) as [-> Hp].
    destruct (punctuation_types _ _ Hp)
      as [[_ Hs] | [[? _] | [[? _] | [[? _] | [? _]]]]]; try discriminate.
    unfold oneOf in Hs. apply existsb_exists in Hs. destruct Hs as (k & Hk & E).
    apply N.eqb_eq in E. subst k. vm_compute in Hk. vm_compute.
    repeat (destruct Hk as [<- | Hk]; [auto 10 |]). contradiction.
  - cbn [map In] in H.
    destruct H as [H | [H | [H | [H | []]]]]; symmetry in H.
    + apply (Hto (ch ";")); [reflexivity | exact H].
    + apply (Hto (ch ",")); [reflexivity | exact H].
    + apply (Hto (ch ".")); [reflexivity | exact H].
    + apply (Hto (ch ":")); [reflexivity | exact H].
Qed.

Lemma punctuation_type_and_value_call :
  (tokenize (lit "f(x)") =
     Some [ident "f"; tk OPEN_PAREN "("; ident "x"; tk CLOSE_PAREN ")"] /\
   In (tk CLOSE_PAREN ")")
      [ident "f"; tk OPEN_PAREN "("; ident "x"; tk CLOSE_PAREN ")"]) /\
  (type (tk CLOSE_PAREN ")") = CLOSE_PAREN <-> value (tk CLOSE_PAREN ")") = lit ")").
Proof.
  assert (H1 : tokenize (lit "f(x)") =
               Some [ident "f"; tk OPEN_PAREN "("; ident "x"; tk CLOSE_PAREN ")"])
    by reflexivity.
  assert (H2 : In (tk CLOSE_PAREN ")")
                 [ident "f"; tk OPEN_PAREN "("; ident "x"; tk CLOSE_PAREN ")"])
    by (cbn [In]; auto).
  split; [split; assumption |].
  exact (proj1 (proj2 (punctuation_type_and_value _ _ _ H1 H2))).
Defined.

(** X7. An operator token of the scan of a line is the two-character
    slice of the line at an operator character [c] of the line: [c] with
    the character that follows it on the line, whatever that character
    is; the token is the one character [c] only when [c] ends the
    line. *)
Theorem operator_tokens (line : str) (tokens : list token) (t : token) :
  scanLine (S (length line)) line 0 [] = Some tokens ->
  In t tokens -> type t = OPERATOR ->
  exists i c,
    nth_error line i = Some c /\
    isOperatorChar c = true /\
    value t = slice line i (i + 2) /\
    match nth_error line (S i) with
    | Some d => value t = [c; d]
    | None => value t = [c] /\ line = firstn i line ++ [c]
    end.
Proof.
  intros Hs Hin Hty.
  destruct (scanLine_scanned (S (length line)) line 0) as (out & Hout & Hall);
    [lia |].
  rewrite (Hout []) in Hs. inversion Hs; subst tokens; clear Hs.
  rewrite Forall_forall in Hall. specialize (Hall t Hin).
  destruct Hall as [i H1 H2 | i idx m E | | i c Hc Hop | ty c Hp | w Hne Hw
                   | c Hsp Hw Hop Hp Hq]; try discriminate Hty.
  - exists i, c. cbn [value]. repeat split; [exact Hc | exact Hop |].
    destruct (nth_error line (S i)) as [d |] eqn:Hd.
    + apply slice_two; assumption.
    + unfold slice. replace (i + 2 - i) with 2 by lia.
      rewrite (skipn_cons_nth _ _ _ Hc), (skipn_nil_nth _ _ Hd).
      split; [reflexivity |].
      rewrite <- (firstn_skipn i line) at 1.
      rewrite (skipn_cons_nth _ _ _ Hc), (skipn_nil_nth _ _ Hd). reflexivity.
  - cbn [type] in Hty. subst ty.
    destruct (punctuation_types c OPERATOR Hp)
      as [[? _] | [[? _] | [[? _] | [[? _] | [? _]]]]]; discriminate.
  - destruct (classifyLexeme_word_type w Hw Hne)
      as [[E _] | [[E _] | [[E _] | [E _]]]]; congruence.
Qed.

Lemma operator_tokens_sum :
  (scanLine 6 (lit "a+b -") 0 [] = Some [ident "a"; oper "+b"; oper "-"] /\
   In (oper "+b") [ident "a"; oper "+b"; oper "-"] /\
   type (oper "+b") = OPERATOR) /\
  exists i c,
    nth_error (lit "a+b -") i = Some c /\
    isOperatorChar c = true /\
    value (oper "+b") = slice (lit "a+b -") i (i + 2) /\
    match nth_error (lit "a+b -") (S i) with
    | Some d => value (oper "+b") = [c; d]
    | None => value (oper "+b") = [c] /\
              lit "a+b -" = firstn i (lit "a+b -") ++ [c]
    end.
Proof.
  assert (H1 : scanLine 6 (lit "a+b -") 0 [] =
               Some [ident "a"; oper "+b"; oper "-"]) by reflexivity.
  assert (H2 : In (oper "+b") [ident "a"; oper "+b"; oper "-"])
    by (cbn [In]; auto).
  assert (H3 : type (oper "+b") = OPERATOR) by reflexivity.
  split; [repeat split; assumption |].
  exact (operator_tokens (lit "a+b -") _ (oper "+b") H1 H2 H3).
Defined.

(** ** Texts without a block comment *)

Lemma replaceFrom_unchanged (f : str -> str) (n : nat) :
  forall prev s,
    length s < n -> noBlockCommentStart s ->
    replaceFrom n blockComment f prev s = Some ([], s).
Proof.
  induction n as [| n IH]; intros prev s Hlen Hno; [lia |].
  cbn [replaceFrom].
  destruct (matchHere blockComment prev s) as [m |] eqn:E.
  { exfalso. apply matchHere_blockComment in E.
    destruct E as ((body & ->) & rest & ->).
    apply (Hno [] (body ++ lit "*/" ++ rest)).
    rewrite <- !app_assoc. reflexivity. }
  destruct s as [| c s]; [reflexivity |].
  rewrite IH; [reflexivity | simpl in Hlen; lia |].
  intros pre post E'. apply (Hno (c :: pre) post). rewrite E'. reflexivity.
Qed.

Lemma tokenize_plain (s : str) :
  noBlockCommentStart s -> tokenize s = scanLines (split newline s) [].
Proof.
  intros H. unfold tokenize, blankComments, replaceAll.
  rewrite replaceFrom_unchanged; [reflexivity | lia | exact H].
Qed.

(** X8. Without a block comment, lines are tokenized on their own: the
    tokens of two texts joined by a newline are the tokens of the first
    followed by the tokens of the second. *)
Theorem tokenize_line_by_line (a b : str) :
  noBlockCommentStart (a ++ newline :: b) ->
  exists ta tb,
    tokenize a = Some ta /\ tokenize b = Some tb /\
    tokenize (a ++ newline :: b) = Some (ta ++ tb).
Proof.
  intros H.
  assert (Ha : noBlockCommentStart a).
  { intros pre post E. apply (H pre (post ++ newline :: b)).
    rewrite E, <- !app_assoc. reflexivity. }
  assert (Hb : noBlockCommentStart b).
  { intros pre post E. apply (H (a ++ newline :: pre) post).
    rewrite E, <- app_assoc. reflexivity. }
  rewrite !tokenize_plain by assumption.
  rewrite split_app, scanLines_app.
  destruct (scanLines_spec (split newline a)) as (ta & Hta & _).
  destruct (scanLines_spec (split newline b)) as (tb & Htb & _).
  exists ta, tb. rewrite (Hta []), (Htb []). cbn [app]. rewrite (Htb ta).
  repeat split.
Qed.

Lemma tokenize_line_by_line_two :
  noBlockCommentStart (lit "int x;" ++ newline :: lit "x++;") /\
  exists ta tb,
    tokenize (lit "int x;") = Some ta /\ tokenize (lit "x++;") = Some tb /\
    tokenize (lit "int x;" ++ newline :: lit "x++;") = Some (ta ++ tb).
Proof.
  assert (H : noBlockCommentStart (lit "int x;" ++ newline :: lit "x++;")).
  { intros pre post E.
    assert (Hstar : In (ch "*") (lit "int x;" ++ newline :: lit "x++;")).
    { rewrite E. apply in_or_app. right. right. left. reflexivity. }
    vm_compute in Hstar.
    repeat (destruct Hstar as [Hstar | Hstar]; [discriminate Hstar |]).
    contradiction. }
  split; [exact H |].
  exact (tokenize_line_by_line (lit "int x;") (lit "x++;") H).
Defined.

(** * The shape of the trees *)

Lemma yields_ret {A} (P : A -> Prop) (a : A) : P a -> yields P (ret a).
Proof. intros H c. exact H. Qed.

Lemma yields_outOfFuel {A} (P : A -> Prop) : yields P (@outOfFuel A).
Proof. intros c. exact I. Qed.

Lemma yields_bind {A B} (R : A -> Prop) (P : B -> Prop) (m : parser A)
    (k : A -> parser B) :
  yields R m -> (forall a, R a -> yields P (k a)) -> yields P (bind m k).
Proof.
  intros Hm Hk c. unfold bind. specialize (Hm c).
  destruct (m c) as [a c' | |]; try exact I. apply (Hk a Hm).
Qed.

Lemma yields_anything {A} (m : parser A) : yields (fun _ => True) m.
Proof. intros c. destruct (m c); exact I. Qed.

Lemma yields_then {A B} (P : B -> Prop) (m : parser A) (k : A -> parser B) :
  (forall a, yields P (k a)) -> yields P (bind m k).
Proof.
  intros Hk. apply (yields_bind (fun _ => True)); [apply yields_anything |].
  intros a _. apply Hk.
Qed.

Lemma yields_assoc {A B C} (P : C -> Prop) (m : parser A)
    (k1 : A -> parser B) (k2 : B -> parser C) :
  yields P (bind m (fun a => bind (k1 a) k2)) -> yields P (bind (bind m k1) k2).
Proof.
  intros H c. specialize (H c). unfold bind in *.
  destruct (m c); exact H.
Qed.

Lemma yields_weaken {A} (P Q : A -> Prop) (m : parser A) :
  (forall a, P a -> Q a) -> yields P m -> yields Q m.
Proof.
  intros HPQ H c. specialize (H c). destruct (m c); try exact I. apply HPQ, H.
Qed.

Lemma valueIn_strIn (l : list string) (t : token) :
  valueIn l t = strIn (value t) l.
Proof. reflexivity. Qed.

Lemma valueIs_eq (s : string) (t : token) :
  valueIs s t = true -> value t = lit s.
Proof. unfold valueIs. apply str_eqb_eq. Qed.

Lemma pushNode_Forall (P : node -> Prop) (body : list node) (n : node) :
  Forall P body -> P n -> Forall P (pushNode body n).
Proof.
  intros Hb Hn. unfold pushNode. destruct (truthy n); [| exact Hb].
  apply Forall_app. split; [exact Hb | constructor; [exact Hn | constructor]].
Qed.

Lemma pushNode_no_null (body : list node) (n : node) :
  ~ In Null body -> ~ In Null (pushNode body n).
Proof.
  intros Hb. unfold pushNode. destruct n; cbn [truthy]; try exact Hb;
    intros H; apply in_app_or in H; destruct H as [H | [H | []]];
    try (apply Hb; exact H); discriminate H.
Qed.

Lemma strIn_sub (op : str) (l l' : list string) :
  incl l l' -> strIn op l = true -> strIn op l' = true.
Proof.
  intros Hi H. unfold strIn in *. apply existsb_exists in H.
  destruct H as (x & Hx & E). apply existsb_exists. exists x.
  split; [apply Hi; exact Hx | exact E].
Qed.

Section Shape.

Variable tokens : list token.

Ltac shape :=
  unfold skipSemicolon, skipIf, here, atEnd, atEndOr;
  repeat first
    [ apply yields_outOfFuel
    | match goal with
      | H : yields ?R ?m |- yields _ (bind ?m _) =>
          apply (yields_bind R); [exact H | intros ? ?]
      | H : forall x, _ -> yields ?R (?f x) |- yields _ (bind (?f ?a) _) =>
          apply (yields_bind R); [apply H | intros ? ?]
      | H : forall x y, yields ?R (?f x y) |- yields _ (bind (?f ?a ?b) _) =>
          apply (yields_bind R); [apply H | intros ? ?]
      | H : forall x, yields ?R (?f x) |- yields _ (bind (?f ?a) _) =>
          apply (yields_bind R); [apply H | intros ? ?]
      | |- yields _ (bind (bind _ _) _) => apply yields_assoc
      | H : yields ?P ?m |- yields ?P ?m => exact H
      | H : forall x y, _ -> yields ?P (?f x y) |- yields ?P (?f ?a ?b) => apply H
      | H : forall x, _ -> yields ?P (?f x) |- yields ?P (?f ?a) => apply H
      | H : forall x, yields ?P (?f x) |- yields ?P (?f ?a) => apply H
      | H : forall x y, yields ?P (?f x y) |- yields ?P (?f ?a ?b) => apply H
      | |- yields _ (bind (if ?b then _ else _) _) => destruct b eqn:?
      | |- yields _ (bind _ _) => apply yields_then; intros ?
      | |- yields _ (match ?x with _ => _ end) => destruct x eqn:?
      | |- yields _ (ret _) => apply yields_ret
      end ].

Lemma parsePostfix_loop_shape (n : nat) :
  forall operand,
    Expression operand -> yields Expression (parsePostfix_loop tokens n operand).
Proof.
  induction n as [| n IH]; intros operand Ho; [apply yields_outOfFuel |].
  cbn [parsePostfix_loop]. shape; try assumption.
  constructor; [| exact Ho]. rewrite <- valueIn_strIn. assumption.
Qed.

Lemma expression_shape_all (n : nat) : expression_shape tokens n.
Proof.
  unfold expression_shape.
  induction n as [| n IH].
  - repeat split; intros; apply yields_outOfFuel.
  - destruct IH as (? & ? & ? & ? & ? & ? & ? & ? & ? & ? & ? & ? & ? & ?).
    pose proof (parsePostfix_loop_shape n).
    repeat split; intros;
      cbn [parseExpression parseAssignment parseEquality parseEquality_loop
           parseRelational parseRelational_loop parseAdditive
           parseAdditive_loop parseMultiplicative parseMultiplicative_loop
           parseUnary parsePostfix parsePrimary parsePrimary_args];
      unfold binaryRound; shape.
    all: try assumption.
    all: try (constructor; assumption).
    all: try match goal with
             | E : valueIs "=" ?t = true |- _ =>
                 rewrite (valueIs_eq _ _ E); constructor; assumption
             | E : valueIn ?l ?t = true
               |- Expression (BinaryExpression (value ?t) _ _) =>
                 apply Expression_Binary; try assumption;
                 apply (strIn_sub _ l); [| exact E];
                 intros x Hx; cbn [In binaryOperators] in *; tauto
             | E : valueIn ?l ?t = true
               |- Expression (PrefixExpression (value ?t) _) =>
                 apply Expression_Prefix; assumption
             | H : Forall Expression ?a /\ ~ In Null ?a
               |- Expression (FunctionCall _ ?a) =>
                 destruct H; constructor; assumption
             | H : Forall Expression ?a /\ ~ In Null ?a
               |- Forall Expression (pushNode ?a _) /\ _ =>
                 destruct H; split;
                 [apply pushNode_Forall | apply pushNode_no_null]; assumption
             | |- Forall Expression [] /\ _ =>
                 split; [constructor | intros []]
             end.
Qed.

Lemma parseExpression_shape (n : nat) :
  yields Expression (parseExpression tokens n).
Proof. apply (expression_shape_all n). Qed.

Lemma parseDeclaration_loop_shape (n : nat) :
  forall e v,
    Forall Declarator v ->
    yields (Forall Declarator) (parseDeclaration_loop tokens n e v).
Proof.
  induction n as [| n IH]; intros e v Hv; [apply yields_outOfFuel |].
  pose proof (parseExpression_shape n).
  assert (Hnull : yields Expression (@ret node Null))
    by (apply yields_ret; constructor).
  cbn [parseDeclaration_loop]. shape; try assumption.
  all: try (apply Forall_app; split; [assumption |];
            constructor; [| constructor];
            eexists _, _; split; [reflexivity | assumption]).
  all: try (apply Forall_app; split; [assumption |];
            constructor; [| constructor];
            eexists _, _; split; [reflexivity | constructor]).
Qed.

Lemma parseDeclaration_shape (n : nat) (e : bool) :
  yields Declaration (parseDeclaration tokens n e).
Proof.
  destruct n as [| n]; [apply yields_outOfFuel |].
  pose proof (parseDeclaration_loop_shape n e [] (Forall_nil _)).
  cbn [parseDeclaration]. shape.
  eexists _, _. split; [reflexivity | assumption].
Qed.

Lemma parseReturnStatement_shape (n : nat) :
  yields Statement (parseReturnStatement tokens n).
Proof.
  destruct n as [| n]; [apply yields_outOfFuel |].
  pose proof (parseExpression_shape n).
  cbn [parseReturnStatement]. shape; constructor; assumption.
Qed.

Lemma parseExpressionStatement_shape (n : nat) :
  yields Statement (parseExpressionStatement tokens n).
Proof.
  destruct n as [| n]; [apply yields_outOfFuel |].
  pose proof (parseExpression_shape n).
  cbn [parseExpressionStatement]. shape; constructor; assumption.
Qed.

Lemma Block_Statement (body : node) : Block body -> Statement body.
Proof.
  intros [(e & ->) | (statements & -> & H1 & H2)]; constructor; assumption.
Qed.

Lemma statement_shape_all (n : nat) : statement_shape tokens n.
Proof.
  unfold statement_shape.
  induction n as [| n IH].
  - repeat split; intros; apply yields_outOfFuel.
  - destruct IH as (? & HB & ? & ? & ?).
    pose proof (parseExpression_shape n).
    pose proof (parseDeclaration_shape n).
    pose proof (parseReturnStatement_shape n).
    pose proof (parseExpressionStatement_shape n).
    assert (Hnull : yields Statement (@ret node Null))
      by (apply yields_ret; constructor).
    repeat split; intros;
      cbn [parseStatement parseCompoundStatement parseCompoundStatement_loop
           parseIfStatement parseForStatement];
      shape.
    all: try assumption.
    all: try (constructor; assumption).
    all: try match goal with
             | |- yields Statement (parseDeclaration _ _ _) =>
                 apply (yields_weaken Declaration);
                 [apply Statement_Declaration | auto]
             | |- yields Statement (parseCompoundStatement _ _) =>
                 apply (yields_weaken Block); [apply Block_Statement | assumption]
             | |- Block (ErrorNode _) => left; eexists; reflexivity
             | |- Block (CompoundStatement _) =>
                 right; eexists; split; [reflexivity | assumption]
             | |- Body [] => split; [constructor | intros []]
             | H : Body ?b |- Body (pushNode ?b _) =>
                 destruct H; split;
                 [apply pushNode_Forall | apply pushNode_no_null]; assumption
             | |- Statement (ForStatement _ _ _ _) =>
                 constructor; auto
             end.
Qed.

Lemma parseCompoundStatement_shape (n : nat) :
  yields Block (parseCompoundStatement tokens n).
Proof. apply (statement_shape_all n). Qed.

Lemma parseFunctionDefinition_params_shape (n : nat) :
  forall ps,
    Forall ParameterOf ps ->
    yields (Forall ParameterOf) (parseFunctionDefinition_params tokens n ps).
Proof.
  induction n as [| n IH]; intros ps Hps; [apply yields_outOfFuel |].
  cbn [parseFunctionDefinition_params]. shape; try assumption.
  apply Forall_app. split; [assumption |].
  constructor; [| constructor]. eexists _, _. reflexivity.
Qed.

Lemma parseFunctionDefinition_shape (n : nat) :
  yields TopLevel (parseFunctionDefinition tokens n).
Proof.
  destruct n as [| n]; [apply yields_outOfFuel |].
  pose proof (parseCompoundStatement_shape n).
  pose proof (parseFunctionDefinition_params_shape n [] (Forall_nil _)).
  cbn [parseFunctionDefinition]. shape.
  all: try (right; left; eexists; reflexivity).
  right; right. eexists _, _, _, _. split; [reflexivity |]. split; assumption.
Qed.

Lemma parseProgram_loop_shape (n : nat) :
  forall body,
    Forall TopLevel body ->
    yields (fun p => exists body', p = Program body' /\ Forall TopLevel body')
           (parseProgram_loop tokens n body).
Proof.
  induction n as [| n IH]; intros body Hb; [apply yields_outOfFuel |].
  pose proof (parseFunctionDefinition_shape n).
  cbn [parseProgram_loop]. shape; try assumption.
  - apply Forall_app. split; [assumption |].
    constructor; [| constructor]. left. eexists. reflexivity.
  - apply pushNode_Forall; assumption.
  - exists body. split; [reflexivity | assumption].
Qed.

End Shape.

(** X9. What [parse] returns is a program whose body holds preprocessor
    directives, error nodes and function declarations only; the
    parameters of a declaration are parameter nodes, and its body is an
    error node or a compound statement of well-formed statements, none
    of them [null]. *)
Theorem parse_well_formed (tokens : list token) (fuel current : nat)
    (program : node) (current' : nat) :
  parse fuel tokens current = Done program current' ->
  exists body, program = Program body /\ Forall TopLevel body.
Proof.
  intros H. unfold parse, parseProgram in H.
  pose proof (parseProgram_loop_shape tokens fuel [] (Forall_nil _) 0) as Hs.
  unfold bind, setCurrent in H. rewrite H in Hs. exact Hs.
Qed.

Lemma parse_well_formed_main :
  parse 15 (inMain [tk KEYWORD "return"; number "0"; tk SEPARATOR ";"]) 0 =
    Done (mainWith [ReturnStatement (Lit "0")]) 9 /\
  exists body,
    mainWith [ReturnStatement (Lit "0")] = Program body /\ Forall TopLevel body.
Proof.
  assert (H : parse 15 (inMain [tk KEYWORD "return"; number "0"; tk SEPARATOR ";"]) 0 =
              Done (mainWith [ReturnStatement (Lit "0")]) 9) by reflexivity.
  split; [exact H |].
  exact (parse_well_formed _ _ _ _ _ H).
Defined.

(** * Where the cursor goes

    The results of the parsing functions and the cursor they leave are
    followed call by call, with the rule of [bind] for each operation of
    the parser monad. *)

Lemma post_weaken {A} (R Q : A -> nat -> Prop) (o : outcome A) :
  post R o -> (forall a c', R a c' -> Q a c') -> post Q o.
Proof. destruct o; cbn [post]; auto. Qed.

Lemma post_bind {A B} (R : A -> nat -> Prop) (Q : B -> nat -> Prop)
    (m : parser A) (k : A -> parser B) (c : nat) :
  post R (m c) -> (forall a c', R a c' -> post Q (k a c')) ->
  post Q (bind m k c).
Proof.
  unfold bind. destruct (m c) as [a c' | |]; cbn [post]; auto.
Qed.

Lemma post_assoc {A B C} (Q : C -> nat -> Prop) (m : parser A)
    (k1 : A -> parser B) (k2 : B -> parser C) (c : nat) :
  post Q (bind m (fun a => bind (k1 a) k2) c) -> post Q (bind (bind m k1) k2 c).
Proof. unfold bind. destruct (m c); auto. Qed.

Lemma post_ret {A B} (Q : B -> nat -> Prop) (a : A) (k : A -> parser B)
    (c : nat) :
  post Q (k a c) -> post Q (bind (ret a) k c).
Proof. auto. Qed.

Lemma post_advance {B} (Q : B -> nat -> Prop) (k : unit -> parser B) (c : nat) :
  post Q (k tt (S c)) -> post Q (bind advance k c).
Proof. auto. Qed.

Section PostRules.

Variable tokens : list token.

Lemma post_peek {B} (Q : B -> nat -> Prop) (k : option token -> parser B)
    (c : nat) :
  post Q (k (nth_error tokens c) c) -> post Q (bind (peek tokens) k c).
Proof. auto. Qed.

Lemma post_tokenAt {B} (Q : B -> nat -> Prop) (k : token -> parser B) (c : nat) :
  (forall t, nth_error tokens c = Some t -> post Q (k t c)) ->
  post Q (bind (tokenAt tokens) k c).
Proof.
  intros H. unfold bind, tokenAt. destruct (nth_error tokens c); [apply H |];
    reflexivity.
Qed.

Lemma post_here {B} (Q : B -> nat -> Prop) (p : token -> bool)
    (k : bool -> parser B) (c : nat) :
  post Q (k (match nth_error tokens c with Some t => p t | None => false end) c) ->
  post Q (bind (here tokens p) k c).
Proof. auto. Qed.

Lemma post_atEndOr {B} (Q : B -> nat -> Prop) (p : token -> bool)
    (k : bool -> parser B) (c : nat) :
  post Q (k (match nth_error tokens c with Some t => p t | None => true end) c) ->
  post Q (bind (atEndOr tokens p) k c).
Proof. auto. Qed.

Lemma post_skipIf {B} (Q : B -> nat -> Prop) (p : token -> bool)
    (k : unit -> parser B) (c : nat) :
  post Q (if match nth_error tokens c with Some t => p t | None => false end
          then k tt (S c) else k tt c) ->
  post Q (bind (skipIf tokens p) k c).
Proof.
  unfold skipIf, here, bind, peek, ret, advance.
  destruct (nth_error tokens c) as [t |]; [destruct (p t) |]; auto.
Qed.

Lemma post_skipIf_end (Q : unit -> nat -> Prop) (p : token -> bool) (c : nat) :
  (if match nth_error tokens c with Some t => p t | None => false end
   then Q tt (S c) else Q tt c) ->
  post Q (skipIf tokens p c).
Proof.
  unfold skipIf, here, bind, peek, ret, advance.
  destruct (nth_error tokens c) as [t |]; [destruct (p t) |]; auto.
Qed.

End PostRules.

(** One step of a run at a time: the operations of the monad by their
    rules, the calls by what is known of the callee. *)
Ltac go :=
  unfold binaryRound, skipSemicolon, atEnd;
  repeat first
    [ progress cbv beta
    | match goal with
      | |- post _ (outOfFuel _) => exact I
      | |- post _ (ret _ _) => unfold ret; cbn [post]
      | |- post _ (advance _) => unfold advance; cbn [post]
      | |- post _ (bind (bind _ _) _ _) => apply post_assoc
      | |- post _ (bind (peek ?ts) _ ?c) =>
          apply post_peek; destruct (nth_error ts c) eqn:?
      | |- post _ (bind advance _ _) => apply post_advance
      | |- post _ (bind (tokenAt _) _ _) => apply post_tokenAt; intros ? ?
      | |- post _ (bind (here ?ts _) _ ?c) =>
          apply post_here; destruct (nth_error ts c) eqn:?
      | |- post _ (bind (atEndOr ?ts _) _ ?c) =>
          apply post_atEndOr; destruct (nth_error ts c) eqn:?
      | |- post _ (bind (skipIf ?ts _) _ ?c) =>
          apply post_skipIf; destruct (nth_error ts c) eqn:?
      | |- post _ (skipIf ?ts _ ?c) =>
          apply post_skipIf_end; destruct (nth_error ts c) eqn:?
      | |- post _ (bind (ret _) _ _) => apply post_ret
      | H : _ |- post _ (bind _ _ _) =>
          eapply post_bind; [apply H | intros ? ? ?]
      | H : _ |- post _ (?f _) =>
          eapply post_weaken; [apply H | intros ? ? ?]
      | |- post _ (bind (if ?b then _ else _) _ _) => destruct b eqn:?
      | |- post _ ((if ?b then _ else _) _) => destruct b eqn:?
      | |- post _ (if ?b then _ else _) => destruct b eqn:?
      | |- post _ ((match ?x with _ => _ end) _) => destruct x eqn:?
      end ].

(** ** A call that reads no token *)

Ltac settle :=
  unfold moves, extends, stopsAt, advances, keeps, stalls, emptyStatement,
    opens in *;
  repeat match goal with
         | H : _ \/ _ |- _ => destruct H
         | H : _ /\ _ |- _ => destruct H
         | H : exists _, _ |- _ => destruct H
         end;
  subst;
  repeat match goal with
         | E : nth_error ?ts ?c = _,
           H : match nth_error ?ts ?c with _ => _ end |- _ =>
             rewrite E in H
         | E : nth_error ?ts ?c = Some _,
           E' : nth_error ?ts ?c = Some _ |- _ =>
             rewrite E in E'; inversion E'; subst; clear E'
         | E : nth_error ?ts ?c = Some _,
           E' : nth_error ?ts ?c = None |- _ =>
             rewrite E in E'; discriminate E'
         | E : ?b = false, H : (?b || _)%bool = true |- _ =>
             rewrite E in H; cbn [orb] in H
         | E : ?b = true, H : (?b || _)%bool = false |- _ =>
             rewrite E in H; discriminate H
         end;
  first [ lia
        | left; lia
        | right; repeat split; try reflexivity; try lia;
          repeat match goal with
                 | E : nth_error ?ts ?c = _ |- context [nth_error ?ts ?c] =>
                     rewrite E
                 end;
          auto ].

Section Moves.

Variable tokens : list token.

Lemma parsePostfix_loop_moves (n : nat) :
  forall operand c, post (extends operand c) (parsePostfix_loop tokens n operand c).
Proof.
  induction n as [| n IH]; intros operand c; [exact I |].
  cbn [parsePostfix_loop]. go; settle.
Qed.

Lemma expression_moves_all (n : nat) : expression_moves tokens n.
Proof.
  unfold expression_moves.
  induction n as [| n IH].
  - repeat split; intros; exact I.
  - destruct IH as (? & ? & ? & ? & ? & ? & ? & ? & ? & ? & ? & ? & ? & ?).
    pose proof (parsePostfix_loop_moves n).
    repeat split; intros;
      cbn [parseExpression parseAssignment parseEquality parseEquality_loop
           parseRelational parseRelational_loop parseAdditive
           parseAdditive_loop parseMultiplicative parseMultiplicative_loop
           parseUnary parsePostfix parsePrimary parsePrimary_args];
      go; try settle.
Qed.

Lemma parseExpression_moves (n : nat) :
  forall c, post (moves tokens c) (parseExpression tokens n c).
Proof. apply (expression_moves_all n). Qed.

Lemma parseDeclaration_loop_keeps (n : nat) :
  forall e v c, post (keeps c) (parseDeclaration_loop tokens n e v c).
Proof.
  induction n as [| n IH]; intros e v c; [exact I |].
  pose proof (parseExpression_moves n).
  cbn [parseDeclaration_loop]. go; try settle.
Qed.

Lemma parseDeclaration_advances (n : nat) (e : bool) :
  forall c, post (advances c) (parseDeclaration tokens n e c).
Proof.
  destruct n as [| n]; intros c; [exact I |].
  pose proof (fun c => parseDeclaration_loop_keeps n e [] c).
  cbn [parseDeclaration]. go; try settle.
Qed.

Lemma parseReturnStatement_advances (n : nat) :
  forall c, post (advances c) (parseReturnStatement tokens n c).
Proof.
  destruct n as [| n]; intros c; [exact I |].
  pose proof (parseExpression_moves n).
  cbn [parseReturnStatement]. go; try settle.
Qed.

Lemma parseExpressionStatement_moves (n : nat) :
  forall c, post (emptyStatement tokens c) (parseExpressionStatement tokens n c).
Proof.
  destruct n as [| n]; intros c; [exact I |].
  pose proof (parseExpression_moves n).
  cbn [parseExpressionStatement]. go; try settle.
Qed.

Lemma statement_moves_all (n : nat) : statement_moves tokens n.
Proof.
  unfold statement_moves.
  induction n as [| n IH].
  - repeat split; intros; exact I.
  - destruct IH as (? & ? & ? & ? & ?).
    pose proof (parseExpression_moves n).
    pose proof (parseDeclaration_advances n).
    pose proof (parseReturnStatement_advances n).
    pose proof (parseExpressionStatement_moves n).
    repeat split; intros;
      cbn [parseStatement parseCompoundStatement parseCompoundStatement_loop
           parseIfStatement parseForStatement];
      go; try settle.
    + exfalso. congruence.
    + eexists. split; [reflexivity |].
      destruct (typeIs OPEN_BRACE t); [discriminate | reflexivity].
Qed.

Lemma parseStatement_stalls (n : nat) :
  forall c, post (stalls tokens c) (parseStatement tokens n c).
Proof. apply (statement_moves_all n). Qed.

End Moves.

(** X10. [parseExpression] reads at least one token, unless it returns
    [null] and leaves the cursor where it was, which it does only at the
    end of the tokens, at a semicolon or at a token of type
    [CLOSE_PAREN]. *)
Theorem parseExpression_progress (tokens : list token) (fuel c : nat)
    (e : node) (c' : nat) :
  parseExpression tokens fuel c = Done e c' ->
  c < c' \/
  (c' = c /\ e = Null /\
   match nth_error tokens c with
   | Some t => isSemicolon t = true \/ type t = CLOSE_PAREN
   | None => True
   end).
Proof.
  intros H. pose proof (parseExpression_moves tokens fuel c) as Hm.
  rewrite H in Hm. destruct Hm as [Hm | (-> & -> & Hs)]; [left; exact Hm |].
  right. repeat split. unfold stopsAt in Hs.
  destruct (nth_error tokens c) as [t |]; [| exact I].
  apply orb_true_iff in Hs. destruct Hs as [Hs | Hs]; [left; exact Hs |].
  right. unfold typeIs in Hs. destruct (type t); try discriminate Hs. reflexivity.
Qed.

Lemma parseExpression_progress_semicolon :
  parseExpression [tk SEPARATOR ";"] 9 0 = Done Null 0 /\
  (0 < 0 \/
   (0 = 0 /\ Null = Null /\
    match nth_error [tk SEPARATOR ";"] 0 with
    | Some t => isSemicolon t = true \/ type t = CLOSE_PAREN
    | None => True
    end)).
Proof.
  assert (H : parseExpression [tk SEPARATOR ";"] 9 0 = Done Null 0) by reflexivity.
  split; [exact H |].
  exact (parseExpression_progress _ _ _ _ _ H).
Defined.

(** X11. [parseStatement] reads at least one token, except at the end of
    the tokens, where it returns [null], and at a token of type
    [CLOSE_PAREN], where it returns the empty expression statement; in
    both cases the cursor stays. *)
Theorem parseStatement_progress (tokens : list token) (fuel c : nat)
    (s : node) (c' : nat) :
  parseStatement tokens fuel c = Done s c' ->
  c < c' \/
  (c' = c /\
   match nth_error tokens c with
   | Some t => type t = CLOSE_PAREN /\ s = ExpressionStatement Null
   | None => s = Null
   end).
Proof.
  intros H. pose proof (parseStatement_stalls tokens fuel c) as Hm.
  rewrite H in Hm. destruct Hm as [Hm | (-> & Hs)]; [left; exact Hm |].
  right. split; [reflexivity |].
  destruct (nth_error tokens c) as [t |]; [| exact Hs].
  destruct Hs as [Hs ->]. split; [| reflexivity].
  unfold typeIs in Hs. destruct (type t); try discriminate Hs. reflexivity.
Qed.

Lemma parseStatement_progress_paren :
  parseStatement [tk CLOSE_PAREN ")"] 12 0 = Done (ExpressionStatement Null) 0 /\
  (0 < 0 \/
   (0 = 0 /\
    match nth_error [tk CLOSE_PAREN ")"] 0 with
    | Some t => type t = CLOSE_PAREN /\
                ExpressionStatement Null = ExpressionStatement Null
    | None => ExpressionStatement Null = Null
    end)).
Proof.
  assert (H : parseStatement [tk CLOSE_PAREN ")"] 12 0 =
              Done (ExpressionStatement Null) 0) by reflexivity.
  split; [exact H |].
  exact (parseStatement_progress _ _ _ _ _ H).
Defined.

(** ** Tokens at which nothing is read *)

Section Inert.

Variable tokens : list token.
Variable c : nat.
Variable t : token.
Hypothesis Ht : nth_error tokens c = Some t.
Hypothesis Hinert : inert t.

Ltac still :=
  destruct Hinert as (I0 & I1 & I2 & I3 & I4 & I5 & I6);
  unfold binaryRound;
  repeat first
    [ progress cbv beta
    | match goal with
      | |- post _ (outOfFuel _) => exact I
      | |- post _ (ret _ _) => unfold ret; cbn [post]; split; reflexivity
      | |- post _ (bind (peek _) _ _) => apply post_peek; rewrite Ht
      | H : _ |- post _ (bind _ _ _) =>
          eapply post_bind; [apply H | intros ? ? [-> ->]]
      | H : _ |- post _ (?f _) =>
          eapply post_weaken; [apply H | intros ? ? [-> ->]; split; reflexivity]
      | |- _ => rewrite I0
      | |- _ => rewrite I1
      | |- _ => rewrite I2
      | |- _ => rewrite I3
      | |- _ => rewrite I4
      | |- _ => rewrite I5
      | |- _ => rewrite I6
      end ].

Lemma parsePostfix_loop_inert (n : nat) :
  forall l, post (same l c) (parsePostfix_loop tokens n l c).
Proof.
  destruct n as [| n]; intros l; [exact I |].
  cbn [parsePostfix_loop]. still.
Qed.

Lemma expression_inert_all (n : nat) : expression_inert tokens c n.
Proof.
  unfold expression_inert.
  induction n as [| n IH].
  - repeat split; intros; exact I.
  - destruct IH as (? & ? & ? & ? & ? & ? & ? & ? & ? & ? & ? & ? & ?).
    pose proof (parsePostfix_loop_inert n).
    repeat split; intros;
      cbn [parseExpression parseAssignment parseEquality parseEquality_loop
           parseRelational parseRelational_loop parseAdditive
           parseAdditive_loop parseMultiplicative parseMultiplicative_loop
           parseUnary parsePostfix parsePrimary];
      still.
Qed.

End Inert.

Lemma inert_paren : inert (tk CLOSE_PAREN ")").
Proof. repeat split. Qed.

Lemma inert_semicolon : inert (tk SEPARATOR ";").
Proof. repeat split. Qed.

Lemma parseExpression_inert (tokens : list token) (c : nat) (t : token) (n : nat) :
  nth_error tokens c = Some t -> inert t ->
  parseExpression tokens n c = OutOfFuel \/
  parseExpression tokens n c = Done Null c.
Proof.
  intros Ht Hi.
  pose proof (proj1 (expression_inert_all tokens c t Ht Hi n)) as H.
  pose proof (parseExpression_safe tokens n c) as Hs.
  destruct (parseExpression tokens n c) as [e c' | |].
  - destruct H as [-> ->]. right. reflexivity.
  - congruence.
  - left. reflexivity.
Qed.

Lemma parseStatement_at_paren (tokens : list token) (c : nat) (n : nat) :
  nth_error tokens c = Some (tk CLOSE_PAREN ")") ->
  parseStatement tokens n c = OutOfFuel \/
  parseStatement tokens n c = Done (ExpressionStatement Null) c.
Proof.
  intros Ht. destruct n as [| [| m]]; try (left; reflexivity).
  - left. cbn [parseStatement]. unfold bind at 1, peek. rewrite Ht. reflexivity.
  - assert (E : parseStatement tokens (S (S m)) c =
                bind (parseExpression tokens m)
                  (fun expr => skipSemicolon tokens ;; ret (ExpressionStatement expr))
                  c).
    { cbn [parseStatement]. unfold bind at 1, peek. rewrite Ht. reflexivity. }
    rewrite E.
    destruct (parseExpression_inert tokens c _ m Ht inert_paren) as [E' | E'];
      [left | right]; unfold bind at 1; rewrite E'; [reflexivity |].
    unfold skipSemicolon, skipIf, here, bind, peek, ret. rewrite Ht. reflexivity.
Qed.

(** X12. Once the cursor is at a [)] where a statement should start, the
    loop of [parseCompoundStatement] returns with no amount of fuel:
    every round adds an empty expression statement and leaves the cursor
    on the [)]. *)
Theorem statement_loop_never_returns (tokens : list token) (c : nat) :
  nth_error tokens c = Some (tk CLOSE_PAREN ")") ->
  forall fuel body, parseCompoundStatement_loop tokens fuel body c = OutOfFuel.
Proof.
  intros Ht fuel. induction fuel as [| n IH]; intros body; [reflexivity |].
  assert (E : parseCompoundStatement_loop tokens (S n) body c =
              bind (parseStatement tokens n)
                (fun stmt => parseCompoundStatement_loop tokens n (pushNode body stmt))
                c).
  { cbn [parseCompoundStatement_loop]. unfold here, bind at 1 2, peek, ret.
    rewrite Ht. reflexivity. }
  rewrite E. unfold bind.
  destruct (parseStatement_at_paren tokens c n Ht) as [E' | E']; rewrite E';
    [reflexivity | apply IH].
Qed.

Lemma statement_loop_never_returns_block :
  nth_error [tk OPEN_BRACE "{"; tk CLOSE_PAREN ")"; tk CLOSE_BRACE "}"] 1 =
    Some (tk CLOSE_PAREN ")") /\
  parseCompoundStatement_loop
    [tk OPEN_BRACE "{"; tk CLOSE_PAREN ")"; tk CLOSE_BRACE "}"] 1000 [] 1 = OutOfFuel.
Proof.
  split; [reflexivity |].
  exact (statement_loop_never_returns
           [tk OPEN_BRACE "{"; tk CLOSE_PAREN ")"; tk CLOSE_BRACE "}"] 1
           eq_refl 1000 []).
Defined.

(** X13. Once the cursor is at a [;] where an argument should start, the
    argument loop of [parsePrimary] returns with no amount of fuel: the
    expression is [null], which is not kept, and the cursor stays on the
    [;]. *)
Theorem argument_loop_never_returns (tokens : list token) (c : nat) :
  nth_error tokens c = Some (tk SEPARATOR ";") ->
  forall fuel args, parsePrimary_args tokens fuel args c = OutOfFuel.
Proof.
  intros Ht fuel. induction fuel as [| n IH]; intros args; [reflexivity |].
  assert (E : parsePrimary_args tokens (S n) args c =
              bind (parseExpression tokens n)
                (fun arg =>
                   skipIf tokens (valueIs ",") ;;
                   parsePrimary_args tokens n (pushNode args arg))
                c).
  { cbn [parsePrimary_args]. unfold here, bind at 1 2, peek, ret.
    rewrite Ht. reflexivity. }
  rewrite E. unfold bind at 1.
  destruct (parseExpression_inert tokens c _ n Ht inert_semicolon) as [E' | E'];
    rewrite E'; [reflexivity |].
  assert (E2 : (skipIf tokens (valueIs ",") ;;
                parsePrimary_args tokens n (pushNode args Null)) c =
               parsePrimary_args tokens n args c).
  { unfold skipIf, here, bind, peek, ret. rewrite Ht. reflexivity. }
  rewrite E2. apply IH.
Qed.

Lemma argument_loop_never_returns_call :
  nth_error [ident "f"; tk OPEN_PAREN "("; tk SEPARATOR ";"; tk CLOSE_PAREN ")"] 2 =
    Some (tk SEPARATOR ";") /\
  parsePrimary_args
    [ident "f"; tk OPEN_PAREN "("; tk SEPARATOR ";"; tk CLOSE_PAREN ")"] 1000 [] 2
  = OutOfFuel.
Proof.
  split; [reflexivity |].
  exact (argument_loop_never_returns
           [ident "f"; tk OPEN_PAREN "("; tk SEPARATOR ";"; tk CLOSE_PAREN ")"] 2
           eq_refl 1000 []).
Defined.

(** ** The cursor stays at the tokens *)

Section Bounds.

Variable tokens : list token.

Ltac bounded :=
  unfold within, withinFrom, overBy1, overBy1From, atEndBy1 in *;
  repeat match goal with
         | E : nth_error tokens ?c = Some _ |- _ =>
             assert (c < length tokens) by (apply nth_error_Some; congruence);
             clear E
         | E : nth_error tokens ?c = None |- _ =>
             apply nth_error_None in E
         end;
  lia.

Lemma parsePostfix_loop_within (n : nat) :
  forall operand c, post (within tokens c) (parsePostfix_loop tokens n operand c).
Proof.
  induction n as [| n IH]; intros operand c; [exact I |].
  cbn [parsePostfix_loop]. go; bounded.
Qed.

Lemma expression_within_all (n : nat) : expression_within tokens n.
Proof.
  unfold expression_within.
  induction n as [| n IH].
  - repeat split; intros; exact I.
  - destruct IH as (? & ? & ? & ? & ? & ? & ? & ? & ? & ? & ? & ? & ? & ?).
    pose proof (parsePostfix_loop_within n).
    repeat split; intros;
      cbn [parseExpression parseAssignment parseEquality parseEquality_loop
           parseRelational parseRelational_loop parseAdditive
           parseAdditive_loop parseMultiplicative parseMultiplicative_loop
           parseUnary parsePostfix parsePrimary parsePrimary_args];
      go; bounded.
Qed.

Lemma parseExpression_within (n : nat) :
  forall c, post (within tokens c) (parseExpression tokens n c).
Proof. apply (expression_within_all n). Qed.

Lemma parseDeclaration_loop_within (n : nat) :
  forall e v c, post (within tokens c) (parseDeclaration_loop tokens n e v c).
Proof.
  induction n as [| n IH]; intros e v c; [exact I |].
  pose proof (parseExpression_within n).
  cbn [parseDeclaration_loop]. go; bounded.
Qed.

Lemma parseDeclaration_within (n : nat) (e : bool) :
  forall c, post (withinFrom tokens c) (parseDeclaration tokens n e c).
Proof.
  destruct n as [| n]; intros c; [exact I |].
  pose proof (fun c => parseDeclaration_loop_within n e [] c).
  cbn [parseDeclaration]. go; bounded.
Qed.

Lemma parseReturnStatement_within (n : nat) :
  forall c, post (withinFrom tokens c) (parseReturnStatement tokens n c).
Proof.
  destruct n as [| n]; intros c; [exact I |].
  pose proof (parseExpression_within n).
  cbn [parseReturnStatement]. go; bounded.
Qed.

Lemma parseExpressionStatement_within (n : nat) :
  forall c, post (within tokens c) (parseExpressionStatement tokens n c).
Proof.
  destruct n as [| n]; intros c; [exact I |].
  pose proof (parseExpression_within n).
  cbn [parseExpressionStatement]. go; bounded.
Qed.

Lemma statement_within_all (n : nat) : statement_within tokens n.
Proof.
  unfold statement_within.
  induction n as [| n IH].
  - repeat split; intros; exact I.
  - destruct IH as (? & ? & ? & ? & ?).
    pose proof (parseExpression_within n).
    pose proof (parseDeclaration_within n).
    pose proof (parseReturnStatement_within n).
    pose proof (parseExpressionStatement_within n).
    repeat split; intros;
      cbn [parseStatement parseCompoundStatement parseCompoundStatement_loop
           parseIfStatement parseForStatement];
      go; bounded.
Qed.

Lemma parseFunctionDefinition_params_within (n : nat) :
  forall ps c, post (overBy1 tokens c) (parseFunctionDefinition_params tokens n ps c).
Proof.
  induction n as [| n IH]; intros ps c; [exact I |].
  cbn [parseFunctionDefinition_params]. go; bounded.
Qed.

Lemma parseFunctionDefinition_within (n : nat) :
  forall c, post (overBy1From tokens c) (parseFunctionDefinition tokens n c).
Proof.
  destruct n as [| n]; intros c; [exact I |].
  pose proof (proj1 (proj2 (statement_within_all n))).
  pose proof (fun c => parseFunctionDefinition_params_within n [] c).
  cbn [parseFunctionDefinition]. go; bounded.
Qed.

Lemma parseProgram_loop_within (n : nat) :
  forall body c, post (atEndBy1 tokens c) (parseProgram_loop tokens n body c).
Proof.
  induction n as [| n IH]; intros body c; [exact I |].
  pose proof (parseFunctionDefinition_within n).
  cbn [parseProgram_loop]. go; bounded.
Qed.

End Bounds.

(** X14. When [parse] returns, the cursor is at the end of the tokens or
    one position past it, never before. *)
Theorem parse_ends_past_the_tokens (tokens : list token) (fuel current : nat)
    (program : node) (current' : nat) :
  parse fuel tokens current = Done program current' ->
  length tokens <= current' <= S (length tokens).
Proof.
  intros H. unfold parse, parseProgram in H.
  pose proof (parseProgram_loop_within tokens fuel [] 0) as Hs.
  unfold bind, setCurrent in H. rewrite H in Hs.
  unfold atEndBy1 in Hs. cbn [post] in Hs. lia.
Qed.

Lemma parse_ends_past_the_tokens_cut :
  parse 4 tokens_cut_parameter 0 =
    Done (Program
            [ErrorNode
               (lit "Unexpected end of input while parsing function parameters")])
         5 /\
  length tokens_cut_parameter <= 5 <= S (length tokens_cut_parameter).
Proof.
  assert (H : parse 4 tokens_cut_parameter 0 =
              Done (Program
                      [ErrorNode
                         (lit "Unexpected end of input while parsing function parameters")])
                   5) by reflexivity.
  split; [exact H |].
  exact (parse_ends_past_the_tokens _ _ _ _ _ H).
Defined.

(** * Expressions are parsed in finitely many steps *)

Section Halts.

Variable tokens : list token.
Hypothesis no_semicolon : forall t, In t tokens -> isSemicolon t = false.

Lemma level_moves (k n c : nat) : post (moves tokens c) (levelParser tokens k n c).
Proof.
  destruct (expression_moves_all tokens n)
    as (_ & H0 & H1 & _ & H2 & _ & H3 & _ & H4 & _ & H5 & H6 & H7 & _).
  destruct k as [| [| [| [| [| [| [| k]]]]]]]; cbn [levelParser]; auto.
Qed.

Lemma converges_level_le (k c : nat) (a : node) (c' : nat) :
  converges (levelParser tokens k) c a c' -> c <= c'.
Proof.
  intros (N & H). pose proof (level_moves k N c) as Hm.
  rewrite (H N (le_n N)) in Hm. cbn [post] in Hm. unfold moves in Hm. lia.
Qed.

Lemma converges_expression (c : nat) (a : node) (c' : nat) :
  converges (levelParser tokens 0) c a c' ->
  converges (parseExpression tokens) c a c'.
Proof.
  intros (N & H). exists (S N). intros [| n] Hn; [lia |].
  cbn [parseExpression]. apply H. lia.
Qed.

Lemma converges_expression_moves (c : nat) (a : node) (c' : nat) :
  converges (parseExpression tokens) c a c' -> moves tokens c a c'.
Proof.
  intros (N & H). pose proof (parseExpression_moves tokens N c) as Hm.
  rewrite (H N (le_n N)) in Hm. exact Hm.
Qed.

(** The loops. *)
Lemma loops_halt (c : nat) :
  (c < length tokens -> forall c2, c < c2 -> allHalt tokens c2) -> loopsHalt tokens c.
Proof.
  intros IH k l Hk.
  destruct (nth_error tokens c) as [t |] eqn:Ht.
  2:{ exists l, c. apply converges_loop_exit. rewrite Ht. exact I. }
  assert (Hc : c < length tokens) by (apply nth_error_Some; congruence).
  specialize (IH Hc).
  destruct (levelOp k t) eqn:Hop.
  2:{ exists l, c. apply converges_loop_exit. rewrite Ht. exact Hop. }
  assert (Hbin : isBinaryLevel k ->
                 halts (fun n => levelLoop tokens k n l) c).
  { intros Hb.
    destruct (IH (S c) ltac:(lia)) as (HL & _).
    destruct (HL (S k)) as (r & c1 & Hr).
    pose proof (converges_level_le _ _ _ _ Hr).
    destruct (IH c1 ltac:(lia)) as (_ & Hloops & _).
    destruct (Hloops k (BinaryExpression (value t) l r) Hk) as (a & c2 & Ha).
    exists a, c2.
    apply (converges_loop_step tokens k c c1 c2 t l r a); assumption. }
  destruct Hk as [-> | [-> | [-> | [-> | ->]]]];
    try (apply Hbin; unfold isBinaryLevel; tauto).
  destruct (IH (S c) ltac:(lia)) as (_ & Hloops & _).
  destruct (Hloops 6 (PostfixExpression (value t) l) ltac:(unfold hasLoop; tauto))
    as (a & c2 & Ha).
  exists a, c2. apply (converges_postfix_step tokens c c2 t l a); assumption.
Qed.

(** [parsePrimary]. *)
Lemma primary_halts (c : nat) :
  (c < length tokens -> forall c2, c < c2 -> allHalt tokens c2) ->
  halts (parsePrimary tokens) c.
Proof.
  intros IH.
  destruct (nth_error tokens c) as [t |] eqn:Ht.
  2:{ exists Null, c, 1. intros [| n] Hn; [lia |].
      cbn [parsePrimary]. unfold bind, peek. rewrite Ht. reflexivity. }
  assert (Hc : c < length tokens) by (apply nth_error_Some; congruence).
  specialize (IH Hc).
  destruct (isSemicolon t || typeIs CLOSE_PAREN t)%bool eqn:H1.
  { exists Null, c, 1. intros [| n] Hn; [lia |].
    cbn [parsePrimary]. unfold bind, peek. rewrite Ht, H1. reflexivity. }
  destruct (typeIs NUMBER t || typeIs STRING_LITERAL t)%bool eqn:H2.
  { exists (Literal (value t)), (S c), 1. intros [| n] Hn; [lia |].
    cbn [parsePrimary]. unfold bind, peek. rewrite Ht, H1, H2. reflexivity. }
  destruct (typeIs IDENTIFIER t || typeIs KEYWORD t && negb (isTypeSpecifier t))%bool
    eqn:H3.
  { destruct (match nth_error tokens (S c) with
              | Some t' => typeIs OPEN_PAREN t'
              | None => false
              end) eqn:H4.
    - destruct (IH (S (S c)) ltac:(lia)) as (_ & _ & Hargs & _).
      destruct (Hargs []) as (args & c3 & N & Ha).
      exists (FunctionCall (value t) args),
        (if match nth_error tokens c3 with
            | Some t' => typeIs CLOSE_PAREN t'
            | None => false
            end then S c3 else c3), (S N).
      intros [| n] Hn; [lia |].
      cbn [parsePrimary]. unfold skipIf, here, bind, peek, advance, ret.
      rewrite Ht, H1, H2, H3, H4, (Ha n ltac:(lia)).
      destruct (match nth_error tokens c3 with
                | Some t' => typeIs CLOSE_PAREN t'
                | None => false
                end); reflexivity.
    - exists (Identifier (value t)), (S c), 1. intros [| n] Hn; [lia |].
      cbn [parsePrimary]. unfold here, bind, peek, advance, ret.
      rewrite Ht, H1, H2, H3, H4. reflexivity. }
  destruct (typeIs OPEN_PAREN t) eqn:H4.
  { destruct (IH (S c) ltac:(lia)) as (_ & _ & _ & He).
    destruct He as (e & c1 & N & He).
    exists e,
      (if match nth_error tokens c1 with
          | Some t' => typeIs CLOSE_PAREN t'
          | None => false
          end then S c1 else c1), (S N).
    intros [| n] Hn; [lia |].
    cbn [parsePrimary]. unfold skipIf, here, bind, peek, advance, ret.
    rewrite Ht, H1, H2, H3, H4, (He n ltac:(lia)).
    destruct (match nth_error tokens c1 with
              | Some t' => typeIs CLOSE_PAREN t'
              | None => false
              end); reflexivity. }
  exists (Unknown (value t)), (S c), 1. intros [| n] Hn; [lia |].
  cbn [parsePrimary]. unfold bind, peek, advance, ret.
  rewrite Ht, H1, H2, H3, H4. reflexivity.
Qed.

Lemma enter_halts (k c : nat) :
  hasLoop k ->
  halts (levelParser tokens (S k)) c ->
  (forall c1, c <= c1 -> loopsHalt tokens c1) ->
  halts (levelParser tokens k) c.
Proof.
  intros Hk (l & c1 & Hl) Hloops.
  pose proof (converges_level_le _ _ _ _ Hl) as Hle.
  destruct (Hloops c1 Hle k l Hk) as (a & c2 & Ha).
  exists a, c2. apply (converges_enter tokens k c c1 c2 l a); assumption.
Qed.

Lemma levels_halt (c : nat) :
  (c < length tokens -> forall c2, c < c2 -> allHalt tokens c2) -> levelsHalt tokens c.
Proof.
  intros IH.
  assert (Hloops : forall c1, c <= c1 -> loopsHalt tokens c1).
  { intros c1 Hle. destruct (Nat.eq_dec c1 c) as [-> | Hne].
    - apply loops_halt. exact IH.
    - destruct (nth_error tokens c) as [t |] eqn:Ht.
      + apply IH; [apply nth_error_Some; congruence | lia].
      + apply loops_halt. intros Hc1. exfalso.
        apply nth_error_None in Ht. lia. }
  assert (H7 : forall k, halts (levelParser tokens (7 + k)) c).
  { intros k. apply primary_halts. exact IH. }
  assert (H6 : halts (levelParser tokens 6) c).
  { apply enter_halts; [unfold hasLoop; tauto | apply (H7 0) | exact Hloops]. }
  assert (H5 : halts (levelParser tokens 5) c).
  { destruct (nth_error tokens c) as [t |] eqn:Ht.
    - destruct (valueIn ["++"; "--"]%string t) eqn:Hop.
      + assert (Hc : c < length tokens) by (apply nth_error_Some; congruence).
        destruct (IH Hc (S c) ltac:(lia)) as (HL & _).
        destruct (HL 5) as (a & c1 & Ha).
        exists (PrefixExpression (value t) a), c1.
        apply (converges_unary_prefix tokens c c1 t a); assumption.
      + destruct H6 as (a & c1 & Ha). exists a, c1.
        apply converges_unary_pass; [rewrite Ht; exact Hop | exact Ha].
    - destruct H6 as (a & c1 & Ha). exists a, c1.
      apply converges_unary_pass; [rewrite Ht; exact I | exact Ha]. }
  assert (H4 : halts (levelParser tokens 4) c).
  { apply enter_halts; [unfold hasLoop; tauto | exact H5 | exact Hloops]. }
  assert (H3 : halts (levelParser tokens 3) c).
  { apply enter_halts; [unfold hasLoop; tauto | exact H4 | exact Hloops]. }
  assert (H2 : halts (levelParser tokens 2) c).
  { apply enter_halts; [unfold hasLoop; tauto | exact H3 | exact Hloops]. }
  assert (H1 : halts (levelParser tokens 1) c).
  { apply enter_halts; [unfold hasLoop; tauto | exact H2 | exact Hloops]. }
  assert (H0 : halts (levelParser tokens 0) c).
  { destruct H1 as (l & c1 & Hl).
    pose proof (converges_level_le _ _ _ _ Hl) as Hle.
    destruct (nth_error tokens c1) as [t |] eqn:Ht.
    - destruct (valueIs "=" t) eqn:Hop.
      + assert (Hc : c < length tokens).
        { destruct (nth_error tokens c) eqn:E; [apply nth_error_Some; congruence |].
          exfalso. apply nth_error_None in E.
          assert (c1 < length tokens) by (apply nth_error_Some; congruence).
          destruct Hl as (N & Hl). pose proof (level_moves 1 N c) as Hm.
          rewrite (Hl N (le_n N)) in Hm. cbn [post] in Hm.
          pose proof (expression_within_all tokens N) as Hw.
          destruct Hw as (_ & _ & Hw & _). specialize (Hw c).
          cbn [levelParser] in Hl. rewrite (Hl N (le_n N)) in Hw.
          cbn [post] in Hw. unfold within in Hw. unfold moves in Hm. lia. }
        destruct (IH Hc (S c1) ltac:(lia)) as (HL & _).
        destruct (HL 0) as (r & c2 & Hr).
        exists (AssignmentExpression (value t) l r), c2.
        apply (converges_assignment_step tokens c c1 c2 t l r); assumption.
      + exists l, c1. apply converges_assignment_pass; [exact Hl |].
        rewrite Ht. exact Hop.
    - exists l, c1. apply converges_assignment_pass; [exact Hl |].
      rewrite Ht. exact I. }
  intros k.
  destruct k as [| [| [| [| [| [| [| k]]]]]]]; try assumption.
  apply (H7 k).
Qed.

Lemma args_halt (c : nat) :
  (c < length tokens -> forall c2, c < c2 -> allHalt tokens c2) ->
  halts (parseExpression tokens) c -> argsHalt tokens c.
Proof.
  intros IH He args.
  destruct (nth_error tokens c) as [t |] eqn:Ht.
  2:{ exists args, c, 1. intros [| n] Hn; [lia |].
      cbn [parsePrimary_args]. unfold here, bind, peek, ret. rewrite Ht.
      reflexivity. }
  assert (Hc : c < length tokens) by (apply nth_error_Some; congruence).
  destruct (typeIs CLOSE_PAREN t) eqn:Hp.
  { exists args, c, 1. intros [| n] Hn; [lia |].
    cbn [parsePrimary_args]. unfold here, bind, peek, ret. rewrite Ht, Hp.
    reflexivity. }
  destruct He as (arg & c3 & He).
  assert (Hlt : c < c3).
  { destruct (converges_expression_moves _ _ _ He) as [H | (_ & _ & H)];
      [exact H |].
    exfalso. unfold stopsAt in H. rewrite Ht, Hp in H.
    rewrite (no_semicolon t) in H; [discriminate |].
    apply (nth_error_In _ _ Ht). }
  destruct He as (N1 & He).
  set (c4 := if match nth_error tokens c3 with
                | Some t' => valueIs "," t'
                | None => false
                end then S c3 else c3).
  assert (Hc4 : c < c4) by (unfold c4; destruct (match nth_error tokens c3 with
                                                  | Some _ => _ | None => _ end); lia).
  destruct (IH Hc c4 Hc4) as (_ & _ & Hargs & _).
  destruct (Hargs (pushNode args arg)) as (r & c5 & N2 & Hr).
  exists r, c5, (S (Nat.max N1 N2)). intros [| n] Hn; [lia |].
  cbn [parsePrimary_args]. unfold skipIf, here, bind, peek, advance, ret.
  rewrite Ht, Hp. cbn [negb]. rewrite (He n ltac:(lia)).
  specialize (Hr n ltac:(lia)). unfold c4 in Hr.
  destruct (match nth_error tokens c3 with
            | Some t' => valueIs "," t'
            | None => false
            end); exact Hr.
Qed.

Lemma all_halt_step (c : nat) :
  (c < length tokens -> forall c2, c < c2 -> allHalt tokens c2) -> allHalt tokens c.
Proof.
  intros IH.
  pose proof (levels_halt c IH) as HL.
  assert (He : halts (parseExpression tokens) c).
  { destruct (HL 0) as (a & c1 & Ha). exists a, c1.
    apply converges_expression. exact Ha. }
  repeat split.
  - exact HL.
  - apply loops_halt. exact IH.
  - apply args_halt; assumption.
  - exact He.
Qed.

Lemma all_halt (c : nat) : allHalt tokens c.
Proof.
  assert (H : forall m c, length tokens - c <= m -> allHalt tokens c).
  { induction m as [| m IH]; intros c0 Hm; apply all_halt_step; intros Hc c2 Hlt.
    - lia.
    - apply IH. lia. }
  apply (H (length tokens - c)). lia.
Qed.

End Halts.

(** X15. On tokens without a semicolon, [parseExpression] returns from
    every position of the cursor, given enough fuel. *)
Theorem parseExpression_halts (tokens : list token) (c : nat) :
  (forall t, In t tokens -> isSemicolon t = false) ->
  exists e c', converges (parseExpression tokens) c e c'.
Proof.
  intros H. destruct (all_halt tokens H c) as (_ & _ & _ & He). exact He.
Qed.

Lemma parseExpression_halts_call :
  (forall t,
     In t [ident "f"; tk OPEN_PAREN "("; ident "x"; tk SEPARATOR ",";
           number "1"; tk CLOSE_PAREN ")"] ->
     isSemicolon t = false) /\
  exists e c',
    converges
      (parseExpression
         [ident "f"; tk OPEN_PAREN "("; ident "x"; tk SEPARATOR ",";
          number "1"; tk CLOSE_PAREN ")"]) 0 e c'.
Proof.
  assert (H : forall t,
            In t [ident "f"; tk OPEN_PAREN "("; ident "x"; tk SEPARATOR ",";
                  number "1"; tk CLOSE_PAREN ")"] ->
            isSemicolon t = false).
  { intros t Hin. cbn [In] in Hin.
    repeat (destruct Hin as [<- | Hin]; [reflexivity |]). contradiction. }
  split; [exact H |].
  exact (parseExpression_halts _ 0 H).
Defined.

(** * The markup of [renderAST] *)

Lemma jsValue_induction (P : jsValue -> Prop) :
  P JsNull ->
  (forall s, P (JsString s)) ->
  (forall items, Forall P items -> P (JsArray items)) ->
  (forall fields, Forall (fun f => P (snd f)) fields -> P (JsObject fields)) ->
  forall v, P v.
Proof.
  intros Hn Hs Ha Ho. fix IH 1. intros [| s | items | fields].
  - exact Hn.
  - apply Hs.
  - apply Ha. induction items as [| x items IHl]; constructor; [apply IH | exact IHl].
  - apply Ho. induction fields as [| [k x] fields IHl]; constructor;
      [apply IH | exact IHl].
Qed.

Lemma node_induction (P : node -> Prop) :
  P Null ->
  (forall e, P (ErrorNode e)) ->
  (forall body, Forall P body -> P (Program body)) ->
  (forall v, P (PreprocessorDirective v)) ->
  (forall rt name ps body,
     Forall P ps -> P body -> P (FunctionDeclaration rt name ps body)) ->
  (forall ty nm, P (ParameterNode ty nm)) ->
  (forall body, Forall P body -> P (CompoundStatement body)) ->
  (forall e, P e -> P (ReturnStatement e)) ->
  (forall c t e, P c -> P t -> P e -> P (IfStatement c t e)) ->
  (forall i c u b, P i -> P c -> P u -> P b -> P (ForStatement i c u b)) ->
  (forall ty vs, Forall P vs -> P (DeclarationStatement ty vs)) ->
  (forall name e, P e -> P (VariableDeclarator name e)) ->
  (forall e, P e -> P (ExpressionStatement e)) ->
  (forall op l r, P l -> P r -> P (AssignmentExpression op l r)) ->
  (forall op l r, P l -> P r -> P (BinaryExpression op l r)) ->
  (forall op a, P a -> P (PrefixExpression op a)) ->
  (forall op a, P a -> P (PostfixExpression op a)) ->
  (forall v, P (Literal v)) ->
  (forall x, P (Identifier x)) ->
  (forall name args, Forall P args -> P (FunctionCall name args)) ->
  (forall v, P (Unknown v)) ->
  forall n, P n.
Proof.
  intros H1 H2 H3 H4 H5 H6 H7 H8 H9 H10 H11 H12 H13 H14 H15 H16 H17 H18 H19 H20 H21.
  fix IH 1.
  intros [| e | body | v | rt name ps body | ty nm | body | e | c t e | i c u b
          | ty vs | name e | e | op l r | op l r | op a | op a | v | x
          | name args | v].
  - exact H1.
  - apply H2.
  - apply H3. induction body as [| x l IHl]; constructor; [apply IH | exact IHl].
  - apply H4.
  - apply H5; [| apply IH].
    induction ps as [| x l IHl]; constructor; [apply IH | exact IHl].
  - apply H6.
  - apply H7. induction body as [| x l IHl]; constructor; [apply IH | exact IHl].
  - apply H8; apply IH.
  - apply H9; apply IH.
  - apply H10; apply IH.
  - apply H11. induction vs as [| x l IHl]; constructor; [apply IH | exact IHl].
  - apply H12; apply IH.
  - apply H13; apply IH.
  - apply H14; apply IH.
  - apply H15; apply IH.
  - apply H16; apply IH.
  - apply H17; apply IH.
  - apply H18.
  - apply H19.
  - apply H20. induction args as [| x l IHl]; constructor; [apply IH | exact IHl].
  - apply H21.
Qed.

Lemma noMarkup_app (a b : str) : noMarkup a -> noMarkup b -> noMarkup (a ++ b).
Proof.
  unfold noMarkup. intros Ha Hb H. apply in_app_or in H. tauto.
Qed.

Lemma noMarkup_lit (s : string) :
  existsb (N.eqb (ch "<")) (lit s) = false -> noMarkup (lit s).
Proof.
  intros H Hin. assert (E : existsb (N.eqb (ch "<")) (lit s) = true).
  { apply existsb_exists. exists (ch "<"). split; [exact Hin | apply N.eqb_refl]. }
  congruence.
Qed.

Lemma join_noMarkup (sep : str) (parts : list str) :
  noMarkup sep -> Forall noMarkup parts -> noMarkup (join sep parts).
Proof.
  intros Hsep H. induction H as [| p ps Hp Hps IH]; [intros [] |].
  cbn [join]. destruct ps as [| q ps]; [exact Hp |].
  apply noMarkup_app; [exact Hp |]. apply noMarkup_app; [exact Hsep | exact IH].
Qed.

Lemma Plain_array (items : list jsValue) :
  Plain (JsArray items) <-> Forall Plain items.
Proof.
  cbn [Plain]. induction items as [| x items IH].
  - split; [constructor | exact (fun _ => I)].
  - split.
    + intros [Hx H]. constructor; [exact Hx | apply IH; exact H].
    + intros H. inversion H; subst. split; [assumption | apply IH; assumption].
Qed.

Lemma Plain_object (fields : list (str * jsValue)) :
  Plain (JsObject fields) <->
  Forall (fun f => noMarkup (fst f) /\ Plain (snd f)) fields.
Proof.
  cbn [Plain]. induction fields as [| f fields IH].
  - split; [constructor | exact (fun _ => I)].
  - split.
    + intros [Hx H]. constructor; [exact Hx | apply IH; exact H].
    + intros H. inversion H; subst. split; [assumption | apply IH; assumption].
Qed.

Lemma toText_noMarkup (v : jsValue) : Plain v -> noMarkup (toText v).
Proof.
  induction v as [| s | items IH | fields IH] using jsValue_induction; intros H.
  - apply noMarkup_lit. reflexivity.
  - exact H.
  - apply Plain_array in H. cbn [toText].
    apply join_noMarkup; [apply noMarkup_lit; reflexivity |].
    induction items as [| x items IHl]; [constructor |].
    inversion IH; subst. inversion H; subst.
    cbn [map]. constructor; [| apply IHl; assumption].
    destruct x; try (intros []; fail); auto.
  - apply noMarkup_lit. reflexivity.
Qed.

Lemma Html_nil : Html [].
Proof. apply Html_text. intros []. Qed.

Lemma Html_concat (parts : list str) : Forall Html parts -> Html (concat parts).
Proof.
  induction 1 as [| p ps Hp _ IH]; cbn [concat]; [apply Html_nil |].
  apply Html_app; assumption.
Qed.

Lemma Html_object (label rest : str) :
  Html label -> Html rest ->
  Html (lit "<ul>" ++ (lit "<li>" ++ label) ++ rest ++ lit "</li>" ++ lit "</ul>").
Proof.
  intros Hl Hr.
  replace (lit "<ul>" ++ (lit "<li>" ++ label) ++ rest ++ lit "</li>" ++ lit "</ul>")
    with (lit "<ul>" ++ (lit "<li>" ++ (label ++ rest) ++ lit "</li>") ++ lit "</ul>")
    by (rewrite <- !app_assoc; reflexivity).
  apply Html_ul, Html_li, Html_app; assumption.
Qed.

Lemma Html_field (key value : str) :
  Html key -> Html value ->
  Html ((lit "<ul><li>" ++ key ++ lit " ") ++ value ++ lit "</li></ul>").
Proof.
  intros Hk Hv.
  change (lit "<ul><li>") with (lit "<ul>" ++ lit "<li>").
  change (lit "</li></ul>") with (lit "</li>" ++ lit "</ul>").
  replace ((((lit "<ul>" ++ lit "<li>") ++ key ++ lit " ") ++ value
            ++ lit "</li>" ++ lit "</ul>"))
    with (lit "<ul>" ++ (lit "<li>" ++ (key ++ lit " " ++ value) ++ lit "</li>")
            ++ lit "</ul>")
    by (rewrite <- !app_assoc; reflexivity).
  apply Html_ul, Html_li, Html_app; [exact Hk |].
  apply Html_app; [| exact Hv]. apply Html_text, noMarkup_lit. reflexivity.
Qed.

Lemma getField_Plain (key : str) (fields : list (str * jsValue)) :
  Plain (JsObject fields) -> noMarkup (template (getField key fields)).
Proof.
  intros H. apply Plain_object in H.
  induction H as [| [k v] fields [_ Hv] _ IH]; cbn [getField template].
  - apply noMarkup_lit. reflexivity.
  - destruct (str_eqb k key); [apply toText_noMarkup; exact Hv | exact IH].
Qed.

Lemma renderAST_Html (v : jsValue) : Plain v -> Html (renderAST v).
Proof.
  induction v as [| s | items IH | fields IH] using jsValue_induction; intros H.
  - apply Html_span; [cbn [In]; auto | apply noMarkup_lit; reflexivity].
  - apply Html_span; [cbn [In]; auto | exact H].
  - apply Plain_array in H. cbn [renderAST]. apply Html_ul, Html_concat.
    induction items as [| x items IHl]; [constructor |].
    inversion IH; subst. inversion H; subst.
    cbn [map]. constructor; [apply Html_li; auto | apply IHl; assumption].
  - pose proof (getField_Plain (lit "type") fields H) as Hlabel.
    apply Plain_object in H. cbn [renderAST].
    apply Html_object; [apply Html_span; [cbn [In]; auto | exact Hlabel] |].
    apply Html_concat. clear Hlabel.
    induction fields as [| f fields IHl]; [constructor |].
    inversion IH as [| f0 l0 IHf IHrest]; subst.
    inversion H as [| f1 l1 Hf Hrest]; subst. destruct Hf as [Hk Hv].
    cbn [map]. constructor; [| apply IHl; assumption].
    destruct (str_eqb (fst f) (lit "type")); [apply Html_nil |].
    apply Html_field; [| auto].
    apply Html_span; [cbn [In]; auto |].
    apply noMarkup_app; [exact Hk |]. apply noMarkup_lit. reflexivity.
Qed.

Lemma Forall_flat_map (l : list node) (P : str -> Prop) :
  Forall P (flat_map texts l) -> Forall (fun n => Forall P (texts n)) l.
Proof.
  induction l as [| n l IH]; intros H; constructor;
    cbn [flat_map] in H; apply Forall_app in H; destruct H; auto.
Qed.

Lemma Plain_typed (type : string) (fields : list (str * jsValue)) :
  noMarkup (lit type) ->
  Forall (fun f => noMarkup (fst f) /\ Plain (snd f)) fields ->
  Plain (typed type fields).
Proof.
  intros Ht Hf. unfold typed. apply Plain_object. constructor; [| exact Hf].
  split; [apply noMarkup_lit; reflexivity | exact Ht].
Qed.

Lemma Plain_map (l : list node) :
  Forall (fun n => Forall noMarkup (texts n) -> Plain (toJs n)) l ->
  Forall (fun n => Forall noMarkup (texts n)) l ->
  Plain (JsArray (map toJs l)).
Proof.
  intros IH H. apply Plain_array.
  induction l as [| n l IHl]; [constructor |].
  inversion IH; subst. inversion H; subst.
  cbn [map]. constructor; auto.
Qed.

Ltac plain_fields :=
  repeat match goal with
         | H : Forall _ (_ :: _) |- _ => inversion H; subst; clear H
         | H : Forall _ (_ ++ _) |- _ => apply Forall_app in H; destruct H
         | H : Forall _ (flat_map texts _) |- _ => apply Forall_flat_map in H
         end;
  apply Plain_typed; [apply noMarkup_lit; reflexivity |];
  repeat (constructor;
          [split; [apply noMarkup_lit; reflexivity |];
           first [ assumption
                 | apply Plain_map; assumption
                 | match goal with H : _ |- _ => apply H; assumption end ] |]);
  try constructor.

Lemma toJs_Plain (n : node) : Forall noMarkup (texts n) -> Plain (toJs n).
Proof.
  induction n using node_induction; intros Htexts; cbn [texts toJs] in *;
    try (exact I); try plain_fields.
  inversion Htexts; subst. apply Plain_object.
  constructor; [| constructor].
  split; [apply noMarkup_lit; reflexivity | assumption].
Qed.

(** X16. When no lexeme and no message of a tree holds a [<], the markup
    [renderAST] builds for the tree is well nested: every [ul], [li] and
    [span] it opens is closed in order. *)
Theorem renderAST_well_nested (n : node) :
  Forall noMarkup (texts n) -> Html (renderAST (toJs n)).
Proof. intros H. apply renderAST_Html, toJs_Plain, H. Qed.

Lemma renderAST_well_nested_main :
  Forall noMarkup (texts (mainWith [ReturnStatement (Lit "0")])) /\
  Html (renderAST (toJs (mainWith [ReturnStatement (Lit "0")]))).
Proof.
  assert (H : Forall noMarkup (texts (mainWith [ReturnStatement (Lit "0")]))).
  { repeat constructor; apply noMarkup_lit; reflexivity. }
  split; [exact H |].
  exact (renderAST_well_nested _ H).
Defined.

(** * Statements and programs, printed and parsed back *)

(** ** Running a parser on known tokens *)

Lemma run_call {A B} (m : parser A) (k : A -> parser B) (c c1 : nat) (a : A) :
  m c = Done a c1 -> bind m k c = k a c1.
Proof. intros H. unfold bind. rewrite H. reflexivity. Qed.

Lemma run_ret {A B} (a : A) (k : A -> parser B) (c : nat) :
  bind (ret a) k c = k a c.
Proof. reflexivity. Qed.

Lemma run_advance {B} (k : unit -> parser B) (c : nat) :
  bind advance k c = k tt (S c).
Proof. reflexivity. Qed.

Section Run.

Variable tokens : list token.

Lemma run_peek {B} (k : option token -> parser B) (c : nat) :
  bind (peek tokens) k c = k (nth_error tokens c) c.
Proof. reflexivity. Qed.

Lemma run_tokenAt {B} (k : token -> parser B) (c : nat) (t : token) :
  nth_error tokens c = Some t -> bind (tokenAt tokens) k c = k t c.
Proof. intros H. unfold bind, tokenAt. rewrite H. reflexivity. Qed.

Lemma run_here {B} (p : token -> bool) (k : bool -> parser B) (c : nat) :
  bind (here tokens p) k c =
  k (match nth_error tokens c with Some t => p t | None => false end) c.
Proof. reflexivity. Qed.

Lemma run_atEndOr {B} (p : token -> bool) (k : bool -> parser B) (c : nat) :
  bind (atEndOr tokens p) k c =
  k (match nth_error tokens c with Some t => p t | None => true end) c.
Proof. reflexivity. Qed.

Lemma run_skipIf {B} (p : token -> bool) (k : unit -> parser B) (c : nat) :
  bind (skipIf tokens p) k c =
  if match nth_error tokens c with Some t => p t | None => false end
  then k tt (S c) else k tt c.
Proof.
  unfold skipIf, here, bind, peek, ret, advance.
  destruct (nth_error tokens c) as [t |]; [destruct (p t) |]; reflexivity.
Qed.

End Run.

Lemma run_assoc {A B C} (m : parser A) (k1 : A -> parser B) (k2 : B -> parser C)
    (c : nat) :
  bind (bind m k1) k2 c = bind m (fun a => bind (k1 a) k2) c.
Proof. unfold bind. destruct (m c); reflexivity. Qed.

(** The run of a function on tokens of which enough is known: the
    operations of the monad by their equations, the tokens and the tests
    on them by the facts at hand, the calls by the runs that converge. *)
Ltac simulate :=
  unfold skipSemicolon, atEnd;
  repeat first
    [ progress cbv beta iota
    | progress cbn [negb andb orb]
    | rewrite run_assoc
    | rewrite run_ret
    | rewrite run_advance
    | rewrite run_peek
    | rewrite run_here
    | rewrite run_atEndOr
    | rewrite run_skipIf
    | match goal with
      | H : nth_error ?ts ?c = Some ?t |- context [bind (tokenAt ?ts) _ ?c] =>
          rewrite (run_tokenAt ts _ c t H)
      | H : nth_error ?ts ?c = _ |- context [nth_error ?ts ?c] => rewrite H
      | H : ?b = true |- context [?b] => rewrite H
      | H : ?b = false |- context [?b] => rewrite H
      | H : forall n, _ <= n -> _ = Done _ _ |- _ =>
          first [ rewrite H by lia | unfold bind at 1; rewrite H by lia ]
      end ];
  try reflexivity.

Lemma converges_at {A} (f : nat -> parser A) (c : nat) (a : A) (c1 c2 : nat) :
  converges f c a c1 -> c1 = c2 -> converges f c a c2.
Proof. intros H <-. exact H. Qed.

(** ** What each function does on tokens of a given shape *)

Section Steps.

Variable tokens : list token.

(** An expression at a [;] or a [)]: none. *)
Lemma converges_no_expression (c : nat) (t : token) :
  nth_error tokens c = Some t -> inert t ->
  converges (parseExpression tokens) c Null c.
Proof.
  intros Ht (H0 & H1 & H2 & H3 & H4 & H5 & H6).
  assert (Hexit : forall k l, converges (fun n => levelLoop tokens k n l) c l c).
  { intros k l. apply converges_loop_exit. rewrite Ht.
    destruct k as [| [| [| [| [| [| [| k]]]]]]]; cbn [levelOp operatorsAt];
      assumption || reflexivity. }
  assert (P7 : converges (levelParser tokens 7) c Null c).
  { exists 1. intros [| n] Hn; [lia |]. cbn [levelParser parsePrimary]. simulate. }
  assert (P6 : converges (levelParser tokens 6) c Null c).
  { apply (converges_enter tokens 6 c c c Null Null);
      [unfold hasLoop; tauto | exact P7 | apply Hexit]. }
  assert (P5 : converges (levelParser tokens 5) c Null c).
  { apply converges_unary_pass; [rewrite Ht; exact H6 | exact P6]. }
  assert (P4 : converges (levelParser tokens 4) c Null c).
  { apply (converges_enter tokens 4 c c c Null Null);
      [unfold hasLoop; tauto | exact P5 | apply Hexit]. }
  assert (P3 : converges (levelParser tokens 3) c Null c).
  { apply (converges_enter tokens 3 c c c Null Null);
      [unfold hasLoop; tauto | exact P4 | apply Hexit]. }
  assert (P2 : converges (levelParser tokens 2) c Null c).
  { apply (converges_enter tokens 2 c c c Null Null);
      [unfold hasLoop; tauto | exact P3 | apply Hexit]. }
  assert (P1 : converges (levelParser tokens 1) c Null c).
  { apply (converges_enter tokens 1 c c c Null Null);
      [unfold hasLoop; tauto | exact P2 | apply Hexit]. }
  apply converges_expression, converges_assignment_pass; [exact P1 |].
  rewrite Ht. exact H1.
Qed.

Lemma converges_return (c c1 : nat) (e : node) (t : token) :
  converges (parseExpression tokens) (S c) e c1 ->
  nth_error tokens c1 = Some t -> isSemicolon t = true ->
  converges (parseReturnStatement tokens) c (ReturnStatement e) (S c1).
Proof.
  intros (N1 & H1) Ht Hsemi. exists (S N1). intros [| n] Hn; [lia |].
  cbn [parseReturnStatement]. simulate.
Qed.

Lemma converges_expression_statement (c c1 : nat) (e : node) (t : token) :
  converges (parseExpression tokens) c e c1 ->
  nth_error tokens c1 = Some t -> isSemicolon t = true ->
  converges (parseExpressionStatement tokens) c (ExpressionStatement e) (S c1).
Proof.
  intros (N1 & H1) Ht Hsemi. exists (S N1). intros [| n] Hn; [lia |].
  cbn [parseExpressionStatement]. simulate.
Qed.

(** One round of the loop of [parseDeclaration], at the name of a
    variable. *)
Lemma converges_declarator (e : bool) (c c1 c2 : nat) (t v u : token)
    (init : node) (vs ws : list node) :
  nth_error tokens c = Some t -> typeIs IDENTIFIER t = true ->
  nth_error tokens (S c) = Some v ->
  (if valueIs "=" v
   then converges (parseExpression tokens) (S (S c)) init c1
   else init = Null /\ c1 = S c) ->
  nth_error tokens c1 = Some u ->
  (if valueIs "," u
   then converges
          (fun n => parseDeclaration_loop tokens n e
                      (vs ++ [VariableDeclarator (value t) init]))
          (S c1) ws c2
   else ws = vs ++ [VariableDeclarator (value t) init] /\
        c2 = if (e && isSemicolon u)%bool then S c1 else c1) ->
  converges (fun n => parseDeclaration_loop tokens n e vs) c ws c2.
Proof.
  intros Ht Hid Hv Hinit Hu Hnext.
  destruct (valueIs "=" v) eqn:Eeq, (valueIs "," u) eqn:Ecomma.
  - destruct Hinit as (N1 & H1), Hnext as (N2 & H2). exists (S (N1 + N2)).
    intros [| n] Hn; [lia |]. cbn [parseDeclaration_loop]. simulate.
  - destruct Hinit as (N1 & H1), Hnext as (-> & ->). exists (S N1).
    intros [| n] Hn; [lia |]. cbn [parseDeclaration_loop]. simulate.
    destruct (e && isSemicolon u)%bool; reflexivity.
  - destruct Hinit as (-> & ->), Hnext as (N2 & H2).
    assert (u = v) by congruence. subst u. clear Hu. exists (S N2).
    intros [| n] Hn; [lia |]. cbn [parseDeclaration_loop]. simulate.
  - destruct Hinit as (-> & ->), Hnext as (-> & ->).
    assert (u = v) by congruence. subst u. clear Hu. exists 1.
    intros [| n] Hn; [lia |]. cbn [parseDeclaration_loop]. simulate.
    destruct (e && isSemicolon v)%bool; reflexivity.
Qed.

Lemma converges_declaration (e : bool) (c c1 : nat) (t : token) (vs : list node) :
  nth_error tokens c = Some t ->
  converges (fun n => parseDeclaration_loop tokens n e []) (S c) vs c1 ->
  converges (fun n => parseDeclaration tokens n e) c
            (DeclarationStatement (value t) vs) c1.
Proof.
  intros Ht (N1 & H1). exists (S N1). intros [| n] Hn; [lia |].
  cbn [parseDeclaration]. simulate.
Qed.

(** The loop of [parseCompoundStatement], at the closing brace and at a
    statement. *)
Lemma converges_block_end (c : nat) (t : token) (body : list node) :
  nth_error tokens c = Some t -> typeIs CLOSE_BRACE t = true ->
  converges (fun n => parseCompoundStatement_loop tokens n body) c body c.
Proof.
  intros Ht Hclose. exists 1. intros [| n] Hn; [lia |].
  cbn [parseCompoundStatement_loop]. simulate.
Qed.

Lemma converges_block_step (c c1 c2 : nat) (t : token) (s : node)
    (body body' : list node) :
  nth_error tokens c = Some t -> typeIs CLOSE_BRACE t = false ->
  converges (parseStatement tokens) c s c1 ->
  converges (fun n => parseCompoundStatement_loop tokens n (pushNode body s))
            c1 body' c2 ->
  converges (fun n => parseCompoundStatement_loop tokens n body) c body' c2.
Proof.
  intros Ht Hclose (N1 & H1) (N2 & H2). exists (S (N1 + N2)).
  intros [| n] Hn; [lia |]. cbn [parseCompoundStatement_loop]. simulate.
Qed.

Lemma converges_compound (c c1 : nat) (t u : token) (body : list node) :
  nth_error tokens c = Some t -> typeIs OPEN_BRACE t = true ->
  converges (fun n => parseCompoundStatement_loop tokens n []) (S c) body c1 ->
  nth_error tokens c1 = Some u -> typeIs CLOSE_BRACE u = true ->
  converges (parseCompoundStatement tokens) c (CompoundStatement body) (S c1).
Proof.
  intros Ht Hopen (N1 & H1) Hu Hclose. exists (S N1).
  intros [| n] Hn; [lia |]. cbn [parseCompoundStatement]. simulate.
Qed.

Lemma converges_if (c c1 c2 c3 : nat) (p q : token)
    (condition thenStmt elseStmt : node) :
  nth_error tokens (S c) = Some p -> typeIs OPEN_PAREN p = true ->
  converges (parseExpression tokens) (S (S c)) condition c1 ->
  nth_error tokens c1 = Some q -> typeIs CLOSE_PAREN q = true ->
  converges (parseStatement tokens) (S c1) thenStmt c2 ->
  (if match nth_error tokens c2 with
      | Some t => isKeyword "else" t
      | None => false
      end
   then converges (parseStatement tokens) (S c2) elseStmt c3
   else elseStmt = Null /\ c3 = c2) ->
  converges (parseIfStatement tokens) c
            (IfStatement condition thenStmt elseStmt) c3.
Proof.
  intros Hp Hopen (N1 & H1) Hq Hclose (N2 & H2) Helse.
  destruct (match nth_error tokens c2 with
            | Some t => isKeyword "else" t
            | None => false
            end) eqn:E.
  - destruct Helse as (N3 & H3). exists (S (N1 + N2 + N3)).
    intros [| n] Hn; [lia |]. cbn [parseIfStatement]. simulate.
  - destruct Helse as (-> & ->). exists (S (N1 + N2)).
    intros [| n] Hn; [lia |]. cbn [parseIfStatement]. simulate.
Qed.

Lemma converges_for (c c1 c2 c3 c4 : nat) (p s1 s2 q : token)
    (initialization condition increment body : node) :
  nth_error tokens (S c) = Some p -> typeIs OPEN_PAREN p = true ->
  (if match nth_error tokens (S (S c)) with
      | Some t => isTypeSpecifier t
      | None => false
      end
   then converges (fun n => parseDeclaration tokens n false) (S (S c))
                  initialization c1
   else converges (parseExpression tokens) (S (S c)) initialization c1) ->
  nth_error tokens c1 = Some s1 -> isSemicolon s1 = true ->
  converges (parseExpression tokens) (S c1) condition c2 ->
  nth_error tokens c2 = Some s2 -> isSemicolon s2 = true ->
  converges (parseExpression tokens) (S c2) increment c3 ->
  nth_error tokens c3 = Some q -> typeIs CLOSE_PAREN q = true ->
  converges (parseStatement tokens) (S c3) body c4 ->
  converges (parseForStatement tokens) c
            (ForStatement initialization condition increment body) c4.
Proof.
  intros Hp Hopen Hinit Hs1 Hsemi1 (N2 & H2) Hs2 Hsemi2 (N3 & H3) Hq Hclose
    (N4 & H4).
  destruct (match nth_error tokens (S (S c)) with
            | Some t => isTypeSpecifier t
            | None => false
            end) eqn:E;
    destruct Hinit as (N1 & H1); exists (S (N1 + N2 + N3 + N4));
    intros [| n] Hn; try lia; cbn [parseForStatement]; simulate.
Qed.

(** [parseStatement] hands over to the function of the first token. *)
Lemma converges_statement (c c1 : nat) (t : token) (s : node) :
  nth_error tokens c = Some t -> typeIs COMMENT t = false ->
  converges
    (if isKeyword "return" t then parseReturnStatement tokens
     else if isKeyword "if" t then parseIfStatement tokens
     else if isKeyword "for" t then parseForStatement tokens
     else if isTypeSpecifier t then fun n => parseDeclaration tokens n true
     else if typeIs OPEN_BRACE t then parseCompoundStatement tokens
     else parseExpressionStatement tokens) c s c1 ->
  converges (parseStatement tokens) c s c1.
Proof.
  intros Ht Hcomment (N1 & H1). exists (S N1). intros [| n] Hn; [lia |].
  cbn [parseStatement]. rewrite run_peek, Ht, Hcomment.
  specialize (H1 n ltac:(lia)).
  destruct (isKeyword "return" t); [exact H1 |].
  destruct (isKeyword "if" t); [exact H1 |].
  destruct (isKeyword "for" t); [exact H1 |].
  destruct (isTypeSpecifier t); [exact H1 |].
  destruct (typeIs OPEN_BRACE t); exact H1.
Qed.

(** The parameter loop of [parseFunctionDefinition]. *)
Lemma converges_parameters_end (c : nat) (t : token) (ps : list node) :
  nth_error tokens c = Some t -> valueIs ")" t = true ->
  converges (fun n => parseFunctionDefinition_params tokens n ps) c ps c.
Proof.
  intros Ht Hclose. exists 1. intros [| n] Hn; [lia |].
  cbn [parseFunctionDefinition_params]. simulate.
Qed.

Lemma converges_parameters_comma (c c1 : nat) (t : token) (ps ps' : list node) :
  nth_error tokens c = Some t -> valueIs ")" t = false -> valueIs "," t = true ->
  converges (fun n => parseFunctionDefinition_params tokens n ps) (S c) ps' c1 ->
  converges (fun n => parseFunctionDefinition_params tokens n ps) c ps' c1.
Proof.
  intros Ht Hclose Hcomma (N1 & H1). exists (S N1). intros [| n] Hn; [lia |].
  cbn [parseFunctionDefinition_params]. simulate.
Qed.

Lemma converges_parameter (c c1 : nat) (t u : token) (ps ps' : list node) :
  nth_error tokens c = Some t -> valueIs ")" t = false -> valueIs "," t = false ->
  isTypeSpecifier t = true ->
  nth_error tokens (S c) = Some u ->
  converges
    (fun n => parseFunctionDefinition_params tokens n
                (ps ++ [ParameterNode (value t) (value u)]))
    (S (S c)) ps' c1 ->
  converges (fun n => parseFunctionDefinition_params tokens n ps) c ps' c1.
Proof.
  intros Ht Hclose Hcomma Hty Hu (N1 & H1). exists (S N1).
  intros [| n] Hn; [lia |]. cbn [parseFunctionDefinition_params]. simulate.
Qed.

Lemma converges_function (c c1 c2 : nat) (t name p q b : token)
    (ps : list node) (body : node) :
  nth_error tokens c = Some t ->
  nth_error tokens (S c) = Some name -> typeIs IDENTIFIER name = true ->
  nth_error tokens (S (S c)) = Some p -> typeIs OPEN_PAREN p = true ->
  converges (fun n => parseFunctionDefinition_params tokens n [])
            (S (S (S c))) ps c1 ->
  nth_error tokens c1 = Some q ->
  nth_error tokens (S c1) = Some b -> typeIs OPEN_BRACE b = true ->
  converges (parseCompoundStatement tokens) (S c1) body c2 ->
  converges (parseFunctionDefinition tokens) c
            (FunctionDeclaration (value t) (value name) ps body) c2.
Proof.
  intros Ht Hname Hid Hp Hopen (N1 & H1) Hq Hb Hbrace (N2 & H2).
  exists (S (N1 + N2)). intros [| n] Hn; [lia |].
  cbn [parseFunctionDefinition]. simulate.
Qed.

(** The loop of [parseProgram]. *)
Lemma converges_program_end (c : nat) (body : list node) :
  nth_error tokens c = None ->
  converges (fun n => parseProgram_loop tokens n body) c (Program body) c.
Proof.
  intros Ht. exists 1. intros [| n] Hn; [lia |]. cbn [parseProgram_loop]. simulate.
Qed.

Lemma converges_program_directive (c c1 : nat) (t : token) (body : list node)
    (program : node) :
  nth_error tokens c = Some t -> typeIs PREPROCESSOR t = true ->
  converges
    (fun n => parseProgram_loop tokens n
                (body ++ [PreprocessorDirective (trim (value t))]))
    (S c) program c1 ->
  converges (fun n => parseProgram_loop tokens n body) c program c1.
Proof.
  intros Ht Hpre (N1 & H1). exists (S N1). intros [| n] Hn; [lia |].
  assert (Hcomment : typeIs COMMENT t = false).
  { unfold typeIs in *. destruct (type t); try discriminate Hpre; reflexivity. }
  cbn [parseProgram_loop]. simulate.
Qed.

Lemma converges_program_function (c c1 c2 : nat) (t : token) (body : list node)
    (f program : node) :
  nth_error tokens c = Some t -> isTypeSpecifier t = true ->
  converges (parseFunctionDefinition tokens) c f c1 ->
  converges (fun n => parseProgram_loop tokens n (pushNode body f)) c1 program c2 ->
  converges (fun n => parseProgram_loop tokens n body) c program c2.
Proof.
  intros Ht Hty (N1 & H1) (N2 & H2). exists (S (N1 + N2)).
  intros [| n] Hn; [lia |].
  assert (Hkeyword : typeIs KEYWORD t = true).
  { unfold isTypeSpecifier in Hty. apply andb_true_iff in Hty. apply Hty. }
  assert (Hcomment : typeIs COMMENT t = false).
  { unfold typeIs in *. destruct (type t); try discriminate Hkeyword; reflexivity. }
  assert (Hpre : typeIs PREPROCESSOR t = false).
  { unfold typeIs in *. destruct (type t); try discriminate Hkeyword; reflexivity. }
  clear Hkeyword. cbn [parseProgram_loop]. simulate.
Qed.

Lemma converges_program_skip (c c1 : nat) (t : token) (body : list node)
    (program : node) :
  nth_error tokens c = Some t ->
  typeIs PREPROCESSOR t = false -> isTypeSpecifier t = false ->
  converges (fun n => parseProgram_loop tokens n body) (S c) program c1 ->
  converges (fun n => parseProgram_loop tokens n body) c program c1.
Proof.
  intros Ht Hpre Hty (N1 & H1). exists (S N1). intros [| n] Hn; [lia |].
  cbn [parseProgram_loop]. simulate.
  destruct (typeIs COMMENT t); simulate.
Qed.

End Steps.

(** ** The tokens of the printer *)

Lemma startsExpression_tests (t : token) :
  startsExpression t = true ->
  typeIs COMMENT t = false /\ typeIs OPEN_BRACE t = false /\
  typeIs CLOSE_BRACE t = false /\ isTypeSpecifier t = false /\
  forall w, isKeyword w t = false.
Proof.
  unfold startsExpression, isTypeSpecifier, isKeyword, typeIs.
  destruct (type t); intros H; try discriminate H; repeat split.
Qed.

Lemma print_start (e : node) :
  Expr e -> forall k, exists t ts, print k e = t :: ts /\ startsExpression t = true.
Proof.
  induction 1 as [x Hx | v Hv | l r _ IHl _ _ | op l r Hop _ IHl _ _
                 | op a Hop _ _ | op a Hop _ IHa];
    intros k; rewrite print_wrap;
    match goal with |- context [level ?e <? k] => destruct (level e <? k) end;
    try (eexists _, _; split; reflexivity).
  - cbn [print level Nat.ltb Nat.leb].
    destruct (IHl 1) as (t & ts & -> & Ht). eexists _, _. split; [reflexivity | exact Ht].
  - assert (E : print 0 (BinaryExpression op l r) =
                print (binaryLevel op) l ++ [Token OPERATOR op]
                  ++ print (S (binaryLevel op)) r).
    { cbn [print level]. reflexivity. }
    rewrite E. destruct (IHl (binaryLevel op)) as (t & ts & -> & Ht).
    eexists _, _. split; [reflexivity | exact Ht].
  - cbn [print level Nat.ltb Nat.leb].
    destruct (IHa 6) as (t & ts & -> & Ht). eexists _, _. split; [reflexivity | exact Ht].
Qed.

Lemma followsAt_stop (t : token) (rest : list token) :
  t = semicolon \/ t = comma \/ t = closeParen -> followsAt 0 (t :: rest).
Proof.
  intros [-> | [-> | ->]]; (split; [reflexivity |]); intros j _;
    destruct j as [| [| [| [| [| [| [| j]]]]]]]; reflexivity.
Qed.

Section Printed.

Variable tokens : list token.

Lemma converges_printed_expression (c : nat) (e : node) (t : token)
    (rest : list token) :
  Expr e -> skipn c tokens = print 0 e ++ t :: rest ->
  t = semicolon \/ t = comma \/ t = closeParen ->
  converges (parseExpression tokens) c e (c + length (print 0 e)).
Proof.
  intros He Hs Ht. apply converges_expression.
  apply (proj1 (good_expression e He 0 (Nat.le_0_l 7)) tokens c (t :: rest) Hs).
  apply followsAt_stop. exact Ht.
Qed.

Lemma converges_optional_expression (c : nat) (e : node) (t : token)
    (rest : list token) :
  OptExpr e -> skipn c tokens = print 0 e ++ t :: rest ->
  t = semicolon \/ t = closeParen ->
  converges (parseExpression tokens) c e (c + length (print 0 e)).
Proof.
  intros [-> | He] Hs Ht.
  - change (print 0 Null) with (@nil token) in *. cbn [app length] in *.
    rewrite Nat.add_0_r. destruct (skipn_head _ _ _ _ Hs) as [Hn _].
    apply (converges_no_expression tokens c t Hn).
    destruct Ht as [-> | ->]; [apply inert_semicolon | apply inert_paren].
  - apply (converges_printed_expression c e t rest He Hs). tauto.
Qed.

(** The token after a printed part. *)
Lemma token_after (c : nat) (part : list token) (t : token) (rest : list token) :
  skipn c tokens = part ++ t :: rest ->
  nth_error tokens (c + length part) = Some t /\
  skipn (S (c + length part)) tokens = rest.
Proof.
  intros Hs. apply skipn_head. apply skipn_after. exact Hs.
Qed.

Lemma elseNext_at (c : nat) (rest : list token) :
  skipn c tokens = rest ->
  match nth_error tokens c with
  | Some t => isKeyword "else" t
  | None => false
  end = elseNext rest.
Proof.
  intros <-. rewrite nth_error_at_skipn. destruct (skipn c tokens); reflexivity.
Qed.

(** *** Declarations *)

Lemma converges_printed_declarator (e : bool) (c c2 : nat) (name : str)
    (init : node) (u : token) (tail : list token) (vs ws : list node) :
  OptExpr init -> u = comma \/ u = semicolon ->
  skipn c tokens = printDeclarator (VariableDeclarator name init) ++ u :: tail ->
  (if valueIs "," u
   then converges
          (fun n => parseDeclaration_loop tokens n e
                      (vs ++ [VariableDeclarator name init]))
          (S (c + length (printDeclarator (VariableDeclarator name init)))) ws c2
   else ws = vs ++ [VariableDeclarator name init] /\
        c2 = if (e && isSemicolon u)%bool
             then S (c + length (printDeclarator (VariableDeclarator name init)))
             else c + length (printDeclarator (VariableDeclarator name init))) ->
  converges (fun n => parseDeclaration_loop tokens n e vs) c ws c2.
Proof.
  intros Hinit Hu Hs Hnext.
  destruct Hinit as [-> | He].
  - cbn [printDeclarator app length] in *.
    destruct (skipn_head _ _ _ _ Hs) as [Ht Hs1].
    destruct (skipn_head _ _ _ _ Hs1) as [Hu' _].
    replace (c + 1) with (S c) in * by lia.
    apply (converges_declarator tokens e c (S c) c2 (Token IDENTIFIER name) u u
             Null vs ws Ht eq_refl Hu').
    + replace (valueIs "=" u) with false by (destruct Hu as [-> | ->]; reflexivity).
      split; reflexivity.
    + exact Hu'.
    + exact Hnext.
  - assert (D : printDeclarator (VariableDeclarator name init) =
                Token IDENTIFIER name :: oper "=" :: print 0 init)
      by (destruct He; reflexivity).
    rewrite D in *. cbn [app length] in *.
    destruct (skipn_head _ _ _ _ Hs) as [Ht Hs1].
    destruct (skipn_head _ _ _ _ Hs1) as [Heq Hs2].
    destruct (token_after (S (S c)) _ _ _ Hs2) as [Hu' _].
    replace (c + S (S (length (print 0 init))))
      with (S (S c) + length (print 0 init)) in * by lia.
    apply (converges_declarator tokens e c (S (S c) + length (print 0 init)) c2
             (Token IDENTIFIER name) (oper "=") u init vs ws Ht eq_refl Heq).
    + change (valueIs "=" (oper "=")) with true. cbv iota.
      apply (converges_printed_expression (S (S c)) init u tail He Hs2). tauto.
    + exact Hu'.
    + exact Hnext.
Qed.

Lemma converges_printed_declarators (e : bool) (vs : list node) :
  Forall Declr vs -> vs <> [] ->
  forall acc c rest,
    skipn c tokens = separated comma (map printDeclarator vs) ++ semicolon :: rest ->
    converges (fun n => parseDeclaration_loop tokens n e acc) c (acc ++ vs)
      (c + length (separated comma (map printDeclarator vs))
         + if e then 1 else 0).
Proof.
  induction vs as [| v vs IH]; intros HF Hne acc c rest Hs; [congruence |].
  inversion HF as [| ? ? (name & init & -> & Hinit) HF']; subst.
  destruct vs as [| v' vs'].
  - cbn [map separated] in *.
    apply (converges_printed_declarator e c _ name init semicolon rest acc _
             Hinit (or_intror eq_refl) Hs).
    change (valueIs "," semicolon) with false. cbv iota. split; [reflexivity |].
    change (isSemicolon semicolon) with true. destruct e; cbn [andb]; lia.
  - change (separated comma
              (map printDeclarator (VariableDeclarator name init :: v' :: vs')))
      with (printDeclarator (VariableDeclarator name init)
              ++ comma :: separated comma (map printDeclarator (v' :: vs'))) in *.
    rewrite <- app_assoc in Hs. cbn [app] in Hs.
    apply (converges_printed_declarator e c _ name init comma _ acc _
             Hinit (or_introl eq_refl) Hs).
    change (valueIs "," comma) with true. cbv iota.
    destruct (token_after c _ _ _ Hs) as [_ Hs'].
    replace (acc ++ VariableDeclarator name init :: v' :: vs')
      with ((acc ++ [VariableDeclarator name init]) ++ v' :: vs')
      by (rewrite <- app_assoc; reflexivity).
    eapply converges_at;
      [apply (IH HF' ltac:(discriminate) _ _ rest Hs')
      | rewrite length_app; cbn [length]; lia].
Qed.

Lemma converges_printed_declaration (e : bool) (c : nat) (d : node)
    (rest : list token) :
  Decl d -> skipn c tokens = printDeclaration d ++ semicolon :: rest ->
  converges (fun n => parseDeclaration tokens n e) c d
    (c + length (printDeclaration d) + if e then 1 else 0).
Proof.
  intros (ty & vs & -> & Hty & Hne & HF) Hs. cbn [printDeclaration app length] in *.
  destruct (skipn_head _ _ _ _ Hs) as [Ht Hs1].
  eapply converges_at;
    [apply (converges_declaration tokens e c _ (Token KEYWORD ty) vs Ht);
     apply (converges_printed_declarators e vs HF Hne [] (S c) rest Hs1)
    | lia].
Qed.

End Printed.

Lemma typeName_tests (ty : str) :
  strIn ty typeNames = true ->
  isTypeSpecifier (Token KEYWORD ty) = true /\
  isKeyword "return" (Token KEYWORD ty) = false /\
  isKeyword "if" (Token KEYWORD ty) = false /\
  isKeyword "for" (Token KEYWORD ty) = false /\
  isKeyword "else" (Token KEYWORD ty) = false /\
  valueIs ")" (Token KEYWORD ty) = false /\
  valueIs "," (Token KEYWORD ty) = false.
Proof.
  intros H. apply strIn_cases in H. cbn [map typeNames] in H.
  repeat (destruct H as [<- | H]; [repeat split |]). contradiction.
Qed.

(** *** Statements *)

Lemma Stmt_induction (P : node -> Prop) :
  (forall e, OptExpr e -> P (ReturnStatement e)) ->
  (forall e, OptExpr e -> P (ExpressionStatement e)) ->
  (forall d, Decl d -> P d) ->
  (forall body, Forall Stmt body -> Forall P body -> P (CompoundStatement body)) ->
  (forall c t, OptExpr c -> Stmt t -> P t -> P (IfStatement c t Null)) ->
  (forall c t e,
     OptExpr c -> Stmt t -> P t -> openIf t = false -> Stmt e -> P e ->
     P (IfStatement c t e)) ->
  (forall i c u b,
     OptExpr i \/ Decl i -> OptExpr c -> OptExpr u -> Stmt b -> P b ->
     P (ForStatement i c u b)) ->
  forall s, Stmt s -> P s.
Proof.
  intros HR HE HD HC HI HIE HF.
  fix IH 2. intros s HS.
  destruct HS as [e He | e He | d Hd | body Hbody | c t Hc Ht | c t e Hc Ht Ho He
                 | i c u b Hi Hc Hu Hb].
  - apply HR. exact He.
  - apply HE. exact He.
  - apply HD. exact Hd.
  - apply HC; [exact Hbody |].
    revert body Hbody.
    fix IHbody 2. intros body Hbody.
    destruct Hbody as [| s body Hs Hbody]; constructor.
    + apply IH. exact Hs.
    + apply IHbody. exact Hbody.
  - apply HI; [exact Hc | exact Ht | apply IH; exact Ht].
  - apply HIE; [exact Hc | exact Ht | apply IH; exact Ht | exact Ho | exact He
               | apply IH; exact He].
  - apply HF; [exact Hi | exact Hc | exact Hu | exact Hb | apply IH; exact Hb].
Qed.

Lemma Stmt_truthy (s : node) : Stmt s -> truthy s = true.
Proof.
  destruct 1 as [| | d (ty & vs & -> & _) | | | |]; reflexivity.
Qed.

Lemma printStatement_start (s : node) :
  Stmt s ->
  exists t ts,
    printStatement s = t :: ts /\
    typeIs COMMENT t = false /\ typeIs CLOSE_BRACE t = false /\
    isKeyword "else" t = false.
Proof.
  destruct 1 as [e He | e He | d (ty & vs & -> & Hty & _) | body _ | c t _ _
                | c t e _ _ _ _ | i c u b _ _ _ _].
  - eexists _, _. cbn [printStatement]. repeat split.
  - destruct He as [-> | He].
    + eexists _, _. cbn [printStatement print]. repeat split.
    + destruct (print_start e He 0) as (t & ts & E & Ht).
      destruct (startsExpression_tests t Ht) as (H1 & _ & H3 & _ & H5).
      exists t, (ts ++ [semicolon]). cbn [printStatement]. rewrite E.
      repeat split; auto.
  - destruct (typeName_tests ty Hty) as (_ & _ & _ & _ & H5 & _).
    eexists _, _. cbn [printStatement printDeclaration app]. repeat split.
    exact H5.
  - eexists _, _. cbn [printStatement]. repeat split.
  - eexists _, _. cbn [printStatement app]. repeat split.
  - eexists _, _. cbn [printStatement app]. repeat split.
  - eexists _, _. cbn [printStatement app]. repeat split.
Qed.

Lemma elseNext_statements (body : list node) (rest : list token) :
  Forall Stmt body ->
  elseNext (flat_map printStatement body ++ closeBrace :: rest) = false.
Proof.
  intros HS. destruct HS as [| s body Hs _]; [reflexivity |].
  destruct (printStatement_start s Hs) as (t & ts & E & _ & _ & He).
  cbn [flat_map]. rewrite E. exact He.
Qed.

Lemma converges_printed_block (tokens : list token) (body : list node) :
  Forall Stmt body -> Forall ParsesBack body ->
  forall acc c rest,
    skipn c tokens = flat_map printStatement body ++ closeBrace :: rest ->
    converges (fun n => parseCompoundStatement_loop tokens n acc) c (acc ++ body)
      (c + length (flat_map printStatement body)).
Proof.
  induction body as [| s body IH]; intros HS HP acc c rest Hs.
  - cbn [flat_map app length] in *. rewrite app_nil_r, Nat.add_0_r.
    destruct (skipn_head _ _ _ _ Hs) as [Ht _].
    apply (converges_block_end tokens c closeBrace acc Ht eq_refl).
  - inversion HS as [| ? ? Hs1 HS']; inversion HP as [| ? ? Hp1 HP']; subst.
    cbn [flat_map] in *. rewrite <- app_assoc in Hs.
    destruct (printStatement_start s Hs1) as (t & ts & E & _ & Hb & _).
    assert (Ht : nth_error tokens c = Some t).
    { rewrite E in Hs. cbn [app] in Hs. apply (skipn_head _ _ _ _ Hs). }
    pose proof (skipn_after _ _ _ _ Hs) as Hs'.
    apply (converges_block_step tokens c (c + length (printStatement s)) _ t s
             acc _ Ht Hb).
    + apply (Hp1 tokens c _ Hs). intros _. apply elseNext_statements. exact HS'.
    + unfold pushNode. rewrite (Stmt_truthy s Hs1).
      replace (acc ++ s :: body) with ((acc ++ [s]) ++ body)
        by (rewrite <- app_assoc; reflexivity).
      eapply converges_at;
        [apply (IH HS' HP' _ _ rest Hs') | rewrite length_app; lia].
Qed.

(** The tests of [parseStatement] on a token that is known. *)
Ltac dispatch :=
  repeat match goal with
         | |- converges (if ?b then _ else _) _ _ _ =>
             let v := eval vm_compute in b in
             change b with v; cbv iota
         end.

Ltac cursor :=
  repeat first [rewrite length_app | progress cbn [length app]]; lia.

(** The tokens of a hypothesis, as one list. *)
Ltac flatten H :=
  repeat first [rewrite <- app_assoc in H | progress cbn [app] in H].

(** An [if] with an [else]. *)
Lemma printStatement_else (c t e : node) :
  Stmt e ->
  printStatement (IfStatement c t e) =
    [tk KEYWORD "if"; openParen] ++ print 0 c ++ [closeParen]
      ++ printStatement t ++ tk KEYWORD "else" :: printStatement e /\
  openIf (IfStatement c t e) = openIf e.
Proof.
  destruct 1 as [| | d (ty & vs & -> & _) | | | |]; split; reflexivity.
Qed.

Lemma printInitialization_expression (i : node) :
  OptExpr i -> printInitialization i = print 0 i.
Proof. intros [-> | He]; [| destruct He]; reflexivity. Qed.

Lemma optional_expression_start (e : node) (rest : list token) :
  OptExpr e ->
  exists t ts, print 0 e ++ semicolon :: rest = t :: ts /\ startsExpression t = true.
Proof.
  intros [-> | He].
  - eexists _, _. split; reflexivity.
  - destruct (print_start e He 0) as (t & ts & -> & Ht).
    eexists _, _. split; [reflexivity | exact Ht].
Qed.

Lemma statement_parses_back (s : node) : Stmt s -> ParsesBack s.
Proof.
  induction 1 as [e He | e He | d Hd | body HS IH | cnd t Hc Ht IHt
                 | cnd t e Hc Ht IHt Ho He IHe | i cnd u b Hi Hc Hu Hb IHb]
    using Stmt_induction; intros tokens c rest Hs Helse.
  - (* return *)
    cbn [printStatement] in *. flatten Hs.
    destruct (skipn_head _ _ _ _ Hs) as [Ht Hs1].
    destruct (token_after tokens (S c) _ _ _ Hs1) as [Hsemi _].
    eapply (converges_statement tokens c _ (tk KEYWORD "return") _ Ht eq_refl).
    dispatch.
    eapply converges_at;
      [eapply (converges_return tokens c _ e semicolon);
       [apply (converges_optional_expression tokens (S c) e semicolon rest He Hs1);
        tauto
       | exact Hsemi | reflexivity]
      | cursor].
  - (* expression statement *)
    cbn [printStatement] in *. flatten Hs.
    destruct (optional_expression_start e rest He) as (t & ts & E & Hstart).
    assert (Ht : nth_error tokens c = Some t).
    { rewrite E in Hs. apply (skipn_head _ _ _ _ Hs). }
    destruct (startsExpression_tests t Hstart) as (H1 & H2 & _ & H4 & H5).
    destruct (token_after tokens c _ _ _ Hs) as [Hsemi _].
    eapply (converges_statement tokens c _ t _ Ht H1).
    rewrite !H5, H4, H2.
    eapply converges_at;
      [eapply (converges_expression_statement tokens c _ e semicolon);
       [apply (converges_optional_expression tokens c e semicolon rest He Hs);
        tauto
       | exact Hsemi | reflexivity]
      | cursor].
  - (* declaration *)
    pose proof Hd as (ty & vs & -> & Hty & Hne & HF).
    assert (E : printStatement (DeclarationStatement ty vs) =
                printDeclaration (DeclarationStatement ty vs) ++ [semicolon])
      by reflexivity.
    rewrite E in *. rewrite <- app_assoc in Hs. cbn [app] in Hs.
    assert (Ht : nth_error tokens c = Some (Token KEYWORD ty)).
    { cbn [printDeclaration app] in Hs. apply (skipn_head _ _ _ _ Hs). }
    destruct (typeName_tests ty Hty) as (T1 & T2 & T3 & T4 & _).
    eapply (converges_statement tokens c _ (Token KEYWORD ty) _ Ht eq_refl).
    rewrite T2, T3, T4, T1.
    eapply converges_at;
      [apply (converges_printed_declaration tokens true c _ rest Hd Hs)
      | rewrite length_app; cbn [length]; lia].
  - (* compound statement *)
    cbn [printStatement] in *. flatten Hs.
    destruct (skipn_head _ _ _ _ Hs) as [Ht Hs1].
    destruct (token_after tokens (S c) _ _ _ Hs1) as [Hclose _].
    eapply (converges_statement tokens c _ openBrace _ Ht eq_refl).
    dispatch.
    eapply converges_at;
      [eapply (converges_compound tokens c _ openBrace closeBrace body Ht eq_refl);
       [apply (converges_printed_block tokens body HS IH [] (S c) rest Hs1)
       | exact Hclose | reflexivity]
      | cursor].
  - (* if without else *)
    cbn [printStatement] in *. rewrite app_nil_r in *.
    flatten Hs.
    destruct (skipn_head _ _ _ _ Hs) as [Hif Hs1].
    destruct (skipn_head _ _ _ _ Hs1) as [Hopen Hs2].
    destruct (token_after tokens (S (S c)) _ _ _ Hs2) as [Hclose Hs3].
    pose proof (skipn_after _ _ _ _ Hs3) as Hs4.
    eapply (converges_statement tokens c _ (tk KEYWORD "if") _ Hif eq_refl).
    dispatch.
    eapply converges_at;
      [eapply (converges_if tokens c _ _ _ openParen closeParen cnd t Null
                Hopen eq_refl
                (converges_optional_expression tokens (S (S c)) cnd closeParen _
                   Hc Hs2 (or_intror eq_refl))
                Hclose eq_refl
                (IHt tokens _ rest Hs3 (fun _ => Helse eq_refl)));
       rewrite (elseNext_at tokens _ rest Hs4), (Helse eq_refl);
       split; reflexivity
      | cursor].
  - (* if with else *)
    destruct (printStatement_else cnd t e He) as [E Eopen].
    rewrite E in *. rewrite Eopen in Helse.
    flatten Hs.
    destruct (skipn_head _ _ _ _ Hs) as [Hif Hs1].
    destruct (skipn_head _ _ _ _ Hs1) as [Hopen Hs2].
    destruct (token_after tokens (S (S c)) _ _ _ Hs2) as [Hclose Hs3].
    pose proof (skipn_after _ _ _ _ Hs3) as Hs4.
    destruct (skipn_head _ _ _ _ Hs4) as [_ Hs5].
    eapply (converges_statement tokens c _ (tk KEYWORD "if") _ Hif eq_refl).
    dispatch.
    eapply converges_at;
      [eapply (converges_if tokens c _ _ _ openParen closeParen cnd t e
                Hopen eq_refl
                (converges_optional_expression tokens (S (S c)) cnd closeParen _
                   Hc Hs2 (or_intror eq_refl))
                Hclose eq_refl
                (IHt tokens _ _ Hs3 ltac:(congruence)));
       rewrite (elseNext_at tokens _ _ Hs4); cbn [elseNext];
       change (isKeyword "else" (tk KEYWORD "else")) with true; cbv iota;
       apply (IHe tokens _ rest Hs5 Helse)
      | cursor].
  - (* for *)
    cbn [printStatement] in *.
    flatten Hs.
    destruct (skipn_head _ _ _ _ Hs) as [Hfor Hs1].
    destruct (skipn_head _ _ _ _ Hs1) as [Hopen Hs2].
    destruct (token_after tokens (S (S c)) _ _ _ Hs2) as [Hsemi1 Hs3].
    destruct (token_after tokens _ _ _ _ Hs3) as [Hsemi2 Hs4].
    destruct (token_after tokens _ _ _ _ Hs4) as [Hclose Hs5].
    eapply (converges_statement tokens c _ (tk KEYWORD "for") _ Hfor eq_refl).
    dispatch.
    assert (Hinit :
      if match nth_error tokens (S (S c)) with
         | Some t => isTypeSpecifier t
         | None => false
         end
      then converges (fun n => parseDeclaration tokens n false) (S (S c)) i
             (S (S c) + length (printInitialization i))
      else converges (parseExpression tokens) (S (S c)) i
             (S (S c) + length (printInitialization i))).
    { destruct Hi as [Hi | Hi].
      - rewrite (printInitialization_expression i Hi) in *.
        destruct (optional_expression_start i
                    (print 0 cnd ++ semicolon :: print 0 u ++ closeParen
                       :: printStatement b ++ rest) Hi) as (t & ts & E & Hstart).
        assert (Ht : nth_error tokens (S (S c)) = Some t).
        { rewrite E in Hs2. apply (skipn_head _ _ _ _ Hs2). }
        destruct (startsExpression_tests t Hstart) as (_ & _ & _ & H4 & _).
        rewrite Ht, H4.
        apply (converges_optional_expression tokens (S (S c)) i semicolon _ Hi Hs2).
        tauto.
      - pose proof Hi as (ty & vs & -> & Hty & Hne & HF).
        assert (Ht : nth_error tokens (S (S c)) = Some (Token KEYWORD ty)).
        { cbn [printInitialization printDeclaration app] in Hs2.
          apply (skipn_head _ _ _ _ Hs2). }
        destruct (typeName_tests ty Hty) as (T1 & _).
        rewrite Ht, T1.
        eapply converges_at;
          [apply (converges_printed_declaration tokens false (S (S c)) _ _ Hi Hs2)
          | cbn [printInitialization]; lia]. }
    eapply converges_at;
      [eapply (converges_for tokens c _ _ _ _ openParen semicolon semicolon
                closeParen i cnd u b Hopen eq_refl Hinit Hsemi1 eq_refl
                (converges_optional_expression tokens _ cnd semicolon _ Hc Hs3
                   (or_introl eq_refl))
                Hsemi2 eq_refl
                (converges_optional_expression tokens _ u closeParen _ Hu Hs4
                   (or_intror eq_refl))
                Hclose eq_refl
                (IHb tokens _ rest Hs5 Helse))
      | cursor].
Qed.

(** *** Programs *)

Lemma converges_printed_parameters (tokens : list token) (ps : list node) :
  Forall Param ps ->
  forall acc c rest,
    skipn c tokens = separated comma (map printParameter ps) ++ closeParen :: rest ->
    converges (fun n => parseFunctionDefinition_params tokens n acc) c (acc ++ ps)
      (c + length (separated comma (map printParameter ps))).
Proof.
  induction ps as [| p ps IH]; intros HF acc c rest Hs.
  - cbn [map separated app length] in *. rewrite app_nil_r, Nat.add_0_r.
    destruct (skipn_head _ _ _ _ Hs) as [Ht _].
    apply (converges_parameters_end tokens c closeParen acc Ht eq_refl).
  - inversion HF as [| ? ? (ty & nm & -> & Hty) HF']; subst.
    destruct (typeName_tests ty Hty) as (T1 & _ & _ & _ & _ & T6 & T7).
    replace (acc ++ ParameterNode ty nm :: ps)
      with ((acc ++ [ParameterNode ty nm]) ++ ps)
      by (rewrite <- app_assoc; reflexivity).
    destruct ps as [| p' ps'].
    + cbn [map separated printParameter] in *. flatten Hs.
      destruct (skipn_head _ _ _ _ Hs) as [Ht Hs1].
      destruct (skipn_head _ _ _ _ Hs1) as [Hn Hs2].
      apply (converges_parameter tokens c _ (Token KEYWORD ty)
               (Token IDENTIFIER nm) acc _ Ht T6 T7 T1 Hn).
      eapply converges_at; [apply (IH HF' _ (S (S c)) rest Hs2) | cursor].
    + change (separated comma (map printParameter (ParameterNode ty nm :: p' :: ps')))
        with ([Token KEYWORD ty; Token IDENTIFIER nm]
                ++ comma :: separated comma (map printParameter (p' :: ps'))) in *.
      flatten Hs.
      destruct (skipn_head _ _ _ _ Hs) as [Ht Hs1].
      destruct (skipn_head _ _ _ _ Hs1) as [Hn Hs2].
      destruct (skipn_head _ _ _ _ Hs2) as [Hcomma Hs3].
      apply (converges_parameter tokens c _ (Token KEYWORD ty)
               (Token IDENTIFIER nm) acc _ Ht T6 T7 T1 Hn).
      apply (converges_parameters_comma tokens (S (S c)) _ comma _ _ Hcomma
               eq_refl eq_refl).
      eapply converges_at; [apply (IH HF' _ (S (S (S c))) rest Hs3) | cursor].
Qed.

Lemma converges_printed_function (tokens : list token) (c : nat) (f : node)
    (rest : list token) :
  Top f -> (forall v, f <> PreprocessorDirective v) ->
  skipn c tokens = printTop f ++ rest ->
  converges (parseFunctionDefinition tokens) c f (c + length (printTop f)).
Proof.
  intros [v _ | rt name ps body Hrt Hps Hbody] Hf Hs; [destruct (Hf v eq_refl) |].
  cbn [printTop printStatement] in *. flatten Hs.
  destruct (skipn_head _ _ _ _ Hs) as [Ht Hs1].
  destruct (skipn_head _ _ _ _ Hs1) as [Hn Hs2].
  destruct (skipn_head _ _ _ _ Hs2) as [Hopen Hs3].
  destruct (token_after tokens (S (S (S c))) _ _ _ Hs3) as [Hclose Hs4].
  destruct (skipn_head _ _ _ _ Hs4) as [Hbrace Hs5].
  destruct (token_after tokens _ _ _ _ Hs5) as [Hend _].
  assert (HP : Forall ParsesBack body).
  { apply Forall_forall. intros s Hin. apply statement_parses_back.
    rewrite Forall_forall in Hbody. apply Hbody. exact Hin. }
  eapply converges_at;
    [eapply (converges_function tokens c _ _ (Token KEYWORD rt)
               (Token IDENTIFIER name) openParen closeParen openBrace ps _
               Ht Hn eq_refl Hopen eq_refl
               (converges_printed_parameters tokens ps Hps [] _ _ Hs3)
               Hclose Hbrace eq_refl);
     eapply (converges_compound tokens _ _ openBrace closeBrace body Hbrace eq_refl);
     [apply (converges_printed_block tokens body Hbody HP [] _ _ Hs5)
     | exact Hend | reflexivity]
    | cursor].
Qed.

Lemma converges_printed_program (tokens : list token) (tops : list node) :
  Forall Top tops ->
  forall acc c,
    skipn c tokens = flat_map printTop tops ->
    converges (fun n => parseProgram_loop tokens n acc) c (Program (acc ++ tops))
      (c + length (flat_map printTop tops)).
Proof.
  induction tops as [| top tops IH]; intros HT acc c Hs.
  - cbn [flat_map length] in *. rewrite app_nil_r, Nat.add_0_r.
    apply converges_program_end. rewrite nth_error_at_skipn, Hs. reflexivity.
  - inversion HT as [| ? ? Htop HT']; subst. cbn [flat_map] in *.
    replace (acc ++ top :: tops) with ((acc ++ [top]) ++ tops)
      by (rewrite <- app_assoc; reflexivity).
    pose proof (skipn_after _ _ _ _ Hs) as Hs'.
    destruct Htop as [v Hv | rt name ps body Hrt Hps Hbody].
    + cbn [printTop app] in Hs. destruct (skipn_head _ _ _ _ Hs) as [Ht _].
      cbn [printTop length] in Hs'. rewrite Nat.add_1_r in Hs'.
      apply (converges_program_directive tokens c _ (Token PREPROCESSOR v) acc _
               Ht eq_refl).
      cbn [value]. rewrite Hv.
      eapply converges_at; [apply (IH HT' _ _ Hs') | cbn [printTop]; cursor].
    + assert (Ht : nth_error tokens c = Some (Token KEYWORD rt)).
      { cbn [printTop app] in Hs. apply (skipn_head _ _ _ _ Hs). }
      destruct (typeName_tests rt Hrt) as (T1 & _).
      apply (converges_program_function tokens c
               (c + length (printTop
                              (FunctionDeclaration rt name ps (CompoundStatement body))))
               _ (Token KEYWORD rt) acc
               (FunctionDeclaration rt name ps (CompoundStatement body)) _ Ht T1).
      * apply (converges_printed_function tokens c _ _
                 (Top_Function rt name ps body Hrt Hps Hbody)
                 ltac:(discriminate) Hs).
      * cbn [pushNode truthy].
        eapply converges_at; [apply (IH HT' _ _ Hs') | cursor].
Qed.

(** X17. A statement of the grammar, printed, is parsed back to itself
    wherever its tokens stand: [parseStatement], started on the first of
    them, returns the statement and leaves the cursor after the last.
    An [else] is taken by the nearest [if]: after a statement that ends
    with an [if] without [else], no [else] may follow. *)
Theorem statement_round_trip (s : node) (tokens : list token) (c : nat)
    (rest : list token) :
  Stmt s ->
  skipn c tokens = printStatement s ++ rest ->
  (openIf s = true -> elseNext rest = false) ->
  converges (parseStatement tokens) c s (c + length (printStatement s)).
Proof.
  intros HS Hs Helse. exact (statement_parses_back s HS tokens c rest Hs Helse).
Qed.

Lemma statement_round_trip_nearest_if :
  let s := IfStatement (Id "a")
             (IfStatement (Id "b") (ReturnStatement (Lit "1"))
                (ReturnStatement (Lit "2")))
             Null in
  let tokens := [tk KEYWORD "if"; openParen; ident "a"; closeParen;
                 tk KEYWORD "if"; openParen; ident "b"; closeParen;
                 tk KEYWORD "return"; number "1"; semicolon;
                 tk KEYWORD "else"; tk KEYWORD "return"; number "2"; semicolon;
                 closeBrace] in
  (Stmt s /\ skipn 0 tokens = printStatement s ++ [closeBrace] /\
   (openIf s = true -> elseNext [closeBrace] = false)) /\
  converges (parseStatement tokens) 0 s (0 + length (printStatement s)).
Proof.
  intros s tokens.
  assert (Ha : OptExpr (Id "a")) by (right; constructor; reflexivity).
  assert (Hb : OptExpr (Id "b")) by (right; constructor; reflexivity).
  assert (H1 : Stmt (ReturnStatement (Lit "1")))
    by (apply Stmt_Return; right; constructor; reflexivity).
  assert (H2 : Stmt (ReturnStatement (Lit "2")))
    by (apply Stmt_Return; right; constructor; reflexivity).
  assert (HS : Stmt s).
  { apply Stmt_If; [exact Ha |].
    apply Stmt_IfElse; [exact Hb | exact H1 | reflexivity | exact H2]. }
  assert (Hs : skipn 0 tokens = printStatement s ++ [closeBrace]) by reflexivity.
  assert (He : openIf s = true -> elseNext [closeBrace] = false)
    by (intros _; reflexivity).
  split; [split; [exact HS | split; [exact Hs | exact He]] |].
  exact (statement_round_trip s tokens 0 [closeBrace] HS Hs He).
Defined.

(** X18. A program of preprocessor directives and function definitions,
    printed, is parsed back to itself, and the cursor ends at the token
    count. *)
Theorem program_round_trip (tops : list node) :
  Forall Top tops ->
  exists N, forall extra current,
    parse (N + extra) (flat_map printTop tops) current =
    Done (Program tops) (length (flat_map printTop tops)).
Proof.
  intros HT.
  destruct (converges_printed_program (flat_map printTop tops) tops HT [] 0 eq_refl)
    as (N & H).
  exists N. intros extra current. unfold parse, parseProgram, bind, setCurrent.
  apply H. lia.
Qed.

Lemma program_round_trip_sum :
  let body := [DeclarationStatement (lit "int")
                 [VariableDeclarator (lit "s") (Lit "0");
                  VariableDeclarator (lit "i") Null];
               ForStatement (Assign (Id "i") (Lit "0"))
                 (Bin "<" (Id "i") (Id "n")) (Post "++" (Id "i"))
                 (CompoundStatement
                    [ExpressionStatement
                       (Assign (Id "s") (Bin "+" (Id "s") (Id "i")))]);
               ReturnStatement (Id "s")] in
  let tops := [PreprocessorDirective (lit "#include <stdio.h>");
               FunctionDeclaration (lit "int") (lit "sum")
                 [ParameterNode (lit "int") (lit "n")] (CompoundStatement body)] in
  Forall Top tops /\
  exists N, forall extra current,
    parse (N + extra) (flat_map printTop tops) current =
    Done (Program tops) (length (flat_map printTop tops)).
Proof.
  intros body tops.
  assert (Hid : forall x, strIn (lit x) ["++"; "--"]%string = false ->
                          Expr (Id x)) by (intros x H; constructor; exact H).
  assert (Hlit : forall x, strIn (lit x) ["++"; "--"]%string = false ->
                           Expr (Lit x)) by (intros x H; constructor; exact H).
  assert (H0 : Expr (Lit "0")) by (apply Hlit; reflexivity).
  assert (Hi : Expr (Id "i")) by (apply Hid; reflexivity).
  assert (Hn : Expr (Id "n")) by (apply Hid; reflexivity).
  assert (Hs : Expr (Id "s")) by (apply Hid; reflexivity).
  assert (Hbody : Forall Stmt body).
  { repeat apply Forall_cons; [| | | apply Forall_nil].
    - apply Stmt_Declaration. eexists _, _.
      split; [reflexivity |]. split; [reflexivity |]. split; [discriminate |].
      repeat apply Forall_cons; [| | apply Forall_nil].
      + eexists _, _. split; [reflexivity | right; exact H0].
      + eexists _, _. split; [reflexivity | left; reflexivity].
    - apply Stmt_For.
      + left. right. apply Expr_Assignment; assumption.
      + right. apply Expr_Binary; [vm_compute; lia | assumption..].
      + right. apply Expr_Postfix; [reflexivity | assumption].
      + apply Stmt_Compound. repeat apply Forall_cons; [| apply Forall_nil].
        apply Stmt_Expression. right. apply Expr_Assignment; [assumption |].
        apply Expr_Binary; [vm_compute; lia | assumption..].
    - apply Stmt_Return. right. exact Hs. }
  assert (HT : Forall Top tops).
  { repeat apply Forall_cons; [| | apply Forall_nil].
    - apply Top_Directive. reflexivity.
    - apply Top_Function; [reflexivity | | exact Hbody].
      repeat apply Forall_cons; [| apply Forall_nil].
      eexists _, _. split; reflexivity. }
  split; [exact HT |].
  exact (program_round_trip tops HT).
Defined.

(** ** Tokens outside the function definitions *)

Lemma directives_cons (t : token) (l : list token) :
  directives (t :: l) =
  if typeIs PREPROCESSOR t
  then PreprocessorDirective (trim (value t)) :: directives l
  else directives l.
Proof.
  unfold directives. cbn [filter]. destruct (typeIs PREPROCESSOR t); reflexivity.
Qed.

Lemma parseProgram_loop_directives (tokens : list token) :
  forall l acc c n,
    skipn c tokens = l ->
    (forall t, In t l -> isTypeSpecifier t = false) ->
    length l < n ->
    parseProgram_loop tokens n acc c =
    Done (Program (acc ++ directives l)) (c + length l).
Proof.
  induction l as [| t l IH]; intros acc c [| n] Hs Hty Hn;
    try (cbn [length] in Hn; lia).
  - cbn [parseProgram_loop]. rewrite run_peek, nth_error_at_skipn, Hs.
    cbn [hd_error length]. unfold directives. cbn [filter map].
    rewrite app_nil_r, Nat.add_0_r. reflexivity.
  - destruct (skipn_head _ _ _ _ Hs) as [Ht Hs'].
    assert (Hty' : forall u, In u l -> isTypeSpecifier u = false)
      by (intros u Hu; apply Hty; right; exact Hu).
    assert (Hn' : length l < n) by (cbn [length] in Hn; lia).
    cbn [parseProgram_loop]. rewrite run_peek, Ht. cbv iota.
    rewrite directives_cons. cbn [length].
    destruct (typeIs COMMENT t) eqn:Ec.
    + assert (Ep : typeIs PREPROCESSOR t = false).
      { unfold typeIs in *. destruct (type t); try discriminate Ec; reflexivity. }
      rewrite Ep, run_advance, (IH acc (S c) n Hs' Hty' Hn').
      f_equal. lia.
    + destruct (typeIs PREPROCESSOR t) eqn:Ep.
      * rewrite run_advance, (IH _ (S c) n Hs' Hty' Hn'), <- app_assoc.
        f_equal. lia.
      * rewrite (Hty t (or_introl eq_refl)), run_advance,
          (IH acc (S c) n Hs' Hty' Hn').
        f_equal. lia.
Qed.

(** X19. On tokens without the keyword of a type, [parse] returns the
    program of the preprocessor directives, in order, and nothing else:
    every other token is passed over. One more unit of fuel than there
    are tokens is enough, and the cursor ends at the token count. *)
Theorem tokens_outside_functions (tokens : list token) :
  (forall t, In t tokens -> isTypeSpecifier t = false) ->
  forall extra current,
    parse (S (length tokens) + extra) tokens current =
    Done (Program (directives tokens)) (length tokens).
Proof.
  intros Hty extra current. unfold parse, parseProgram, bind, setCurrent.
  apply (parseProgram_loop_directives tokens tokens [] 0); [reflexivity | exact Hty | lia].
Qed.

Lemma tokens_outside_functions_expression :
  (forall t, In t (tk PREPROCESSOR "#define N 3" :: tokens_1_plus_2_times_3) ->
             isTypeSpecifier t = false) /\
  forall extra current,
    parse (S (length (tk PREPROCESSOR "#define N 3" :: tokens_1_plus_2_times_3))
             + extra)
          (tk PREPROCESSOR "#define N 3" :: tokens_1_plus_2_times_3) current =
    Done (Program
            (directives (tk PREPROCESSOR "#define N 3" :: tokens_1_plus_2_times_3)))
         (length (tk PREPROCESSOR "#define N 3" :: tokens_1_plus_2_times_3)).
Proof.
  assert (H : forall t,
            In t (tk PREPROCESSOR "#define N 3" :: tokens_1_plus_2_times_3) ->
            isTypeSpecifier t = false).
  { intros t Hin. cbn [In tokens_1_plus_2_times_3] in Hin.
    repeat (destruct Hin as [<- | Hin]; [reflexivity |]). contradiction. }
  split; [exact H |].
  exact (tokens_outside_functions _ H).
Defined.

(** ** Calls *)

Section Calls.

Variable tokens : list token.

(** The argument loop of [parsePrimary], at the closing parenthesis and
    at an argument. *)
Lemma converges_arguments_end (c : nat) (t : token) (args : list node) :
  nth_error tokens c = Some t -> typeIs CLOSE_PAREN t = true ->
  converges (fun n => parsePrimary_args tokens n args) c args c.
Proof.
  intros Ht Hclose. exists 1. intros [| n] Hn; [lia |].
  cbn [parsePrimary_args]. simulate.
Qed.

Lemma converges_argument (c c1 c2 : nat) (t : token) (arg : node)
    (args args' : list node) :
  nth_error tokens c = Some t -> typeIs CLOSE_PAREN t = false ->
  converges (parseExpression tokens) c arg c1 ->
  converges (fun n => parsePrimary_args tokens n (pushNode args arg))
    (if match nth_error tokens c1 with
        | Some u => valueIs "," u
        | None => false
        end
     then S c1 else c1) args' c2 ->
  converges (fun n => parsePrimary_args tokens n args) c args' c2.
Proof.
  intros Ht Hclose (N1 & H1) (N2 & H2). exists (S (N1 + N2)).
  intros [| n] Hn; [lia |]. cbn [parsePrimary_args]. simulate.
  destruct (match nth_error tokens c1 with
            | Some u => valueIs "," u
            | None => false
            end); apply H2; lia.
Qed.

Lemma converges_call (c c1 : nat) (t p q : token) (args : list node) :
  nth_error tokens c = Some t -> typeIs IDENTIFIER t = true ->
  nth_error tokens (S c) = Some p -> typeIs OPEN_PAREN p = true ->
  converges (fun n => parsePrimary_args tokens n []) (S (S c)) args c1 ->
  nth_error tokens c1 = Some q -> typeIs CLOSE_PAREN q = true ->
  converges (parsePrimary tokens) c (FunctionCall (value t) args) (S c1).
Proof.
  intros Ht Hid Hp Hopen (N1 & H1) Hq Hclose. exists (S N1).
  intros [| n] Hn; [lia |].
  assert (H0 : (isSemicolon t || typeIs CLOSE_PAREN t)%bool = false).
  { unfold isSemicolon, typeIs in *. destruct (type t); try discriminate Hid.
    reflexivity. }
  assert (H2 : (typeIs NUMBER t || typeIs STRING_LITERAL t)%bool = false).
  { unfold typeIs in *. destruct (type t); try discriminate Hid. reflexivity. }
  cbn [parsePrimary]. rewrite run_peek, Ht. cbv iota. rewrite H0, H2, Hid.
  simulate.
Qed.

Lemma converges_printed_arguments (args : list node) :
  Forall Expr args ->
  forall acc c rest,
    skipn c tokens = printArguments args ++ closeParen :: rest ->
    converges (fun n => parsePrimary_args tokens n acc) c (acc ++ args)
      (c + length (printArguments args)).
Proof.
  unfold printArguments.
  induction args as [| a args IH]; intros HF acc c rest Hs.
  - cbn [map separated app length] in *. rewrite app_nil_r, Nat.add_0_r.
    destruct (skipn_head _ _ _ _ Hs) as [Ht _].
    apply (converges_arguments_end c closeParen acc Ht eq_refl).
  - inversion HF as [| ? ? Ha HF']; subst.
    destruct (print_start a Ha 0) as (t & ts & E & Hstart).
    assert (Hclose : typeIs CLOSE_PAREN t = false).
    { unfold startsExpression, typeIs in *.
      destruct (type t); try discriminate Hstart; reflexivity. }
    assert (Hpush : pushNode acc a = acc ++ [a]) by (destruct Ha; reflexivity).
    replace (acc ++ a :: args) with ((acc ++ [a]) ++ args)
      by (rewrite <- app_assoc; reflexivity).
    destruct args as [| a' args'].
    + cbn [map separated] in *.
      assert (Ht : nth_error tokens c = Some t).
      { rewrite E in Hs. apply (skipn_head _ _ _ _ Hs). }
      destruct (token_after tokens c _ _ _ Hs) as [Hnext _].
      pose proof (skipn_after _ _ _ _ Hs) as Hs'.
      apply (converges_argument c (c + length (print 0 a)) _ t a acc _ Ht Hclose
               (converges_printed_expression tokens c a closeParen rest Ha Hs
                  (or_intror (or_intror eq_refl)))).
      rewrite Hnext, Hpush. change (valueIs "," closeParen) with false. cbv iota.
      eapply converges_at; [apply (IH HF' _ _ rest Hs') | cursor].
    + change (separated comma (map (print 0) (a :: a' :: args')))
        with (print 0 a ++ comma :: separated comma (map (print 0) (a' :: args')))
        in *.
      flatten Hs.
      assert (Ht : nth_error tokens c = Some t).
      { rewrite E in Hs. apply (skipn_head _ _ _ _ Hs). }
      destruct (token_after tokens c _ _ _ Hs) as [Hnext Hs'].
      apply (converges_argument c (c + length (print 0 a)) _ t a acc _ Ht Hclose
               (converges_printed_expression tokens c a comma _ Ha Hs
                  (or_intror (or_introl eq_refl)))).
      rewrite Hnext, Hpush. change (valueIs "," comma) with true. cbv iota.
      eapply converges_at; [apply (IH HF' _ _ rest Hs') | cursor].
Qed.

End Calls.

(** X20. A call whose arguments are expressions of operators and
    operands, printed with commas between them, is parsed back:
    [parsePrimary], started on the name, returns the call with the
    arguments in order and leaves the cursor after the closing
    parenthesis. *)
Theorem call_round_trip (tokens : list token) (c : nat) (name : str)
    (args : list node) (rest : list token) :
  Forall Expr args ->
  skipn c tokens =
    Token IDENTIFIER name :: openParen :: printArguments args ++ closeParen :: rest ->
  converges (parsePrimary tokens) c (FunctionCall name args)
    (c + length (printArguments args) + 3).
Proof.
  intros HF Hs.
  destruct (skipn_head _ _ _ _ Hs) as [Ht Hs1].
  destruct (skipn_head _ _ _ _ Hs1) as [Hopen Hs2].
  destruct (token_after tokens (S (S c)) _ _ _ Hs2) as [Hclose _].
  eapply converges_at;
    [apply (converges_call tokens c _ (Token IDENTIFIER name) openParen closeParen
              args Ht eq_refl Hopen eq_refl
              (converges_printed_arguments tokens args HF [] _ rest Hs2)
              Hclose eq_refl)
    | lia].
Qed.

Lemma call_round_trip_max :
  let args := [Bin "+" (Id "a") (Lit "1"); Id "b"] in
  let tokens := [ident "max"; openParen; ident "a"; oper "+"; number "1"; comma;
                 ident "b"; closeParen; semicolon] in
  (Forall Expr args /\
   skipn 0 tokens =
     Token IDENTIFIER (lit "max") :: openParen
       :: printArguments args ++ closeParen :: [semicolon]) /\
  converges (parsePrimary tokens) 0 (FunctionCall (lit "max") args)
    (0 + length (printArguments args) + 3).
Proof.
  intros args tokens.
  assert (HF : Forall Expr args).
  { repeat apply Forall_cons; [| | apply Forall_nil].
    - apply Expr_Binary; [vm_compute; lia | |]; constructor; reflexivity.
    - constructor; reflexivity. }
  assert (Hs : skipn 0 tokens =
               Token IDENTIFIER (lit "max") :: openParen
                 :: printArguments args ++ closeParen :: [semicolon])
    by reflexivity.
  split; [split; [exact HF | exact Hs] |].
  exact (call_round_trip tokens 0 (lit "max") args [semicolon] HF Hs).
Defined.

(** * Directives, strings and comments among the tokens *)

Lemma trimStart_again (s : str) : trimStart (trimStart s) = trimStart s.
Proof.
  induction s as [| c s IH]; [reflexivity |].
  cbn [trimStart]. destruct (isSpace c) eqn:E; [exact IH |].
  cbn [trimStart]. rewrite E. reflexivity.
Qed.

Lemma trimStart_head (s : str) :
  trimStart s = [] \/ exists c rest, trimStart s = c :: rest /\ isSpace c = false.
Proof.
  induction s as [| c s IH]; [left; reflexivity |].
  cbn [trimStart]. destruct (isSpace c) eqn:E; [exact IH |].
  right. exists c, s. split; [reflexivity | exact E].
Qed.

Lemma trim_again (s : str) : trim (trim s) = trim s.
Proof.
  unfold trim.
  assert (Hstart : trimStart (trimEnd (trimStart s)) = trimEnd (trimStart s)).
  { destruct (trimStart_head s) as [-> | (c & rest & -> & Hc)]; [reflexivity |].
    unfold trimEnd. cbn [rev].
    destruct (trimStart_keeps_last (rev rest) c Hc) as (s' & ->).
    rewrite rev_app_distr. cbn [rev app trimStart]. rewrite Hc. reflexivity. }
  rewrite Hstart. unfold trimEnd. rewrite rev_involutive, trimStart_again.
  reflexivity.
Qed.

(** X21. Among the tokens of [tokenize]: the value of a preprocessor token
    starts with [#] and has no white space at its ends, so that the
    trimming [parseProgram] does on it changes nothing; the value of a
    string token starts and ends with a double quote; a comment token is
    a line comment, starting with [//], or a block comment from [/*] to
    [*/]. *)
Theorem delimited_tokens (source : str) (tokens : list token) (t : token) :
  tokenize source = Some tokens -> In t tokens ->
  (type t = PREPROCESSOR ->
   (exists rest, value t = ch "#" :: rest) /\ trim (value t) = value t) /\
  (type t = STRING_LITERAL -> exists body, value t = quote :: body ++ [quote]) /\
  (type t = COMMENT ->
   (exists rest, value t = ch "/" :: ch "/" :: rest) \/ isBlockComment (value t)).
Proof.
  intros Ht Hin. apply tokenize_lexed in Ht.
  rewrite Forall_forall in Ht. specialize (Ht t Hin).
  destruct Ht as [m Hm | line Hh | line t' Hs].
  - (split; [| split]); intros E; try discriminate E. right. exact Hm.
  - (split; [| split]); intros E; try discriminate E.
    split; [exact (hashLine_trim line Hh) | apply trim_again].
  - destruct Hs as [i H1 H2 | i idx m E | | i c Hc Hop | ty c Hp | w Hne Hw
                   | c Hsp Hw Hop Hp Hq];
      try ((split; [| split]); intros E'; discriminate E').
    + (split; [| split]); intros E; try discriminate E. left.
      exists (skipn (S (S i)) line). cbn [value]. unfold sliceFrom.
      rewrite (skipn_cons_nth _ _ _ H1), (skipn_cons_nth _ _ _ H2). reflexivity.
    + (split; [| split]); intros E'; try discriminate E'.
      destruct (exec_STRING_LITERAL _ _ _ E) as (body & rest & -> & _).
      exists body. reflexivity.
    + destruct (punctuation_types c ty Hp)
        as [[-> _] | [[-> _] | [[-> _] | [[-> _] | [-> _]]]]];
        (split; [| split]); intros E; discriminate E.
    + destruct (classifyLexeme_word_type w Hw Hne)
        as [[E _] | [[E _] | [[E _] | [E _]]]];
        rewrite E; (split; [| split]); intros E'; discriminate E'.
Qed.

Lemma delimited_tokens_include :
  (tokenize (lit "  #include <stdio.h>  ") =
     Some [tk PREPROCESSOR "#include <stdio.h>"] /\
   In (tk PREPROCESSOR "#include <stdio.h>") [tk PREPROCESSOR "#include <stdio.h>"]) /\
  (type (tk PREPROCESSOR "#include <stdio.h>") = PREPROCESSOR ->
   (exists rest, value (tk PREPROCESSOR "#include <stdio.h>") = ch "#" :: rest) /\
   trim (value (tk PREPROCESSOR "#include <stdio.h>")) =
     value (tk PREPROCESSOR "#include <stdio.h>")).
Proof.
  assert (H1 : tokenize (lit "  #include <stdio.h>  ") =
               Some [tk PREPROCESSOR "#include <stdio.h>"]) by reflexivity.
  assert (H2 : In (tk PREPROCESSOR "#include <stdio.h>")
                  [tk PREPROCESSOR "#include <stdio.h>"]) by (left; reflexivity).
  split; [split; assumption |].
  exact (proj1 (delimited_tokens _ _ _ H1 H2)).
Defined.
